(** * A shallow embedding of the terminal rendering core of trex (src/tui.c)

    The rendering engine keeps a logical grid and a snapshot of what the
    terminal is believed to show, tracks dirty regions at two tile
    granularities, allocates colour pairs lazily, caches rendition
    sequences, and batches its output through a scatter-gather buffer.

    Conventions of the embedding:
    - C [int], [short], [ssize_t] and [size_t] values are integers in [Z];
      the quantities modelled here stay far inside their C ranges, and the
      places where a C conversion matters (the 8-bit packing of colours,
      the 32-bit FNV hash, the 64-bit bitmap words) are written out;
    - C integer division and remainder are [Z.quot] and [Z.rem];
    - global variables of tui.c become fields of explicit state records;
    - a read or write of a grid cell outside the allocated extents is
      undefined behaviour in C and is [None] in the model;
    - the engine keeps a cached escape sequence as the bytes its pointer
      refers to (module [AttrSeq]); module [SeqPtr] keeps the pointers
      and the interning pool, and tells a pointer into the pool from a
      pointer to a buffer that ends with the call that returned it. *)

From Stdlib Require Import ZArith List Bool Lia.
From Stdlib Require String Ascii.
Import ListNotations.
Open Scope Z_scope.

(** ** Helpers of the embedding *)

(** Update of an array modelled as a function of its index. *)
Definition upd {A} (f : Z -> A) (k : Z) (v : A) : Z -> A :=
  fun k' => if k' =? k then v else f k'.

(** Update of a two-dimensional array. *)
Definition upd2 {A} (f : Z -> Z -> A) (i j : Z) (v : A) : Z -> Z -> A :=
  fun i' j' => if (i' =? i) && (j' =? j) then v else f i' j'.

(** The [n] consecutive integers from [lo], the index values of a
    counting [for] loop. *)
Fixpoint zrange (lo : Z) (n : nat) : list Z :=
  match n with
  | O => []
  | S k => lo :: zrange (lo + 1) k
  end.

(** The integers from [lo] to [hi], both included. *)
Definition zrange_incl (lo hi : Z) : list Z :=
  zrange lo (Z.to_nat (hi - lo + 1)).

(** Sequencing of steps that may be undefined. *)
Definition obind {A B} (x : option A) (f : A -> option B) : option B :=
  match x with
  | Some a => f a
  | None => None
  end.

Notation "x <- e ;; k" := (obind e (fun x => k))
  (at level 61, e at next level, right associativity).
Notation "' p <- e ;; k" := (obind e (fun p => k))
  (at level 61, p pattern, e at next level, right associativity).

(** A loop body run over the index values of a loop, in order. *)
Fixpoint ofold {S A} (f : S -> A -> option S) (l : list A) (s : S)
  : option S :=
  match l with
  | [] => Some s
  | a :: tl => s' <- f s a ;; ofold f tl s'
  end.

(** ** Colour constants (trex.h) *)

Definition TUI_COLOR_BLACK : Z := 0.
Definition TUI_COLOR_RED : Z := 1.
Definition TUI_COLOR_GREEN : Z := 2.
Definition TUI_COLOR_YELLOW : Z := 3.
Definition TUI_COLOR_BLUE : Z := 4.
Definition TUI_COLOR_MAGENTA : Z := 5.
Definition TUI_COLOR_CYAN : Z := 6.
Definition TUI_COLOR_WHITE : Z := 7.

Definition TUI_A_NORMAL : Z := 0.
Definition TUI_A_BOLD : Z := 0x00200000.
Definition TUI_A_COLOR : Z := 0xFF00.

(** [TUI_COLOR_PAIRS] (tui.h). *)
Definition TUI_COLOR_PAIRS : Z := 256.

(** * Colour-pair allocator *)

Module ColorPair.

Definition COLOR_PAIR_HASH_SIZE : Z := 256.
Definition COMMON_PAIRS_CACHE_SIZE : Z := 16.

(** [color_pair_node_t]; the [next] pointer is the tail of the chain the
    node sits in. *)
Record color_pair_node_t := mk_node {
  fg_bg : Z;
  pair_num : Z;
  fg : Z;
  bg : Z
}.

(** [common_pair_t]. *)
Record common_pair_t := mk_common {
  cp_fg : Z;
  cp_bg : Z;
  cp_pair_num : Z;
  usage_count : Z
}.

(** The [color_pair_cache] global together with the legacy [color_pairs]
    array.  [table] maps a bucket to its collision chain, head first;
    [nodes] is the used prefix of the node pool, in allocation order;
    [common_pairs] holds the first [common_pairs_count] entries of the
    fixed array. *)
Record color_pair_cache_t := mk_cache {
  table : Z -> list color_pair_node_t;
  next_pair : Z;
  allocated_count : Z;
  nodes : list color_pair_node_t;
  node_count : Z;
  node_used : Z;
  cache_hits : Z;
  cache_misses : Z;
  hash_collisions : Z;
  common_pairs : list common_pair_t;
  color_pairs : Z -> Z * Z
}.

(** [pack_fg_bg]: eight bits of each colour. *)
Definition pack_fg_bg (fg bg : Z) : Z :=
  Z.lor (Z.shiftl (Z.land fg 0xFF) 8) (Z.land bg 0xFF).

(** [hash_color_pair]: FNV-1a over the two bytes of the packed key, in
    memory order (low byte first on the little-endian targets the game
    runs on), in 32-bit unsigned arithmetic. *)
Definition fnv_step (hash byte : Z) : Z :=
  ((Z.lxor hash byte) * 16777619) mod 2 ^ 32.

Definition hash_color_pair (fg_bg : Z) : Z :=
  let b0 := Z.land fg_bg 0xFF in
  let b1 := Z.land (Z.shiftr fg_bg 8) 0xFF in
  (fnv_step (fnv_step 2166136261 b0) b1) mod COLOR_PAIR_HASH_SIZE.

(** The table of [init_common_pairs_cache]. *)
Definition common_colors : list (Z * Z) :=
  [ (TUI_COLOR_WHITE, TUI_COLOR_BLACK);
    (TUI_COLOR_GREEN, TUI_COLOR_BLACK);
    (TUI_COLOR_RED, TUI_COLOR_BLACK);
    (TUI_COLOR_YELLOW, TUI_COLOR_BLACK);
    (TUI_COLOR_BLUE, TUI_COLOR_BLACK);
    (TUI_COLOR_CYAN, TUI_COLOR_BLACK);
    (TUI_COLOR_MAGENTA, TUI_COLOR_BLACK);
    (TUI_COLOR_WHITE, TUI_COLOR_RED);
    (TUI_COLOR_BLACK, TUI_COLOR_WHITE);
    (TUI_COLOR_BLACK, TUI_COLOR_GREEN) ].

(** The loop of [init_common_pairs_cache]: entry [i] gets pair number
    [i + 1]. *)
Fixpoint init_common_from (i : Z) (l : list (Z * Z)) : list common_pair_t :=
  match l with
  | [] => []
  | (f, b) :: tl => mk_common f b (i + 1) 0 :: init_common_from (i + 1) tl
  end.

Definition init_common_pairs_cache : list common_pair_t :=
  init_common_from 0 (firstn (Z.to_nat COMMON_PAIRS_CACHE_SIZE) common_colors).

(** The legacy array [color_pairs] is zero-initialised static storage;
    [tui_start_color] fills it with white on black. *)
Definition color_pairs_static : Z -> Z * Z := fun _ => (0, 0).

Definition color_pairs_default : Z -> Z * Z :=
  fun _ => (TUI_COLOR_WHITE, TUI_COLOR_BLACK).

(** [init_color_pair_cache] (with a successful [calloc] of the pool); it
    leaves the legacy array alone. *)
Definition init_color_pair_cache : color_pair_cache_t :=
  {| table := fun _ => [];
     next_pair := 1;
     allocated_count := 0;
     nodes := [];
     node_count := TUI_COLOR_PAIRS;
     node_used := 0;
     cache_hits := 0;
     cache_misses := 0;
     hash_collisions := 0;
     common_pairs := init_common_pairs_cache;
     color_pairs := color_pairs_static |}.

(** The scan of the common-pairs array: the pair number of the first
    entry that matches, and the array with that entry's usage counter
    incremented. *)
Fixpoint scan_common (l : list common_pair_t) (fg bg : Z)
  : option (Z * list common_pair_t) :=
  match l with
  | [] => None
  | e :: tl =>
      if (cp_fg e =? fg) && (cp_bg e =? bg)
      then Some (cp_pair_num e,
                 mk_common (cp_fg e) (cp_bg e) (cp_pair_num e)
                           (usage_count e + 1) :: tl)
      else match scan_common tl fg bg with
           | Some (n, tl') => Some (n, e :: tl')
           | None => None
           end
  end.

(** The walk along a collision chain: the first node whose packed key
    equals the request. *)
Fixpoint chain_find (chain : list color_pair_node_t) (key : Z)
  : option color_pair_node_t :=
  match chain with
  | [] => None
  | n :: tl => if fg_bg n =? key then Some n else chain_find tl key
  end.

Definition set_hits (c : color_pair_cache_t) (h : Z) : color_pair_cache_t :=
  mk_cache (table c) (next_pair c) (allocated_count c) (nodes c)
           (node_count c) (node_used c) h (cache_misses c)
           (hash_collisions c) (common_pairs c) (color_pairs c).

Definition set_common (c : color_pair_cache_t) (l : list common_pair_t)
  : color_pair_cache_t :=
  mk_cache (table c) (next_pair c) (allocated_count c) (nodes c)
           (node_count c) (node_used c) (cache_hits c) (cache_misses c)
           (hash_collisions c) l (color_pairs c).

(** The statistics update on a table miss: [hash_collisions] grows by the
    length of the chain walked, [cache_misses] by one. *)
Definition count_miss (c : color_pair_cache_t) (collision_count : Z)
  : color_pair_cache_t :=
  mk_cache (table c) (next_pair c) (allocated_count c) (nodes c)
           (node_count c) (node_used c) (cache_hits c) (cache_misses c + 1)
           (if 0 <? collision_count
            then hash_collisions c + collision_count
            else hash_collisions c)
           (common_pairs c) (color_pairs c).

(** [get_or_alloc_pair]: the returned identifier and the cache after the
    call. *)
Definition get_or_alloc_pair (c : color_pair_cache_t) (fg bg : Z)
  : Z * color_pair_cache_t :=
  if (fg =? TUI_COLOR_WHITE) && (bg =? TUI_COLOR_BLACK) then
    (0, set_hits c (cache_hits c + 1))
  else
    match scan_common (common_pairs c) fg bg with
    | Some (n, l) => (n, set_hits (set_common c l) (cache_hits c + 1))
    | None =>
        let key := pack_fg_bg fg bg in
        let hash := hash_color_pair key in
        match chain_find (table c hash) key with
        | Some node => (pair_num node, set_hits c (cache_hits c + 1))
        | None =>
            let c1 := count_miss c (Z.of_nat (length (table c hash))) in
            if (TUI_COLOR_PAIRS <=? next_pair c1)
               || (node_count c1 <=? node_used c1)
            then (0, c1)
            else
              let node := mk_node key (next_pair c1) fg bg in
              (pair_num node,
               mk_cache (upd (table c1) hash (node :: table c1 hash))
                        (next_pair c1 + 1)
                        (allocated_count c1 + 1)
                        (nodes c1 ++ [node])
                        (node_count c1)
                        (node_used c1 + 1)
                        (cache_hits c1) (cache_misses c1)
                        (hash_collisions c1) (common_pairs c1)
                        (if pair_num node <? TUI_COLOR_PAIRS
                         then upd (color_pairs c1) (pair_num node) (fg, bg)
                         else color_pairs c1))
        end
    end.

(** The pool is exhausted when either bound of the allocation test is
    reached. *)
Definition exhausted (c : color_pair_cache_t) : Prop :=
  TUI_COLOR_PAIRS <= next_pair c \/ node_count c <= node_used c.

(** A request is already served by the cache when it is the default
    pair, a common pair, or has a node under its packed key. *)
Definition known (c : color_pair_cache_t) (fg bg : Z) : bool :=
  ((fg =? TUI_COLOR_WHITE) && (bg =? TUI_COLOR_BLACK))
  || (match scan_common (common_pairs c) fg bg with
      | Some _ => true
      | None => false
      end)
  || (match chain_find (table c (hash_color_pair (pack_fg_bg fg bg)))
                       (pack_fg_bg fg bg) with
      | Some _ => true
      | None => false
      end).

(** The allocation state proper: everything but the statistics. *)
Definition same_allocation (c c' : color_pair_cache_t) : Prop :=
  table c' = table c /\ next_pair c' = next_pair c /\
  allocated_count c' = allocated_count c /\ nodes c' = nodes c /\
  node_count c' = node_count c /\ node_used c' = node_used c /\
  common_pairs c' = common_pairs c /\ color_pairs c' = color_pairs c.

(** The allocation of [n] fresh pairs [(i, 9)], [i] counting down. *)
Fixpoint fill (n : nat) (c : color_pair_cache_t) : color_pair_cache_t :=
  match n with
  | O => c
  | S k => fill k (snd (get_or_alloc_pair c (Z.of_nat k) 9))
  end.

(** The cache after 255 distinct allocations: the pair numbers have run
    out. *)
Definition full_cache : color_pair_cache_t := fill 255 init_color_pair_cache.

(** Membership in the pre-seeded table. *)
Definition is_common (fg bg : Z) : bool :=
  existsb (fun e => (cp_fg e =? fg) && (cp_bg e =? bg))
          (common_pairs init_color_pair_cache).

End ColorPair.

(** * Scatter-gather output buffer *)

Module Writev.

Definition MAX_IOVECS : Z := 128.
Definition WRITEV_BUFFER_SIZE : Z := 4096.
Definition VEC_FLUSH_THRESHOLD : Z := 64.
Definition WRITEV_DATA_POOL_SIZE : Z := 8192.

(** A [struct iovec] of the buffer.  Every span points into the private
    data pool, which nothing overwrites between the append and the end of
    the flush, so a span is represented by the bytes it covers:
    [iov_len] is the length of the list and advancing [iov_base] drops
    bytes from its front. *)
Definition iovec := list Z.

Definition iov_len (v : iovec) : Z := Z.of_nat (length v).

(** [writev_buffer_t]; [count] is the length of [vecs]. *)
Record writev_buffer_t := mk_buf {
  vecs : list iovec;
  total_bytes : Z;
  auto_flush_enabled : bool;
  data_pool_used : Z
}.

Definition count (b : writev_buffer_t) : Z := Z.of_nat (length (vecs b)).

(** What one call of [writev(2)] reports: a number of bytes accepted, an
    interruption ([-1] with [errno == EINTR]) or another error. *)
Inductive writev_result :=
| Written (n : Z)
| Eintr
| Failed.

(** How the loop of [tui_flush_vectored] ended. *)
Inductive flush_outcome :=
| Completed      (* the loop condition became false *)
| HardError      (* break on an unrecoverable error *)
| NoProgress.    (* break on a write of zero bytes *)

(** [adjust_iovecs_after_partial_write]: spans that were written whole
    are dropped, the span the write stopped in is advanced. *)
Fixpoint adjust_iovecs_after_partial_write (vecs : list iovec) (remaining : Z)
  : list iovec :=
  match vecs with
  | [] => []
  | v :: tl =>
      if 0 <? remaining then
        if iov_len v <=? remaining
        then adjust_iovecs_after_partial_write tl (remaining - iov_len v)
        else skipn (Z.to_nat remaining) v :: tl
      else vecs
  end.

(** The bytes a call that reports [n] has taken: the first [n] bytes of
    the spans handed to it, in order. *)
Definition accepted (vecs : list iovec) (n : Z) : list Z :=
  firstn (Z.to_nat n) (concat vecs).

(** The retry loop of [tui_flush_vectored].  [os] lists what the
    successive calls of [writev] report; [emitted] collects the bytes the
    descriptor has accepted.  The loop is still running when [os] runs
    out: [None]. *)
Fixpoint flush_loop (os : list writev_result) (current_vecs : list iovec)
  (total_bytes written_total : Z) (emitted : list Z)
  : option (flush_outcome * list Z) :=
  if (written_total <? total_bytes) && (0 <? Z.of_nat (length current_vecs))
  then
    match os with
    | [] => None
    | Eintr :: os' =>
        flush_loop os' current_vecs total_bytes written_total emitted
    | Failed :: _ => Some (HardError, emitted)
    | Written written :: os' =>
        if written =? 0 then Some (NoProgress, emitted)
        else
          flush_loop os'
            (adjust_iovecs_after_partial_write current_vecs written)
            (total_bytes - written)
            (written_total + written)
            (emitted ++ accepted current_vecs written)
    end
  else Some (Completed, emitted).

Definition reset_buffer (b : writev_buffer_t) : writev_buffer_t :=
  mk_buf [] 0 (auto_flush_enabled b) 0.

(** [tui_flush_vectored]: outcome, bytes accepted by the descriptor, and
    the buffer afterwards. *)
Definition tui_flush_vectored (os : list writev_result) (b : writev_buffer_t)
  : option (flush_outcome * list Z * writev_buffer_t) :=
  if count b =? 0 then Some (Completed, [], b)
  else
    match flush_loop os (vecs b) (total_bytes b) 0 [] with
    | Some (o, e) => Some (o, e, reset_buffer b)
    | None => None
    end.

(** The append of [tui_write_vectored], for a buffer that neither is at
    capacity nor reaches an auto-flush threshold with this chunk. *)
Definition append_span (b : writev_buffer_t) (data : list Z)
  : writev_buffer_t :=
  mk_buf (vecs b ++ [data]) (total_bytes b + iov_len data)
         (auto_flush_enabled b) (data_pool_used b + iov_len data).

(** The content a buffer holds: its spans concatenated. *)
Definition content (b : writev_buffer_t) : list Z := concat (vecs b).

Definition empty_buffer : writev_buffer_t := mk_buf [] 0 true 0.

(** [len] consecutive byte values starting at [start]. *)
Fixpoint bytes_from (start : Z) (len : nat) : list Z :=
  match len with
  | O => []
  | S k => start :: bytes_from (start + 1) k
  end.

(** Seventy pending bytes in three spans of 30, 20 and 20 bytes. *)
Definition three_spans : writev_buffer_t :=
  append_span
    (append_span (append_span empty_buffer (bytes_from 0 30))
                 (bytes_from 30 20))
    (bytes_from 50 20).

End Writev.

(** * Formatting of escape sequences *)

Module Fmt.
Import String Ascii.

(** The escape character. *)
Definition ESC : ascii := ascii_of_nat 27.

Definition digit (d : Z) : ascii := ascii_of_nat (48 + Z.to_nat d).

(** The decimal digits of a non-negative number, most significant
    first.  The fuel bounds the number of digits; twenty are more than
    any C integer has. *)
Fixpoint dec_digits (fuel : nat) (n : Z) (acc : string) : string :=
  match fuel with
  | O => acc
  | S f =>
      let acc' := String (digit (n mod 10)) acc in
      if n <? 10 then acc' else dec_digits f (n / 10) acc'
  end.

(** What [snprintf] prints for a [%d] conversion. *)
Definition fmt_d (n : Z) : string :=
  if n <? 0 then String "-"%char (dec_digits 20 (- n) EmptyString)
  else dec_digits 20 n EmptyString.

Definition esc (body : string) : string := String ESC body.

Definition slen (s : string) : Z := Z.of_nat (String.length s).

End Fmt.

(** * Rendition sequences and their cache *)

Module AttrSeq.
Import String Ascii Fmt.

Definition MAX_CUSTOM_COLORS : Z := 256.
Definition ATTR_COMBO_CACHE_SIZE : Z := 1024.

(** [color_def_t]. *)
Record color_def_t := mk_color_def { r : Z; g : Z; b : Z }.

(** The static initialiser of [color_defs]: the eight basic colours, and
    zeroes for the rest of the array. *)
Definition color_defs_init (i : Z) : color_def_t :=
  if i =? 1 then mk_color_def 1000 0 0
  else if i =? 2 then mk_color_def 0 1000 0
  else if i =? 3 then mk_color_def 1000 1000 0
  else if i =? 4 then mk_color_def 0 0 1000
  else if i =? 5 then mk_color_def 1000 0 1000
  else if i =? 6 then mk_color_def 0 1000 1000
  else if i =? 7 then mk_color_def 1000 1000 1000
  else mk_color_def 0 0 0.

(** [tui_init_color]. *)
Definition tui_init_color (defs : Z -> color_def_t) (color r g b : Z)
  : Z -> color_def_t :=
  if (0 <=? color) && (color <? MAX_CUSTOM_COLORS)
  then fun i => if i =? color then mk_color_def r g b else defs i
  else defs.

(** [get_rgb_values]: the three output parameters. *)
Definition get_rgb_values (r g b : Z) : Z * Z * Z :=
  if (255 <? r) || (255 <? g) || (255 <? b)
  then (Z.quot (r * 255) 1000, Z.quot (g * 255) 1000, Z.quot (b * 255) 1000)
  else (r, g, b).

(** The parameter string of a truecolor selection: [";38;2;R;G;B"] for
    the foreground ([sel] is 38), [";48;2;R;G;B"] for the background. *)
Definition rgb_param (sel : string) (rgb : Z * Z * Z) : string :=
  let '(r, g, b) := rgb in
  (";" ++ sel ++ ";2;" ++ fmt_d r ++ ";" ++ fmt_d g ++ ";" ++ fmt_d b)%string.

Definition custom_color (defs : Z -> color_def_t) (c : Z) : Z * Z * Z :=
  get_rgb_values (r (defs c)) (g (defs c)) (b (defs c)).

(** The parameter for the text attributes: bold is the only one the
    builder emits. *)
Definition bold_param (attrs : Z) : string :=
  if Z.land attrs TUI_A_BOLD =? 0 then ""%string else ";1"%string.

(** The sequence that [get_cached_attr_sequence] builds on a cache miss.
    None of the [snprintf] calls can truncate: the longest sequence has
    fewer than [ESC_SEQ_MAX_LEN] bytes. *)
Definition build_attr_sequence (defs : Z -> color_def_t) (fg bg attrs : Z)
  : string :=
  let bold := bold_param attrs in
  let fgs :=
    if fg =? TUI_COLOR_WHITE then ""%string
    else if (8 <=? fg) && (fg <? MAX_CUSTOM_COLORS)
         then rgb_param "38" (custom_color defs fg)
         else if fg <? 8 then (";3" ++ fmt_d fg)%string else ""%string in
  let bgs :=
    if bg =? TUI_COLOR_BLACK then ""%string
    else if (8 <=? bg) && (bg <? MAX_CUSTOM_COLORS)
         then rgb_param "48" (custom_color defs bg)
         else if bg <? 8 then (";4" ++ fmt_d bg)%string else ""%string in
  esc ("[0" ++ bold ++ fgs ++ bgs ++ "m")%string.

(** [attr_combo_entry_t] in its bytes view: [sequence] holds the bytes
    the stored pointer referred to when [intern_esc_sequence] returned
    it.  Module [SeqPtr] keeps the pointer itself. *)
Record attr_combo_entry_t := mk_combo {
  e_fg : Z;
  e_bg : Z;
  e_attrs : Z;
  sequence : string;
  seq_length : Z
}.

(** The part of [esc_seq_cache] that serves rendition sequences, in its
    bytes view.  [intern_esc_sequence] returns a pointer to bytes equal
    to its argument in each of its branches, so this view leaves the
    interning pool out.  Whether the pointer is a pool entry's or the
    caller's buffer is kept by module [SeqPtr], which models the pool
    and the pointers; the two views agree on bytes and lengths
    ([SeqPtrFacts.get_cached_bytes_view]).  The bytes of this view are
    what the terminal receives while the pointers are pool entries',
    that is, until the interning pool is full. *)
Record esc_seq_cache_t := mk_esc_cache {
  initialized : bool;
  precomputed_initialized : bool;
  attr_combo_table : Z -> list attr_combo_entry_t;
  attr_combo_pool_size : Z;
  attr_combo_pool_used : Z
}.

(** The bucket of a combination: the key is computed in [uint32_t]. *)
Definition combo_key (fg bg attrs : Z) : Z :=
  Z.lor (Z.lor (((fg mod 2 ^ 32) * 2 ^ 16) mod 2 ^ 32)
               (((bg mod 2 ^ 32) * 2 ^ 8) mod 2 ^ 32))
        (Z.land attrs 0xFF).

Definition combo_bucket (fg bg attrs : Z) : Z :=
  combo_key fg bg attrs mod ATTR_COMBO_CACHE_SIZE.

Fixpoint combo_find (chain : list attr_combo_entry_t) (fg bg attrs : Z)
  : option attr_combo_entry_t :=
  match chain with
  | [] => None
  | e :: tl =>
      if (e_fg e =? fg) && (e_bg e =? bg) && (e_attrs e =? attrs)
      then Some e else combo_find tl fg bg attrs
  end.

(** [get_cached_attr_sequence] in the bytes view: [None] for the [NULL]
    of an uninitialised cache, else the bytes at the returned pointer
    with their length; and the cache after the call.
    [SeqPtr.get_cached_attr_sequence] is the same call with the pointer
    it returns and stores. *)
Definition get_cached_attr_sequence (defs : Z -> color_def_t)
  (c : esc_seq_cache_t) (fg bg attrs : Z)
  : option (string * Z) * esc_seq_cache_t :=
  if negb (initialized c) then (None, c)
  else
    let bucket := combo_bucket fg bg attrs in
    match combo_find (attr_combo_table c bucket) fg bg attrs with
    | Some e => (Some (sequence e, seq_length e), c)
    | None =>
        let seq := build_attr_sequence defs fg bg attrs in
        let seq_len := slen seq in
        let c' :=
          if attr_combo_pool_used c <? attr_combo_pool_size c
          then mk_esc_cache (initialized c) (precomputed_initialized c)
                 (fun k => if k =? bucket
                           then mk_combo fg bg attrs seq seq_len
                                  :: attr_combo_table c bucket
                           else attr_combo_table c k)
                 (attr_combo_pool_size c) (attr_combo_pool_used c + 1)
          else c in
        (Some (seq, seq_len), c')
    end.

(** The cache right after its tables are cleared and its pools
    allocated in [init_esc_seq_cache]. *)
Definition empty_esc_cache : esc_seq_cache_t :=
  mk_esc_cache true true (fun _ => []) ATTR_COMBO_CACHE_SIZE 0.

(** The six combinations [init_esc_seq_cache] pre-populates. *)
Definition init_esc_seq_cache (defs : Z -> color_def_t) : esc_seq_cache_t :=
  fold_left
    (fun c '(fg, bg, attrs) => snd (get_cached_attr_sequence defs c fg bg attrs))
    [ (TUI_COLOR_WHITE, TUI_COLOR_BLACK, TUI_A_NORMAL);
      (TUI_COLOR_WHITE, TUI_COLOR_BLACK, TUI_A_BOLD);
      (TUI_COLOR_BLACK, TUI_COLOR_WHITE, TUI_A_NORMAL);
      (TUI_COLOR_GREEN, TUI_COLOR_BLACK, TUI_A_NORMAL);
      (TUI_COLOR_RED, TUI_COLOR_BLACK, TUI_A_NORMAL);
      (TUI_COLOR_YELLOW, TUI_COLOR_BLACK, TUI_A_BOLD) ]
    empty_esc_cache.

(** The colour table after draw.c has registered the dark colour
    RGB (50, 40, 30) as custom colour 8: it stores the components scaled
    to the 0..1000 range, [(c * 1000) / 255]. *)
Definition dark_defs : Z -> color_def_t :=
  tui_init_color color_defs_init 8
    (Z.quot (50 * 1000) 255) (Z.quot (40 * 1000) 255) (Z.quot (30 * 1000) 255).

(** A bright colour, RGB (255, 128, 0), registered the same way. *)
Definition bright_defs : Z -> color_def_t :=
  tui_init_color color_defs_init 8
    (Z.quot (255 * 1000) 255) (Z.quot (128 * 1000) 255) (Z.quot (0 * 1000) 255).

(** The scaling the comments of [get_rgb_values] announce. *)
Definition scaled (d : color_def_t) : Z * Z * Z :=
  (Z.quot (r d * 255) 1000, Z.quot (g d * 255) 1000, Z.quot (b d * 255) 1000).

End AttrSeq.

(** * Hierarchical dirty-region tracker *)

Module Dirty.

Definition TILE_L1_SIZE : Z := 8.
Definition TILE_L2_SIZE : Z := 32.
Definition MAX_L1_TILES_X : Z := 128.
Definition MAX_L1_TILES_Y : Z := 64.
Definition MAX_L2_BLOCKS_X : Z := 32.
Definition MAX_L2_BLOCKS_Y : Z := 16.
Definition DIRTY_TILE_POOL_SIZE : Z := 512.
Definition INT_MAX : Z := 2147483647.

(** The [dirty_region] global and the globals of the sparse tracking.
    [dirty_l1_tiles] and [dirty_l2_blocks] are the two linked lists, head
    first, each node a pair (row, col); the free list is represented by
    its length [free_nodes]; a bitmap maps a word index to a 64-bit word.
    The counters that no control flow reads ([total_scans],
    [sparse_hits], [l1_scans_avoided], [l2_scans_avoided]) are left
    out. *)
Record dirty_t := mk_dirty {
  min_row : Z;
  max_row : Z;
  min_col : Z;
  max_col : Z;
  has_changes : bool;
  l1_tiles : Z -> Z -> bool;
  l1_tiles_x : Z;
  l1_tiles_y : Z;
  l2_blocks : Z -> Z -> bool;
  l2_blocks_x : Z;
  l2_blocks_y : Z;
  use_hierarchical_tiles : bool;
  use_sparse_tracking : bool;
  frame_count : Z;
  sparse_beneficial_count : Z;
  prefer_sparse_mode : bool;
  dirty_l1_tiles : list (Z * Z);
  dirty_l2_blocks : list (Z * Z);
  free_nodes : Z;
  dirty_tile_pool_used : Z;
  l1_tile_bitmap : Z -> Z;
  l2_block_bitmap : Z -> Z
}.

Definition with_min_row (v : Z) (s : dirty_t) : dirty_t :=
  mk_dirty v (max_row s) (min_col s) (max_col s) (has_changes s)
    (l1_tiles s) (l1_tiles_x s) (l1_tiles_y s) (l2_blocks s)
    (l2_blocks_x s) (l2_blocks_y s) (use_hierarchical_tiles s)
    (use_sparse_tracking s) (frame_count s) (sparse_beneficial_count s)
    (prefer_sparse_mode s) (dirty_l1_tiles s) (dirty_l2_blocks s)
    (free_nodes s) (dirty_tile_pool_used s) (l1_tile_bitmap s)
    (l2_block_bitmap s).

Definition with_max_row (v : Z) (s : dirty_t) : dirty_t :=
  mk_dirty (min_row s) v (min_col s) (max_col s) (has_changes s)
    (l1_tiles s) (l1_tiles_x s) (l1_tiles_y s) (l2_blocks s)
    (l2_blocks_x s) (l2_blocks_y s) (use_hierarchical_tiles s)
    (use_sparse_tracking s) (frame_count s) (sparse_beneficial_count s)
    (prefer_sparse_mode s) (dirty_l1_tiles s) (dirty_l2_blocks s)
    (free_nodes s) (dirty_tile_pool_used s) (l1_tile_bitmap s)
    (l2_block_bitmap s).

Definition with_min_col (v : Z) (s : dirty_t) : dirty_t :=
  mk_dirty (min_row s) (max_row s) v (max_col s) (has_changes s)
    (l1_tiles s) (l1_tiles_x s) (l1_tiles_y s) (l2_blocks s)
    (l2_blocks_x s) (l2_blocks_y s) (use_hierarchical_tiles s)
    (use_sparse_tracking s) (frame_count s) (sparse_beneficial_count s)
    (prefer_sparse_mode s) (dirty_l1_tiles s) (dirty_l2_blocks s)
    (free_nodes s) (dirty_tile_pool_used s) (l1_tile_bitmap s)
    (l2_block_bitmap s).

Definition with_max_col (v : Z) (s : dirty_t) : dirty_t :=
  mk_dirty (min_row s) (max_row s) (min_col s) v (has_changes s)
    (l1_tiles s) (l1_tiles_x s) (l1_tiles_y s) (l2_blocks s)
    (l2_blocks_x s) (l2_blocks_y s) (use_hierarchical_tiles s)
    (use_sparse_tracking s) (frame_count s) (sparse_beneficial_count s)
    (prefer_sparse_mode s) (dirty_l1_tiles s) (dirty_l2_blocks s)
    (free_nodes s) (dirty_tile_pool_used s) (l1_tile_bitmap s)
    (l2_block_bitmap s).

Definition with_has_changes (v : bool) (s : dirty_t) : dirty_t :=
  mk_dirty (min_row s) (max_row s) (min_col s) (max_col s) v (l1_tiles s)
    (l1_tiles_x s) (l1_tiles_y s) (l2_blocks s) (l2_blocks_x s)
    (l2_blocks_y s) (use_hierarchical_tiles s) (use_sparse_tracking s)
    (frame_count s) (sparse_beneficial_count s) (prefer_sparse_mode s)
    (dirty_l1_tiles s) (dirty_l2_blocks s) (free_nodes s)
    (dirty_tile_pool_used s) (l1_tile_bitmap s) (l2_block_bitmap s).

Definition with_l1_tiles (v : Z -> Z -> bool) (s : dirty_t) : dirty_t :=
  mk_dirty (min_row s) (max_row s) (min_col s) (max_col s) (has_changes s)
    v (l1_tiles_x s) (l1_tiles_y s) (l2_blocks s) (l2_blocks_x s)
    (l2_blocks_y s) (use_hierarchical_tiles s) (use_sparse_tracking s)
    (frame_count s) (sparse_beneficial_count s) (prefer_sparse_mode s)
    (dirty_l1_tiles s) (dirty_l2_blocks s) (free_nodes s)
    (dirty_tile_pool_used s) (l1_tile_bitmap s) (l2_block_bitmap s).

Definition with_l1_tiles_x (v : Z) (s : dirty_t) : dirty_t :=
  mk_dirty (min_row s) (max_row s) (min_col s) (max_col s) (has_changes s)
    (l1_tiles s) v (l1_tiles_y s) (l2_blocks s) (l2_blocks_x s)
    (l2_blocks_y s) (use_hierarchical_tiles s) (use_sparse_tracking s)
    (frame_count s) (sparse_beneficial_count s) (prefer_sparse_mode s)
    (dirty_l1_tiles s) (dirty_l2_blocks s) (free_nodes s)
    (dirty_tile_pool_used s) (l1_tile_bitmap s) (l2_block_bitmap s).

Definition with_l1_tiles_y (v : Z) (s : dirty_t) : dirty_t :=
  mk_dirty (min_row s) (max_row s) (min_col s) (max_col s) (has_changes s)
    (l1_tiles s) (l1_tiles_x s) v (l2_blocks s) (l2_blocks_x s)
    (l2_blocks_y s) (use_hierarchical_tiles s) (use_sparse_tracking s)
    (frame_count s) (sparse_beneficial_count s) (prefer_sparse_mode s)
    (dirty_l1_tiles s) (dirty_l2_blocks s) (free_nodes s)
    (dirty_tile_pool_used s) (l1_tile_bitmap s) (l2_block_bitmap s).

Definition with_l2_blocks (v : Z -> Z -> bool) (s : dirty_t) : dirty_t :=
  mk_dirty (min_row s) (max_row s) (min_col s) (max_col s) (has_changes s)
    (l1_tiles s) (l1_tiles_x s) (l1_tiles_y s) v (l2_blocks_x s)
    (l2_blocks_y s) (use_hierarchical_tiles s) (use_sparse_tracking s)
    (frame_count s) (sparse_beneficial_count s) (prefer_sparse_mode s)
    (dirty_l1_tiles s) (dirty_l2_blocks s) (free_nodes s)
    (dirty_tile_pool_used s) (l1_tile_bitmap s) (l2_block_bitmap s).

Definition with_l2_blocks_x (v : Z) (s : dirty_t) : dirty_t :=
  mk_dirty (min_row s) (max_row s) (min_col s) (max_col s) (has_changes s)
    (l1_tiles s) (l1_tiles_x s) (l1_tiles_y s) (l2_blocks s) v
    (l2_blocks_y s) (use_hierarchical_tiles s) (use_sparse_tracking s)
    (frame_count s) (sparse_beneficial_count s) (prefer_sparse_mode s)
    (dirty_l1_tiles s) (dirty_l2_blocks s) (free_nodes s)
    (dirty_tile_pool_used s) (l1_tile_bitmap s) (l2_block_bitmap s).

Definition with_l2_blocks_y (v : Z) (s : dirty_t) : dirty_t :=
  mk_dirty (min_row s) (max_row s) (min_col s) (max_col s) (has_changes s)
    (l1_tiles s) (l1_tiles_x s) (l1_tiles_y s) (l2_blocks s)
    (l2_blocks_x s) v (use_hierarchical_tiles s) (use_sparse_tracking s)
    (frame_count s) (sparse_beneficial_count s) (prefer_sparse_mode s)
    (dirty_l1_tiles s) (dirty_l2_blocks s) (free_nodes s)
    (dirty_tile_pool_used s) (l1_tile_bitmap s) (l2_block_bitmap s).

Definition with_use_hierarchical_tiles (v : bool) (s : dirty_t) : dirty_t :=
  mk_dirty (min_row s) (max_row s) (min_col s) (max_col s) (has_changes s)
    (l1_tiles s) (l1_tiles_x s) (l1_tiles_y s) (l2_blocks s)
    (l2_blocks_x s) (l2_blocks_y s) v (use_sparse_tracking s)
    (frame_count s) (sparse_beneficial_count s) (prefer_sparse_mode s)
    (dirty_l1_tiles s) (dirty_l2_blocks s) (free_nodes s)
    (dirty_tile_pool_used s) (l1_tile_bitmap s) (l2_block_bitmap s).

Definition with_use_sparse_tracking (v : bool) (s : dirty_t) : dirty_t :=
  mk_dirty (min_row s) (max_row s) (min_col s) (max_col s) (has_changes s)
    (l1_tiles s) (l1_tiles_x s) (l1_tiles_y s) (l2_blocks s)
    (l2_blocks_x s) (l2_blocks_y s) (use_hierarchical_tiles s) v
    (frame_count s) (sparse_beneficial_count s) (prefer_sparse_mode s)
    (dirty_l1_tiles s) (dirty_l2_blocks s) (free_nodes s)
    (dirty_tile_pool_used s) (l1_tile_bitmap s) (l2_block_bitmap s).

Definition with_frame_count (v : Z) (s : dirty_t) : dirty_t :=
  mk_dirty (min_row s) (max_row s) (min_col s) (max_col s) (has_changes s)
    (l1_tiles s) (l1_tiles_x s) (l1_tiles_y s) (l2_blocks s)
    (l2_blocks_x s) (l2_blocks_y s) (use_hierarchical_tiles s)
    (use_sparse_tracking s) v (sparse_beneficial_count s)
    (prefer_sparse_mode s) (dirty_l1_tiles s) (dirty_l2_blocks s)
    (free_nodes s) (dirty_tile_pool_used s) (l1_tile_bitmap s)
    (l2_block_bitmap s).

Definition with_sparse_beneficial_count (v : Z) (s : dirty_t) : dirty_t :=
  mk_dirty (min_row s) (max_row s) (min_col s) (max_col s) (has_changes s)
    (l1_tiles s) (l1_tiles_x s) (l1_tiles_y s) (l2_blocks s)
    (l2_blocks_x s) (l2_blocks_y s) (use_hierarchical_tiles s)
    (use_sparse_tracking s) (frame_count s) v (prefer_sparse_mode s)
    (dirty_l1_tiles s) (dirty_l2_blocks s) (free_nodes s)
    (dirty_tile_pool_used s) (l1_tile_bitmap s) (l2_block_bitmap s).

Definition with_prefer_sparse_mode (v : bool) (s : dirty_t) : dirty_t :=
  mk_dirty (min_row s) (max_row s) (min_col s) (max_col s) (has_changes s)
    (l1_tiles s) (l1_tiles_x s) (l1_tiles_y s) (l2_blocks s)
    (l2_blocks_x s) (l2_blocks_y s) (use_hierarchical_tiles s)
    (use_sparse_tracking s) (frame_count s) (sparse_beneficial_count s) v
    (dirty_l1_tiles s) (dirty_l2_blocks s) (free_nodes s)
    (dirty_tile_pool_used s) (l1_tile_bitmap s) (l2_block_bitmap s).

Definition with_dirty_l1_tiles (v : list (Z * Z)) (s : dirty_t) : dirty_t :=
  mk_dirty (min_row s) (max_row s) (min_col s) (max_col s) (has_changes s)
    (l1_tiles s) (l1_tiles_x s) (l1_tiles_y s) (l2_blocks s)
    (l2_blocks_x s) (l2_blocks_y s) (use_hierarchical_tiles s)
    (use_sparse_tracking s) (frame_count s) (sparse_beneficial_count s)
    (prefer_sparse_mode s) v (dirty_l2_blocks s) (free_nodes s)
    (dirty_tile_pool_used s) (l1_tile_bitmap s) (l2_block_bitmap s).

Definition with_dirty_l2_blocks (v : list (Z * Z)) (s : dirty_t) : dirty_t :=
  mk_dirty (min_row s) (max_row s) (min_col s) (max_col s) (has_changes s)
    (l1_tiles s) (l1_tiles_x s) (l1_tiles_y s) (l2_blocks s)
    (l2_blocks_x s) (l2_blocks_y s) (use_hierarchical_tiles s)
    (use_sparse_tracking s) (frame_count s) (sparse_beneficial_count s)
    (prefer_sparse_mode s) (dirty_l1_tiles s) v (free_nodes s)
    (dirty_tile_pool_used s) (l1_tile_bitmap s) (l2_block_bitmap s).

Definition with_free_nodes (v : Z) (s : dirty_t) : dirty_t :=
  mk_dirty (min_row s) (max_row s) (min_col s) (max_col s) (has_changes s)
    (l1_tiles s) (l1_tiles_x s) (l1_tiles_y s) (l2_blocks s)
    (l2_blocks_x s) (l2_blocks_y s) (use_hierarchical_tiles s)
    (use_sparse_tracking s) (frame_count s) (sparse_beneficial_count s)
    (prefer_sparse_mode s) (dirty_l1_tiles s) (dirty_l2_blocks s) v
    (dirty_tile_pool_used s) (l1_tile_bitmap s) (l2_block_bitmap s).

Definition with_dirty_tile_pool_used (v : Z) (s : dirty_t) : dirty_t :=
  mk_dirty (min_row s) (max_row s) (min_col s) (max_col s) (has_changes s)
    (l1_tiles s) (l1_tiles_x s) (l1_tiles_y s) (l2_blocks s)
    (l2_blocks_x s) (l2_blocks_y s) (use_hierarchical_tiles s)
    (use_sparse_tracking s) (frame_count s) (sparse_beneficial_count s)
    (prefer_sparse_mode s) (dirty_l1_tiles s) (dirty_l2_blocks s)
    (free_nodes s) v (l1_tile_bitmap s) (l2_block_bitmap s).

Definition with_l1_tile_bitmap (v : Z -> Z) (s : dirty_t) : dirty_t :=
  mk_dirty (min_row s) (max_row s) (min_col s) (max_col s) (has_changes s)
    (l1_tiles s) (l1_tiles_x s) (l1_tiles_y s) (l2_blocks s)
    (l2_blocks_x s) (l2_blocks_y s) (use_hierarchical_tiles s)
    (use_sparse_tracking s) (frame_count s) (sparse_beneficial_count s)
    (prefer_sparse_mode s) (dirty_l1_tiles s) (dirty_l2_blocks s)
    (free_nodes s) (dirty_tile_pool_used s) v (l2_block_bitmap s).

Definition with_l2_block_bitmap (v : Z -> Z) (s : dirty_t) : dirty_t :=
  mk_dirty (min_row s) (max_row s) (min_col s) (max_col s) (has_changes s)
    (l1_tiles s) (l1_tiles_x s) (l1_tiles_y s) (l2_blocks s)
    (l2_blocks_x s) (l2_blocks_y s) (use_hierarchical_tiles s)
    (use_sparse_tracking s) (frame_count s) (sparse_beneficial_count s)
    (prefer_sparse_mode s) (dirty_l1_tiles s) (dirty_l2_blocks s)
    (free_nodes s) (dirty_tile_pool_used s) (l1_tile_bitmap s) v.

(** The static initialisers. *)
Definition dirty_region_static : dirty_t :=
  mk_dirty INT_MAX (-1) INT_MAX (-1) false
           (fun _ _ => false) 0 0 (fun _ _ => false) 0 0
           false false 0 0 false
           [] [] 0 0 (fun _ => 0) (fun _ => 0).

(** Conversion of a tile coordinate to the [uint16_t] parameter of
    [alloc_dirty_tile]. *)
Definition u16 (x : Z) : Z := x mod 65536.

(** [alloc_dirty_tile]: [None] is the [NULL] of an exhausted pool. *)
Definition alloc_dirty_tile (d : dirty_t) (row col : Z)
  : option ((Z * Z) * dirty_t) :=
  if (free_nodes d <=? 0) || (DIRTY_TILE_POOL_SIZE <=? dirty_tile_pool_used d)
  then None
  else Some ((u16 row, u16 col),
             with_dirty_tile_pool_used (dirty_tile_pool_used d + 1)
               (with_free_nodes (free_nodes d - 1) d)).

(** The word and the bit of a bit index; [|=] with a single bit below 64
    cannot leave the 64-bit range. *)
Definition bitmap_set (bm : Z -> Z) (bit_index : Z) : Z -> Z :=
  upd bm (Z.quot bit_index 64)
      (Z.lor (bm (Z.quot bit_index 64)) (Z.shiftl 1 (Z.rem bit_index 64))).

Definition bitmap_test (bm : Z -> Z) (bit_index : Z) : bool :=
  negb (Z.land (bm (Z.quot bit_index 64)) (Z.shiftl 1 (Z.rem bit_index 64))
        =? 0).

(** [set_l1_tile_bitmap] and [check_l1_tile_bitmap]. *)
Definition set_l1_tile_bitmap (d : dirty_t) (tile_row tile_col : Z) : dirty_t :=
  if (MAX_L1_TILES_Y <=? tile_row) || (MAX_L1_TILES_X <=? tile_col) then d
  else with_l1_tile_bitmap
         (bitmap_set (l1_tile_bitmap d) (tile_row * MAX_L1_TILES_X + tile_col))
         d.

Definition check_l1_tile_bitmap (d : dirty_t) (tile_row tile_col : Z) : bool :=
  if (MAX_L1_TILES_Y <=? tile_row) || (MAX_L1_TILES_X <=? tile_col) then false
  else bitmap_test (l1_tile_bitmap d) (tile_row * MAX_L1_TILES_X + tile_col).

(** [set_l2_block_bitmap] and [check_l2_block_bitmap]. *)
Definition set_l2_block_bitmap (d : dirty_t) (block_row block_col : Z)
  : dirty_t :=
  if (MAX_L2_BLOCKS_Y <=? block_row) || (MAX_L2_BLOCKS_X <=? block_col) then d
  else with_l2_block_bitmap
         (bitmap_set (l2_block_bitmap d)
                     (block_row * MAX_L2_BLOCKS_X + block_col))
         d.

Definition check_l2_block_bitmap (d : dirty_t) (block_row block_col : Z)
  : bool :=
  if (MAX_L2_BLOCKS_Y <=? block_row) || (MAX_L2_BLOCKS_X <=? block_col)
  then false
  else bitmap_test (l2_block_bitmap d)
                   (block_row * MAX_L2_BLOCKS_X + block_col).

(** [add_sparse_l1_tile]. *)
Definition add_sparse_l1_tile (d : dirty_t) (tile_row tile_col : Z) : dirty_t :=
  if check_l1_tile_bitmap d tile_row tile_col then d
  else
    match alloc_dirty_tile d tile_row tile_col with
    | Some (new_tile, d1) =>
        set_l1_tile_bitmap
          (with_dirty_l1_tiles (new_tile :: dirty_l1_tiles d1) d1)
          tile_row tile_col
    | None => d
    end.

(** [add_sparse_l2_block]. *)
Definition add_sparse_l2_block (d : dirty_t) (block_row block_col : Z)
  : dirty_t :=
  if check_l2_block_bitmap d block_row block_col then d
  else
    match alloc_dirty_tile d block_row block_col with
    | Some (new_block, d1) =>
        set_l2_block_bitmap
          (with_dirty_l2_blocks (new_block :: dirty_l2_blocks d1) d1)
          block_row block_col
    | None => d
    end.

(** The bounding-rectangle update shared by [mark_dirty] and
    [mark_dirty_region]. *)
Definition extend_rect (d : dirty_t) (row1 col1 row2 col2 : Z) : dirty_t :=
  let d := if row1 <? min_row d then with_min_row row1 d else d in
  let d := if max_row d <? row2 then with_max_row row2 d else d in
  let d := if col1 <? min_col d then with_min_col col1 d else d in
  let d := if max_col d <? col2 then with_max_col col2 d else d in
  with_has_changes true d.

(** The statement [l1_tiles[tr][tc] = true] followed by the sparse
    insertion.  An index outside the array is undefined behaviour. *)
Definition mark_l1_tile (d : dirty_t) (tr tc : Z) : option dirty_t :=
  if (0 <=? tr) && (tr <? MAX_L1_TILES_Y) && (0 <=? tc) && (tc <? MAX_L1_TILES_X)
  then
    let d1 := with_l1_tiles (upd2 (l1_tiles d) tr tc true) d in
    Some (if use_sparse_tracking d1 then add_sparse_l1_tile d1 tr tc else d1)
  else None.

(** The same for [l2_blocks[br][bc] = true]. *)
Definition mark_l2_block (d : dirty_t) (br bc : Z) : option dirty_t :=
  if (0 <=? br) && (br <? MAX_L2_BLOCKS_Y) && (0 <=? bc)
     && (bc <? MAX_L2_BLOCKS_X)
  then
    let d1 := with_l2_blocks (upd2 (l2_blocks d) br bc true) d in
    Some (if use_sparse_tracking d1 then add_sparse_l2_block d1 br bc else d1)
  else None.

(** The two halves of the tile update of [mark_dirty]: the 8x8 tile of
    the cell, then its 32x32 block. *)
Definition mark_dirty_l1 (d : dirty_t) (row col : Z) : option dirty_t :=
  let l1_tile_row := Z.quot row TILE_L1_SIZE in
  let l1_tile_col := Z.quot col TILE_L1_SIZE in
  if (l1_tile_row <? l1_tiles_y d) && (l1_tile_col <? l1_tiles_x d)
  then mark_l1_tile d l1_tile_row l1_tile_col
  else Some d.

Definition mark_dirty_l2 (d : dirty_t) (row col : Z) : option dirty_t :=
  let l2_block_row := Z.quot row TILE_L2_SIZE in
  let l2_block_col := Z.quot col TILE_L2_SIZE in
  if (l2_block_row <? l2_blocks_y d) && (l2_block_col <? l2_blocks_x d)
  then mark_l2_block d l2_block_row l2_block_col
  else Some d.

(** [mark_dirty]. *)
Definition mark_dirty (d : dirty_t) (row col : Z) : option dirty_t :=
  let d0 := extend_rect d row col row col in
  if use_hierarchical_tiles d0 then
    d1 <- mark_dirty_l1 d0 row col ;;
    mark_dirty_l2 d1 row col
  else Some d0.

(** [mark_dirty_region]: the tile loops run over the tile rows from
    [row1 / 8] to [row2 / 8], cut at the tile count, and likewise for
    columns and blocks. *)
Definition mark_dirty_region (d : dirty_t) (row1 col1 row2 col2 : Z)
  : option dirty_t :=
  let d0 := extend_rect d row1 col1 row2 col2 in
  if use_hierarchical_tiles d0 then
    let l1_rows :=
      zrange_incl (Z.quot row1 TILE_L1_SIZE)
                  (Z.min (Z.quot row2 TILE_L1_SIZE) (l1_tiles_y d0 - 1)) in
    let l1_cols :=
      zrange_incl (Z.quot col1 TILE_L1_SIZE)
                  (Z.min (Z.quot col2 TILE_L1_SIZE) (l1_tiles_x d0 - 1)) in
    d1 <- ofold (fun d tr => ofold (fun d tc => mark_l1_tile d tr tc) l1_cols d)
                l1_rows d0 ;;
    let l2_rows :=
      zrange_incl (Z.quot row1 TILE_L2_SIZE)
                  (Z.min (Z.quot row2 TILE_L2_SIZE) (l2_blocks_y d0 - 1)) in
    let l2_cols :=
      zrange_incl (Z.quot col1 TILE_L2_SIZE)
                  (Z.min (Z.quot col2 TILE_L2_SIZE) (l2_blocks_x d0 - 1)) in
    ofold (fun d br => ofold (fun d bc => mark_l2_block d br bc) l2_cols d)
          l2_rows d1
  else Some d0.

(** [reset_sparse_dirty_tracking]: every node of the two lists goes back
    to the free list, and the bitmaps are cleared. *)
Definition reset_sparse_dirty_tracking (d : dirty_t) : dirty_t :=
  let n := Z.of_nat (length (dirty_l1_tiles d))
           + Z.of_nat (length (dirty_l2_blocks d)) in
  with_l2_block_bitmap (fun _ => 0)
    (with_l1_tile_bitmap (fun _ => 0)
      (with_dirty_l2_blocks []
        (with_dirty_l1_tiles []
          (with_dirty_tile_pool_used (dirty_tile_pool_used d - n)
            (with_free_nodes (free_nodes d + n) d))))).

(** [reset_dirty_region]. *)
Definition reset_dirty_region (d : dirty_t) : dirty_t :=
  let d := with_has_changes false
             (with_max_col (-1)
               (with_min_col INT_MAX
                 (with_max_row (-1) (with_min_row INT_MAX d)))) in
  let d := if use_hierarchical_tiles d
           then with_l2_blocks (fun _ _ => false)
                  (with_l1_tiles (fun _ _ => false) d)
           else d in
  if use_sparse_tracking d then reset_sparse_dirty_tracking d else d.

(** [init_hierarchical_dirty_tracking]. *)
Definition init_hierarchical_dirty_tracking (d : dirty_t)
  (screen_cols screen_rows : Z) : dirty_t :=
  let d :=
    with_l2_blocks_y (Z.quot (screen_rows + TILE_L2_SIZE - 1) TILE_L2_SIZE)
      (with_l2_blocks_x (Z.quot (screen_cols + TILE_L2_SIZE - 1) TILE_L2_SIZE)
        (with_l1_tiles_y (Z.quot (screen_rows + TILE_L1_SIZE - 1) TILE_L1_SIZE)
          (with_l1_tiles_x
             (Z.quot (screen_cols + TILE_L1_SIZE - 1) TILE_L1_SIZE) d))) in
  if (l1_tiles_x d <=? MAX_L1_TILES_X) && (l1_tiles_y d <=? MAX_L1_TILES_Y)
     && (l2_blocks_x d <=? MAX_L2_BLOCKS_X)
     && (l2_blocks_y d <=? MAX_L2_BLOCKS_Y)
  then with_l2_blocks (fun _ _ => false)
         (with_l1_tiles (fun _ _ => false)
           (with_use_hierarchical_tiles true d))
  else d.

(** [init_sparse_dirty_tracking]: the whole pool is chained into the free
    list. *)
Definition init_sparse_dirty_tracking (d : dirty_t) : dirty_t :=
  with_use_sparse_tracking true
    (with_dirty_tile_pool_used 0
      (with_dirty_l2_blocks []
        (with_dirty_l1_tiles []
          (with_free_nodes DIRTY_TILE_POOL_SIZE d)))).

(** The tracker as [tui_init] leaves it for a terminal of the given
    size. *)
Definition init_dirty (screen_cols screen_rows : Z) : dirty_t :=
  init_sparse_dirty_tracking
    (init_hierarchical_dirty_tracking dirty_region_static
       screen_cols screen_rows).

(** A node can be taken from the tile pool. *)
Definition pool_available (d : dirty_t) : Prop :=
  0 < free_nodes d /\ dirty_tile_pool_used d < DIRTY_TILE_POOL_SIZE.

(** The same as a boolean: the negation of the test of
    [alloc_dirty_tile]. *)
Definition pool_ok (d : dirty_t) : bool :=
  negb ((free_nodes d <=? 0)
        || (DIRTY_TILE_POOL_SIZE <=? dirty_tile_pool_used d)).

(** Views of the tracker: the bounding rectangle, the configuration, the
    pool counters, and the sparse record of each level. *)
Definition rect_of (d : dirty_t) : Z * Z * Z * Z * bool :=
  (min_row d, max_row d, min_col d, max_col d, has_changes d).

Definition conf_of (d : dirty_t) : Z * Z * Z * Z * bool * bool * Z * Z * bool :=
  (l1_tiles_x d, l1_tiles_y d, l2_blocks_x d, l2_blocks_y d,
   use_hierarchical_tiles d, use_sparse_tracking d,
   frame_count d, sparse_beneficial_count d, prefer_sparse_mode d).

Definition pool_of (d : dirty_t) : Z * Z :=
  (free_nodes d, dirty_tile_pool_used d).

Definition l1_sparse_of (d : dirty_t) : list (Z * Z) * (Z -> Z) :=
  (dirty_l1_tiles d, l1_tile_bitmap d).

Definition l2_sparse_of (d : dirty_t) : list (Z * Z) * (Z -> Z) :=
  (dirty_l2_blocks d, l2_block_bitmap d).

(** Two trackers record the same tiles: the sparse lists, the bitmaps and
    the pool agree, and so do the dense tile arrays, entry by entry. *)
Definition same_tile_sets (d d' : dirty_t) : Prop :=
  l1_sparse_of d' = l1_sparse_of d /\ l2_sparse_of d' = l2_sparse_of d /\
  pool_of d' = pool_of d /\
  (forall i j, l1_tiles d' i j = l1_tiles d i j) /\
  (forall i j, l2_blocks d' i j = l2_blocks d i j).

(** The tile counts fit the fixed tables, as
    [init_hierarchical_dirty_tracking] checks before it enables the
    tiles. *)
Definition tiles_fit (d : dirty_t) : Prop :=
  l1_tiles_x d <= MAX_L1_TILES_X /\ l1_tiles_y d <= MAX_L1_TILES_Y /\
  l2_blocks_x d <= MAX_L2_BLOCKS_X /\ l2_blocks_y d <= MAX_L2_BLOCKS_Y.

(** Every tile whose bit is set in the L1 bitmap is on the L1 list. *)
Definition bitmap_listed (d : dirty_t) : Prop :=
  forall tr tc,
    0 <= tr < MAX_L1_TILES_Y -> 0 <= tc < MAX_L1_TILES_X ->
    check_l1_tile_bitmap d tr tc = true -> In (tr, tc) (dirty_l1_tiles d).

(** The invariant of the tracker under which its operations are
    stated. *)
Definition wf (d : dirty_t) : Prop :=
  (use_hierarchical_tiles d = true -> tiles_fit d) /\ bitmap_listed d.

(** Membership of a tile in the sparse L1 list, as a boolean. *)
Definition l1_listed (d : dirty_t) (tr tc : Z) : bool :=
  existsb (fun t => (fst t =? tr) && (snd t =? tc)) (dirty_l1_tiles d).

(** Index ranges of the two fixed tile tables. *)
Definition in_l1 (tr tc : Z) : Prop :=
  0 <= tr < MAX_L1_TILES_Y /\ 0 <= tc < MAX_L1_TILES_X.

Definition in_l2 (br bc : Z) : Prop :=
  0 <= br < MAX_L2_BLOCKS_Y /\ 0 <= bc < MAX_L2_BLOCKS_X.

(** The sparse insertion of a tile has nothing left to do: sparse
    tracking is off, the tile is recorded, or the pool is empty. *)
Definition settled_l1 (d : dirty_t) (tr tc : Z) : Prop :=
  use_sparse_tracking d = false \/ check_l1_tile_bitmap d tr tc = true \/
  pool_ok d = false.

Definition settled_l2 (d : dirty_t) (br bc : Z) : Prop :=
  use_sparse_tracking d = false \/ check_l2_block_bitmap d br bc = true \/
  pool_ok d = false.

(** A terminal of 400 columns and 100 lines after the whole screen has
    been marked, as [tui_clear_screen] does: 650 fine tiles for a pool of
    512 nodes. *)
Definition big_screen_marked : option dirty_t :=
  mark_dirty_region (init_dirty 400 100) 0 0 99 399.

End Dirty.

(** * The refresh engine *)

Module Engine.
Import String Ascii Fmt.

(** ** State *)

(** The four grids with their allocated extents.  [allocated] tells
    whether the four pointers are non-null.  Characters are kept as
    their byte values. *)
Record grid_t := mk_grid {
  allocated : bool;
  screen_buf : Z -> Z -> Z;
  attr_buf : Z -> Z -> Z;
  prev_screen_buf : Z -> Z -> Z;
  prev_attr_buf : Z -> Z -> Z;
  buf_rows : Z;
  buf_cols : Z
}.

Definition with_screen_buf (v : Z -> Z -> Z) (s : grid_t) : grid_t :=
  mk_grid (allocated s) v (attr_buf s) (prev_screen_buf s)
    (prev_attr_buf s) (buf_rows s) (buf_cols s).

Definition with_attr_buf (v : Z -> Z -> Z) (s : grid_t) : grid_t :=
  mk_grid (allocated s) (screen_buf s) v (prev_screen_buf s)
    (prev_attr_buf s) (buf_rows s) (buf_cols s).

Definition with_prev_screen_buf (v : Z -> Z -> Z) (s : grid_t) : grid_t :=
  mk_grid (allocated s) (screen_buf s) (attr_buf s) v (prev_attr_buf s)
    (buf_rows s) (buf_cols s).

Definition with_prev_attr_buf (v : Z -> Z -> Z) (s : grid_t) : grid_t :=
  mk_grid (allocated s) (screen_buf s) (attr_buf s) (prev_screen_buf s) v
    (buf_rows s) (buf_cols s).

(** [struct tui_window_t]; [dirty_rows] is [None] for a null [dirty]
    pointer, as in the primary window. *)
Record tui_window_t := mk_window {
  begy : Z;
  begx : Z;
  maxy : Z;
  maxx : Z;
  cury : Z;
  curx : Z;
  attr : Z;
  bkgd : Z;
  dirty_rows : option (Z -> bool)
}.

Definition with_maxy (v : Z) (s : tui_window_t) : tui_window_t :=
  mk_window (begy s) (begx s) v (maxx s) (cury s) (curx s) (attr s)
    (bkgd s) (dirty_rows s).

Definition with_maxx (v : Z) (s : tui_window_t) : tui_window_t :=
  mk_window (begy s) (begx s) (maxy s) v (cury s) (curx s) (attr s)
    (bkgd s) (dirty_rows s).

Definition with_cury (v : Z) (s : tui_window_t) : tui_window_t :=
  mk_window (begy s) (begx s) (maxy s) (maxx s) v (curx s) (attr s)
    (bkgd s) (dirty_rows s).

Definition with_curx (v : Z) (s : tui_window_t) : tui_window_t :=
  mk_window (begy s) (begx s) (maxy s) (maxx s) (cury s) v (attr s)
    (bkgd s) (dirty_rows s).

Definition with_attr (v : Z) (s : tui_window_t) : tui_window_t :=
  mk_window (begy s) (begx s) (maxy s) (maxx s) (cury s) (curx s) v
    (bkgd s) (dirty_rows s).

Definition with_dirty_rows (v : option (Z -> bool)) (s : tui_window_t) : tui_window_t :=
  mk_window (begy s) (begx s) (maxy s) (maxx s) (cury s) (curx s) (attr s)
    (bkgd s) v.

(** [cursor_cache]: the flag of the runtime cache and the position the
    cursor was left at. *)
Record cursor_cache_t := mk_cursor {
  cc_initialized : bool;
  last_row : Z;
  last_col : Z
}.

(** [attr_state]. *)
Record attr_state_t := mk_attr_state {
  last_fg : Z;
  last_bg : Z;
  last_attrs : Z;
  as_initialized : bool
}.

(** What the engine hands to [tui_write], by the place that emits it: a
    cursor positioning, a rendition sequence, the characters of one run
    (whether written as one batch or, for a run longer than the run
    buffer, byte by byte), and the final reset. *)
Inductive emission :=
| ECursor (seq : String.string)
| EAttr (seq : String.string)
| ERun (y start_x end_x : Z) (chars : list Z)
| EReset (seq : String.string).

(** The globals of tui.c that the drawing surface and the refresh read
    or write.  [out] is the sequence of emissions since initialisation;
    the output buffer (module [Writev]) decides when they reach the
    descriptor, not what they are. *)
Record engine := mk_engine {
  grid : grid_t;
  tui_lines : Z;
  tui_cols : Z;
  tui_stdscr : tui_window_t;
  dirty_region : Dirty.dirty_t;
  cursor_cache : cursor_cache_t;
  attr_state : attr_state_t;
  colors_initialized : bool;
  color_pair_cache : ColorPair.color_pair_cache_t;
  color_defs : Z -> AttrSeq.color_def_t;
  esc_seq_cache : AttrSeq.esc_seq_cache_t;
  supports_unicode : bool;
  use_writev : bool;
  auto_flush_enabled : bool;
  out : list emission
}.

Definition with_grid (v : grid_t) (s : engine) : engine :=
  mk_engine v (tui_lines s) (tui_cols s) (tui_stdscr s) (dirty_region s)
    (cursor_cache s) (attr_state s) (colors_initialized s)
    (color_pair_cache s) (color_defs s) (esc_seq_cache s)
    (supports_unicode s) (use_writev s) (auto_flush_enabled s) (out s).

Definition with_tui_lines (v : Z) (s : engine) : engine :=
  mk_engine (grid s) v (tui_cols s) (tui_stdscr s) (dirty_region s)
    (cursor_cache s) (attr_state s) (colors_initialized s)
    (color_pair_cache s) (color_defs s) (esc_seq_cache s)
    (supports_unicode s) (use_writev s) (auto_flush_enabled s) (out s).

Definition with_tui_cols (v : Z) (s : engine) : engine :=
  mk_engine (grid s) (tui_lines s) v (tui_stdscr s) (dirty_region s)
    (cursor_cache s) (attr_state s) (colors_initialized s)
    (color_pair_cache s) (color_defs s) (esc_seq_cache s)
    (supports_unicode s) (use_writev s) (auto_flush_enabled s) (out s).

Definition with_tui_stdscr (v : tui_window_t) (s : engine) : engine :=
  mk_engine (grid s) (tui_lines s) (tui_cols s) v (dirty_region s)
    (cursor_cache s) (attr_state s) (colors_initialized s)
    (color_pair_cache s) (color_defs s) (esc_seq_cache s)
    (supports_unicode s) (use_writev s) (auto_flush_enabled s) (out s).

Definition with_dirty_region (v : Dirty.dirty_t) (s : engine) : engine :=
  mk_engine (grid s) (tui_lines s) (tui_cols s) (tui_stdscr s) v
    (cursor_cache s) (attr_state s) (colors_initialized s)
    (color_pair_cache s) (color_defs s) (esc_seq_cache s)
    (supports_unicode s) (use_writev s) (auto_flush_enabled s) (out s).

Definition with_cursor_cache (v : cursor_cache_t) (s : engine) : engine :=
  mk_engine (grid s) (tui_lines s) (tui_cols s) (tui_stdscr s)
    (dirty_region s) v (attr_state s) (colors_initialized s)
    (color_pair_cache s) (color_defs s) (esc_seq_cache s)
    (supports_unicode s) (use_writev s) (auto_flush_enabled s) (out s).

Definition with_attr_state (v : attr_state_t) (s : engine) : engine :=
  mk_engine (grid s) (tui_lines s) (tui_cols s) (tui_stdscr s)
    (dirty_region s) (cursor_cache s) v (colors_initialized s)
    (color_pair_cache s) (color_defs s) (esc_seq_cache s)
    (supports_unicode s) (use_writev s) (auto_flush_enabled s) (out s).

Definition with_colors_initialized (v : bool) (s : engine) : engine :=
  mk_engine (grid s) (tui_lines s) (tui_cols s) (tui_stdscr s)
    (dirty_region s) (cursor_cache s) (attr_state s) v (color_pair_cache s)
    (color_defs s) (esc_seq_cache s) (supports_unicode s) (use_writev s)
    (auto_flush_enabled s) (out s).

Definition with_color_pair_cache (v : ColorPair.color_pair_cache_t) (s : engine) : engine :=
  mk_engine (grid s) (tui_lines s) (tui_cols s) (tui_stdscr s)
    (dirty_region s) (cursor_cache s) (attr_state s) (colors_initialized s)
    v (color_defs s) (esc_seq_cache s) (supports_unicode s) (use_writev s)
    (auto_flush_enabled s) (out s).

Definition with_color_defs (v : Z -> AttrSeq.color_def_t) (s : engine) : engine :=
  mk_engine (grid s) (tui_lines s) (tui_cols s) (tui_stdscr s)
    (dirty_region s) (cursor_cache s) (attr_state s) (colors_initialized s)
    (color_pair_cache s) v (esc_seq_cache s) (supports_unicode s)
    (use_writev s) (auto_flush_enabled s) (out s).

Definition with_esc_seq_cache (v : AttrSeq.esc_seq_cache_t) (s : engine) : engine :=
  mk_engine (grid s) (tui_lines s) (tui_cols s) (tui_stdscr s)
    (dirty_region s) (cursor_cache s) (attr_state s) (colors_initialized s)
    (color_pair_cache s) (color_defs s) v (supports_unicode s)
    (use_writev s) (auto_flush_enabled s) (out s).

Definition with_auto_flush_enabled (v : bool) (s : engine) : engine :=
  mk_engine (grid s) (tui_lines s) (tui_cols s) (tui_stdscr s)
    (dirty_region s) (cursor_cache s) (attr_state s) (colors_initialized s)
    (color_pair_cache s) (color_defs s) (esc_seq_cache s)
    (supports_unicode s) (use_writev s) v (out s).

Definition with_out (v : list emission) (s : engine) : engine :=
  mk_engine (grid s) (tui_lines s) (tui_cols s) (tui_stdscr s)
    (dirty_region s) (cursor_cache s) (attr_state s) (colors_initialized s)
    (color_pair_cache s) (color_defs s) (esc_seq_cache s)
    (supports_unicode s) (use_writev s) (auto_flush_enabled s) v.

Definition emit (e : emission) (s : engine) : engine :=
  with_out (out s ++ [e]) s.

(** The sentinel that invalidates a snapshot cell: [0xFFFFFFFF] stored
    in an [int]. *)
Definition INVALID_ATTR : Z := -1.

Definition SPACE : Z := 32.

(** ** Checked grid accesses *)

Definition in_grid (g : grid_t) (y x : Z) : bool :=
  (0 <=? y) && (y <? buf_rows g) && (0 <=? x) && (x <? buf_cols g).

(** The test [screen_buf[y][x] != prev_screen_buf[y][x] ||
    attr_buf[y][x] != prev_attr_buf[y][x]]. *)
Definition differs (g : grid_t) (y x : Z) : bool :=
  negb (screen_buf g y x =? prev_screen_buf g y x)
  || negb (attr_buf g y x =? prev_attr_buf g y x).

Definition cell_changed (g : grid_t) (y x : Z) : option bool :=
  if in_grid g y x then Some (differs g y x) else None.

Definition attr_at (g : grid_t) (y x : Z) : option Z :=
  if in_grid g y x then Some (attr_buf g y x) else None.

(** The pair of assignments [prev_screen_buf[y][x] = screen_buf[y][x];
    prev_attr_buf[y][x] = attr_buf[y][x]]. *)
Definition commit_cell (g : grid_t) (y x : Z) : option grid_t :=
  if in_grid g y x
  then Some (with_prev_attr_buf
               (upd2 (prev_attr_buf g) y x (attr_buf g y x))
               (with_prev_screen_buf
                  (upd2 (prev_screen_buf g) y x (screen_buf g y x)) g))
  else None.

(** [row_has_changes]: the two [memcmp] calls compare [row_width] cells
    from [start_col]; a negative width or a start before the row is
    undefined behaviour. *)
Definition row_has_changes (g : grid_t) (y start_col end_col : Z)
  : option bool :=
  if (buf_rows g <=? y) || (buf_cols g <=? start_col)
     || (buf_cols g <=? end_col)
  then Some false
  else
    let row_width := end_col - start_col + 1 in
    if (0 <=? y) && (0 <=? start_col) && (0 <=? row_width)
    then Some (existsb (differs g y) (zrange start_col (Z.to_nat row_width)))
    else None.

(** The first element of a list that a fallible test accepts. *)
Fixpoint find_first {A} (p : A -> option bool) (l : list A)
  : option (option A) :=
  match l with
  | [] => Some None
  | a :: tl =>
      b <- p a ;;
      if b then Some (Some a) else find_first p tl
  end.

(** [col_has_changes]. *)
Definition col_has_changes (g : grid_t) (x start_row end_row : Z)
  : option bool :=
  if (buf_cols g <=? x) || (buf_rows g <=? start_row)
     || (buf_rows g <=? end_row)
  then Some false
  else
    r <- find_first (fun y => cell_changed g y x)
                    (zrange_incl start_row end_row) ;;
    Some (match r with Some _ => true | None => false end).


(** [optimize_dirty_region]: the four loops look for the first and last
    changed row and column; each stops at its first hit. *)
Definition optimize_dirty_region (s : engine) : option engine :=
  let d := dirty_region s in
  let g := grid s in
  if negb (Dirty.has_changes d) then Some s
  else
    let original_min_row := Dirty.min_row d in
    let original_max_row := Dirty.max_row d in
    let original_min_col := Dirty.min_col d in
    let original_max_col := Dirty.max_col d in
    let end_col := if original_max_col <? buf_cols g
                   then original_max_col else buf_cols g - 1 in
    top <- find_first (fun y => row_has_changes g y original_min_col end_col)
             (zrange_incl original_min_row
                          (Z.min original_max_row (buf_rows g - 1))) ;;
    let new_min_row := match top with Some y => y | None => Dirty.INT_MAX end in
    bottom <- find_first
                (fun y => row_has_changes g y original_min_col end_col)
                (rev (zrange_incl (Z.max new_min_row 0) original_max_row)) ;;
    let new_max_row := match bottom with Some y => y | None => -1 end in
    let d1 := Dirty.with_max_row new_max_row
                (Dirty.with_min_row new_min_row d) in
    if (new_min_row =? Dirty.INT_MAX) || (new_max_row =? -1)
    then Some (with_dirty_region (Dirty.with_has_changes false d1) s)
    else
      left <- find_first
                (fun x => col_has_changes g x new_min_row new_max_row)
                (zrange_incl original_min_col
                             (Z.min original_max_col (buf_cols g - 1))) ;;
      let new_min_col :=
        match left with Some x => x | None => Dirty.INT_MAX end in
      right <- find_first
                 (fun x => col_has_changes g x new_min_row new_max_row)
                 (rev (zrange_incl (Z.max new_min_col 0) original_max_col)) ;;
      let new_max_col := match right with Some x => x | None => -1 end in
      let d2 := Dirty.with_max_col new_max_col
                  (Dirty.with_min_col new_min_col d1) in
      Some (with_dirty_region
              (if (new_min_col =? Dirty.INT_MAX) || (new_max_col =? -1)
               then Dirty.with_has_changes false d2 else d2)
              s).

(** ** Cursor positioning *)

Definition CURSOR_POS_POOL_SIZE : Z := 256.

(** [get_cursor_pool_index]. *)
Definition get_cursor_pool_index (row col : Z) : Z :=
  if (row <? 2) && (col <? 40) then row * 40 + col
  else if (10 <=? row) && (row <? 16) && (col <? 80) && (Z.rem col 5 =? 0)
       then 80 + (row - 10) * 16 + Z.quot col 5
       else -1.

(** The absolute positioning sequence, as [snprintf] formats it. *)
Definition cursor_seq (row col : Z) : String.string :=
  esc ("[" ++ fmt_d (row + 1) ++ ";" ++ fmt_d (col + 1) ++ "H")%string.

(** The entries of [precomputed.cursor_positions] that
    [init_precomputed_sequences] fills: eighty for the two top rows, then
    sixteen for each of the rows 10 to 15. *)
Definition cursor_positions (idx : Z) : String.string :=
  if (0 <=? idx) && (idx <? 80)
  then cursor_seq (Z.quot idx 40) (Z.rem idx 40)
  else if (80 <=? idx) && (idx <? 176)
       then cursor_seq (10 + Z.quot (idx - 80) 16) (5 * Z.rem (idx - 80) 16)
       else ""%string.

Definition CR : Ascii.ascii := Ascii.ascii_of_nat 13.
Definition LF : Ascii.ascii := Ascii.ascii_of_nat 10.

Definition vertical_move (row_diff : Z) : String.string :=
  if 0 <? row_diff then
    if row_diff =? 1 then esc "[B"
    else esc ("[" ++ fmt_d row_diff ++ "B")%string
  else if row_diff <? 0 then
    if row_diff =? -1 then esc "[A"
    else esc ("[" ++ fmt_d (- row_diff) ++ "A")%string
  else ""%string.

Definition horizontal_move (col_diff : Z) : String.string :=
  if 0 <? col_diff then
    if col_diff =? 1 then esc "[C"
    else esc ("[" ++ fmt_d col_diff ++ "C")%string
  else if col_diff <? 0 then
    if col_diff =? -1 then esc "[D"
    else esc ("[" ++ fmt_d (- col_diff) ++ "D")%string
  else ""%string.

(** The relative movement of [tui_move_cached], when it applies. *)
Definition relative_move (last_row last_col row col : Z)
  : option String.string :=
  let row_diff := row - last_row in
  let col_diff := col - last_col in
  if (Z.abs row_diff <=? 5) && (Z.abs col_diff <=? 5) then
    if (row_diff =? 1) && (col =? 0)
    then Some (String.String CR (String.String LF String.EmptyString))
    else if (row_diff =? 0) && (col =? 0) && (0 <? last_col)
    then Some (String.String CR String.EmptyString)
    else
      let buf := (vertical_move row_diff ++ horizontal_move col_diff)%string in
      if 0 <? slen buf then Some buf else None
  else None.

(** [tui_move_cached].  The runtime cache and the dynamic formatting
    produce the same bytes for a position, so they share a branch. *)
Definition tui_move_cached (s : engine) (row col : Z) : engine :=
  let cc := cursor_cache s in
  if (row =? last_row cc) && (col =? last_col cc) then s
  else
    let moved seq :=
      emit (ECursor seq)
           (with_cursor_cache (mk_cursor (cc_initialized cc) row col) s) in
    match (if (0 <=? last_row cc) && (0 <=? last_col cc)
           then relative_move (last_row cc) (last_col cc) row col
           else None) with
    | Some seq => moved seq
    | None =>
        let pool_idx := get_cursor_pool_index row col in
        if AttrSeq.precomputed_initialized (esc_seq_cache s)
           && (0 <=? pool_idx) && (pool_idx <? CURSOR_POS_POOL_SIZE)
        then moved (cursor_positions pool_idx)
        else moved (cursor_seq row col)
    end.

Definition set_last_col (s : engine) (col : Z) : engine :=
  with_cursor_cache
    (mk_cursor (cc_initialized (cursor_cache s)) (last_row (cursor_cache s)) col)
    s.

(** [reset_cursor_tracking] and [reset_attr_state]. *)
Definition reset_cursor_tracking (s : engine) : engine :=
  with_cursor_cache (mk_cursor (cc_initialized (cursor_cache s)) (-1) (-1)) s.

Definition reset_attr_state (s : engine) : engine :=
  with_attr_state (mk_attr_state (-1) (-1) (-1) false) s.

(** ** Attributes *)

Definition TUI_PAIR_NUMBER (a : Z) : Z := Z.land (Z.shiftr a 8) 0xFF.

Definition TUI_COLOR_PAIR (n : Z) : Z := Z.shiftl n 8.

(** [get_pair_colors]: the two output parameters. *)
Definition get_pair_colors (c : ColorPair.color_pair_cache_t) (pair : Z)
  : Z * Z :=
  if pair =? 0 then (TUI_COLOR_WHITE, TUI_COLOR_BLACK)
  else if (0 <? pair) && (pair <? TUI_COLOR_PAIRS)
       then ColorPair.color_pairs c pair
       else
         match find (fun n => ColorPair.pair_num n =? pair)
                    (ColorPair.nodes c) with
         | Some n => (ColorPair.fg n, ColorPair.bg n)
         | None => (TUI_COLOR_WHITE, TUI_COLOR_BLACK)
         end.

(** The entries of [precomputed.basic_colors]: eight foreground
    sequences, then eight background sequences.  Another index is
    outside the array. *)
Definition basic_colors (i : Z) : option String.string :=
  if (0 <=? i) && (i <? 8) then Some (esc ("[3" ++ fmt_d i ++ "m")%string)
  else if (8 <=? i) && (i <? 16)
       then Some (esc ("[4" ++ fmt_d (i - 8) ++ "m")%string)
       else None.

Definition tail (s : String.string) : String.string :=
  match s with
  | String.String _ t => t
  | String.EmptyString => String.EmptyString
  end.

(** The sequence that [apply_attributes] builds itself when the cache
    returns [NULL]. *)
Definition fallback_attr_sequence (s : engine) (fg bg text_attrs : Z)
  : option String.string :=
  let pre := AttrSeq.precomputed_initialized (esc_seq_cache s) in
  fgs <- (if negb (fg =? TUI_COLOR_WHITE)
             || negb (as_initialized (attr_state s))
          then
            if (fg <? 8) && pre
            then c <- basic_colors fg ;; Some (tail c)
            else if (8 <=? fg) && (fg <? AttrSeq.MAX_CUSTOM_COLORS)
            then Some (AttrSeq.rgb_param "38"
                         (AttrSeq.custom_color (color_defs s) fg))
            else if fg <? 8 then Some (";3" ++ fmt_d fg)%string
            else Some ""%string
          else Some ""%string) ;;
  bgs <- (if negb (bg =? TUI_COLOR_BLACK)
          then
            if (bg <? 8) && pre
            then c <- basic_colors (bg + 8) ;; Some (tail c)
            else if (8 <=? bg) && (bg <? AttrSeq.MAX_CUSTOM_COLORS)
            then Some (AttrSeq.rgb_param "48"
                         (AttrSeq.custom_color (color_defs s) bg))
            else if bg <? 8 then Some (";4" ++ fmt_d bg)%string
            else Some ""%string
          else Some ""%string) ;;
  Some (esc ("[0" ++ AttrSeq.bold_param text_attrs ++ fgs ++ bgs ++ "m")%string).

(** [apply_attributes].  The sequence written is taken from the bytes
    view of the cache ([AttrSeq]): the bytes at the pointer
    [get_cached_attr_sequence] returns.  That is what the code writes as
    long as the pointer is a pool entry's, which it is until the
    interning pool is full (module [SeqPtr]). *)
Definition apply_attributes (s : engine) (attr : Z) : option engine :=
  let '(fg, bg) :=
    if colors_initialized s && negb (Z.land attr TUI_A_COLOR =? 0)
    then get_pair_colors (color_pair_cache s) (TUI_PAIR_NUMBER attr)
    else (TUI_COLOR_WHITE, TUI_COLOR_BLACK) in
  let text_attrs := Z.land attr (Z.lnot TUI_A_COLOR) in
  let st := attr_state s in
  if as_initialized st && (last_fg st =? fg) && (last_bg st =? bg)
     && (last_attrs st =? text_attrs)
  then Some s
  else
    let '(cached, cache') :=
      AttrSeq.get_cached_attr_sequence (color_defs s) (esc_seq_cache s)
                                       fg bg text_attrs in
    seq <- match cached with
           | Some (seq, _) => Some seq
           | None => fallback_attr_sequence s fg bg text_attrs
           end ;;
    Some (with_attr_state (mk_attr_state fg bg text_attrs true)
            (emit (EAttr seq) (with_esc_seq_cache cache' s))).

(** ** Output of a run *)

(** The copy loop of [output_buffered_run]: the characters collected and
    the snapshot committed, cell by cell. *)
Fixpoint copy_run (g : grid_t) (y : Z) (xs : list Z)
  : option (list Z * grid_t) :=
  match xs with
  | [] => Some ([], g)
  | x :: tl =>
      g1 <- commit_cell g y x ;;
      r <- copy_run g1 y tl ;;
      Some (screen_buf g y x :: fst r, snd r)
  end.

(** [output_buffered_run] with [output_buffered_run_vectored].  The
    vectored variant repositions the cursor only for a run that fits its
    buffer of 512 bytes; the other variant always does.  Both commit the
    cells of the run and leave the cursor column behind the run. *)
Definition output_buffered_run (s : engine) (y start_x end_x : Z)
  : option engine :=
  let run_len := end_x - start_x + 1 in
  let repositions := if use_writev s then run_len <=? 512 else true in
  let s1 := if repositions && negb (last_col (cursor_cache s) =? start_x)
            then tui_move_cached s y start_x else s in
  r <- copy_run (grid s1) y (zrange start_x (Z.to_nat run_len)) ;;
  Some (set_last_col
          (emit (ERun y start_x end_x (fst r)) (with_grid (snd r) s1))
          (end_x + 1)).

(** The three steps every scanner performs on a run it has found, and
    the cursor column it records afterwards. *)
Definition render_run (s : engine) (y start_x end_x curr_attr : Z)
  : option engine :=
  let s1 := tui_move_cached s y start_x in
  s2 <- apply_attributes s1 curr_attr ;;
  s3 <- output_buffered_run s2 y start_x end_x ;;
  Some (set_last_col s3 (end_x + 1)).


(** ** The scanners *)

(** A scanner threads the engine and the local [has_changes] flag of
    [tui_refresh]. *)
Definition scan_state : Type := engine * bool.

(** The assignments [if (v > bound) v = bound] and
    [if (v < bound) v = bound]. *)
Definition clamp_hi (v bound : Z) : Z := if bound <? v then bound else v.
Definition clamp_lo (v bound : Z) : Z := if v <? bound then bound else v.

(** The run-extension loop of [scan_l1_tile]: the run grows while the
    next cell is inside the tile and the scan region, has the run's
    attribute and has changed.  [fuel] bounds the iterations by the
    width left. *)
Fixpoint tile_run_end (fuel : nat) (g : grid_t)
  (y end_x end_col scan_max_col curr_attr : Z) : option Z :=
  match fuel with
  | O => Some end_x
  | S f =>
      if (end_x + 1 <? end_col) && (end_x + 1 <=? scan_max_col) then
        a <- attr_at g y (end_x + 1) ;;
        if a =? curr_attr then
          ch <- cell_changed g y (end_x + 1) ;;
          if ch
          then tile_run_end f g y (end_x + 1) end_col scan_max_col curr_attr
          else Some end_x
        else Some end_x
      else Some end_x
  end.

(** The [while (x < end_col)] loop of [scan_l1_tile] on one row. *)
Fixpoint scan_tile_row (fuel : nat) (y x end_col scan_max_col : Z)
  (st : scan_state) : option scan_state :=
  match fuel with
  | O => Some st
  | S f =>
      if x <? end_col then
        let s := fst st in
        ch <- cell_changed (grid s) y x ;;
        if ch then
          curr_attr <- attr_at (grid s) y x ;;
          end_x <- tile_run_end (Z.to_nat (end_col - x)) (grid s) y x end_col
                                scan_max_col curr_attr ;;
          s' <- render_run s y x end_x curr_attr ;;
          scan_tile_row f y (end_x + 1) end_col scan_max_col (s', true)
        else scan_tile_row f y (x + 1) end_col scan_max_col st
      else Some st
  end.

(** The rectangle of cells [scan_l1_tile] walks: the tile, cut at the
    buffer, at the terminal and at the scan region.  Rows [fst]..,
    columns [snd]..; each upper end is exclusive. *)
Definition tile_rows (s : engine) (tile_row scan_min_row scan_max_row : Z)
  : Z * Z :=
  let start_row := tile_row * Dirty.TILE_L1_SIZE in
  let end_row := (tile_row + 1) * Dirty.TILE_L1_SIZE in
  let end_row := clamp_hi end_row (buf_rows (grid s)) in
  let end_row := clamp_hi end_row (tui_lines s) in
  let start_row := clamp_lo start_row scan_min_row in
  let end_row := clamp_hi end_row (scan_max_row + 1) in
  (start_row, end_row).

Definition tile_cols (s : engine) (tile_col scan_min_col scan_max_col : Z)
  : Z * Z :=
  let start_col := tile_col * Dirty.TILE_L1_SIZE in
  let end_col := (tile_col + 1) * Dirty.TILE_L1_SIZE in
  let end_col := clamp_hi end_col (buf_cols (grid s)) in
  let end_col := clamp_hi end_col (tui_cols s) in
  let start_col := clamp_lo start_col scan_min_col in
  let end_col := clamp_hi end_col (scan_max_col + 1) in
  (start_col, end_col).

(** [scan_l1_tile]. *)
Definition scan_l1_tile (st : scan_state)
  (tile_row tile_col scan_min_row scan_max_row scan_min_col scan_max_col : Z)
  : option scan_state :=
  let s := fst st in
  let '(start_row, end_row) := tile_rows s tile_row scan_min_row scan_max_row in
  let '(start_col, end_col) := tile_cols s tile_col scan_min_col scan_max_col in
  ofold (fun st y =>
           scan_tile_row (Z.to_nat (end_col - start_col)) y start_col end_col
                         scan_max_col st)
        (zrange start_row (Z.to_nat (end_row - start_row)))
        st.

(** The run-extension loop of the linear scanner, which bridges up to
    three unchanged cells. *)
Definition MAX_GAP : Z := 3.

Fixpoint linear_run_end (fuel : nat) (g : grid_t)
  (y end_x unchanged_gap curr_attr cols : Z) : option Z :=
  match fuel with
  | O => Some end_x
  | S f =>
      if (end_x + 1 <? buf_cols g) && (end_x + 1 <? cols) then
        a <- attr_at g y (end_x + 1) ;;
        if a =? curr_attr then
          ch <- cell_changed g y (end_x + 1) ;;
          if ch then linear_run_end f g y (end_x + 1) 0 curr_attr cols
          else if unchanged_gap <? MAX_GAP
               then linear_run_end f g y (end_x + 1) (unchanged_gap + 1)
                                   curr_attr cols
               else Some end_x
        else Some end_x
      else Some end_x
  end.

(** The loop that trims trailing unchanged cells off a run. *)
Fixpoint trim_run (fuel : nat) (g : grid_t) (y x end_x : Z) : option Z :=
  match fuel with
  | O => Some end_x
  | S f =>
      if x <? end_x then
        ch <- cell_changed g y end_x ;;
        if ch then Some end_x else trim_run f g y x (end_x - 1)
      else Some end_x
  end.

(** The [while] loop of the linear scanner on one row. *)
Fixpoint scan_linear_row (fuel : nat) (y x scan_max_col : Z) (st : scan_state)
  : option scan_state :=
  match fuel with
  | O => Some st
  | S f =>
      let s := fst st in
      let g := grid s in
      if (x <=? scan_max_col) && (x <? buf_cols g) && (x <? tui_cols s) then
        ch <- cell_changed g y x ;;
        if ch then
          curr_attr <- attr_at g y x ;;
          e <- linear_run_end (Z.to_nat (buf_cols g - x)) g y x 0 curr_attr
                              (tui_cols s) ;;
          end_x <- trim_run (Z.to_nat (e - x)) g y x e ;;
          s' <- render_run s y x end_x curr_attr ;;
          scan_linear_row f y (end_x + 1) scan_max_col (s', true)
        else scan_linear_row f y (x + 1) scan_max_col st
      else Some st
  end.

(** The linear fallback of [tui_refresh]. *)
Definition scan_linear (st : scan_state)
  (scan_min_row scan_max_row scan_min_col scan_max_col : Z)
  : option scan_state :=
  ofold (fun st y =>
           let g := grid (fst st) in
           rc <- row_has_changes g y scan_min_col
                   (if scan_max_col <? buf_cols g
                    then scan_max_col else buf_cols g - 1) ;;
           if rc
           then scan_linear_row (Z.to_nat (scan_max_col - scan_min_col + 1))
                                y scan_min_col scan_max_col st
           else Some st)
        (zrange_incl scan_min_row scan_max_row)
        st.

(** A tile of the given size meets the scan region. *)
Definition intersects (size row col : Z)
  (scan_min_row scan_max_row scan_min_col scan_max_col : Z) : bool :=
  let start_row := row * size in
  let end_row := start_row + size - 1 in
  let start_col := col * size in
  let end_col := start_col + size - 1 in
  (scan_min_row <=? end_row) && (start_row <=? scan_max_row)
  && (scan_min_col <=? end_col) && (start_col <=? scan_max_col).

(** Sparse scanning: the tiles of the L1 list, in list order. *)
Definition scan_sparse (st : scan_state)
  (scan_min_row scan_max_row scan_min_col scan_max_col : Z)
  : option scan_state :=
  ofold (fun st t =>
           if intersects Dirty.TILE_L1_SIZE (fst t) (snd t)
                         scan_min_row scan_max_row scan_min_col scan_max_col
           then scan_l1_tile st (fst t) (snd t)
                             scan_min_row scan_max_row scan_min_col scan_max_col
           else Some st)
        (Dirty.dirty_l1_tiles (dirty_region (fst st)))
        st.

(** Hierarchical scanning over the sparse lists: for every listed block
    that meets the scan region, the listed tiles inside it. *)
Definition scan_hier_sparse (st : scan_state)
  (scan_min_row scan_max_row scan_min_col scan_max_col : Z)
  : option scan_state :=
  let d := dirty_region (fst st) in
  let ratio := Z.quot Dirty.TILE_L2_SIZE Dirty.TILE_L1_SIZE in
  ofold (fun st b =>
           if intersects Dirty.TILE_L2_SIZE (fst b) (snd b)
                         scan_min_row scan_max_row scan_min_col scan_max_col
           then
             ofold (fun st t =>
                      if (Z.quot (fst t) ratio =? fst b)
                         && (Z.quot (snd t) ratio =? snd b)
                         && intersects Dirty.TILE_L1_SIZE (fst t) (snd t)
                              scan_min_row scan_max_row
                              scan_min_col scan_max_col
                      then scan_l1_tile st (fst t) (snd t)
                             scan_min_row scan_max_row
                             scan_min_col scan_max_col
                      else Some st)
                   (Dirty.dirty_l1_tiles d) st
           else Some st)
        (Dirty.dirty_l2_blocks d)
        st.

(** [has_l1_tile_changes] and [has_l2_block_changes], as called with
    the tiles enabled. *)
Definition has_l1_tile_changes (d : Dirty.dirty_t) (tile_row tile_col : Z)
  : bool :=
  if negb (Dirty.use_hierarchical_tiles d) then true
  else (tile_row <? Dirty.l1_tiles_y d) && (tile_col <? Dirty.l1_tiles_x d)
       && Dirty.l1_tiles d tile_row tile_col.

Definition has_l2_block_changes (d : Dirty.dirty_t) (block_row block_col : Z)
  : bool :=
  if negb (Dirty.use_hierarchical_tiles d) then true
  else (block_row <? Dirty.l2_blocks_y d) && (block_col <? Dirty.l2_blocks_x d)
       && Dirty.l2_blocks d block_row block_col.

(** Hierarchical scanning over the dense arrays, the branch taken with
    sparse tracking off. *)
Definition scan_hier_dense (st : scan_state)
  (scan_min_row scan_max_row scan_min_col scan_max_col : Z)
  : option scan_state :=
  let d := dirty_region (fst st) in
  let ratio := Z.quot Dirty.TILE_L2_SIZE Dirty.TILE_L1_SIZE in
  let l1_scan_start_row := Z.quot scan_min_row Dirty.TILE_L1_SIZE in
  let l1_scan_end_row := Z.quot scan_max_row Dirty.TILE_L1_SIZE in
  let l1_scan_start_col := Z.quot scan_min_col Dirty.TILE_L1_SIZE in
  let l1_scan_end_col := Z.quot scan_max_col Dirty.TILE_L1_SIZE in
  ofold (fun st l2_row =>
    ofold (fun st l2_col =>
      if negb (has_l2_block_changes d l2_row l2_col) then Some st
      else
        let l1_start_row := clamp_lo (l2_row * ratio) l1_scan_start_row in
        let l1_end_row :=
          clamp_hi (clamp_hi ((l2_row + 1) * ratio - 1) (Dirty.l1_tiles_y d - 1))
                   l1_scan_end_row in
        let l1_start_col := clamp_lo (l2_col * ratio) l1_scan_start_col in
        let l1_end_col :=
          clamp_hi (clamp_hi ((l2_col + 1) * ratio - 1) (Dirty.l1_tiles_x d - 1))
                   l1_scan_end_col in
        ofold (fun st l1_row =>
          ofold (fun st l1_col =>
            if negb (has_l1_tile_changes d l1_row l1_col) then Some st
            else scan_l1_tile st l1_row l1_col
                   scan_min_row scan_max_row scan_min_col scan_max_col)
            (zrange_incl l1_start_col l1_end_col) st)
          (zrange_incl l1_start_row l1_end_row) st)
      (zrange_incl (Z.quot scan_min_col Dirty.TILE_L2_SIZE)
                   (Z.quot scan_max_col Dirty.TILE_L2_SIZE)) st)
    (zrange_incl (Z.quot scan_min_row Dirty.TILE_L2_SIZE)
                 (Z.quot scan_max_row Dirty.TILE_L2_SIZE)) st.

(** ** [tui_refresh] *)

(** The scan region: the dirty rectangle cut at the buffer and at the
    terminal. *)
Definition scan_bounds (s : engine) : Z * Z * Z * Z :=
  let d := dirty_region s in
  let g := grid s in
  let scan_min_row := if 0 <=? Dirty.min_row d then Dirty.min_row d else 0 in
  let scan_max_row := if Dirty.max_row d <? buf_rows g
                      then Dirty.max_row d else buf_rows g - 1 in
  let scan_min_col := if 0 <=? Dirty.min_col d then Dirty.min_col d else 0 in
  let scan_max_col := if Dirty.max_col d <? buf_cols g
                      then Dirty.max_col d else buf_cols g - 1 in
  let scan_min_row := if scan_min_row <? tui_lines s
                      then scan_min_row else tui_lines s - 1 in
  let scan_max_row := if scan_max_row <? tui_lines s
                      then scan_max_row else tui_lines s - 1 in
  let scan_min_col := if scan_min_col <? tui_cols s
                      then scan_min_col else tui_cols s - 1 in
  let scan_max_col := if scan_max_col <? tui_cols s
                      then scan_max_col else tui_cols s - 1 in
  (scan_min_row, scan_max_row, scan_min_col, scan_max_col).

(** The adaptive choice between sparse and hierarchical scanning: the
    tracker with its frame counters updated, and [use_sparse_scanning].
    The counters are [uint64_t]. *)
Definition choose_strategy (d : Dirty.dirty_t)
  (scan_min_row scan_max_row scan_min_col scan_max_col : Z)
  : Dirty.dirty_t * bool :=
  let d := Dirty.with_frame_count ((Dirty.frame_count d + 1) mod 2 ^ 64) d in
  if Dirty.use_sparse_tracking d then
    let sparse_tile_count :=
      Z.of_nat (List.length (firstn 100 (Dirty.dirty_l1_tiles d))) in
    let scan_area := (scan_max_row - scan_min_row + 1)
                     * (scan_max_col - scan_min_col + 1) in
    let tile_area :=
      Z.quot scan_area (Dirty.TILE_L1_SIZE * Dirty.TILE_L1_SIZE) in
    let sparse_would_be_beneficial :=
      (0 <? sparse_tile_count) && (sparse_tile_count <? Z.quot tile_area 3) in
    let d := if sparse_would_be_beneficial
             then Dirty.with_sparse_beneficial_count
                    ((Dirty.sparse_beneficial_count d + 1) mod 2 ^ 64) d
             else d in
    let d := if Dirty.frame_count d mod 60 =? 0 then
               Dirty.with_sparse_beneficial_count 0
                 (if 30 <? Dirty.sparse_beneficial_count d
                  then Dirty.with_prefer_sparse_mode true d
                  else if Dirty.sparse_beneficial_count d <? 15
                       then Dirty.with_prefer_sparse_mode false d
                       else d)
             else d in
    (d, sparse_would_be_beneficial
        || (Dirty.prefer_sparse_mode d && (0 <? sparse_tile_count)
            && (sparse_tile_count <? Z.quot tile_area 2)))
  else (d, false).

(** The scan proper, by strategy. *)
Definition scan (use_sparse_scanning : bool) (st : scan_state)
  (scan_min_row scan_max_row scan_min_col scan_max_col : Z)
  : option scan_state :=
  let d := dirty_region (fst st) in
  if use_sparse_scanning
  then scan_sparse st scan_min_row scan_max_row scan_min_col scan_max_col
  else if Dirty.use_hierarchical_tiles d then
    if Dirty.use_sparse_tracking d
    then scan_hier_sparse st scan_min_row scan_max_row scan_min_col scan_max_col
    else scan_hier_dense st scan_min_row scan_max_row scan_min_col scan_max_col
  else scan_linear st scan_min_row scan_max_row scan_min_col scan_max_col.

(** What [tui_refresh] does after the scan: the reset sequence and the
    forced flush if something was rendered, then the reset of the dirty
    state. *)
Definition finish_refresh (st : scan_state) : engine :=
  let s := fst st in
  let s := if snd st
           then reset_attr_state
                  (with_auto_flush_enabled true (emit (EReset (esc "[0m")) s))
           else s in
  let s := with_auto_flush_enabled true s in
  with_dirty_region (Dirty.reset_dirty_region (dirty_region s)) s.

(** [tui_refresh] on the primary window: the return value and the
    engine afterwards; [None] when the call runs into undefined
    behaviour.  (The branch for other windows re-emits their dirty rows
    and is not modelled.) *)
Definition tui_refresh (s : engine) : option (Z * engine) :=
  if negb (allocated (grid s)) then Some (-1, s)
  else
    let s := with_auto_flush_enabled false s in
    if negb (Dirty.has_changes (dirty_region s))
    then Some (0, with_auto_flush_enabled true s)
    else
      s1 <- optimize_dirty_region s ;;
      let '(scan_min_row, scan_max_row, scan_min_col, scan_max_col) :=
        scan_bounds s1 in
      let '(d, use_sparse_scanning) :=
        choose_strategy (dirty_region s1)
                        scan_min_row scan_max_row scan_min_col scan_max_col in
      st <- scan use_sparse_scanning (with_dirty_region d s1, false)
                 scan_min_row scan_max_row scan_min_col scan_max_col ;;
      Some (0, finish_refresh st).


(** ** The drawing surface *)

(** [utf8_char_length]. *)
Definition utf8_char_length (byte : Z) : Z :=
  if byte <? 0x80 then 1
  else if Z.land byte 0xE0 =? 0xC0 then 2
  else if Z.land byte 0xF0 =? 0xE0 then 3
  else if Z.land byte 0xF8 =? 0xF0 then 4
  else 1.

(** [is_valid_utf8_sequence]: every length from one to four returns on
    its test of the first byte. *)
Definition is_valid_utf8_sequence (first len : Z) : bool :=
  if (len <=? 0) || (4 <? len) then false
  else if len =? 1 then first <? 0x80
  else if len =? 2 then (Z.land first 0xE0 =? 0xC0) && (0xC2 <=? first)
  else if len =? 3 then Z.land first 0xF0 =? 0xE0
  else (Z.land first 0xF8 =? 0xF0) && (first <=? 0xF4).

(** [utf8_display_width] returns 1 on every path. *)
Definition utf8_display_width (char_len : Z) : Z := 1.

(** Checked stores into the grids. *)
Definition store_cell (g : grid_t) (y x ch a : Z) : option grid_t :=
  if in_grid g y x
  then Some (with_attr_buf (upd2 (attr_buf g) y x a)
               (with_screen_buf (upd2 (screen_buf g) y x ch) g))
  else None.

Definition store_attr (g : grid_t) (y x a : Z) : option grid_t :=
  if in_grid g y x
  then Some (with_attr_buf (upd2 (attr_buf g) y x a) g)
  else None.

Definition store_char (g : grid_t) (y x ch : Z) : option grid_t :=
  if in_grid g y x
  then Some (with_screen_buf (upd2 (screen_buf g) y x ch) g)
  else None.

(** The invalidation [prev_screen_buf[y][x] = 0;
    prev_attr_buf[y][x] = 0xFFFFFFFF]. *)
Definition invalidate_cell (g : grid_t) (y x : Z) : option grid_t :=
  if in_grid g y x
  then Some (with_prev_attr_buf (upd2 (prev_attr_buf g) y x INVALID_ATTR)
               (with_prev_screen_buf (upd2 (prev_screen_buf g) y x 0) g))
  else None.

(** The mark of a continuation byte: [win->attr | 0x80000000], stored in
    an [int]. *)
Definition continuation_attr (a : Z) : Z := Z.lor a (- 2 ^ 31).

(** The stores of one character of the UTF-8 loop at a non-negative
    column: the leading byte, the continuation bytes that fit the row,
    the attribute, and the invalidation of the cells written. *)
Definition store_utf8 (g : grid_t) (a screen_y screen_x char_len : Z)
  (p : list Z) : option grid_t :=
  let width := Z.min char_len (buf_cols g - screen_x) in
  g1 <- store_char g screen_y screen_x (nth 0 p 0) ;;
  g2 <- (if char_len =? 1 then Some g1
         else ofold (fun g i =>
                       store_cell g screen_y (screen_x + i)
                                  (nth (Z.to_nat i) p 0) (continuation_attr a))
                    (zrange 1 (Z.to_nat (width - 1))) g1) ;;
  g3 <- store_attr g2 screen_y screen_x a ;;
  ofold (fun g i => invalidate_cell g screen_y (screen_x + i))
        (zrange 0 (Z.to_nat width)) g3.

(** The UTF-8 loop of [tui_print_at]: the grid and the column after the
    last character.  Each iteration consumes at least one byte, so the
    length of the text bounds the iterations. *)
Fixpoint print_utf8 (fuel : nat) (g : grid_t) (a screen_y screen_x : Z)
  (p : list Z) : option (grid_t * Z) :=
  match fuel with
  | O => Some (g, screen_x)
  | S f =>
      match p with
      | [] => Some (g, screen_x)
      | c :: _ =>
          if screen_x <? buf_cols g then
            let char_len := utf8_char_length c in
            let remaining := Z.of_nat (List.length p) in
            let char_len := if remaining <? char_len then 1 else char_len in
            let char_len :=
              if (1 <? char_len) && negb (is_valid_utf8_sequence c char_len)
              then 1 else char_len in
            g' <- (if 0 <=? screen_x
                   then store_utf8 g a screen_y screen_x char_len p
                   else Some g) ;;
            print_utf8 f g' a screen_y
                       (screen_x + utf8_display_width char_len)
                       (skipn (Z.to_nat char_len) p)
          else Some (g, screen_x)
      end
  end.

(** The byte-by-byte loop of [tui_print_at]. *)
Fixpoint print_bytes (g : grid_t) (a screen_y screen_x : Z) (p : list Z)
  : option (grid_t * Z) :=
  match p with
  | [] => Some (g, screen_x)
  | c :: tl =>
      if screen_x <? buf_cols g then
        g' <- (if 0 <=? screen_x
               then g1 <- store_cell g screen_y screen_x c a ;;
                    invalidate_cell g1 screen_y screen_x
               else Some g) ;;
        print_bytes g' a screen_y (screen_x + 1) tl
      else Some (g, screen_x)
  end.

(** The content of [buffer] after [vsnprintf]: the text up to its first
    NUL, cut to 1023 bytes. *)
Fixpoint c_string (text : list Z) : list Z :=
  match text with
  | [] => []
  | c :: tl => if c =? 0 then [] else c :: c_string tl
  end.

Definition formatted (text : list Z) : list Z := firstn 1023 (c_string text).

(** The assignment [win->dirty[y] = 1] under its guard. *)
Definition flag_dirty_row (win : tui_window_t) (y : Z) : option tui_window_t :=
  match dirty_rows win with
  | Some rows =>
      if y <? maxy win then
        if 0 <=? y then Some (with_dirty_rows (Some (upd rows y true)) win)
        else None
      else Some win
  | None => Some win
  end.

(** [tui_print_at] for a window and the formatted text: the return
    value, the engine and the window afterwards. *)
Definition tui_print_at (s : engine) (win : tui_window_t) (y x : Z)
  (text : list Z) : option (Z * engine * tui_window_t) :=
  let g := grid s in
  if negb (allocated g) then Some (-1, s, win)
  else
    let buffer := formatted text in
    let screen_y := begy win + y in
    let screen_x := begx win + x in
    if (screen_y <? 0) || (buf_rows g <=? screen_y) then Some (-1, s, win)
    else
      let start_x := screen_x in
      r <- (if supports_unicode s
            then print_utf8 (List.length buffer) g (attr win) screen_y screen_x
                            buffer
            else print_bytes g (attr win) screen_y screen_x buffer) ;;
      let screen_x := snd r in
      d <- (if start_x <? screen_x
            then Dirty.mark_dirty_region (dirty_region s) screen_y start_x
                                         screen_y (screen_x - 1)
            else Some (dirty_region s)) ;;
      win1 <- flag_dirty_row win y ;;
      Some (0, with_dirty_region d (with_grid (fst r) s),
            with_curx (screen_x - begx win) (with_cury y win1)).

(** [tui_print_at] on the primary window. *)
Definition print_at_stdscr (s : engine) (y x : Z) (text : list Z)
  : option (Z * engine) :=
  r <- tui_print_at s (tui_stdscr s) y x text ;;
  Some (fst (fst r), with_tui_stdscr (snd r) (snd (fst r))).

(** [tui_wattron] and [tui_wattroff]. *)
Definition tui_wattron (win : tui_window_t) (attrs : Z) : tui_window_t :=
  let a := if Z.land attrs TUI_A_COLOR =? 0 then attr win
           else Z.land (attr win) (Z.lnot TUI_A_COLOR) in
  with_attr (Z.lor a attrs) win.

Definition tui_wattroff (win : tui_window_t) (attrs : Z) : tui_window_t :=
  let a := if Z.land attrs TUI_A_COLOR =? 0 then attr win
           else Z.land (attr win) (Z.lnot TUI_A_COLOR) in
  with_attr (Z.land a (Z.lnot attrs)) win.

Definition wattron_stdscr (s : engine) (attrs : Z) : engine :=
  with_tui_stdscr (tui_wattron (tui_stdscr s) attrs) s.

Definition wattroff_stdscr (s : engine) (attrs : Z) : engine :=
  with_tui_stdscr (tui_wattroff (tui_stdscr s) attrs) s.

(** A grid with every allocated cell of the logical grid blank and
    normal, and every cell of the snapshot invalid. *)
Definition cleared (g : grid_t) : grid_t :=
  let inside y x := in_grid g y x in
  mk_grid (allocated g)
    (fun y x => if inside y x then SPACE else screen_buf g y x)
    (fun y x => if inside y x then TUI_A_NORMAL else attr_buf g y x)
    (fun y x => if inside y x then 0 else prev_screen_buf g y x)
    (fun y x => if inside y x then INVALID_ATTR else prev_attr_buf g y x)
    (buf_rows g) (buf_cols g).

(** [tui_clear_screen]. *)
Definition tui_clear_screen (s : engine) : option (Z * engine) :=
  let g := grid s in
  if negb (allocated g) then Some (-1, s)
  else
    d <- Dirty.mark_dirty_region (dirty_region s) 0 0
                                 (buf_rows g - 1) (buf_cols g - 1) ;;
    Some (0, reset_attr_state
               (reset_cursor_tracking
                  (with_dirty_region d
                     (with_tui_stdscr
                        (with_curx 0 (with_cury 0 (tui_stdscr s)))
                        (with_grid (cleared g) s))))).

(** The body of [tui_clear_window] for one cell of the window. *)
Definition clear_cell (win : tui_window_t) (screen_y : Z) (s : engine) (x : Z)
  : option engine :=
  let g := grid s in
  let screen_x := begx win + x in
  if (0 <=? screen_x) && (screen_x <? buf_cols g) then
    g1 <- store_cell g screen_y screen_x SPACE (bkgd win) ;;
    g2 <- invalidate_cell g1 screen_y screen_x ;;
    d <- Dirty.mark_dirty (dirty_region s) screen_y screen_x ;;
    Some (with_dirty_region d (with_grid g2 s))
  else Some s.

(** [tui_clear_window]. *)
Definition tui_clear_window (s : engine) (win : tui_window_t)
  : option (Z * engine * tui_window_t) :=
  if negb (allocated (grid s)) then Some (-1, s, win)
  else
    r <- ofold (fun (sw : engine * tui_window_t) y =>
                  let s := fst sw in
                  let screen_y := begy win + y in
                  s' <- (if (0 <=? screen_y) && (screen_y <? buf_rows (grid s))
                         then ofold (clear_cell win screen_y)
                                    (zrange 0 (Z.to_nat (maxx win))) s
                         else Some s) ;;
                  w' <- match dirty_rows (snd sw) with
                        | Some rows =>
                            Some (with_dirty_rows (Some (upd rows y true))
                                                  (snd sw))
                        | None => Some (snd sw)
                        end ;;
                  Some (s', w'))
               (zrange 0 (Z.to_nat (maxy win))) (s, win) ;;
    Some (0, fst r, with_curx 0 (with_cury 0 (snd r))).

Definition clear_window_stdscr (s : engine) : option (Z * engine) :=
  r <- tui_clear_window s (tui_stdscr s) ;;
  Some (fst (fst r), with_tui_stdscr (snd r) (snd (fst r))).

(** [handle_resize]: [ws] is what [ioctl(TIOCGWINSZ)] reports, rows
    first, or [None] when it fails. *)
Definition get_terminal_size (ws : option (Z * Z)) : Z * Z :=
  match ws with
  | Some (ws_row, ws_col) => (ws_row, ws_col)
  | None => (24, 80)
  end.

Definition handle_resize (s : engine) (ws : option (Z * Z)) : engine :=
  let '(lines, cols) := get_terminal_size ws in
  let s := with_tui_cols cols (with_tui_lines lines s) in
  with_tui_stdscr (with_maxx cols (with_maxy lines (tui_stdscr s))) s.

(** [allocate_buffers]: blank logical grid, invalid snapshot. *)
Definition allocate_buffers (rows cols : Z) : grid_t :=
  mk_grid true
    (fun _ _ => SPACE) (fun _ _ => 0)
    (fun _ _ => 0) (fun _ _ => INVALID_ATTR)
    rows cols.

(** The engine as a successful [tui_init] leaves it on a terminal of
    the given size ([None]: the size query fails and 24x80 is assumed).
    The trace of emissions starts here. *)
Definition tui_init (ws : option (Z * Z)) (unicode : bool) : engine :=
  let '(lines, cols) := get_terminal_size ws in
  mk_engine
    (allocate_buffers lines cols)
    lines cols
    (mk_window 0 0 lines cols 0 0 TUI_A_NORMAL TUI_A_NORMAL None)
    (Dirty.init_dirty cols lines)
    (mk_cursor true (-1) (-1))
    (mk_attr_state (-1) (-1) (-1) false)
    false
    ColorPair.init_color_pair_cache
    AttrSeq.color_defs_init
    (AttrSeq.init_esc_seq_cache AttrSeq.color_defs_init)
    unicode
    true true [].

(** [tui_start_color]. *)
Definition tui_start_color (s : engine) : engine :=
  let c := color_pair_cache s in
  with_color_pair_cache
    (ColorPair.mk_cache (ColorPair.table c) (ColorPair.next_pair c)
       (ColorPair.allocated_count c) (ColorPair.nodes c)
       (ColorPair.node_count c) (ColorPair.node_used c)
       (ColorPair.cache_hits c) (ColorPair.cache_misses c)
       (ColorPair.hash_collisions c) (ColorPair.common_pairs c)
       ColorPair.color_pairs_default)
    (with_colors_initialized true s).


(** ** Notions used to state the properties of a refresh *)

(** The scan region [tui_refresh] derives from the dirty rectangle:
    (scan_min_row, scan_max_row, scan_min_col, scan_max_col) after the
    rectangle has been tightened. *)
Definition scan_region (s : engine) : option (Z * Z * Z * Z) :=
  s1 <- optimize_dirty_region s ;;
  Some (scan_bounds s1).

(** The cell lies in the region. *)
Definition in_region (reg : Z * Z * Z * Z) (r c : Z) : Prop :=
  let '(scan_min_row, scan_max_row, scan_min_col, scan_max_col) := reg in
  scan_min_row <= r <= scan_max_row /\ scan_min_col <= c <= scan_max_col.

(** The tile and the block of a cell are on the sparse lists. *)
Definition tile_listed (d : Dirty.dirty_t) (r c : Z) : Prop :=
  In (Z.quot r Dirty.TILE_L1_SIZE, Z.quot c Dirty.TILE_L1_SIZE)
     (Dirty.dirty_l1_tiles d) /\
  In (Z.quot r Dirty.TILE_L2_SIZE, Z.quot c Dirty.TILE_L2_SIZE)
     (Dirty.dirty_l2_blocks d).

(** The scan visits the cell whatever strategy it takes: either sparse
    tracking is on and the cell's tile and block are listed, or the
    tiles are off with nothing listed, which leaves linear scanning. *)
Definition cell_tracked (d : Dirty.dirty_t) (r c : Z) : Prop :=
  (Dirty.use_sparse_tracking d = true /\ tile_listed d r c) \/
  (Dirty.use_hierarchical_tiles d = false /\ Dirty.dirty_l1_tiles d = []).

(** Counts over a sequence of emissions. *)
Definition is_cursor (e : emission) : bool :=
  match e with ECursor _ => true | _ => false end.
Definition is_attr (e : emission) : bool :=
  match e with EAttr _ => true | _ => false end.
Definition is_run (e : emission) : bool :=
  match e with ERun _ _ _ _ => true | _ => false end.

Definition count (p : emission -> bool) (l : list emission) : Z :=
  Z.of_nat (List.length (filter p l)).

(** At most one cursor positioning and one rendition sequence per
    run. *)
Definition one_per_run (l : list emission) : Prop :=
  count is_cursor l <= count is_run l /\ count is_attr l <= count is_run l.

(** The grid moves forward: same extents and logical content, and no
    converged cell diverges again. *)
Definition grid_step (g g' : grid_t) : Prop :=
  allocated g' = allocated g /\
  buf_rows g' = buf_rows g /\ buf_cols g' = buf_cols g /\
  screen_buf g' = screen_buf g /\ attr_buf g' = attr_buf g /\
  (forall y x, differs g y x = false -> differs g' y x = false).

(** One or more steps of a scanner: the grid moves forward, the terminal
    size, the dirty record and the output path stay, and the emissions
    added keep to one cursor positioning and one rendition sequence per
    run. *)
Definition scan_step (s s' : engine) : Prop :=
  grid_step (grid s) (grid s') /\
  tui_lines s' = tui_lines s /\ tui_cols s' = tui_cols s /\
  dirty_region s' = dirty_region s /\ use_writev s' = use_writev s /\
  exists new, out s' = out s ++ new /\ one_per_run new.

(** The same between scanner states. *)
Definition st_step (st st' : scan_state) : Prop :=
  scan_step (fst st) (fst st').

(** The cells of a row segment have converged. *)
Definition row_converged (g : grid_t) (y lo hi : Z) : Prop :=
  forall x, lo <= x < hi -> differs g y x = false.

(** The cells of a rectangle have converged (upper ends exclusive). *)
Definition rect_converged (g : grid_t) (rows cols : Z * Z) : Prop :=
  forall y x, fst rows <= y < snd rows -> fst cols <= x < snd cols ->
              differs g y x = false.


(** ** Concrete runs *)

(** The engine after an operation, for runs that are known to succeed. *)
Definition after (r : option (Z * engine)) (fallback : engine) : engine :=
  match r with
  | Some (_, s) => s
  | None => fallback
  end.

Definition refreshed (s : engine) : engine := after (tui_refresh s) s.

(** The emissions a refresh of [s] adds to the trace. *)
Definition emitted (s : engine) : list emission :=
  skipn (List.length (out s)) (out (refreshed s)).

(** A standard terminal of 24 lines and 80 columns, right after
    initialisation. *)
Definition term_80x24 : engine := tui_init (Some (24, 80)) false.

(** [tui_print_at(tui_stdscr, 0, 0, "X")] on it. *)
Definition one_cell : engine :=
  after (print_at_stdscr term_80x24 0 0 [88]) term_80x24.

(** Two cells written far apart: "X" at (0, 0) and "Y" at (20, 70). *)
Definition far_apart : engine :=
  after (print_at_stdscr one_cell 20 70 [89]) one_cell.

(** The terminal after [tui_clear_screen] and a refresh: the snapshot
    equals the logical grid everywhere. *)
Definition clean_screen : engine :=
  refreshed (after (tui_clear_screen term_80x24) term_80x24).

(** Three adjacent cells written with the attributes normal, bold,
    normal. *)
Definition three_cells : engine :=
  let s1 := after (print_at_stdscr clean_screen 0 0 [65]) clean_screen in
  let s2 := after (print_at_stdscr (wattron_stdscr s1 TUI_A_BOLD) 0 1 [66]) s1 in
  after (print_at_stdscr (wattroff_stdscr s2 TUI_A_BOLD) 0 2 [67]) s2.

(** Line 5 rewritten from column 0 to column 79 with one attribute. *)
Definition full_row : engine :=
  after (print_at_stdscr clean_screen 5 0 (repeat 120 80)) clean_screen.

(** A resize notification, then a blank printed one column left of the
    screen, as draw_block does for an object that leaves the screen. *)
Definition off_screen_print : engine :=
  let s := handle_resize term_80x24 (Some (30, 100)) in
  after (print_at_stdscr s 0 (-1) [32]) s.

(** The cells of the buffer where the logical grid and the snapshot
    differ, row by row. *)
Definition differing_cells (g : grid_t) : list (Z * Z) :=
  flat_map (fun y =>
              map (fun x => (y, x))
                  (filter (differs g y) (zrange 0 (Z.to_nat (buf_cols g)))))
           (zrange 0 (Z.to_nat (buf_rows g))).

(** The distinct attribute values among them. *)
Definition distinct_attrs (g : grid_t) : list Z :=
  nodup Z.eq_dec (map (fun p => attr_buf g (fst p) (snd p)) (differing_cells g)).

End Engine.

(** * The write path of the output buffer *)

Module Output.
Import Writev.

Definition OUTPUT_BUFFER_SIZE : Z := 8192.
Definition BUFFER_FLUSH_THRESHOLD : Z := Z.quot (OUTPUT_BUFFER_SIZE * 3) 4.

(** [tui_write_vectored].  [os1] lists what [writev] reports during the
    flush that makes room, [os2] during the automatic flush after the
    append.  The result is the bytes handed to the descriptor and the
    buffer afterwards; it is [None] when a flush is still retrying at
    the end of its reports, and when the copy of the chunk would run
    past the data pool or the vector array. *)
Definition tui_write_vectored (os1 os2 : list writev_result)
  (b : writev_buffer_t) (data : list Z)
  : option (list Z * writev_buffer_t) :=
  let len := iov_len data in
  r1 <- (if (MAX_IOVECS <=? count b)
            || (WRITEV_DATA_POOL_SIZE <? data_pool_used b + len)
         then r <- tui_flush_vectored os1 b ;; Some (snd (fst r), snd r)
         else Some ([], b)) ;;
  let b1 := snd r1 in
  if (data_pool_used b1 + len <=? WRITEV_DATA_POOL_SIZE)
     && (count b1 <? MAX_IOVECS)
  then
    let b2 := append_span b1 data in
    if auto_flush_enabled b2
       && ((VEC_FLUSH_THRESHOLD <=? count b2)
           || (WRITEV_BUFFER_SIZE <=? total_bytes b2))
    then r <- tui_flush_vectored os2 b2 ;; Some (fst r1 ++ snd (fst r), snd r)
    else Some (fst r1, b2)
  else None.

(** The reports let every flush come to an end. *)
Definition responsive (os : list writev_result) : Prop :=
  forall vecs total written emitted,
    flush_loop os vecs total written emitted <> None.

(** The counters of a buffer agree with its spans and respect the fixed
    sizes. *)
Definition buf_ok (b : writev_buffer_t) : Prop :=
  count b <= MAX_IOVECS /\
  total_bytes b = Z.of_nat (length (content b)) /\
  data_pool_used b = total_bytes b /\
  data_pool_used b <= WRITEV_DATA_POOL_SIZE.

(** The fallback [output_buffer]; [len] is the length of [data]. *)
Record output_buffer_t := mk_out {
  data : list Z;
  ob_auto_flush_enabled : bool
}.

Definition len (b : output_buffer_t) : Z := Z.of_nat (length (data b)).

(** The loop [while (written < len)] around [write(2)], shared by the
    fallback branches of [tui_flush] and [tui_write].  A positive report
    takes that many bytes from the front of what is pending; a report of
    zero and an interruption are retried; another error ends the loop.
    [None]: the loop is still running when the reports run out. *)
Fixpoint write_loop (os : list writev_result) (pending emitted : list Z)
  {struct os} : option (list Z) :=
  match pending with
  | [] => Some emitted
  | _ :: _ =>
      match os with
      | [] => None
      | Written n :: os' =>
          if 0 <? n
          then write_loop os' (skipn (Z.to_nat n) pending)
                          (emitted ++ firstn (Z.to_nat n) pending)
          else write_loop os' pending emitted
      | Eintr :: os' => write_loop os' pending emitted
      | Failed :: _ => Some emitted
      end
  end.

(** The fallback branch of [tui_flush]. *)
Definition tui_flush_fallback (os : list writev_result) (b : output_buffer_t)
  : option (list Z * output_buffer_t) :=
  if 0 <? len b then
    e <- write_loop os (data b) [] ;;
    Some (e, mk_out [] (ob_auto_flush_enabled b))
  else Some ([], b).

(** The end of the fallback branch of [tui_write]: the chunk is copied
    behind the buffered bytes, and the buffer flushed when it reaches
    the threshold. *)
Definition buffer_chunk (os : list writev_result) (sent : list Z)
  (b : output_buffer_t) (chunk : list Z)
  : option (list Z * output_buffer_t) :=
  if len b + iov_len chunk <=? OUTPUT_BUFFER_SIZE then
    let b1 := mk_out (data b ++ chunk) (ob_auto_flush_enabled b) in
    if ob_auto_flush_enabled b1 && (BUFFER_FLUSH_THRESHOLD <=? len b1)
    then r <- tui_flush_fallback os b1 ;; Some (sent ++ fst r, snd r)
    else Some (sent, b1)
  else None.

(** The fallback branch of [tui_write].  [os1] serves the flush that
    makes room, [os2] the direct write of a chunk larger than the
    buffer, [os3] the flush at the threshold. *)
Definition tui_write_fallback (os1 os2 os3 : list writev_result)
  (b : output_buffer_t) (chunk : list Z)
  : option (list Z * output_buffer_t) :=
  if OUTPUT_BUFFER_SIZE <? len b + iov_len chunk then
    r1 <- tui_flush_fallback os1 b ;;
    if OUTPUT_BUFFER_SIZE <? iov_len chunk then
      e <- write_loop os2 chunk [] ;;
      Some (fst r1 ++ e, snd r1)
    else buffer_chunk os3 (fst r1) (snd r1) chunk
  else buffer_chunk os3 [] b chunk.

(** The bytes a list of reports accepts in all. *)
Fixpoint progress (os : list writev_result) : Z :=
  match os with
  | [] => 0
  | Written n :: os' => Z.max n 0 + progress os'
  | _ :: os' => progress os'
  end.

(** No report is an unrecoverable error. *)
Definition recoverable (os : list writev_result) : Prop := ~ In Failed os.

End Output.

(** * Interning of escape sequences *)

Module Intern.

Definition ESC_SEQ_POOL_SIZE : Z := 2048.
Definition ESC_SEQ_MAX_LEN : Z := 64.
Definition ESC_SEQ_HASH_SIZE : Z := 512.

(** [esc_seq_entry_t]; the [next] pointer is the tail of the chain. *)
Record esc_seq_entry_t := mk_entry {
  sequence : list Z;
  length : Z;
  hash : Z;
  ref_count : Z
}.

(** The interning part of [esc_seq_cache]: [hash_table] maps a bucket
    to its chain, head first. *)
Record intern_cache_t := mk_intern {
  initialized : bool;
  hash_table : Z -> list esc_seq_entry_t;
  pool_size : Z;
  pool_used : Z
}.

(** [hash_string]: the multiply-by-33 hash in [uint32_t], over the bytes
    as [unsigned char]. *)
Definition hash_string (str : list Z) : Z :=
  fold_left (fun hash c => (Z.shiftl hash 5 + hash + c mod 256) mod 2 ^ 32)
            str 5381.

(** [memcmp(entry->sequence, seq, len) == 0]. *)
Fixpoint bytes_eqb (a b : list Z) : bool :=
  match a, b with
  | [], [] => true
  | x :: a', y :: b' => (x =? y) && bytes_eqb a' b'
  | _, _ => false
  end.

(** The walk along a chain: the [len] bytes at [entry->sequence] of the
    first entry that matches, and the chain with that entry's reference
    count incremented. *)
Fixpoint chain_lookup (chain : list esc_seq_entry_t) (h len : Z) (seq : list Z)
  : option (list Z * list esc_seq_entry_t) :=
  match chain with
  | [] => None
  | e :: tl =>
      if (hash e =? h) && (length e =? len)
         && bytes_eqb (firstn (Z.to_nat len) (sequence e)) seq
      then Some (firstn (Z.to_nat len) (sequence e),
                 mk_entry (sequence e) (length e) (hash e) (ref_count e + 1)
                 :: tl)
      else match chain_lookup tl h len seq with
           | Some (s, tl') => Some (s, e :: tl')
           | None => None
           end
  end.

(** [intern_esc_sequence] for a sequence of [len] bytes: the [len]
    bytes the returned pointer refers to, and the cache afterwards. *)
Definition intern_esc_sequence (c : intern_cache_t) (seq : list Z)
  : list Z * intern_cache_t :=
  let len := Z.of_nat (List.length seq) in
  if negb (initialized c) || (ESC_SEQ_MAX_LEN <=? len) then (seq, c)
  else
    let h := hash_string seq in
    let bucket := h mod ESC_SEQ_HASH_SIZE in
    match chain_lookup (hash_table c bucket) h len seq with
    | Some (s, chain') =>
        (s, mk_intern (initialized c) (upd (hash_table c) bucket chain')
                      (pool_size c) (pool_used c))
    | None =>
        if pool_size c <=? pool_used c then (seq, c)
        else
          let entry := mk_entry seq len h 1 in
          (firstn (Z.to_nat len) (sequence entry),
           mk_intern (initialized c)
                     (upd (hash_table c) bucket (entry :: hash_table c bucket))
                     (pool_size c) (pool_used c + 1))
    end.

(** The interning part of the cache in [init_esc_seq_cache] once the
    hash table is cleared and the pool allocated, before anything is
    interned. *)
Definition empty_intern : intern_cache_t :=
  mk_intern true (fun _ => []) ESC_SEQ_POOL_SIZE 0.

End Intern.

(** * Explicit colour pairs *)

Module InitPair.
Import ColorPair.

Definition with_color_pairs (v : Z -> Z * Z) (c : color_pair_cache_t)
  : color_pair_cache_t :=
  mk_cache (table c) (next_pair c) (allocated_count c) (nodes c)
           (node_count c) (node_used c) (cache_hits c) (cache_misses c)
           (hash_collisions c) (common_pairs c) v.

(** [tui_init_pair]: the return value and the cache with the legacy
    array afterwards. *)
Definition tui_init_pair (c : color_pair_cache_t) (pair fg bg : Z)
  : Z * color_pair_cache_t :=
  if (pair <? 0) || (TUI_COLOR_PAIRS <=? pair) then (-1, c)
  else
    let c1 := with_color_pairs (upd (color_pairs c) pair (fg, bg)) c in
    if (0 <? pair) && (pair <? 10)
    then (0, snd (get_or_alloc_pair c1 fg bg))
    else (0, c1).

End InitPair.

(** * Registration of custom colours (draw.c) *)

Module Draw.

(** The call [tui_init_color(color_id, (r * 1000) / 255, (g * 1000) / 255,
    (b * 1000) / 255)] by which [draw_get_color_id] registers an RGB
    colour given in the range 0..255. *)
Definition register_color (defs : Z -> AttrSeq.color_def_t)
  (color_id r g b : Z) : Z -> AttrSeq.color_def_t :=
  AttrSeq.tui_init_color defs color_id
    (Z.quot (r * 1000) 255) (Z.quot (g * 1000) 255) (Z.quot (b * 1000) 255).

End Draw.

(** * The rendition cache with its pointers *)

Module SeqPtr.
Import Intern.

(** The bytes of a sequence. *)
Definition bytes_of (s : String.string) : list Z :=
  map (fun a => Z.of_nat (Ascii.nat_of_ascii a))
      (String.list_ascii_of_string s).

(** Where a pointer returned by [intern_esc_sequence] points: to the
    [sequence] of a pool entry, or to the buffer the caller passed.
    For [get_cached_attr_sequence] that buffer is its own [seq_buf],
    which no longer exists once the function has returned. *)
Inductive seq_ptr :=
| Pooled (bytes : list Z)
| Local (bytes : list Z).

(** The bytes at the pointer when it was returned. *)
Definition bytes_at (p : seq_ptr) : list Z :=
  match p with
  | Pooled b => b
  | Local b => b
  end.

(** The pointer outlives the call of [get_cached_attr_sequence] that
    returned it. *)
Definition alive (p : seq_ptr) : bool :=
  match p with
  | Pooled _ => true
  | Local _ => false
  end.

(** [intern_esc_sequence] with the pointer it returns. *)
Definition intern_ptr (c : intern_cache_t) (seq : list Z)
  : seq_ptr * intern_cache_t :=
  let len := Z.of_nat (List.length seq) in
  if negb (initialized c) || (ESC_SEQ_MAX_LEN <=? len) then (Local seq, c)
  else
    let h := hash_string seq in
    let bucket := h mod ESC_SEQ_HASH_SIZE in
    match chain_lookup (hash_table c bucket) h len seq with
    | Some (s, chain') =>
        (Pooled s,
         mk_intern (initialized c) (upd (hash_table c) bucket chain')
                   (pool_size c) (pool_used c))
    | None =>
        if pool_size c <=? pool_used c then (Local seq, c)
        else
          let entry := mk_entry seq len h 1 in
          (Pooled (firstn (Z.to_nat len) (Intern.sequence entry)),
           mk_intern (initialized c)
                     (upd (hash_table c) bucket (entry :: hash_table c bucket))
                     (pool_size c) (pool_used c + 1))
    end.

(** The sequence has an entry in the interning pool. *)
Definition interned (c : intern_cache_t) (seq : list Z) : bool :=
  let h := hash_string seq in
  match chain_lookup (hash_table c (h mod ESC_SEQ_HASH_SIZE)) h
                     (Z.of_nat (List.length seq)) seq with
  | Some _ => true
  | None => false
  end.

(** [attr_combo_entry_t] with its [sequence] pointer. *)
Record attr_combo_entry_t := mk_combo {
  e_fg : Z;
  e_bg : Z;
  e_attrs : Z;
  sequence : seq_ptr;
  seq_length : Z
}.

(** [esc_seq_cache]: the interning part, which holds the [initialized]
    flag, and the table of attribute combinations. *)
Record esc_seq_cache_t := mk_esc_cache {
  interns : intern_cache_t;
  attr_combo_table : Z -> list attr_combo_entry_t;
  attr_combo_pool_size : Z;
  attr_combo_pool_used : Z
}.

Fixpoint combo_find (chain : list attr_combo_entry_t) (fg bg attrs : Z)
  : option attr_combo_entry_t :=
  match chain with
  | [] => None
  | e :: tl =>
      if (e_fg e =? fg) && (e_bg e =? bg) && (e_attrs e =? attrs)
      then Some e else combo_find tl fg bg attrs
  end.

(** The combination has an entry in the table. *)
Definition served (c : esc_seq_cache_t) (fg bg attrs : Z) : bool :=
  match combo_find (attr_combo_table c (AttrSeq.combo_bucket fg bg attrs))
                   fg bg attrs with
  | Some _ => true
  | None => false
  end.

(** [get_cached_attr_sequence] with the pointer it returns and stores.
    The outer [None] is a sequence that does not fit [seq_buf] with its
    terminator; the inner one is the [NULL] of an uninitialised
    cache. *)
Definition get_cached_attr_sequence (defs : Z -> AttrSeq.color_def_t)
  (c : esc_seq_cache_t) (fg bg attrs : Z)
  : option (option (seq_ptr * Z) * esc_seq_cache_t) :=
  if negb (initialized (interns c)) then Some (None, c)
  else
    let bucket := AttrSeq.combo_bucket fg bg attrs in
    match combo_find (attr_combo_table c bucket) fg bg attrs with
    | Some e => Some (Some (sequence e, seq_length e), c)
    | None =>
        let seq_buf := bytes_of (AttrSeq.build_attr_sequence defs fg bg attrs) in
        let seq_len := Z.of_nat (List.length seq_buf) in
        if ESC_SEQ_MAX_LEN <=? seq_len then None
        else
          let r := intern_ptr (interns c) seq_buf in
          let interned_seq := fst r in
          let c' :=
            if attr_combo_pool_used c <? attr_combo_pool_size c
            then mk_esc_cache (snd r)
                   (upd (attr_combo_table c) bucket
                        (mk_combo fg bg attrs interned_seq seq_len
                         :: attr_combo_table c bucket))
                   (attr_combo_pool_size c) (attr_combo_pool_used c + 1)
            else mk_esc_cache (snd r) (attr_combo_table c)
                   (attr_combo_pool_size c) (attr_combo_pool_used c) in
          Some (Some (interned_seq, seq_len), c')
    end.

(** Every entry of the table points into the interning pool, at the
    sequence that would be built for its combination from the colour
    table [defs], and holds its length. *)
Definition entries_pooled (defs : Z -> AttrSeq.color_def_t)
  (c : esc_seq_cache_t) : Prop :=
  forall k e,
    In e (attr_combo_table c k) ->
    sequence e
    = Pooled (bytes_of (AttrSeq.build_attr_sequence defs (e_fg e) (e_bg e)
                                                    (e_attrs e))) /\
    seq_length e
    = Z.of_nat (List.length
                  (bytes_of (AttrSeq.build_attr_sequence defs (e_fg e) (e_bg e)
                                                         (e_attrs e)))).

(** The cache in [init_esc_seq_cache] once the tables are cleared and
    the pools allocated. *)
Definition empty_esc_cache : esc_seq_cache_t :=
  mk_esc_cache empty_intern (fun _ => []) AttrSeq.ATTR_COMBO_CACHE_SIZE 0.

Import String.

(** The sequences [init_esc_seq_cache] interns, in its order. *)
Definition PRECACHED : list String.string :=
  map Fmt.esc
      [ "[0m"; "[1m"; "[7m";
        "[30m"; "[31m"; "[32m"; "[33m"; "[34m"; "[35m"; "[36m"; "[37m";
        "[40m"; "[41m"; "[42m"; "[43m"; "[44m"; "[45m"; "[46m"; "[47m";
        "[0;37;40m"; "[1;37;40m"; "[7m"; "[1;7m"; "[0;30;47m";
        "[0;32m"; "[0;31m"; "[1;33m"; "[0;34m" ]%string.

(** The combinations it looks up to pre-populate the table. *)
Definition PREPOPULATED : list (Z * Z * Z) :=
  [ (TUI_COLOR_WHITE, TUI_COLOR_BLACK, TUI_A_NORMAL);
    (TUI_COLOR_WHITE, TUI_COLOR_BLACK, TUI_A_BOLD);
    (TUI_COLOR_BLACK, TUI_COLOR_WHITE, TUI_A_NORMAL);
    (TUI_COLOR_GREEN, TUI_COLOR_BLACK, TUI_A_NORMAL);
    (TUI_COLOR_RED, TUI_COLOR_BLACK, TUI_A_NORMAL);
    (TUI_COLOR_YELLOW, TUI_COLOR_BLACK, TUI_A_BOLD) ].

(** [init_esc_seq_cache] on a cache that is not initialised yet. *)
Definition init_esc_seq_cache (defs : Z -> AttrSeq.color_def_t)
  : option esc_seq_cache_t :=
  let i := fold_left (fun i s => snd (intern_ptr i (bytes_of s)))
                     PRECACHED empty_intern in
  ofold (fun c '(fg, bg, attrs) =>
           r <- get_cached_attr_sequence defs c fg bg attrs ;;
           Some (snd r))
        PREPOPULATED
        (mk_esc_cache i (fun _ => []) AttrSeq.ATTR_COMBO_CACHE_SIZE 0).

(** The bytes view of a cache: what [AttrSeq] keeps of it. *)
Definition entry_agrees (e : attr_combo_entry_t)
  (v : AttrSeq.attr_combo_entry_t) : Prop :=
  e_fg e = AttrSeq.e_fg v /\ e_bg e = AttrSeq.e_bg v /\
  e_attrs e = AttrSeq.e_attrs v /\
  bytes_at (sequence e) = bytes_of (AttrSeq.sequence v) /\
  seq_length e = AttrSeq.seq_length v.

Definition agrees (c : esc_seq_cache_t) (v : AttrSeq.esc_seq_cache_t)
  : Prop :=
  initialized (interns c) = AttrSeq.initialized v /\
  attr_combo_pool_size c = AttrSeq.attr_combo_pool_size v /\
  attr_combo_pool_used c = AttrSeq.attr_combo_pool_used v /\
  forall k,
    Forall2 entry_agrees (attr_combo_table c k) (AttrSeq.attr_combo_table v k).

End SeqPtr.

(** * Accounting of the tile pool *)

Module DirtyPool.
Import Dirty.

(** Every node is either on the free list or on one of the two sparse
    lists, and the counter of used nodes is the number of listed
    nodes. *)
Definition pool_acct (d : dirty_t) : Prop :=
  dirty_tile_pool_used d
  = Z.of_nat (length (dirty_l1_tiles d)) + Z.of_nat (length (dirty_l2_blocks d))
  /\ free_nodes d + dirty_tile_pool_used d = DIRTY_TILE_POOL_SIZE.

(** The dense tile arrays only gain entries, and the configuration
    stays. *)
Definition tiles_grow (d d' : dirty_t) : Prop :=
  conf_of d' = conf_of d /\
  (forall i j, l1_tiles d i j = true -> l1_tiles d' i j = true) /\
  (forall i j, l2_blocks d i j = true -> l2_blocks d' i j = true).

End DirtyPool.

(** * Refresh of a window other than the primary one *)

Module Window.
Import String Ascii Fmt Engine.

(** The test [sx >= 0 && sx < tui_cols && sx < buf_cols] on a screen
    column. *)
Definition col_visible (s : engine) (screen_x : Z) : bool :=
  (0 <=? screen_x) && (screen_x <? tui_cols s)
  && (screen_x <? buf_cols (grid s)).

(** The loop that extends a run while the next column of the window is
    on the screen and has the attribute of the run. *)
Fixpoint window_run_end (fuel : nat) (s : engine) (win : tui_window_t)
  (screen_y end_x curr_attr : Z) : option Z :=
  match fuel with
  | O => Some end_x
  | S f =>
      if end_x + 1 <? maxx win then
        let next_screen_x := begx win + end_x + 1 in
        if col_visible s next_screen_x then
          a <- attr_at (grid s) screen_y next_screen_x ;;
          if a =? curr_attr
          then window_run_end f s win screen_y (end_x + 1) curr_attr
          else Some end_x
        else Some end_x
      else Some end_x
  end.

(** The characters of a run, each handed to [tui_putchar] under the
    visibility test. *)
Definition window_run_chars (s : engine) (win : tui_window_t)
  (screen_y start_x end_x : Z) : option (list Z) :=
  ofold (fun acc i =>
           let sx := begx win + i in
           if col_visible s sx then
             if in_grid (grid s) screen_y sx
             then Some (acc ++ [screen_buf (grid s) screen_y sx])
             else None
           else Some acc)
        (zrange_incl start_x end_x) [].

(** The loop [while (x < win->maxx)] over one row of the window. *)
Fixpoint window_row (fuel : nat) (s : engine) (win : tui_window_t)
  (screen_y x : Z) : option engine :=
  match fuel with
  | O => Some s
  | S f =>
      if x <? maxx win then
        let screen_x := begx win + x in
        if negb (col_visible s screen_x)
        then window_row f s win screen_y (x + 1)
        else
          curr_attr <- attr_at (grid s) screen_y screen_x ;;
          end_x <- window_run_end (Z.to_nat (maxx win - x)) s win screen_y x
                                  curr_attr ;;
          let s1 := tui_move_cached s screen_y (begx win + x) in
          s2 <- apply_attributes s1 curr_attr ;;
          chars <- window_run_chars s2 win screen_y x end_x ;;
          let s3 :=
            set_last_col
              (emit (ERun screen_y (begx win + x) (begx win + end_x) chars) s2)
              (begx win + end_x + 1) in
          window_row f s3 win screen_y (end_x + 1)
      else Some s
  end.

(** One iteration of the loop over the rows of the window. *)
Definition window_line (sw : engine * tui_window_t) (y : Z)
  : option (engine * tui_window_t) :=
  let '(s, win) := sw in
  let is_dirty := match dirty_rows win with
                  | Some rows => rows y
                  | None => true
                  end in
  if is_dirty then
    let screen_y := begy win + y in
    s' <- (if (0 <=? screen_y) && (screen_y <? tui_lines s)
              && (screen_y <? buf_rows (grid s))
           then window_row (Z.to_nat (maxx win)) s win screen_y 0
           else Some s) ;;
    Some (s', match dirty_rows win with
              | Some rows => with_dirty_rows (Some (upd rows y false)) win
              | None => win
              end)
  else Some sw.

(** [tui_refresh] on a window other than the primary one: the return
    value, the engine and the window afterwards. *)
Definition tui_refresh_window (s : engine) (win : tui_window_t)
  : option (Z * engine * tui_window_t) :=
  if negb (allocated (grid s)) then Some (-1, s, win)
  else
    r <- ofold window_line (zrange 0 (Z.to_nat (maxy win))) (s, win) ;;
    Some (0,
          with_auto_flush_enabled true
            (emit (EReset (esc "[0m" ++ esc "[48;2;74;74;74m")) (fst r)),
          snd r).

(** [tui_newwin] with both allocations successful. *)
Definition tui_newwin (nlines ncols begin_y begin_x : Z) : tui_window_t :=
  mk_window begin_y begin_x nlines ncols 0 0 TUI_A_NORMAL TUI_A_NORMAL
            (Some (fun _ => false)).

(** What the refresh of a window keeps of the engine: the four grids
    with their extents, the terminal extents, the dirty region, and an
    initialised rendition cache. *)
Definition kept (s s' : engine) : Prop :=
  grid s' = grid s /\ tui_lines s' = tui_lines s /\ tui_cols s' = tui_cols s /\
  dirty_region s' = dirty_region s /\
  (AttrSeq.initialized (esc_seq_cache s) = true ->
   AttrSeq.initialized (esc_seq_cache s') = true).

(** The dirty flags of the rows of a window are all clear. *)
Definition rows_clean (win : tui_window_t) : Prop :=
  match dirty_rows win with
  | Some rows => forall y, 0 <= y < maxy win -> rows y = false
  | None => True
  end.

(** Two windows have the same place, size, cursor and attributes. *)
Definition same_geometry (w w' : tui_window_t) : Prop :=
  begy w' = begy w /\ begx w' = begx w /\ maxy w' = maxy w /\
  maxx w' = maxx w /\ cury w' = cury w /\ curx w' = curx w /\
  attr w' = attr w /\ bkgd w' = bkgd w.

End Window.

(** * Notions for the drawing surface *)

Module Surface.
Import Engine.

(** The four values the grids hold for a cell: character, attribute,
    snapshot character, snapshot attribute. *)
Definition cell (g : grid_t) (r c : Z) : Z * Z * Z * Z :=
  (screen_buf g r c, attr_buf g r c, prev_screen_buf g r c,
   prev_attr_buf g r c).

(** The cells a text of [len] bytes printed from column [x] of row [y]
    lands on: the columns of the text that lie inside the row. *)
Definition written (g : grid_t) (y x len r c : Z) : Prop :=
  r = y /\ x <= c < x + len /\ 0 <= c < buf_cols g.

(** The column behind the last byte the print loop consumes: the loop
    stops at the end of the text or at the right edge. *)
Definition final_column (x len cols : Z) : Z := Z.max x (Z.min (x + len) cols).

(** Two grids have the same extents. *)
Definition same_extents (g g' : grid_t) : Prop :=
  allocated g' = allocated g /\ buf_rows g' = buf_rows g /\
  buf_cols g' = buf_cols g.

(** A text of 7-bit characters. *)
Definition ascii_text (text : list Z) : Prop :=
  Forall (fun c => 0 <= c < 0x80) text.

End Surface.


(** ** A session: prints and refreshes after [tui_init] *)

Module Session.
Import Engine.

(** Every block whose bit is set in the L2 bitmap is on the L2 list. *)
Definition l2_bitmap_listed (d : Dirty.dirty_t) : Prop :=
  forall br bc,
    Dirty.in_l2 br bc -> Dirty.check_l2_block_bitmap d br bc = true ->
    In (br, bc) (Dirty.dirty_l2_blocks d).

(** The tiles and the blocks of the tracker reach over the whole grid. *)
Definition tiles_cover (d : Dirty.dirty_t) (g : grid_t) : Prop :=
  buf_rows g <= Dirty.TILE_L1_SIZE * Dirty.l1_tiles_y d /\
  buf_cols g <= Dirty.TILE_L1_SIZE * Dirty.l1_tiles_x d /\
  buf_rows g <= Dirty.TILE_L2_SIZE * Dirty.l2_blocks_y d /\
  buf_cols g <= Dirty.TILE_L2_SIZE * Dirty.l2_blocks_x d.

(** The tracker between two operations, with at least [n] nodes of the
    pool free: sparse tracking is on, the bitmaps hold nothing the lists
    do not, the pool is accounted for, and the lists are empty while the
    tiles are off. *)
Definition tracker_ready (d : Dirty.dirty_t) (n : Z) : Prop :=
  Dirty.use_sparse_tracking d = true /\
  (Dirty.use_hierarchical_tiles d = true -> Dirty.tiles_fit d) /\
  (Dirty.use_hierarchical_tiles d = false -> Dirty.dirty_l1_tiles d = []) /\
  Dirty.bitmap_listed d /\ l2_bitmap_listed d /\ DirtyPool.pool_acct d /\
  n <= Dirty.free_nodes d.

(** What the readiness of a tracker depends on: the two switches, the
    tile counts, the sparse record of each level and the pool. *)
Definition tracker_view (d : Dirty.dirty_t)
  : bool * bool * (Z * Z * Z * Z) * (list (Z * Z) * (Z -> Z))
    * (list (Z * Z) * (Z -> Z)) * (Z * Z) :=
  (Dirty.use_sparse_tracking d, Dirty.use_hierarchical_tiles d,
   (Dirty.l1_tiles_x d, Dirty.l1_tiles_y d,
    Dirty.l2_blocks_x d, Dirty.l2_blocks_y d),
   Dirty.l1_sparse_of d, Dirty.l2_sparse_of d, Dirty.pool_of d).

(** The sparse lists only gain entries; the configuration and the
    bounding rectangle stay. *)
Definition lists_grow (d d' : Dirty.dirty_t) : Prop :=
  Dirty.conf_of d' = Dirty.conf_of d /\ Dirty.rect_of d' = Dirty.rect_of d /\
  incl (Dirty.dirty_l1_tiles d) (Dirty.dirty_l1_tiles d') /\
  incl (Dirty.dirty_l2_blocks d) (Dirty.dirty_l2_blocks d').

(** The engine between two operations of a session that has seen no
    resize: the grid is allocated and no larger than the terminal, and
    the tracker was set up for it. *)
Definition ready (s : engine) (n : Z) : Prop :=
  allocated (grid s) = true /\
  (buf_rows (grid s) <= tui_lines s /\ buf_cols (grid s) <= tui_cols s) /\
  (buf_rows (grid s) <= Dirty.INT_MAX /\ buf_cols (grid s) <= Dirty.INT_MAX) /\
  (Dirty.use_hierarchical_tiles (dirty_region s) = true ->
   tiles_cover (dirty_region s) (grid s)) /\
  tracker_ready (dirty_region s) n.

(** The nodes one print can take from the pool: the tiles and the blocks
    of one row. *)
Definition PRINT_NODES : Z := Dirty.MAX_L1_TILES_X + Dirty.MAX_L2_BLOCKS_X.

(** The engine after a print, for runs that are known to succeed. *)
Definition printed (s : engine) (win : tui_window_t) (y x : Z)
  (text : list Z) : engine :=
  match tui_print_at s win y x text with
  | Some (_, s', _) => s'
  | None => s
  end.

End Session.

(** * What a refresh has to emit for its runs *)

Module Pen.
Import Engine.

(** A rendition: foreground, background and text attributes. *)
Definition rendition_t : Type := Z * Z * Z.

(** The rendition [apply_attributes] derives from an attribute word. *)
Definition rendition (s : engine) (attr : Z) : rendition_t :=
  let '(fg, bg) :=
    if colors_initialized s && negb (Z.land attr TUI_A_COLOR =? 0)
    then get_pair_colors (color_pair_cache s) (TUI_PAIR_NUMBER attr)
    else (TUI_COLOR_WHITE, TUI_COLOR_BLACK) in
  (fg, bg, Z.land attr (Z.lnot TUI_A_COLOR)).

(** The rendition of the cell at which a run starts. *)
Definition run_rendition (s : engine) (y x : Z) : rendition_t :=
  rendition s (attr_buf (grid s) y x).

(** The rendition [attr_state] has on record, if it has one. *)
Definition on_record (st : attr_state_t) : option rendition_t :=
  if as_initialized st then Some (last_fg st, last_bg st, last_attrs st)
  else None.

(** The cursor position [cursor_cache] has on record. *)
Definition cursor_on_record (s : engine) : Z * Z :=
  (last_row (cursor_cache s), last_col (cursor_cache s)).

(** The test of [tui_move_cached]: the cursor is on the cell already. *)
Definition same_cell (p : Z * Z) (row col : Z) : bool :=
  (row =? fst p) && (col =? snd p).

(** The test of [apply_attributes]: the rendition is the one on
    record. *)
Definition same_rendition (a : option rendition_t) (r : rendition_t) : bool :=
  match a with
  | Some (fg, bg, attrs) =>
      (fg =? fst (fst r)) && (bg =? snd (fst r)) && (attrs =? snd r)
  | None => false
  end.

(** The runs of a trace that do not start where the cursor is: at [p]
    for the first run, behind the end of the run before for the
    others. *)
Fixpoint moves_needed (p : Z * Z) (l : list emission) : Z :=
  match l with
  | [] => 0
  | ERun y start_x end_x _ :: tl =>
      (if same_cell p y start_x then 0 else 1)
      + moves_needed (y, end_x + 1) tl
  | _ :: tl => moves_needed p tl
  end.

(** Where the runs of a trace leave the cursor. *)
Fixpoint cursor_after (p : Z * Z) (l : list emission) : Z * Z :=
  match l with
  | [] => p
  | ERun y _ end_x _ :: tl => cursor_after (y, end_x + 1) tl
  | _ :: tl => cursor_after p tl
  end.

(** The runs of a trace whose rendition is not the one in force: [a]
    for the first run, the rendition of the run before for the others.
    [rend] gives the rendition of the cell at which a run starts. *)
Fixpoint changes_needed (rend : Z -> Z -> rendition_t)
  (a : option rendition_t) (l : list emission) : Z :=
  match l with
  | [] => 0
  | ERun y start_x _ _ :: tl =>
      (if same_rendition a (rend y start_x) then 0 else 1)
      + changes_needed rend (Some (rend y start_x)) tl
  | _ :: tl => changes_needed rend a tl
  end.

(** The rendition the runs of a trace leave in force. *)
Fixpoint rendition_after (rend : Z -> Z -> rendition_t)
  (a : option rendition_t) (l : list emission) : option rendition_t :=
  match l with
  | [] => a
  | ERun y start_x _ _ :: tl => rendition_after rend (Some (rend y start_x)) tl
  | _ :: tl => rendition_after rend a tl
  end.

(** The number of cells of the buffer where the logical grid and the
    snapshot differ. *)
Definition pending (g : grid_t) : Z :=
  Z.of_nat (List.length (differing_cells g)).

(** One or more rendered runs: the colour tables and the logical grid
    stay, and the emissions added hold a cursor positioning exactly for
    the runs that do not start where the cursor is, a rendition sequence
    exactly for the runs whose rendition is not the one in force, and
    no more runs than cells have converged. *)
Definition pen_step (s s' : engine) : Prop :=
  grid_step (grid s) (grid s') /\
  colors_initialized s' = colors_initialized s /\
  color_pair_cache s' = color_pair_cache s /\
  exists new,
    out s' = out s ++ new /\
    count is_cursor new = moves_needed (cursor_on_record s) new /\
    count is_attr new
    = changes_needed (run_rendition s) (on_record (attr_state s)) new /\
    cursor_on_record s' = cursor_after (cursor_on_record s) new /\
    on_record (attr_state s')
    = rendition_after (run_rendition s) (on_record (attr_state s)) new /\
    count is_run new + pending (grid s') <= pending (grid s).

End Pen.

(** * Properties of the colour-pair allocator *)

Module ColorPairFacts.
Import ColorPair.

(** A second scan of the common pairs after a hit finds the same entry:
    only its usage counter moved. *)
Lemma scan_common_again l fg bg n l' :
  scan_common l fg bg = Some (n, l') ->
  exists l'', scan_common l' fg bg = Some (n, l'').
Proof.
  revert n l'. induction l as [|e tl IH]; intros n l' H; simpl in H.
  - discriminate.
  - destruct ((cp_fg e =? fg) && (cp_bg e =? bg)) eqn:E.
    + inversion H; subst. simpl. rewrite E. eauto.
    + destruct (scan_common tl fg bg) as [[m tl']|] eqn:S; [|discriminate].
      inversion H; subst. simpl. rewrite E.
      destruct (IH _ _ eq_refl) as [l'' ->]. eauto.
Qed.

Lemma upd_same {A} (f : Z -> A) k v : upd f k v k = v.
Proof. unfold upd. now rewrite Z.eqb_refl. Qed.

Lemma upd_other {A} (f : Z -> A) k v k' : k' <> k -> upd f k v k' = f k'.
Proof. unfold upd. intros H. now apply Z.eqb_neq in H as ->. Qed.

(** The identifier a request gets, by the stage of the lookup that
    decides it. *)
Lemma get_or_alloc_pair_default c fg bg :
  (fg =? TUI_COLOR_WHITE) && (bg =? TUI_COLOR_BLACK) = true ->
  fst (get_or_alloc_pair c fg bg) = 0.
Proof. intros H. unfold get_or_alloc_pair. now rewrite H. Qed.

(** C6: two successive requests for the same colours get the same
    identifier.  The second call finds what the first one matched or
    created; this holds in every state, and so in particular while the
    pool is not exhausted. *)
Theorem get_or_alloc_pair_deterministic (c : color_pair_cache_t) (fg bg : Z) :
  fst (get_or_alloc_pair (snd (get_or_alloc_pair c fg bg)) fg bg)
  = fst (get_or_alloc_pair c fg bg).
Proof.
  unfold get_or_alloc_pair at 2 3.
  destruct ((fg =? TUI_COLOR_WHITE) && (bg =? TUI_COLOR_BLACK)) eqn:D.
  - simpl. now apply get_or_alloc_pair_default.
  - destruct (scan_common (common_pairs c) fg bg) as [[n l]|] eqn:S.
    + simpl. unfold get_or_alloc_pair. rewrite D. simpl.
      destruct (scan_common_again _ _ _ _ _ S) as [l'' ->]. reflexivity.
    + cbv zeta.
      destruct (chain_find (table c (hash_color_pair (pack_fg_bg fg bg)))
                           (pack_fg_bg fg bg)) as [node|] eqn:F.
      * simpl. unfold get_or_alloc_pair. rewrite D. simpl. now rewrite S, F.
      * destruct ((TUI_COLOR_PAIRS <=? next_pair _) || _) eqn:X.
        -- simpl. unfold get_or_alloc_pair. rewrite D. simpl. rewrite S, F.
           simpl in X. now rewrite X.
        -- simpl. unfold get_or_alloc_pair. rewrite D. simpl. rewrite S.
           rewrite upd_same. simpl. now rewrite Z.eqb_refl.
Qed.

(** C7, amended.  Once the pool is exhausted, a request the cache does
    not serve yet (not the default pair, not a common pair, no node under
    its 8-bit packed key) gets the default pair 0, and the allocation
    state (table, node pool, next pair number, legacy array) is left as
    it was. *)
Theorem exhausted_pool_returns_default (c : color_pair_cache_t) (fg bg : Z) :
  exhausted c ->
  known c fg bg = false ->
  fst (get_or_alloc_pair c fg bg) = 0 /\
  same_allocation c (snd (get_or_alloc_pair c fg bg)).
Proof.
  intros E K. unfold known in K.
  apply orb_false_iff in K as [K K3]. apply orb_false_iff in K as [K1 K2].
  unfold get_or_alloc_pair. rewrite K1.
  destruct (scan_common (common_pairs c) fg bg) as [[n l]|]; [discriminate|].
  cbv zeta.
  destruct (chain_find _ _); [discriminate|].
  assert (X : (TUI_COLOR_PAIRS <=?
                 next_pair (count_miss c (Z.of_nat (length (table c
                   (hash_color_pair (pack_fg_bg fg bg)))))))
              || (node_count (count_miss c (Z.of_nat (length (table c
                   (hash_color_pair (pack_fg_bg fg bg))))))
                  <=? node_used (count_miss c (Z.of_nat (length (table c
                   (hash_color_pair (pack_fg_bg fg bg))))))) = true).
  { simpl. apply orb_true_iff. destruct E as [E|E]; [left|right];
      now apply Z.leb_le. }
  rewrite X. simpl. unfold same_allocation. simpl. repeat split.
Qed.

Lemma exhausted_pool_returns_default_witness :
  exhausted full_cache /\
  known full_cache 100 200 = false /\
  fst (get_or_alloc_pair full_cache 100 200) = 0 /\
  same_allocation full_cache (snd (get_or_alloc_pair full_cache 100 200)).
Proof.
  assert (E : exhausted full_cache).
  { left. vm_compute. discriminate. }
  assert (K : known full_cache 100 200 = false) by (vm_compute; reflexivity).
  split; [exact E|]. split; [exact K|].
  exact (exhausted_pool_returns_default full_cache 100 200 E K).
Defined.

(** C7 as stated fails for a combination that was never allocated but
    shares its packed key with an allocated one.  In the cache filled by
    255 allocations of the colours (k, 9), the pair numbers have run
    out; no node and no common pair holds the colours (264, 9), yet the
    request for them is answered with 247, the pair of (8, 9), because
    264 and 8 agree on their low eight bits. *)
Lemma exhausted_pool_serves_alias :
  exhausted full_cache /\
  existsb (fun n => (fg n =? 264) && (bg n =? 9)) (nodes full_cache) = false /\
  is_common 264 9 = false /\
  pack_fg_bg 264 9 = pack_fg_bg 8 9 /\
  fst (get_or_alloc_pair full_cache 264 9) = 247 /\
  fst (get_or_alloc_pair full_cache 8 9) = 247.
Proof.
  split; [left; vm_compute; discriminate|].
  vm_compute. repeat split; reflexivity.
Qed.

(** C9: the pre-seeded table hands out the identifiers 1 to 10 and the
    dynamic allocator starts at 1 as well, so a common pair and a pair
    allocated on demand end up with the same identifier: after a first
    allocation, the request for colours (9, black) is given 2, which is
    the identifier of the common pair (green, black). *)
Theorem pair_identifier_spaces_overlap :
  map cp_pair_num (common_pairs init_color_pair_cache)
    = [1; 2; 3; 4; 5; 6; 7; 8; 9; 10] /\
  next_pair init_color_pair_cache = 1 /\
  let r1 := get_or_alloc_pair init_color_pair_cache 8 TUI_COLOR_BLACK in
  let r2 := get_or_alloc_pair (snd r1) 9 TUI_COLOR_BLACK in
  let r3 := get_or_alloc_pair (snd r2) TUI_COLOR_GREEN TUI_COLOR_BLACK in
  (9, TUI_COLOR_BLACK) <> (TUI_COLOR_GREEN, TUI_COLOR_BLACK) /\
  is_common TUI_COLOR_GREEN TUI_COLOR_BLACK = true /\
  is_common 9 TUI_COLOR_BLACK = false /\
  fst r2 = 2 /\ fst r3 = 2.
Proof.
  repeat split; try (vm_compute; reflexivity).
  vm_compute. discriminate.
Qed.

End ColorPairFacts.

(** * Properties of the scatter-gather buffer *)

Module WritevFacts.
Import Writev.

Lemma iov_len_nonneg v : 0 <= iov_len v.
Proof. unfold iov_len. lia. Qed.

(** Trimming after a partial write removes exactly the bytes already
    written from the front of the pending content. *)
Lemma adjust_iovecs_concat (vecs : list iovec) (n : Z) :
  0 <= n ->
  concat (adjust_iovecs_after_partial_write vecs n)
  = skipn (Z.to_nat n) (concat vecs).
Proof.
  revert n. induction vecs as [|v tl IH]; intros n Hn; simpl.
  - now rewrite skipn_nil.
  - destruct (0 <? n) eqn:P.
    + apply Z.ltb_lt in P.
      destruct (iov_len v <=? n) eqn:L.
      * apply Z.leb_le in L. rewrite IH by lia.
        unfold iov_len in *.
        rewrite skipn_app.
        rewrite (skipn_all2 v) by lia. simpl.
        f_equal. lia.
      * apply Z.leb_gt in L. simpl. unfold iov_len in L.
        rewrite skipn_app.
        replace (Z.to_nat n - length v)%nat with 0%nat by lia. reflexivity.
    + apply Z.ltb_ge in P. replace n with 0 by lia. reflexivity.
Qed.

(** An interrupted call changes nothing: the loop retries with the same
    spans. *)
Lemma flush_loop_eintr os vecs total written emitted :
  (written <? total) && (0 <? Z.of_nat (length vecs)) = true ->
  flush_loop (Eintr :: os) vecs total written emitted
  = flush_loop os vecs total written emitted.
Proof. intros H. simpl. now rewrite H. Qed.

(** The loop compares the bytes written so far with a total that it also
    decreases by every write, so a first partial write that takes at
    least half of the pending bytes ends the loop: the rest is never
    handed to the descriptor. *)
Lemma flush_loop_stops_early os vecs total n :
  vecs <> [] -> 0 < n -> total - n <= n -> 0 < total ->
  flush_loop (Written n :: os) vecs total 0 []
  = Some (Completed, accepted vecs n).
Proof.
  intros Hv Hn Hh Ht.
  destruct vecs as [|v tl]; [congruence|].
  cbn [flush_loop].
  replace (0 <? total) with true by (symmetry; now apply Z.ltb_lt).
  replace (0 <? Z.of_nat (length (v :: tl))) with true
    by (symmetry; apply Z.ltb_lt; simpl; lia).
  cbn [andb].
  replace (n =? 0) with false by (symmetry; apply Z.eqb_neq; lia).
  destruct os as [|o os']; cbn [flush_loop];
    replace (0 + n <? total - n) with false
      by (symmetry; apply Z.ltb_ge; lia);
    reflexivity.
Qed.

Lemma flush_loop_stops_early_witness :
  flush_loop [Written 40; Written 30] (vecs three_spans) 70 0 []
  = Some (Completed, accepted (vecs three_spans) 40).
Proof.
  apply (flush_loop_stops_early [Written 30] (vecs three_spans) 70 40).
  - vm_compute. discriminate.
  - lia.
  - lia.
  - lia.
Defined.

(** C4 at the scenario of the specification: 70 pending bytes in three
    spans, the first [writev] accepts 40.  The flush returns through its
    loop condition with the buffer reset, and the descriptor has received
    the first 40 bytes only; the remaining 30 are lost. *)
Theorem flush_partial_write_drops_tail :
  total_bytes three_spans = 70 /\
  map iov_len (vecs three_spans) = [30; 20; 20] /\
  tui_flush_vectored [Written 40; Written 30] three_spans
  = Some (Completed, firstn 40 (content three_spans), reset_buffer three_spans)
  /\ length (firstn 40 (content three_spans)) = 40%nat
  /\ firstn 40 (content three_spans) <> content three_spans.
Proof.
  repeat split; try (vm_compute; reflexivity).
  vm_compute. discriminate.
Qed.

End WritevFacts.

(** * Properties of the rendition sequences *)

Module AttrSeqFacts.
Import String Ascii Fmt AttrSeq.

(** When a component exceeds 255, all three are scaled from the 0..1000
    range to 0..255. *)
Lemma get_rgb_values_scaled (d : color_def_t) :
  255 < r d \/ 255 < g d \/ 255 < b d ->
  get_rgb_values (r d) (g d) (b d) = scaled d.
Proof.
  intros H. unfold get_rgb_values, scaled.
  replace ((255 <? r d) || (255 <? g d) || (255 <? b d)) with true; [easy|].
  symmetry. rewrite !orb_true_iff, !Z.ltb_lt. tauto.
Qed.

(** When none does, the components are passed on as they are. *)
Lemma get_rgb_values_unscaled (d : color_def_t) :
  r d <= 255 -> g d <= 255 -> b d <= 255 ->
  get_rgb_values (r d) (g d) (b d) = (r d, g d, b d).
Proof.
  intros Hr Hg Hb. unfold get_rgb_values.
  replace ((255 <? r d) || (255 <? g d) || (255 <? b d)) with false; [easy|].
  symmetry. rewrite !orb_false_iff, !Z.ltb_ge. tauto.
Qed.

(** The sequence built for a custom foreground on the default
    background carries the triplet [get_rgb_values] computes. *)
Lemma build_custom_foreground defs fg attrs :
  8 <= fg < MAX_CUSTOM_COLORS ->
  build_attr_sequence defs fg TUI_COLOR_BLACK attrs
  = esc ("[0" ++ bold_param attrs
              ++ rgb_param "38" (custom_color defs fg) ++ "" ++ "m")%string.
Proof.
  intros [H1 H2]. unfold build_attr_sequence.
  replace (fg =? TUI_COLOR_WHITE) with false
    by (symmetry; apply Z.eqb_neq; unfold TUI_COLOR_WHITE; lia).
  replace ((8 <=? fg) && (fg <? MAX_CUSTOM_COLORS)) with true
    by (symmetry; apply andb_true_iff; split;
        [now apply Z.leb_le | now apply Z.ltb_lt]).
  reflexivity.
Qed.

(** For a colour with a component above 255 the triplet is the scaled
    one. *)
Lemma bright_custom_foreground_scaled defs fg attrs :
  8 <= fg < MAX_CUSTOM_COLORS ->
  255 < r (defs fg) \/ 255 < g (defs fg) \/ 255 < b (defs fg) ->
  build_attr_sequence defs fg TUI_COLOR_BLACK attrs
  = esc ("[0" ++ bold_param attrs
              ++ rgb_param "38" (scaled (defs fg)) ++ "" ++ "m")%string.
Proof.
  intros Hfg Hc. rewrite build_custom_foreground by assumption.
  unfold custom_color. now rewrite get_rgb_values_scaled.
Qed.

Lemma bright_custom_foreground_scaled_witness :
  build_attr_sequence bright_defs 8 TUI_COLOR_BLACK TUI_A_NORMAL
  = esc "[0;38;2;255;127;0m"%string.
Proof.
  rewrite (bright_custom_foreground_scaled bright_defs 8 TUI_A_NORMAL).
  - vm_compute. reflexivity.
  - unfold MAX_CUSTOM_COLORS. lia.
  - left. vm_compute. reflexivity.
Defined.

(** C8 at a dark colour.  draw.c registers RGB (50, 40, 30) as custom
    colour 8 with the components (196, 156, 117) of the 0..1000 range.
    None of them exceeds 255, so [get_rgb_values] does not scale: the
    sequence names 196;156;117 where the scaling to 0..255 gives
    49;39;29. *)
Theorem dark_custom_color_not_scaled :
  let d := dark_defs 8 in
  (r d, g d, b d) = (196, 156, 117) /\
  (0 <= r d <= 1000 /\ 0 <= g d <= 1000 /\ 0 <= b d <= 1000) /\
  scaled d = (49, 39, 29) /\
  fst (get_cached_attr_sequence dark_defs (init_esc_seq_cache dark_defs)
         8 TUI_COLOR_BLACK TUI_A_NORMAL)
  = Some (esc "[0;38;2;196;156;117m"%string, 21) /\
  build_attr_sequence dark_defs 8 TUI_COLOR_BLACK TUI_A_NORMAL
  <> esc ("[0" ++ rgb_param "38" (scaled d) ++ "m")%string.
Proof.
  cbv zeta. repeat split; try (vm_compute; first [reflexivity | discriminate]).
Qed.

End AttrSeqFacts.

(** * Properties of the dirty-region tracker *)

Module DirtyFacts.
Import Dirty.

(** ** The bitmaps *)

Lemma land_pow2_pow2 a b :
  0 <= a -> 0 <= b -> a <> b -> Z.land (Z.shiftl 1 a) (Z.shiftl 1 b) = 0.
Proof.
  intros Ha Hb Hab. rewrite !Z.shiftl_1_l.
  apply Z.bits_inj'. intros n Hn.
  rewrite Z.land_spec, Z.bits_0, !Z.pow2_bits_eqb by assumption.
  destruct (Z.eqb_spec a n), (Z.eqb_spec b n); try reflexivity. congruence.
Qed.

Lemma shiftl_1_nonzero a : 0 <= a -> Z.shiftl 1 a <> 0.
Proof.
  intros Ha. rewrite Z.shiftl_1_l.
  pose proof (Z.pow_pos_nonneg 2 a). lia.
Qed.

Lemma bitmap_test_set_same bm i :
  0 <= i -> bitmap_test (bitmap_set bm i) i = true.
Proof.
  intros Hi. unfold bitmap_test, bitmap_set, upd.
  rewrite Z.eqb_refl.
  rewrite Z.land_lor_distr_l, Z.land_diag.
  apply negb_true_iff, Z.eqb_neq. intros H.
  apply Z.lor_eq_0_iff in H as [_ H].
  revert H. apply shiftl_1_nonzero.
  rewrite Z.rem_mod_nonneg by lia. apply Z.mod_pos_bound. lia.
Qed.

Lemma bitmap_test_set_other bm i j :
  0 <= i -> 0 <= j -> i <> j ->
  bitmap_test (bitmap_set bm i) j = bitmap_test bm j.
Proof.
  intros Hi Hj Hij. unfold bitmap_test, bitmap_set, upd.
  destruct (Z.eqb_spec (Z.quot j 64) (Z.quot i 64)) as [E|E]; [|reflexivity].
  rewrite E.
  rewrite Z.land_lor_distr_l.
  rewrite (land_pow2_pow2 (Z.rem i 64) (Z.rem j 64)).
  - now rewrite Z.lor_0_r.
  - rewrite Z.rem_mod_nonneg by lia. apply Z.mod_pos_bound. lia.
  - rewrite Z.rem_mod_nonneg by lia. apply Z.mod_pos_bound. lia.
  - intros R. apply Hij.
    rewrite (Z.quot_rem' i 64), (Z.quot_rem' j 64). congruence.
Qed.

Lemma pool_ok_available d : pool_available d -> pool_ok d = true.
Proof.
  intros [H1 H2]. unfold pool_ok.
  apply negb_true_iff, orb_false_iff. split.
  - now apply Z.leb_gt.
  - now apply Z.leb_gt.
Qed.

Lemma alloc_none d r c : pool_ok d = false -> alloc_dirty_tile d r c = None.
Proof.
  unfold pool_ok, alloc_dirty_tile. intros H.
  apply negb_false_iff in H. now rewrite H.
Qed.

Lemma u16_small x : 0 <= x < 65536 -> u16 x = x.
Proof. intros H. unfold u16. now apply Z.mod_small. Qed.


(** ** The sparse insertion *)

Lemma l1_guard tr tc :
  in_l1 tr tc -> (MAX_L1_TILES_Y <=? tr) || (MAX_L1_TILES_X <=? tc) = false.
Proof.
  intros [H1 H2]. apply orb_false_iff. split; apply Z.leb_gt; lia.
Qed.

Lemma l2_guard br bc :
  in_l2 br bc -> (MAX_L2_BLOCKS_Y <=? br) || (MAX_L2_BLOCKS_X <=? bc) = false.
Proof.
  intros [H1 H2]. apply orb_false_iff. split; apply Z.leb_gt; lia.
Qed.

Lemma l1_index_inj tr tc tr' tc' :
  in_l1 tr tc -> in_l1 tr' tc' ->
  tr * MAX_L1_TILES_X + tc = tr' * MAX_L1_TILES_X + tc' ->
  tr = tr' /\ tc = tc'.
Proof. unfold in_l1, MAX_L1_TILES_X, MAX_L1_TILES_Y. lia. Qed.

Lemma check_l1_after_set d tr tc :
  in_l1 tr tc ->
  check_l1_tile_bitmap (set_l1_tile_bitmap d tr tc) tr tc = true.
Proof.
  intros H. unfold check_l1_tile_bitmap, set_l1_tile_bitmap.
  rewrite (l1_guard _ _ H). destruct d; cbn.
  apply bitmap_test_set_same.
  unfold in_l1, MAX_L1_TILES_X in *. lia.
Qed.

Lemma check_l1_after_set_other d tr tc tr' tc' :
  in_l1 tr tc -> in_l1 tr' tc' -> (tr', tc') <> (tr, tc) ->
  check_l1_tile_bitmap (set_l1_tile_bitmap d tr tc) tr' tc'
  = check_l1_tile_bitmap d tr' tc'.
Proof.
  intros H H' N. unfold check_l1_tile_bitmap, set_l1_tile_bitmap.
  rewrite (l1_guard _ _ H), (l1_guard _ _ H'). destruct d; cbn.
  apply bitmap_test_set_other.
  - unfold in_l1, MAX_L1_TILES_X in *. lia.
  - unfold in_l1, MAX_L1_TILES_X in *. lia.
  - intros E. apply N. apply l1_index_inj in E; try assumption.
    destruct E; congruence.
Qed.

Lemma check_l2_after_set d br bc :
  in_l2 br bc ->
  check_l2_block_bitmap (set_l2_block_bitmap d br bc) br bc = true.
Proof.
  intros H. unfold check_l2_block_bitmap, set_l2_block_bitmap.
  rewrite (l2_guard _ _ H). destruct d; cbn.
  apply bitmap_test_set_same.
  unfold in_l2, MAX_L2_BLOCKS_X in *. lia.
Qed.

(** The L1 membership test reads the L1 bitmap only, the pool test the
    two counters only. *)
Lemma check_l1_ext d d' tr tc :
  l1_tile_bitmap d' = l1_tile_bitmap d ->
  check_l1_tile_bitmap d' tr tc = check_l1_tile_bitmap d tr tc.
Proof. intros E. unfold check_l1_tile_bitmap. now rewrite E. Qed.

Lemma check_l2_ext d d' br bc :
  l2_block_bitmap d' = l2_block_bitmap d ->
  check_l2_block_bitmap d' br bc = check_l2_block_bitmap d br bc.
Proof. intros E. unfold check_l2_block_bitmap. now rewrite E. Qed.

Lemma pool_ok_ext d d' : pool_of d' = pool_of d -> pool_ok d' = pool_ok d.
Proof.
  unfold pool_of, pool_ok. intros E. inversion E as [[E1 E2]].
  now rewrite E1, E2.
Qed.

(** An insertion is a no-op when the tile is recorded already or the
    pool has no node left. *)
Lemma add_sparse_l1_noop d tr tc :
  check_l1_tile_bitmap d tr tc = true \/ pool_ok d = false ->
  add_sparse_l1_tile d tr tc = d.
Proof.
  intros [H|H]; unfold add_sparse_l1_tile.
  - now rewrite H.
  - rewrite (alloc_none _ _ _ H). now destruct (check_l1_tile_bitmap d tr tc).
Qed.

Lemma add_sparse_l2_noop d br bc :
  check_l2_block_bitmap d br bc = true \/ pool_ok d = false ->
  add_sparse_l2_block d br bc = d.
Proof.
  intros [H|H]; unfold add_sparse_l2_block.
  - now rewrite H.
  - rewrite (alloc_none _ _ _ H).
    now destruct (check_l2_block_bitmap d br bc).
Qed.

(** After an insertion the tile is recorded, unless the pool was empty,
    in which case nothing has changed. *)
Lemma add_sparse_l1_after d tr tc :
  in_l1 tr tc ->
  check_l1_tile_bitmap (add_sparse_l1_tile d tr tc) tr tc = true \/
  (pool_ok d = false /\ add_sparse_l1_tile d tr tc = d).
Proof.
  intros H. unfold add_sparse_l1_tile.
  destruct (check_l1_tile_bitmap d tr tc) eqn:C; [now left|].
  destruct (pool_ok d) eqn:P.
  - left. unfold alloc_dirty_tile. unfold pool_ok in P.
    apply negb_true_iff in P. rewrite P.
    now apply check_l1_after_set.
  - right. split; [reflexivity|]. now rewrite (alloc_none _ _ _ P).
Qed.

Lemma add_sparse_l2_after d br bc :
  in_l2 br bc ->
  check_l2_block_bitmap (add_sparse_l2_block d br bc) br bc = true \/
  (pool_ok d = false /\ add_sparse_l2_block d br bc = d).
Proof.
  intros H. unfold add_sparse_l2_block.
  destruct (check_l2_block_bitmap d br bc) eqn:C; [now left|].
  destruct (pool_ok d) eqn:P.
  - left. unfold alloc_dirty_tile. unfold pool_ok in P.
    apply negb_true_iff in P. rewrite P.
    now apply check_l2_after_set.
  - right. split; [reflexivity|]. now rewrite (alloc_none _ _ _ P).
Qed.

(** What an insertion leaves alone. *)
Lemma add_sparse_l1_frame d tr tc :
  let d' := add_sparse_l1_tile d tr tc in
  rect_of d' = rect_of d /\ conf_of d' = conf_of d /\
  l2_sparse_of d' = l2_sparse_of d /\
  l1_tiles d' = l1_tiles d /\ l2_blocks d' = l2_blocks d.
Proof.
  cbv zeta. unfold add_sparse_l1_tile, alloc_dirty_tile, set_l1_tile_bitmap.
  destruct (check_l1_tile_bitmap d tr tc); [now repeat split|].
  destruct (_ || _); [now repeat split|].
  destruct (_ || _); destruct d; now repeat split.
Qed.

Lemma add_sparse_l2_frame d br bc :
  let d' := add_sparse_l2_block d br bc in
  rect_of d' = rect_of d /\ conf_of d' = conf_of d /\
  l1_sparse_of d' = l1_sparse_of d /\
  l1_tiles d' = l1_tiles d /\ l2_blocks d' = l2_blocks d.
Proof.
  cbv zeta. unfold add_sparse_l2_block, alloc_dirty_tile, set_l2_block_bitmap.
  destruct (check_l2_block_bitmap d br bc); [now repeat split|].
  destruct (_ || _); [now repeat split|].
  destruct (_ || _); destruct d; now repeat split.
Qed.

(** A successful insertion puts the tile on the list. *)
Lemma add_sparse_l1_listed d tr tc :
  in_l1 tr tc -> bitmap_listed d ->
  check_l1_tile_bitmap d tr tc = true \/ pool_available d ->
  In (tr, tc) (dirty_l1_tiles (add_sparse_l1_tile d tr tc)) /\
  check_l1_tile_bitmap (add_sparse_l1_tile d tr tc) tr tc = true.
Proof.
  intros H L A. unfold add_sparse_l1_tile.
  destruct (check_l1_tile_bitmap d tr tc) eqn:C.
  - split; [|assumption]. destruct H. now apply L.
  - destruct A as [A|A]; [discriminate|].
    apply pool_ok_available in A. unfold alloc_dirty_tile.
    unfold pool_ok in A. apply negb_true_iff in A. rewrite A.
    split.
    + unfold set_l1_tile_bitmap. rewrite (l1_guard _ _ H).
      destruct d; cbn. left.
      unfold in_l1, MAX_L1_TILES_X, MAX_L1_TILES_Y in H.
      rewrite !u16_small by lia. reflexivity.
    + now apply check_l1_after_set.
Qed.

(** The insertion keeps the bitmap within the list. *)
Lemma add_sparse_l1_bitmap_listed d tr tc :
  in_l1 tr tc -> bitmap_listed d -> bitmap_listed (add_sparse_l1_tile d tr tc).
Proof.
  intros H L. unfold add_sparse_l1_tile.
  destruct (check_l1_tile_bitmap d tr tc) eqn:C; [assumption|].
  unfold alloc_dirty_tile. destruct (_ || _); [assumption|].
  intros tr' tc' Hr Hc B.
  destruct (Z.eq_dec tr' tr) as [->|Nr].
  - destruct (Z.eq_dec tc' tc) as [->|Nc].
    + unfold set_l1_tile_bitmap. rewrite (l1_guard _ _ H).
      destruct d; cbn. left.
      unfold in_l1, MAX_L1_TILES_X, MAX_L1_TILES_Y in H.
      rewrite !u16_small by lia. reflexivity.
    + rewrite check_l1_after_set_other in B;
        [|assumption|split; assumption|congruence].
      unfold set_l1_tile_bitmap. rewrite (l1_guard _ _ H).
      destruct d; cbn in *. right. now apply L.
  - rewrite check_l1_after_set_other in B;
      [|assumption|split; assumption|congruence].
    unfold set_l1_tile_bitmap. rewrite (l1_guard _ _ H).
    destruct d; cbn in *. right. now apply L.
Qed.


(** ** The bounding rectangle *)

Ltac dd d :=
  destruct d as [mr xr mc xc hc t1 t1x t1y t2 t2x t2y uh us fc sb ps
                 dl1 dl2 fn pu b1 b2].

Ltac rect_cases r1 c1 r2 c2 mr xr mc xc :=
  cbn;
  destruct (Z.ltb_spec r1 mr); cbn;
  destruct (Z.ltb_spec xr r2); cbn;
  destruct (Z.ltb_spec c1 mc); cbn;
  destruct (Z.ltb_spec xc c2); cbn.

Lemma extend_rect_contains d r c :
  let d' := extend_rect d r c r c in
  min_row d' <= r <= max_row d' /\ min_col d' <= c <= max_col d'.
Proof.
  cbv zeta. unfold extend_rect. dd d.
  rect_cases r c r c mr xr mc xc; lia.
Qed.

Lemma extend_rect_frame d r1 c1 r2 c2 :
  let d' := extend_rect d r1 c1 r2 c2 in
  conf_of d' = conf_of d /\ pool_of d' = pool_of d /\
  l1_sparse_of d' = l1_sparse_of d /\ l2_sparse_of d' = l2_sparse_of d /\
  l1_tiles d' = l1_tiles d /\ l2_blocks d' = l2_blocks d /\
  has_changes d' = true.
Proof.
  cbv zeta. unfold extend_rect. dd d.
  rect_cases r1 c1 r2 c2 mr xr mc xc; now repeat split.
Qed.

(** Marking a cell the rectangle already contains leaves the rectangle as
    it is. *)
Lemma extend_rect_fixed d r c :
  min_row d <= r <= max_row d -> min_col d <= c <= max_col d ->
  has_changes d = true ->
  extend_rect d r c r c = d.
Proof.
  unfold extend_rect. dd d. cbn. intros Hr Hc ->.
  rect_cases r c r c mr xr mc xc; try lia.
  reflexivity.
Qed.

(** ** [mark_dirty] *)

Lemma mark_l1_tile_some d tr tc :
  in_l1 tr tc ->
  mark_l1_tile d tr tc
  = Some (if use_sparse_tracking d
          then add_sparse_l1_tile
                 (with_l1_tiles (upd2 (l1_tiles d) tr tc true) d) tr tc
          else with_l1_tiles (upd2 (l1_tiles d) tr tc true) d).
Proof.
  intros [[H1 H2] [H3 H4]]. unfold mark_l1_tile.
  replace ((0 <=? tr) && (tr <? MAX_L1_TILES_Y) && (0 <=? tc)
           && (tc <? MAX_L1_TILES_X)) with true.
  - now destruct d.
  - symmetry. rewrite !andb_true_iff, !Z.leb_le, !Z.ltb_lt. tauto.
Qed.

Lemma mark_l2_block_some d br bc :
  in_l2 br bc ->
  mark_l2_block d br bc
  = Some (if use_sparse_tracking d
          then add_sparse_l2_block
                 (with_l2_blocks (upd2 (l2_blocks d) br bc true) d) br bc
          else with_l2_blocks (upd2 (l2_blocks d) br bc true) d).
Proof.
  intros [[H1 H2] [H3 H4]]. unfold mark_l2_block.
  replace ((0 <=? br) && (br <? MAX_L2_BLOCKS_Y) && (0 <=? bc)
           && (bc <? MAX_L2_BLOCKS_X)) with true.
  - now destruct d.
  - symmetry. rewrite !andb_true_iff, !Z.leb_le, !Z.ltb_lt. tauto.
Qed.

(** The dense-array write of a tile, and what it leaves alone. *)
Lemma with_l1_tiles_frame f d :
  let d' := with_l1_tiles f d in
  rect_of d' = rect_of d /\ conf_of d' = conf_of d /\ pool_of d' = pool_of d /\
  l1_sparse_of d' = l1_sparse_of d /\ l2_sparse_of d' = l2_sparse_of d /\
  l1_tiles d' = f /\ l2_blocks d' = l2_blocks d.
Proof. destruct d; now repeat split. Qed.

Lemma with_l2_blocks_frame f d :
  let d' := with_l2_blocks f d in
  rect_of d' = rect_of d /\ conf_of d' = conf_of d /\ pool_of d' = pool_of d /\
  l1_sparse_of d' = l1_sparse_of d /\ l2_sparse_of d' = l2_sparse_of d /\
  l1_tiles d' = l1_tiles d /\ l2_blocks d' = f.
Proof. destruct d; now repeat split. Qed.

(** The pool after an L2 insertion, when it was empty before. *)
Lemma add_sparse_l2_pool_empty d br bc :
  pool_ok d = false -> pool_of (add_sparse_l2_block d br bc) = pool_of d.
Proof. intros H. now rewrite add_sparse_l2_noop by now right. Qed.


Lemma quot_nonneg a b : 0 <= a -> 0 < b -> 0 <= Z.quot a b.
Proof. intros. apply Z.quot_pos; lia. Qed.

(** The L1 half: it always succeeds on a cell with non-negative
    coordinates, and touches the L1 records only. *)
Lemma mark_dirty_l1_step d row col :
  tiles_fit d -> 0 <= row -> 0 <= col ->
  let tr := Z.quot row TILE_L1_SIZE in
  let tc := Z.quot col TILE_L1_SIZE in
  let g := (tr <? l1_tiles_y d) && (tc <? l1_tiles_x d) in
  exists d1,
    mark_dirty_l1 d row col = Some d1 /\
    rect_of d1 = rect_of d /\ conf_of d1 = conf_of d /\
    l2_sparse_of d1 = l2_sparse_of d /\ l2_blocks d1 = l2_blocks d /\
    l1_tiles d1 = (if g then upd2 (l1_tiles d) tr tc true else l1_tiles d) /\
    (g = true -> settled_l1 d1 tr tc) /\
    (settled_l1 d tr tc \/ g = false ->
     l1_sparse_of d1 = l1_sparse_of d /\ pool_of d1 = pool_of d) /\
    (pool_ok d = false -> pool_of d1 = pool_of d) /\
    (g = true -> use_sparse_tracking d = true -> bitmap_listed d ->
     check_l1_tile_bitmap d tr tc = true \/ pool_available d ->
     In (tr, tc) (dirty_l1_tiles d1) /\ check_l1_tile_bitmap d1 tr tc = true).
Proof.
  intros (F1 & F2 & _) Hr Hc tr tc g. unfold mark_dirty_l1. fold tr tc g.
  assert (0 <= tr) by (apply quot_nonneg; [assumption | reflexivity]).
  assert (0 <= tc) by (apply quot_nonneg; [assumption | reflexivity]).
  destruct g eqn:G.
  2:{ exists d. repeat split; try reflexivity; intros; discriminate. }
  apply andb_true_iff in G as [G1 G2]. apply Z.ltb_lt in G1, G2.
  assert (I : in_l1 tr tc) by (unfold in_l1; lia).
  rewrite (mark_l1_tile_some _ _ _ I).
  set (dw := with_l1_tiles (upd2 (l1_tiles d) tr tc true) d).
  destruct (with_l1_tiles_frame (upd2 (l1_tiles d) tr tc true) d)
    as (W1 & W2 & W3 & W4 & W5 & W6 & W7). fold dw in W1, W2, W3, W4, W5, W6, W7.
  assert (Ck : check_l1_tile_bitmap dw tr tc = check_l1_tile_bitmap d tr tc).
  { apply check_l1_ext. now inversion W4. }
  assert (Pk : pool_ok dw = pool_ok d) by now apply pool_ok_ext.
  assert (Us : use_sparse_tracking dw = use_sparse_tracking d)
    by now inversion W2.
  destruct (use_sparse_tracking d) eqn:S.
  - destruct (add_sparse_l1_frame dw tr tc) as (A1 & A2 & A3 & A4 & A5).
    exists (add_sparse_l1_tile dw tr tc).
    split; [reflexivity|].
    split; [congruence|]. split; [congruence|]. split; [congruence|].
    split; [congruence|]. split; [congruence|].
    split; [|split; [|split]].
    + intros _. destruct (add_sparse_l1_after dw tr tc I) as [C|[P E]].
      * right. now left.
      * right. right. now rewrite E.
    + intros [[Q|[Q|Q]]|Q]; try congruence.
      * rewrite add_sparse_l1_noop by (left; congruence). now split.
      * rewrite add_sparse_l1_noop by (right; congruence). now split.
    + intros Q. rewrite add_sparse_l1_noop by (right; congruence). assumption.
    + intros _ _ L A.
      apply add_sparse_l1_listed; assumption.
  - exists dw. split; [reflexivity|].
    repeat (split; [assumption|]).
    split; [|split; [|split]].
    + intros _. left. assumption.
    + intros _. now split.
    + intros _. assumption.
    + intros _ Q. discriminate.
Qed.


(** The L2 half. *)
Lemma mark_dirty_l2_step d row col :
  tiles_fit d -> 0 <= row -> 0 <= col ->
  let br := Z.quot row TILE_L2_SIZE in
  let bc := Z.quot col TILE_L2_SIZE in
  let g := (br <? l2_blocks_y d) && (bc <? l2_blocks_x d) in
  exists d1,
    mark_dirty_l2 d row col = Some d1 /\
    rect_of d1 = rect_of d /\ conf_of d1 = conf_of d /\
    l1_sparse_of d1 = l1_sparse_of d /\ l1_tiles d1 = l1_tiles d /\
    l2_blocks d1 = (if g then upd2 (l2_blocks d) br bc true else l2_blocks d) /\
    (g = true -> settled_l2 d1 br bc) /\
    (settled_l2 d br bc \/ g = false ->
     l2_sparse_of d1 = l2_sparse_of d /\ pool_of d1 = pool_of d) /\
    (pool_ok d = false -> pool_of d1 = pool_of d).
Proof.
  intros (_ & _ & F1 & F2) Hr Hc br bc g. unfold mark_dirty_l2. fold br bc g.
  assert (0 <= br) by (apply quot_nonneg; [assumption | reflexivity]).
  assert (0 <= bc) by (apply quot_nonneg; [assumption | reflexivity]).
  destruct g eqn:G.
  2:{ exists d. repeat split; try reflexivity; intros; discriminate. }
  apply andb_true_iff in G as [G1 G2]. apply Z.ltb_lt in G1, G2.
  assert (I : in_l2 br bc) by (unfold in_l2; lia).
  rewrite (mark_l2_block_some _ _ _ I).
  set (dw := with_l2_blocks (upd2 (l2_blocks d) br bc true) d).
  assert (Ck : check_l2_block_bitmap dw br bc = check_l2_block_bitmap d br bc)
    by reflexivity.
  assert (Pk : pool_ok dw = pool_ok d) by reflexivity.
  destruct (use_sparse_tracking d) eqn:S.
  - destruct (add_sparse_l2_frame dw br bc) as (A1 & A2 & A3 & A4 & A5).
    exists (add_sparse_l2_block dw br bc).
    split; [reflexivity|].
    split; [exact A1|]. split; [exact A2|]. split; [exact A3|].
    split; [exact A4|]. split; [exact A5|].
    split; [|split].
    + intros _. destruct (add_sparse_l2_after dw br bc I) as [C|[P E]].
      * right. now left.
      * right. right. now rewrite E.
    + intros [[Q|[Q|Q]]|Q]; try congruence.
      * rewrite add_sparse_l2_noop by (left; congruence). now split.
      * rewrite add_sparse_l2_noop by (right; congruence). now split.
    + intros Q. rewrite add_sparse_l2_noop by (right; congruence). reflexivity.
  - exists dw. split; [reflexivity|].
    repeat (split; [reflexivity|]).
    split; [|split].
    + intros _. left. assumption.
    + intros _. now split.
    + intros _. reflexivity.
Qed.

Lemma upd2_idem (f : Z -> Z -> bool) i j i' j' :
  f i j = true -> upd2 f i j true i' j' = f i' j'.
Proof.
  intros H. unfold upd2.
  destruct (Z.eqb_spec i' i), (Z.eqb_spec j' j); cbn; congruence.
Qed.

Lemma upd2_hit {A} (f : Z -> Z -> A) i j v : upd2 f i j v i j = v.
Proof. unfold upd2. now rewrite !Z.eqb_refl. Qed.

Lemma tiles_fit_conf d d' : conf_of d' = conf_of d -> tiles_fit d -> tiles_fit d'.
Proof.
  unfold conf_of, tiles_fit. intros E. inversion E. congruence.
Qed.

(** C5.  For a cell with non-negative coordinates and a tracker whose
    tile counts fit its tables and whose L1 bitmap is within its L1 list:
    [mark_dirty] succeeds; the bounding rectangle then contains the cell;
    with hierarchical and sparse tracking on and the cell on the tracked
    screen, the covering fine tile is on the sparse L1 list and in its
    bitmap, provided that it was recorded before or that the tile pool
    still had a node to give (an exhausted pool leaves the tile in the
    dense array only); and marking the cell once more changes neither
    the sparse lists, the bitmaps, the pool nor the dense arrays. *)
Theorem mark_dirty_sound (d : dirty_t) (row col : Z) :
  wf d -> 0 <= row -> 0 <= col ->
  exists d',
    mark_dirty d row col = Some d' /\
    (min_row d' <= row <= max_row d' /\ min_col d' <= col <= max_col d') /\
    (use_hierarchical_tiles d = true -> use_sparse_tracking d = true ->
     Z.quot row TILE_L1_SIZE < l1_tiles_y d ->
     Z.quot col TILE_L1_SIZE < l1_tiles_x d ->
     check_l1_tile_bitmap d (Z.quot row TILE_L1_SIZE)
                            (Z.quot col TILE_L1_SIZE) = true
     \/ pool_available d ->
     In (Z.quot row TILE_L1_SIZE, Z.quot col TILE_L1_SIZE) (dirty_l1_tiles d')
     /\ check_l1_tile_bitmap d' (Z.quot row TILE_L1_SIZE)
                                (Z.quot col TILE_L1_SIZE) = true) /\
    (exists d'', mark_dirty d' row col = Some d'' /\ same_tile_sets d' d'').
Proof.
  intros [F L] Hr Hc.
  destruct (extend_rect_frame d row col row col)
    as (C0 & P0 & S10 & S20 & T10 & T20 & H0).
  destruct (extend_rect_contains d row col) as [R1 R2].
  unfold mark_dirty.
  remember (extend_rect d row col row col) as d0 eqn:Hd0. clear Hd0.
  destruct (use_hierarchical_tiles d0) eqn:UH.
  - (* hierarchical tiles *)
    assert (F0 : tiles_fit d0).
    { apply (tiles_fit_conf d); [assumption|]. apply F.
      unfold conf_of in C0. inversion C0. congruence. }
    destruct (mark_dirty_l1_step d0 row col F0 Hr Hc)
      as (d1 & E1 & A1 & A2 & A3 & A4 & A5 & A6 & A7 & A8 & A9).
    assert (F1 : tiles_fit d1) by now apply (tiles_fit_conf d0).
    destruct (mark_dirty_l2_step d1 row col F1 Hr Hc)
      as (d2 & E2 & B1 & B2 & B3 & B4 & B5 & B6 & B7 & B8).
    exists d2. rewrite E1. cbn [obind]. split; [exact E2|].
    assert (RC : rect_of d2 = rect_of d0) by congruence.
    assert (CC : conf_of d2 = conf_of d0) by congruence.
    split.
    { unfold rect_of in RC. inversion RC as [[Q1 Q2 Q3 Q4 Q5]].
      rewrite Q1, Q2, Q3, Q4. now split. }
    split.
    { intros U1 U2 G1 G2 AV.
      unfold conf_of in C0. inversion C0 as [[X1 X2 X3 X4 X5 X6 X7 X8 X9]].
      destruct A9 as [I9 K9].
      - rewrite X1, X2. apply andb_true_iff. split; now apply Z.ltb_lt.
      - congruence.
      - intros r c Hr' Hc' B.
        replace (dirty_l1_tiles d0) with (dirty_l1_tiles d) by now inversion S10.
        apply L; try assumption.
        rewrite <- B. symmetry. apply check_l1_ext. now inversion S10.
      - destruct AV as [AV|[AV1 AV2]].
        + left. rewrite <- AV. apply check_l1_ext. now inversion S10.
        + right. unfold pool_available. inversion P0 as [[Y1 Y2]].
          now rewrite Y1, Y2.
      - split.
        + replace (dirty_l1_tiles d2) with (dirty_l1_tiles d1)
            by now inversion B3.
          assumption.
        + rewrite <- K9. apply check_l1_ext. now inversion B3. }
    (* marking again *)
    assert (HC2 : has_changes d2 = true).
    { unfold rect_of in RC. inversion RC. congruence. }
    assert (RR : extend_rect d2 row col row col = d2).
    { unfold rect_of in RC. inversion RC as [[Q1 Q2 Q3 Q4 Q5]].
      apply extend_rect_fixed; [rewrite Q1, Q2|rewrite Q3, Q4|]; assumption. }
    rewrite RR.
    replace (use_hierarchical_tiles d2) with true
      by (unfold conf_of in CC; inversion CC; congruence).
    assert (F2 : tiles_fit d2) by now apply (tiles_fit_conf d0).
    destruct (mark_dirty_l1_step d2 row col F2 Hr Hc)
      as (d3 & E3 & A1' & A2' & A3' & A4' & A5' & A6' & A7' & A8' & _).
    assert (F3 : tiles_fit d3) by now apply (tiles_fit_conf d2).
    destruct (mark_dirty_l2_step d3 row col F3 Hr Hc)
      as (d4 & E4 & B1' & B2' & B3' & B4' & B5' & B6' & B7' & B8').
    exists d4. rewrite E3. cbn [obind]. split; [exact E4|].
    (* the guards of the two halves read the tile counts only *)
    assert (D10 : l1_tiles_x d1 = l1_tiles_x d0 /\ l1_tiles_y d1 = l1_tiles_y d0
                  /\ l2_blocks_x d1 = l2_blocks_x d0
                  /\ l2_blocks_y d1 = l2_blocks_y d0
                  /\ use_sparse_tracking d1 = use_sparse_tracking d0)
      by (unfold conf_of in A2; inversion A2; repeat split; congruence).
    assert (D21 : l1_tiles_x d2 = l1_tiles_x d1 /\ l1_tiles_y d2 = l1_tiles_y d1
                  /\ l2_blocks_x d2 = l2_blocks_x d1
                  /\ l2_blocks_y d2 = l2_blocks_y d1
                  /\ use_sparse_tracking d2 = use_sparse_tracking d1)
      by (unfold conf_of in B2; inversion B2; repeat split; congruence).
    assert (D32 : l1_tiles_x d3 = l1_tiles_x d2 /\ l1_tiles_y d3 = l1_tiles_y d2
                  /\ l2_blocks_x d3 = l2_blocks_x d2
                  /\ l2_blocks_y d3 = l2_blocks_y d2
                  /\ use_sparse_tracking d3 = use_sparse_tracking d2)
      by (unfold conf_of in A2'; inversion A2'; repeat split; congruence).
    destruct D10 as (D10a & D10b & D10c & D10d & D10e).
    destruct D21 as (D21a & D21b & D21c & D21d & D21e).
    destruct D32 as (D32a & D32b & D32c & D32d & D32e).
    (* the L1 half has nothing left to do on d2 *)
    assert (N1 : l1_sparse_of d3 = l1_sparse_of d2 /\ pool_of d3 = pool_of d2).
    { apply A7'.
      destruct ((Z.quot row TILE_L1_SIZE <? l1_tiles_y d2)
                && (Z.quot col TILE_L1_SIZE <? l1_tiles_x d2)) eqn:G;
        [left|now right].
      rewrite D21a, D21b, D10a, D10b in G.
      destruct (A6 G) as [Q|[Q|Q]].
      - left. congruence.
      - right. left. rewrite <- Q. apply check_l1_ext. now inversion B3.
      - right. right. rewrite <- Q. apply pool_ok_ext. now apply B8. }
    (* nor has the L2 half on d3 *)
    assert (N2 : l2_sparse_of d4 = l2_sparse_of d3 /\ pool_of d4 = pool_of d3).
    { apply B7'.
      destruct ((Z.quot row TILE_L2_SIZE <? l2_blocks_y d3)
                && (Z.quot col TILE_L2_SIZE <? l2_blocks_x d3)) eqn:G;
        [left|now right].
      rewrite D32c, D32d in G. rewrite D21c, D21d in G.
      destruct (B6 G) as [Q|[Q|Q]].
      - left. congruence.
      - right. left. rewrite <- Q. apply check_l2_ext. now inversion A3'.
      - right. right. rewrite <- Q. apply pool_ok_ext. now apply N1. }
    destruct N1 as [N1a N1b]. destruct N2 as [N2a N2b].
    unfold same_tile_sets.
    split; [congruence|]. split; [congruence|]. split; [congruence|].
    split.
    + intros i j. rewrite B4', A5'.
      destruct ((Z.quot row TILE_L1_SIZE <? l1_tiles_y d2)
                && (Z.quot col TILE_L1_SIZE <? l1_tiles_x d2)) eqn:G;
        [|reflexivity].
      apply upd2_idem. rewrite B4, A5.
      rewrite D21a, D21b, D10a, D10b in G. rewrite G. apply upd2_hit.
    + intros i j. rewrite B5'.
      destruct ((Z.quot row TILE_L2_SIZE <? l2_blocks_y d3)
                && (Z.quot col TILE_L2_SIZE <? l2_blocks_x d3)) eqn:G;
        [|now rewrite A4'].
      rewrite A4'. apply upd2_idem. rewrite B5.
      rewrite D32c, D32d in G. rewrite D21c, D21d in G. rewrite G.
      apply upd2_hit.
  - (* no tiles: the rectangle is all there is *)
    exists d0. split; [reflexivity|]. split; [now split|]. split.
    + intros U. unfold conf_of in C0. inversion C0. congruence.
    + exists d0. split.
      * rewrite extend_rect_fixed by assumption. now rewrite UH.
      * unfold same_tile_sets. now repeat split.
Qed.



(** Both halves in sequence keep the L1 bitmap within the L1 list. *)
Lemma mark_dirty_l2_step_listed d row col :
  tiles_fit d -> 0 <= row -> 0 <= col -> bitmap_listed d ->
  exists d2,
    (d1 <- mark_dirty_l1 d row col ;; mark_dirty_l2 d1 row col) = Some d2 /\
    conf_of d2 = conf_of d /\ bitmap_listed d2.
Proof.
  intros F Hr Hc L.
  assert (0 <= Z.quot row TILE_L1_SIZE)
    by (apply quot_nonneg; [assumption | reflexivity]).
  assert (0 <= Z.quot col TILE_L1_SIZE)
    by (apply quot_nonneg; [assumption | reflexivity]).
  assert (exists d1, mark_dirty_l1 d row col = Some d1 /\
                     conf_of d1 = conf_of d /\ bitmap_listed d1)
    as (d1 & E1 & C1 & L1).
  { unfold mark_dirty_l1.
    destruct (_ && _) eqn:G; [|now exists d].
    apply andb_true_iff in G as [G1 G2]. apply Z.ltb_lt in G1, G2.
    destruct F as (F1 & F2 & _).
    assert (I : in_l1 (Z.quot row TILE_L1_SIZE) (Z.quot col TILE_L1_SIZE))
      by (unfold in_l1; lia).
    rewrite (mark_l1_tile_some _ _ _ I).
    destruct (use_sparse_tracking d) eqn:S.
    - eexists. split; [reflexivity|]. split.
      + now destruct (add_sparse_l1_frame
                        (with_l1_tiles
                           (upd2 (l1_tiles d) (Z.quot row TILE_L1_SIZE)
                                 (Z.quot col TILE_L1_SIZE) true) d)
                        (Z.quot row TILE_L1_SIZE) (Z.quot col TILE_L1_SIZE))
          as (_ & Q & _).
      + apply add_sparse_l1_bitmap_listed; assumption.
    - eexists. split; [reflexivity|]. split; [reflexivity|exact L]. }
  assert (F1 : tiles_fit d1) by now apply (tiles_fit_conf d).
  destruct (mark_dirty_l2_step d1 row col F1 Hr Hc)
    as (d2 & E2 & B1 & B2 & B3 & _).
  exists d2. rewrite E1. cbn [obind]. split; [exact E2|]. split; [congruence|].
  intros r c Hr' Hc' B.
  replace (dirty_l1_tiles d2) with (dirty_l1_tiles d1) by now inversion B3.
  apply L1; try assumption.
  rewrite <- B. symmetry. apply check_l1_ext. now inversion B3.
Qed.

(** ** The invariant *)

Lemma bitmap_test_zero i : bitmap_test (fun _ => 0) i = false.
Proof. unfold bitmap_test. now rewrite Z.land_0_l. Qed.

Lemma check_l1_zero d tr tc :
  l1_tile_bitmap d = (fun _ => 0) -> check_l1_tile_bitmap d tr tc = false.
Proof.
  intros E. unfold check_l1_tile_bitmap. rewrite E.
  destruct (_ || _); [reflexivity|apply bitmap_test_zero].
Qed.

(** The tracker of a freshly initialised terminal satisfies it. *)
Lemma wf_init cols rows : wf (init_dirty cols rows).
Proof.
  unfold init_dirty, init_sparse_dirty_tracking,
    init_hierarchical_dirty_tracking, wf.
  cbn [l1_tiles_x l1_tiles_y l2_blocks_x l2_blocks_y dirty_region_static
       with_l1_tiles_x with_l1_tiles_y with_l2_blocks_x with_l2_blocks_y].
  destruct (_ && _) eqn:G.
  - split.
    + intros _. unfold tiles_fit. cbn.
      rewrite !andb_true_iff, !Z.leb_le in G. tauto.
    + intros tr tc _ _ B. rewrite check_l1_zero in B by reflexivity.
      discriminate.
  - split.
    + cbn. discriminate.
    + intros tr tc _ _ B. rewrite check_l1_zero in B by reflexivity.
      discriminate.
Qed.

(** [reset_dirty_region] keeps it. *)
Lemma wf_reset d : wf d -> wf (reset_dirty_region d).
Proof.
  intros [F L]. unfold reset_dirty_region, reset_sparse_dirty_tracking.
  dd d. cbn in *. destruct uh, us; cbn; (split; [exact F|]).
  all: try (intros tr tc _ _ B; rewrite check_l1_zero in B by reflexivity;
            discriminate).
  all: exact L.
Qed.

(** [mark_dirty] keeps it. *)
Lemma wf_mark_dirty d row col d' :
  wf d -> 0 <= row -> 0 <= col -> mark_dirty d row col = Some d' -> wf d'.
Proof.
  intros [F L] Hr Hc.
  destruct (extend_rect_frame d row col row col)
    as (C0 & P0 & S10 & S20 & T10 & T20 & H0).
  unfold mark_dirty.
  remember (extend_rect d row col row col) as d0 eqn:Hd0. clear Hd0.
  assert (L0 : bitmap_listed d0).
  { intros r c Hr' Hc' B.
    replace (dirty_l1_tiles d0) with (dirty_l1_tiles d) by now inversion S10.
    apply L; try assumption.
    rewrite <- B. symmetry. apply check_l1_ext. now inversion S10. }
  assert (U0 : use_hierarchical_tiles d0 = use_hierarchical_tiles d)
    by (unfold conf_of in C0; now inversion C0).
  destruct (use_hierarchical_tiles d0) eqn:UH.
  - assert (F0 : tiles_fit d0)
      by (apply (tiles_fit_conf d); [assumption|now apply F]).
    destruct (mark_dirty_l2_step_listed d0 row col F0 Hr Hc L0)
      as (d2 & E2 & C2 & L2).
    rewrite E2. intros Q. inversion Q; subst d'. split; [|exact L2].
    intros _. now apply (tiles_fit_conf d0).
  - intros Q. inversion Q; subst d'. split; [|exact L0].
    intros U. congruence.
Qed.


(** The boolean membership test decides membership in the L1 list. *)
Lemma l1_listed_spec d tr tc :
  l1_listed d tr tc = true <-> In (tr, tc) (dirty_l1_tiles d).
Proof.
  unfold l1_listed. rewrite existsb_exists. split.
  - intros ([a b] & I & E). cbn in E.
    apply andb_true_iff in E as [E1 E2].
    apply Z.eqb_eq in E1, E2. now subst.
  - intros I. exists (tr, tc). split; [assumption|]. cbn.
    now rewrite !Z.eqb_refl.
Qed.

Lemma mark_dirty_sound_witness :
  wf (init_dirty 80 24) /\ 0 <= 5 /\ 0 <= 10 /\
  exists d',
    mark_dirty (init_dirty 80 24) 5 10 = Some d' /\
    (min_row d' <= 5 <= max_row d' /\ min_col d' <= 10 <= max_col d') /\
    (use_hierarchical_tiles (init_dirty 80 24) = true ->
     use_sparse_tracking (init_dirty 80 24) = true ->
     Z.quot 5 TILE_L1_SIZE < l1_tiles_y (init_dirty 80 24) ->
     Z.quot 10 TILE_L1_SIZE < l1_tiles_x (init_dirty 80 24) ->
     check_l1_tile_bitmap (init_dirty 80 24) (Z.quot 5 TILE_L1_SIZE)
                          (Z.quot 10 TILE_L1_SIZE) = true
     \/ pool_available (init_dirty 80 24) ->
     In (Z.quot 5 TILE_L1_SIZE, Z.quot 10 TILE_L1_SIZE) (dirty_l1_tiles d')
     /\ check_l1_tile_bitmap d' (Z.quot 5 TILE_L1_SIZE)
                                (Z.quot 10 TILE_L1_SIZE) = true) /\
    (exists d'', mark_dirty d' 5 10 = Some d'' /\ same_tile_sets d' d'').
Proof.
  assert (H1 : 0 <= 5) by lia.
  assert (H2 : 0 <= 10) by lia.
  split; [apply wf_init|]. split; [exact H1|]. split; [exact H2|].
  exact (mark_dirty_sound (init_dirty 80 24) 5 10 (wf_init 80 24) H1 H2).
Defined.

(** C5 as stated fails once the tile pool is exhausted.  On a terminal
    of 400 columns and 100 lines with the whole screen marked, the tiles
    are active and sparse tracking is on, but the pool of 512 nodes is
    used up; marking the cell (99, 399) then succeeds without putting
    its fine tile (12, 49) on the sparse L1 list or in the bitmap. *)
Lemma mark_dirty_pool_exhausted :
  match big_screen_marked with
  | Some d =>
      match mark_dirty d 99 399 with
      | Some d' =>
          use_hierarchical_tiles d = true /\ use_sparse_tracking d = true /\
          Z.quot 99 TILE_L1_SIZE = 12 /\ Z.quot 399 TILE_L1_SIZE = 49 /\
          12 < l1_tiles_y d /\ 49 < l1_tiles_x d /\
          dirty_tile_pool_used d' = DIRTY_TILE_POOL_SIZE /\
          l1_listed d' 12 49 = false /\
          check_l1_tile_bitmap d' 12 49 = false /\
          l1_tiles d' 12 49 = true
      | None => False
      end
  | None => False
  end.
Proof.
  vm_compute. repeat split; reflexivity.
Qed.

End DirtyFacts.

(** * Properties of the refresh engine *)

Module EngineFacts.
Import Engine.

(** Case analysis on a sequencing step that succeeded. *)
Ltac bind_inv H :=
  match type of H with
  | obind ?e _ = Some _ =>
      let E := fresh "E" in
      destruct e eqn:E; cbn [obind] in H; [|discriminate H]
  end.

(** ** Loops *)

Lemma in_zrange lo n x :
  In x (zrange lo n) <-> lo <= x < lo + Z.of_nat n.
Proof.
  revert lo. induction n as [|n IH]; intros lo; cbn [zrange].
  - cbn. lia.
  - cbn [In]. rewrite IH. lia.
Qed.

Lemma in_zrange_incl lo hi x : In x (zrange_incl lo hi) <-> lo <= x <= hi.
Proof. unfold zrange_incl. rewrite in_zrange. lia. Qed.

(** A loop whose every step moves the state along a preorder [R] and
    establishes [Q] for its index, [Q] being stable along [R], ends with
    [Q] for every index. *)
Lemma ofold_establish {S A} (R : S -> S -> Prop) (Q : A -> S -> Prop)
  (f : S -> A -> option S) :
  (forall s, R s s) ->
  (forall s1 s2 s3, R s1 s2 -> R s2 s3 -> R s1 s3) ->
  (forall a s s', R s s' -> Q a s -> Q a s') ->
  forall l s s',
    (forall a s1 s2, In a l -> R s s1 -> f s1 a = Some s2 ->
                     R s1 s2 /\ Q a s2) ->
    ofold f l s = Some s' ->
    R s s' /\ forall a, In a l -> Q a s'.
Proof.
  intros Rrefl Rtrans Qstable l.
  induction l as [|a tl IH]; intros s s' Hstep H; cbn [ofold] in H.
  - inversion H; subst. split; [apply Rrefl|]. intros a [].
  - bind_inv H.
    destruct (Hstep a s s0 (or_introl eq_refl) (Rrefl s) E) as [R1 Q1].
    destruct (IH s0 s') as [R2 Q2]; [|assumption|].
    + intros b s1 s2 Hb R01 F. apply Hstep; [now right| |assumption].
      now apply (Rtrans _ s0).
    + split; [now apply (Rtrans _ s0)|].
      intros b [->|Hb]; [|now apply Q2].
      now apply (Qstable _ s0).
Qed.

(** ** The grid *)

Lemma grid_step_refl g : grid_step g g.
Proof. unfold grid_step. now repeat split. Qed.

Lemma grid_step_trans g1 g2 g3 :
  grid_step g1 g2 -> grid_step g2 g3 -> grid_step g1 g3.
Proof.
  unfold grid_step.
  intros (A1 & A2 & A3 & A4 & A5 & A6) (B1 & B2 & B3 & B4 & B5 & B6).
  repeat split; try congruence. auto.
Qed.

Lemma upd2_eq {A} (f : Z -> Z -> A) i j v : upd2 f i j v i j = v.
Proof. unfold upd2. now rewrite !Z.eqb_refl. Qed.

Lemma upd2_neq {A} (f : Z -> Z -> A) i j v i' j' :
  (i', j') <> (i, j) -> upd2 f i j v i' j' = f i' j'.
Proof.
  intros N. unfold upd2.
  destruct (Z.eqb_spec i' i), (Z.eqb_spec j' j); cbn; congruence.
Qed.

(** Committing a cell converges it and disturbs no other cell. *)
Lemma commit_cell_step g y x g' :
  commit_cell g y x = Some g' ->
  grid_step g g' /\ differs g' y x = false.
Proof.
  unfold commit_cell. destruct (in_grid g y x); [|discriminate].
  intros H. inversion H; subst g'. clear H.
  split.
  - unfold grid_step. repeat split.
    intros y' x' D. unfold differs in *. cbn.
    destruct (Z.eq_dec y' y) as [->|Ny].
    + destruct (Z.eq_dec x' x) as [->|Nx].
      * rewrite !upd2_eq, !Z.eqb_refl. reflexivity.
      * rewrite !upd2_neq by congruence. assumption.
    + rewrite !upd2_neq by congruence. assumption.
  - unfold differs. cbn. rewrite !upd2_eq, !Z.eqb_refl. reflexivity.
Qed.

(** The copy loop converges every cell of the run. *)
Lemma copy_run_step g y xs r :
  copy_run g y xs = Some r ->
  grid_step g (snd r) /\ forall x, In x xs -> differs (snd r) y x = false.
Proof.
  revert g r. induction xs as [|x tl IH]; intros g r H; cbn [copy_run] in H.
  - inversion H; subst. cbn. split; [apply grid_step_refl|]. intros x [].
  - bind_inv H. bind_inv H. inversion H; subst r. cbn [snd].
    destruct (commit_cell_step _ _ _ _ E) as [S1 D1].
    destruct (IH _ _ E0) as [S2 D2].
    split; [now apply (grid_step_trans _ g0)|].
    intros x' [->|I]; [|now apply D2].
    destruct S2 as (_ & _ & _ & _ & _ & M). now apply M.
Qed.

(** ** Emissions *)

Lemma count_app p l l' : count p (l ++ l') = count p l + count p l'.
Proof. unfold count. rewrite filter_app, length_app. lia. Qed.

Lemma count_nonneg p l : 0 <= count p l.
Proof. unfold count. lia. Qed.

Lemma one_per_run_nil : one_per_run [].
Proof. unfold one_per_run, count. cbn. lia. Qed.

Lemma one_per_run_app l l' :
  one_per_run l -> one_per_run l' -> one_per_run (l ++ l').
Proof. unfold one_per_run. rewrite !count_app. lia. Qed.

Lemma scan_step_refl s : scan_step s s.
Proof.
  unfold scan_step. split; [apply grid_step_refl|]. repeat split.
  exists []. split; [now rewrite app_nil_r|apply one_per_run_nil].
Qed.

Lemma scan_step_trans s1 s2 s3 :
  scan_step s1 s2 -> scan_step s2 s3 -> scan_step s1 s3.
Proof.
  unfold scan_step.
  intros (A1 & A2 & A3 & A4 & A5 & n1 & A6 & A7)
         (B1 & B2 & B3 & B4 & B5 & n2 & B6 & B7).
  split; [now apply (grid_step_trans _ (grid s2))|].
  repeat split; try congruence.
  exists (n1 ++ n2). split.
  - rewrite B6, A6. now rewrite app_assoc.
  - now apply one_per_run_app.
Qed.

Lemma scan_step_differs s s' y x :
  scan_step s s' -> differs (grid s) y x = false ->
  differs (grid s') y x = false.
Proof. intros ((_ & _ & _ & _ & _ & M) & _). apply M. Qed.


(** ** The three steps of a run *)

(** [tui_move_cached] leaves the cursor where it is asked to, and emits
    at most one positioning sequence. *)
Lemma tui_move_cached_spec s row col :
  let s' := tui_move_cached s row col in
  grid s' = grid s /\ tui_lines s' = tui_lines s /\ tui_cols s' = tui_cols s /\
  dirty_region s' = dirty_region s /\ use_writev s' = use_writev s /\
  last_row (cursor_cache s') = row /\ last_col (cursor_cache s') = col /\
  (out s' = out s \/ exists seq, out s' = out s ++ [ECursor seq]).
Proof.
  cbv zeta. unfold tui_move_cached.
  destruct ((row =? last_row (cursor_cache s))
            && (col =? last_col (cursor_cache s))) eqn:E.
  - apply andb_true_iff in E as [E1 E2]. apply Z.eqb_eq in E1, E2.
    repeat split; try congruence. now left.
  - match goal with
    | |- context [match ?x with Some _ => _ | None => _ end] => destruct x
    end.
    + repeat split. right. eexists. reflexivity.
    + match goal with
      | |- context [if ?b then _ else _] => destruct b
      end; repeat split; right; eexists; reflexivity.
Qed.

(** [apply_attributes] emits at most one rendition sequence and does not
    touch the cursor. *)
Lemma apply_attributes_spec s a s' :
  apply_attributes s a = Some s' ->
  grid s' = grid s /\ tui_lines s' = tui_lines s /\ tui_cols s' = tui_cols s /\
  dirty_region s' = dirty_region s /\ use_writev s' = use_writev s /\
  cursor_cache s' = cursor_cache s /\
  (out s' = out s \/ exists seq, out s' = out s ++ [EAttr seq]).
Proof.
  unfold apply_attributes.
  match goal with
  | |- context [let '(_, _) := ?x in _] => destruct x as [fg bg]
  end.
  match goal with
  | |- context [if ?b then Some s else _] => destruct b
  end.
  - intros H. inversion H; subst. repeat split. now left.
  - destruct (AttrSeq.get_cached_attr_sequence _ _ _ _ _) as [cached cache'].
    intros H. bind_inv H. inversion H; subst s'. clear H.
    repeat split. right. eexists. reflexivity.
Qed.

(** [output_buffered_run], called with the cursor on the start of the
    run, converges the cells of the run and emits the run. *)
Lemma output_buffered_run_spec s y start_x end_x s' :
  last_col (cursor_cache s) = start_x ->
  output_buffered_run s y start_x end_x = Some s' ->
  grid_step (grid s) (grid s') /\
  tui_lines s' = tui_lines s /\ tui_cols s' = tui_cols s /\
  dirty_region s' = dirty_region s /\ use_writev s' = use_writev s /\
  row_converged (grid s') y start_x (end_x + 1) /\
  exists chars, out s' = out s ++ [ERun y start_x end_x chars].
Proof.
  intros L. unfold output_buffered_run.
  rewrite L, Z.eqb_refl, andb_false_r.
  intros H. bind_inv H. inversion H; subst s'. clear H.
  destruct (copy_run_step _ _ _ _ E) as [S1 D1].
  cbn. repeat split; try apply S1.
  - intros x Hx. apply D1. apply in_zrange. lia.
  - eexists. reflexivity.
Qed.

Lemma one_per_run_run pre1 pre2 e :
  (pre1 = [] \/ exists seq, pre1 = [ECursor seq]) ->
  (pre2 = [] \/ exists seq, pre2 = [EAttr seq]) ->
  is_run e = true ->
  one_per_run (pre1 ++ pre2 ++ [e]).
Proof.
  intros [->|[? ->]] [->|[? ->]] He; destruct e; try discriminate He;
    unfold one_per_run, count; cbn; lia.
Qed.

(** A rendered run: the cells of the run have converged, and the
    emissions are at most one cursor positioning and at most one
    rendition sequence, then the run. *)
Lemma render_run_spec s y start_x end_x a s' :
  render_run s y start_x end_x a = Some s' ->
  scan_step s s' /\ row_converged (grid s') y start_x (end_x + 1).
Proof.
  unfold render_run. intros H. bind_inv H. bind_inv H.
  inversion H; subst s'. clear H.
  destruct (tui_move_cached_spec s y start_x)
    as (M1 & M2 & M3 & M4 & M5 & M6 & M7 & M8).
  destruct (apply_attributes_spec _ _ _ E)
    as (A1 & A2 & A3 & A4 & A5 & A6 & A7).
  assert (L : last_col (cursor_cache e) = start_x) by congruence.
  destruct (output_buffered_run_spec _ _ _ _ _ L E0)
    as (O1 & O2 & O3 & O4 & O5 & O6 & chars & O7).
  unfold set_last_col. cbn.
  split; [|exact O6].
  unfold scan_step. cbn.
  split; [rewrite <- M1, <- A1; exact O1|].
  repeat split; try congruence.
  assert (exists pre1 pre2,
            out e0 = out s ++ pre1 ++ pre2 ++ [ERun y start_x end_x chars] /\
            (pre1 = [] \/ exists seq, pre1 = [ECursor seq]) /\
            (pre2 = [] \/ exists seq, pre2 = [EAttr seq]))
    as (pre1 & pre2 & Eo & P1 & P2).
  { rewrite O7.
    destruct M8 as [M8|[sq M8]], A7 as [A7|[sq' A7]]; rewrite A7, M8.
    - exists [], []. split; [reflexivity|]. split; now left.
    - exists [], [EAttr sq']. split; [now rewrite <- !app_assoc|].
      split; [now left | right; eauto].
    - exists [ECursor sq], []. split; [now rewrite <- !app_assoc|].
      split; [right; eauto | now left].
    - exists [ECursor sq], [EAttr sq']. split; [now rewrite <- !app_assoc|].
      split; right; eauto. }
  exists (pre1 ++ pre2 ++ [ERun y start_x end_x chars]).
  split; [exact Eo|]. now apply one_per_run_run.
Qed.


(** ** The tile scanner *)

Lemma cell_changed_some g y x b :
  cell_changed g y x = Some b -> b = differs g y x.
Proof.
  unfold cell_changed. destruct (in_grid g y x); [|discriminate].
  now intros [= <-].
Qed.

Lemma tile_run_end_ge fuel g y end_x end_col smc a e :
  tile_run_end fuel g y end_x end_col smc a = Some e -> end_x <= e.
Proof.
  revert end_x. induction fuel as [|f IH]; intros end_x H; cbn [tile_run_end] in H.
  - inversion H. lia.
  - destruct (_ && _); [|inversion H; lia].
    bind_inv H. destruct (z =? a); [|inversion H; lia].
    bind_inv H. destruct b; [|inversion H; lia].
    apply IH in H. lia.
Qed.

Lemma st_step_refl st : st_step st st.
Proof. apply scan_step_refl. Qed.

Lemma st_step_trans st1 st2 st3 :
  st_step st1 st2 -> st_step st2 st3 -> st_step st1 st3.
Proof. apply scan_step_trans. Qed.

Lemma row_converged_step s s' y lo hi :
  scan_step s s' -> row_converged (grid s) y lo hi ->
  row_converged (grid s') y lo hi.
Proof.
  intros S C x Hx. apply (scan_step_differs s); [assumption|now apply C].
Qed.

(** One row of a tile: with fuel for the width left, every cell from
    [x] to the end of the tile row has converged. *)
Lemma scan_tile_row_spec fuel y end_col smc :
  forall x st st',
    scan_tile_row fuel y x end_col smc st = Some st' ->
    st_step st st' /\
    (end_col - x <= Z.of_nat fuel ->
     row_converged (grid (fst st')) y x end_col).
Proof.
  induction fuel as [|f IH]; intros x st st' H; cbn [scan_tile_row] in H.
  - inversion H; subst. split; [apply st_step_refl|].
    intros F c Hc. cbn in F. lia.
  - destruct (Z.ltb_spec x end_col) as [Lt|Ge].
    2:{ inversion H; subst. split; [apply st_step_refl|].
        intros _ c Hc. lia. }
    bind_inv H. apply cell_changed_some in E.
    destruct b.
    + bind_inv H. bind_inv H. bind_inv H.
      apply tile_run_end_ge in E1.
      destruct (render_run_spec _ _ _ _ _ _ E2) as [S1 C1].
      destruct (IH _ _ _ H) as [S2 C2]. cbn [fst] in S2.
      split; [now apply (scan_step_trans _ e)|].
      intros F c Hc.
      destruct (Z.le_gt_cases c z0) as [Le|Gt].
      * apply (scan_step_differs e); [assumption|]. apply C1. lia.
      * apply C2; lia.
    + destruct (IH _ _ _ H) as [S2 C2].
      split; [assumption|].
      intros F c Hc.
      destruct (Z.eq_dec c x) as [->|N].
      * apply (scan_step_differs (fst st)); [assumption|]. now symmetry.
      * apply C2; lia.
Qed.

(** The extents a scanner reads are those of the state it started
    from. *)
Lemma tile_rows_step s s' tr mr xr :
  scan_step s s' -> tile_rows s' tr mr xr = tile_rows s tr mr xr.
Proof.
  intros ((_ & R & _) & L & _). unfold tile_rows. now rewrite R, L.
Qed.

Lemma tile_cols_step s s' tc mc xc :
  scan_step s s' -> tile_cols s' tc mc xc = tile_cols s tc mc xc.
Proof.
  intros ((_ & _ & C & _) & _ & L & _). unfold tile_cols. now rewrite C, L.
Qed.

(** A scanned tile: every cell of the tile inside the buffer, the
    terminal and the scan region has converged. *)
Lemma scan_l1_tile_spec st tr tc mr xr mc xc st' :
  scan_l1_tile st tr tc mr xr mc xc = Some st' ->
  st_step st st' /\
  rect_converged (grid (fst st')) (tile_rows (fst st) tr mr xr)
                 (tile_cols (fst st) tc mc xc).
Proof.
  unfold scan_l1_tile.
  destruct (tile_rows (fst st) tr mr xr) as [start_row end_row].
  destruct (tile_cols (fst st) tc mc xc) as [start_col end_col].
  intros H.
  apply (ofold_establish st_step
           (fun y st => row_converged (grid (fst st)) y start_col end_col))
    in H.
  - destruct H as [S C]. split; [assumption|].
    intros y x Hy Hx. cbn [fst snd] in *. apply C; [|assumption].
    apply in_zrange. lia.
  - apply st_step_refl.
  - apply st_step_trans.
  - intros y s1 s2 S C. now apply (row_converged_step (fst s1)).
  - intros y s1 s2 _ _ F.
    destruct (scan_tile_row_spec _ _ _ _ _ _ _ F) as [S C].
    split; [assumption|]. apply C. lia.
Qed.


(** ** Arithmetic of tiles and regions *)

Lemma quot_bounds r k :
  0 <= r -> 0 < k -> k * Z.quot r k <= r < k * Z.quot r k + k.
Proof.
  intros Hr Hk. rewrite Z.quot_div_nonneg by lia.
  pose proof (Z.div_mod r k ltac:(lia)).
  pose proof (Z.mod_pos_bound r k Hk). lia.
Qed.

Lemma quot_quot_4 r : 0 <= r -> Z.quot (Z.quot r 8) 4 = Z.quot r 32.
Proof.
  intros Hr.
  rewrite (Z.quot_div_nonneg r 8), (Z.quot_div_nonneg r 32) by lia.
  rewrite Z.quot_div_nonneg by (try apply Z.div_pos; lia).
  rewrite Z.div_div by lia. reflexivity.
Qed.

(** Case analysis on the innermost comparison of the goal. *)
Ltac no_if t :=
  lazymatch t with
  | context [if _ then _ else _] => fail
  | _ => idtac
  end.

Ltac break_if :=
  match goal with
  | |- context [if ?a <? ?b then _ else _] =>
      no_if a; no_if b; destruct (Z.ltb_spec a b)
  | |- context [if ?a <=? ?b then _ else _] =>
      no_if a; no_if b; destruct (Z.leb_spec a b)
  end.

(** The scan region never reaches beyond the buffer or the terminal. *)
Lemma scan_bounds_upper s mr xr mc xc :
  scan_bounds s = (mr, xr, mc, xc) ->
  xr <= buf_rows (grid s) - 1 /\ xr <= tui_lines s - 1 /\
  xc <= buf_cols (grid s) - 1 /\ xc <= tui_cols s - 1.
Proof.
  unfold scan_bounds. cbv zeta. intros [= <- <- <- <-].
  repeat break_if; lia.
Qed.

Lemma cell_in_tile_rows s r mr xr :
  0 <= r -> mr <= r <= xr ->
  xr <= buf_rows (grid s) - 1 -> xr <= tui_lines s - 1 ->
  fst (tile_rows s (Z.quot r Dirty.TILE_L1_SIZE) mr xr) <= r
  < snd (tile_rows s (Z.quot r Dirty.TILE_L1_SIZE) mr xr).
Proof.
  intros Hr Hin Hb Ht.
  pose proof (quot_bounds r 8 Hr ltac:(lia)) as Q.
  unfold tile_rows, clamp_hi, clamp_lo, Dirty.TILE_L1_SIZE. cbn [fst snd].
  repeat break_if; lia.
Qed.

Lemma cell_in_tile_cols s c mc xc :
  0 <= c -> mc <= c <= xc ->
  xc <= buf_cols (grid s) - 1 -> xc <= tui_cols s - 1 ->
  fst (tile_cols s (Z.quot c Dirty.TILE_L1_SIZE) mc xc) <= c
  < snd (tile_cols s (Z.quot c Dirty.TILE_L1_SIZE) mc xc).
Proof.
  intros Hc Hin Hb Ht.
  pose proof (quot_bounds c 8 Hc ltac:(lia)) as Q.
  unfold tile_cols, clamp_hi, clamp_lo, Dirty.TILE_L1_SIZE. cbn [fst snd].
  repeat break_if; lia.
Qed.

(** The tile of a cell of the region meets the region. *)
Lemma intersects_cell size r c mr xr mc xc :
  0 <= r -> 0 <= c -> 0 < size ->
  mr <= r <= xr -> mc <= c <= xc ->
  intersects size (Z.quot r size) (Z.quot c size) mr xr mc xc = true.
Proof.
  intros Hr Hc Hs Hy Hx.
  pose proof (quot_bounds r size Hr Hs).
  pose proof (quot_bounds c size Hc Hs).
  unfold intersects. rewrite !andb_true_iff, !Z.leb_le. lia.
Qed.

Lemma rect_converged_step s s' rows cols :
  scan_step s s' -> rect_converged (grid s) rows cols ->
  rect_converged (grid s') rows cols.
Proof.
  intros S C y x Hy Hx. apply (scan_step_differs s); [assumption|].
  now apply C.
Qed.

(** ** Sparse scanning *)

Lemma scan_sparse_spec st mr xr mc xc st' :
  scan_sparse st mr xr mc xc = Some st' ->
  st_step st st' /\
  forall t, In t (Dirty.dirty_l1_tiles (dirty_region (fst st))) ->
            intersects Dirty.TILE_L1_SIZE (fst t) (snd t) mr xr mc xc = true ->
            rect_converged (grid (fst st'))
                           (tile_rows (fst st) (fst t) mr xr)
                           (tile_cols (fst st) (snd t) mc xc).
Proof.
  unfold scan_sparse. intros H.
  apply (ofold_establish st_step
           (fun t st1 =>
              intersects Dirty.TILE_L1_SIZE (fst t) (snd t) mr xr mc xc = true ->
              rect_converged (grid (fst st1))
                             (tile_rows (fst st) (fst t) mr xr)
                             (tile_cols (fst st) (snd t) mc xc)))
    in H.
  - exact H.
  - apply st_step_refl.
  - apply st_step_trans.
  - intros t s1 s2 S C I. apply (rect_converged_step (fst s1)); auto.
  - intros t s1 s2 _ S F.
    destruct (intersects _ _ _ _ _ _ _) eqn:I.
    + destruct (scan_l1_tile_spec _ _ _ _ _ _ _ _ F) as [S1 C1].
      split; [assumption|]. intros _.
      now rewrite <- (tile_rows_step _ _ _ _ _ S),
                  <- (tile_cols_step _ _ _ _ _ S).
    + inversion F; subst. split; [apply st_step_refl|]. discriminate.
Qed.

(** ** Hierarchical scanning over the sparse lists *)

Lemma scan_hier_sparse_spec st mr xr mc xc st' :
  scan_hier_sparse st mr xr mc xc = Some st' ->
  st_step st st' /\
  forall b t,
    In b (Dirty.dirty_l2_blocks (dirty_region (fst st))) ->
    In t (Dirty.dirty_l1_tiles (dirty_region (fst st))) ->
    intersects Dirty.TILE_L2_SIZE (fst b) (snd b) mr xr mc xc = true ->
    Z.quot (fst t) 4 = fst b -> Z.quot (snd t) 4 = snd b ->
    intersects Dirty.TILE_L1_SIZE (fst t) (snd t) mr xr mc xc = true ->
    rect_converged (grid (fst st'))
                   (tile_rows (fst st) (fst t) mr xr)
                   (tile_cols (fst st) (snd t) mc xc).
Proof.
  unfold scan_hier_sparse. intros H.
  set (Qt := fun (b : Z * Z) (t : Z * Z) (st1 : scan_state) =>
               Z.quot (fst t) 4 = fst b -> Z.quot (snd t) 4 = snd b ->
               intersects Dirty.TILE_L1_SIZE (fst t) (snd t) mr xr mc xc = true ->
               rect_converged (grid (fst st1))
                              (tile_rows (fst st) (fst t) mr xr)
                              (tile_cols (fst st) (snd t) mc xc)).
  apply (ofold_establish st_step
           (fun b st1 =>
              intersects Dirty.TILE_L2_SIZE (fst b) (snd b) mr xr mc xc = true ->
              forall t, In t (Dirty.dirty_l1_tiles (dirty_region (fst st))) ->
                        Qt b t st1))
    in H.
  - destruct H as [S C]. split; [assumption|].
    intros b t Hb Ht I2 Q1 Q2 I1. now apply (C b Hb I2 t Ht).
  - apply st_step_refl.
  - apply st_step_trans.
  - intros b s1 s2 S C I t Ht Q1 Q2 I1.
    apply (rect_converged_step (fst s1)); [assumption|]. now apply C.
  - intros b s1 s2 _ S F.
    destruct (intersects Dirty.TILE_L2_SIZE _ _ _ _ _ _) eqn:I2.
    2:{ inversion F; subst. split; [apply st_step_refl|]. discriminate. }
    apply (ofold_establish st_step (fun t st1 => Qt b t st1)) in F.
    + destruct F as [S1 C1]. split; [assumption|]. intros _ t Ht. now apply C1.
    + apply st_step_refl.
    + apply st_step_trans.
    + intros t u1 u2 U C Q1 Q2 I1.
      apply (rect_converged_step (fst u1)); [assumption|]. now apply C.
    + intros t u1 u2 _ U G.
      destruct (_ && _) eqn:Cnd.
      * destruct (scan_l1_tile_spec _ _ _ _ _ _ _ _ G) as [S1 C1].
        split; [assumption|]. intros _ _ _.
        assert (ST : scan_step (fst st) (fst u1))
          by (apply (scan_step_trans _ (fst s1)); assumption).
        now rewrite <- (tile_rows_step _ _ _ _ _ ST),
                    <- (tile_cols_step _ _ _ _ _ ST).
      * inversion G; subst. split; [apply st_step_refl|].
        intros Q1 Q2 I1. exfalso.
        change (Z.quot Dirty.TILE_L2_SIZE Dirty.TILE_L1_SIZE) with 4 in Cnd.
        rewrite Q1, Q2, I1, !Z.eqb_refl in Cnd. discriminate.
Qed.


(** ** Linear scanning *)

Lemma linear_run_end_ge fuel g y end_x gap a cols e :
  linear_run_end fuel g y end_x gap a cols = Some e -> end_x <= e.
Proof.
  revert end_x gap.
  induction fuel as [|f IH]; intros end_x gap H; cbn [linear_run_end] in H.
  - inversion H. lia.
  - destruct (_ && _); [|inversion H; lia].
    bind_inv H. destruct (z =? a); [|inversion H; lia].
    bind_inv H. destruct b.
    + apply IH in H. lia.
    + destruct (gap <? MAX_GAP); [|inversion H; lia].
      apply IH in H. lia.
Qed.

Lemma trim_run_bounds fuel g y x end_x e :
  x <= end_x -> trim_run fuel g y x end_x = Some e -> x <= e <= end_x.
Proof.
  revert end_x. induction fuel as [|f IH]; intros end_x Le H; cbn [trim_run] in H.
  - inversion H. lia.
  - destruct (Z.ltb_spec x end_x); [|inversion H; lia].
    bind_inv H. destruct b; [inversion H; lia|].
    apply IH in H; lia.
Qed.

(** One row of the linear scan: with fuel for the width left, every cell
    from [x] to the end of the scan region has converged. *)
Lemma scan_linear_row_spec fuel y xc :
  forall x st st',
    scan_linear_row fuel y x xc st = Some st' ->
    st_step st st' /\
    (xc - x + 1 <= Z.of_nat fuel ->
     xc <= buf_cols (grid (fst st)) - 1 -> xc <= tui_cols (fst st) - 1 ->
     row_converged (grid (fst st')) y x (xc + 1)).
Proof.
  induction fuel as [|f IH]; intros x st st' H; cbn [scan_linear_row] in H.
  - inversion H; subst. split; [apply st_step_refl|].
    intros F _ _ c Hc. cbn in F. lia.
  - destruct ((x <=? xc) && (x <? buf_cols (grid (fst st)))
              && (x <? tui_cols (fst st))) eqn:Cnd.
    2:{ inversion H; subst. split; [apply st_step_refl|].
        intros _ B1 B2 c Hc. exfalso.
        apply andb_false_iff in Cnd as [Cnd|Cnd];
          [apply andb_false_iff in Cnd as [Cnd|Cnd]|].
        - apply Z.leb_gt in Cnd. lia.
        - apply Z.ltb_ge in Cnd. lia.
        - apply Z.ltb_ge in Cnd. lia. }
    bind_inv H. apply cell_changed_some in E.
    destruct b.
    + bind_inv H. bind_inv H. bind_inv H. bind_inv H.
      apply linear_run_end_ge in E1.
      apply trim_run_bounds in E2; [|assumption].
      destruct (render_run_spec _ _ _ _ _ _ E3) as [S1 C1].
      destruct (IH _ _ _ H) as [S2 C2]. cbn [fst] in S2, C2.
      split; [now apply (scan_step_trans _ e)|].
      intros F B1 B2 c Hc.
      destruct (Z.le_gt_cases c z1) as [Le|Gt].
      * apply (scan_step_differs e); [assumption|]. apply C1. lia.
      * destruct S1 as ((_ & _ & Bc & _) & _ & Tc & _).
        apply C2; lia.
    + destruct (IH _ _ _ H) as [S2 C2].
      split; [assumption|].
      intros F B1 B2 c Hc.
      destruct (Z.eq_dec c x) as [->|N].
      * apply (scan_step_differs (fst st)); [assumption|]. now symmetry.
      * apply C2; lia.
Qed.

Lemma existsb_false_all {A} (p : A -> bool) l :
  existsb p l = false -> forall a, In a l -> p a = false.
Proof.
  induction l as [|b tl IH]; cbn; intros H a.
  - intros [].
  - apply orb_false_iff in H as [H1 H2].
    intros [->|I]; [assumption|now apply IH].
Qed.

(** A row the fast check finds unchanged has converged already. *)
Lemma row_has_changes_false g y mc xc :
  y < buf_rows g -> xc <= buf_cols g - 1 ->
  row_has_changes g y mc xc = Some false ->
  row_converged g y mc (xc + 1).
Proof.
  intros By Bc. unfold row_has_changes.
  destruct (Z.leb_spec (buf_rows g) y); [lia|].
  destruct (Z.leb_spec (buf_cols g) xc); [lia|].
  destruct (Z.leb_spec (buf_cols g) mc).
  - intros _ c Hc. lia.
  - cbn [orb]. destruct (_ && _); [|discriminate].
    intros [= E] c Hc.
    apply (existsb_false_all _ _ E). apply in_zrange. lia.
Qed.

Lemma scan_linear_spec st mr xr mc xc st' :
  xr <= buf_rows (grid (fst st)) - 1 ->
  xc <= buf_cols (grid (fst st)) - 1 -> xc <= tui_cols (fst st) - 1 ->
  scan_linear st mr xr mc xc = Some st' ->
  st_step st st' /\
  forall y, mr <= y <= xr -> row_converged (grid (fst st')) y mc (xc + 1).
Proof.
  intros Br Bc Bt. unfold scan_linear. intros H.
  apply (ofold_establish st_step
           (fun y st1 => row_converged (grid (fst st1)) y mc (xc + 1)))
    in H.
  - destruct H as [S C]. split; [assumption|].
    intros y Hy. apply C. now apply in_zrange_incl.
  - apply st_step_refl.
  - apply st_step_trans.
  - intros y s1 s2 S C. now apply (row_converged_step (fst s1)).
  - intros y s1 s2 Hy S F.
    apply in_zrange_incl in Hy.
    destruct S as ((_ & Rr & Rc & _) & _ & Tc & _).
    replace (if xc <? buf_cols (grid (fst s1)) then xc
             else buf_cols (grid (fst s1)) - 1) with xc in F
      by (destruct (Z.ltb_spec xc (buf_cols (grid (fst s1)))); lia).
    bind_inv F. destruct b.
    + destruct (scan_linear_row_spec _ _ _ _ _ _ F) as [S1 C1].
      split; [assumption|]. apply C1; lia.
    + inversion F; subst. split; [apply st_step_refl|].
      apply row_has_changes_false; [lia|lia|assumption].
Qed.


(** ** The parts of [tui_refresh] around the scan *)

(** Tightening the rectangle changes the rectangle only. *)
Lemma optimize_dirty_region_frame s s1 :
  optimize_dirty_region s = Some s1 ->
  grid s1 = grid s /\ tui_lines s1 = tui_lines s /\ tui_cols s1 = tui_cols s /\
  out s1 = out s /\ use_writev s1 = use_writev s /\
  auto_flush_enabled s1 = auto_flush_enabled s /\
  Dirty.dirty_l1_tiles (dirty_region s1) = Dirty.dirty_l1_tiles (dirty_region s)
  /\ Dirty.dirty_l2_blocks (dirty_region s1)
     = Dirty.dirty_l2_blocks (dirty_region s)
  /\ Dirty.use_sparse_tracking (dirty_region s1)
     = Dirty.use_sparse_tracking (dirty_region s)
  /\ Dirty.use_hierarchical_tiles (dirty_region s1)
     = Dirty.use_hierarchical_tiles (dirty_region s).
Proof.
  unfold optimize_dirty_region. cbv zeta.
  destruct (negb _).
  - intros [= <-]. now repeat split.
  - intros H. bind_inv H. bind_inv H.
    destruct (_ || _).
    + inversion H; subst s1. now repeat split.
    + bind_inv H. bind_inv H. inversion H; subst s1.
      destruct (_ || _); now repeat split.
Qed.

(** It reads the grid and the dirty record only. *)
Lemma optimize_dirty_region_flush b s :
  optimize_dirty_region (with_auto_flush_enabled b s)
  = match optimize_dirty_region s with
    | Some s1 => Some (with_auto_flush_enabled b s1)
    | None => None
    end.
Proof.
  unfold optimize_dirty_region. cbv zeta.
  cbn [dirty_region grid with_auto_flush_enabled].
  destruct (negb _); [reflexivity|].
  destruct (find_first _ _) as [top|]; [|reflexivity]. cbn [obind].
  destruct (find_first _ _) as [bottom|]; [|reflexivity]. cbn [obind].
  destruct (_ || _); [reflexivity|].
  destruct (find_first _ _) as [left|]; [|reflexivity]. cbn [obind].
  destruct (find_first _ _) as [right|]; reflexivity.
Qed.

Lemma scan_region_flush b s :
  scan_region (with_auto_flush_enabled b s) = scan_region s.
Proof.
  unfold scan_region. rewrite optimize_dirty_region_flush.
  now destruct (optimize_dirty_region s).
Qed.

(** The choice of strategy updates the frame counters only; sparse
    scanning is chosen only with sparse tracking on and a tile listed. *)
Lemma choose_strategy_frame d mr xr mc xc d' u :
  choose_strategy d mr xr mc xc = (d', u) ->
  Dirty.dirty_l1_tiles d' = Dirty.dirty_l1_tiles d /\
  Dirty.dirty_l2_blocks d' = Dirty.dirty_l2_blocks d /\
  Dirty.use_sparse_tracking d' = Dirty.use_sparse_tracking d /\
  Dirty.use_hierarchical_tiles d' = Dirty.use_hierarchical_tiles d /\
  (u = true -> Dirty.use_sparse_tracking d = true /\
               Dirty.dirty_l1_tiles d <> []).
Proof.
  unfold choose_strategy. cbv zeta.
  cbn [Dirty.use_sparse_tracking Dirty.with_frame_count
       Dirty.dirty_l1_tiles].
  destruct (Dirty.use_sparse_tracking d) eqn:U.
  2:{ intros [= <- <-]. repeat split; try reflexivity; try exact U;
      congruence. }
  intros [= <- <-].
  split; [|split; [|split; [|split]]].
  1-4: repeat match goal with
         | |- context [if ?b then _ else _] => destruct b
         end; try reflexivity; assumption.
  intros Hu. split; [reflexivity|]. intros E. rewrite E in Hu. cbn in Hu.
  rewrite andb_false_r in Hu. discriminate.
Qed.

Lemma finish_refresh_spec st :
  let s' := finish_refresh st in
  grid s' = grid (fst st) /\
  Dirty.has_changes (dirty_region s') = false /\
  exists tl, out s' = out (fst st) ++ tl /\
             count is_cursor tl = 0 /\ count is_attr tl = 0 /\
             count is_run tl = 0.
Proof.
  cbv zeta. unfold finish_refresh. destruct st as [s [|]]; cbn [fst snd].
  - split; [reflexivity|]. split.
    + unfold Dirty.reset_dirty_region. cbn.
      repeat match goal with
             | |- context [if ?b then _ else _] => destruct b
             end; reflexivity.
    + eexists. split; [reflexivity|]. now repeat split.
  - split; [reflexivity|]. split.
    + unfold Dirty.reset_dirty_region. cbn.
      repeat match goal with
             | |- context [if ?b then _ else _] => destruct b
             end; reflexivity.
    + exists []. split; [cbn; now rewrite app_nil_r|]. now repeat split.
Qed.

Lemma differs_false g y x :
  differs g y x = false <->
  prev_screen_buf g y x = screen_buf g y x /\
  prev_attr_buf g y x = attr_buf g y x.
Proof.
  unfold differs. rewrite orb_false_iff, !negb_false_iff, !Z.eqb_eq.
  intuition congruence.
Qed.


(** ** The scan as a whole *)

(** A loop whose steps move along the preorder does so as a whole. *)
Lemma ofold_step {A} (f : scan_state -> A -> option scan_state) l :
  (forall a s1 s2, f s1 a = Some s2 -> st_step s1 s2) ->
  forall st st', ofold f l st = Some st' -> st_step st st'.
Proof.
  intros Hf st st' H.
  apply (ofold_establish st_step (fun _ _ => True)) in H.
  - apply H.
  - apply st_step_refl.
  - apply st_step_trans.
  - trivial.
  - intros a s1 s2 _ _ F. split; [now apply (Hf a)|trivial].
Qed.

Lemma scan_hier_dense_step st mr xr mc xc st' :
  scan_hier_dense st mr xr mc xc = Some st' -> st_step st st'.
Proof.
  unfold scan_hier_dense. cbv zeta.
  apply ofold_step. intros l2_row s1 s2.
  apply ofold_step. intros l2_col s3 s4.
  destruct (negb _); [intros [= <-]; apply st_step_refl|].
  apply ofold_step. intros l1_row s5 s6.
  apply ofold_step. intros l1_col s7 s8.
  destruct (negb _); [intros [= <-]; apply st_step_refl|].
  intros F. now apply scan_l1_tile_spec in F.
Qed.

(** Whatever the strategy, the scan preserves the logical grid, lets no
    converged cell diverge, and emits at most one cursor positioning and
    one rendition sequence per run. *)
Lemma scan_step_all u st mr xr mc xc st' :
  scan u st mr xr mc xc = Some st' -> st_step st st'.
Proof.
  unfold scan. destruct u.
  - intros F. now apply scan_sparse_spec in F.
  - destruct (Dirty.use_hierarchical_tiles _).
    + destruct (Dirty.use_sparse_tracking _).
      * intros F. now apply scan_hier_sparse_spec in F.
      * apply scan_hier_dense_step.
    + unfold scan_linear. apply ofold_step. intros y s1 s2 F.
      bind_inv F. destruct b.
      * now apply scan_linear_row_spec in F.
      * inversion F; subst. apply st_step_refl.
Qed.

(** The scan converges every tracked cell of the scan region. *)
Lemma scan_converges u st mr xr mc xc st' r c :
  scan u st mr xr mc xc = Some st' ->
  xr <= buf_rows (grid (fst st)) - 1 -> xr <= tui_lines (fst st) - 1 ->
  xc <= buf_cols (grid (fst st)) - 1 -> xc <= tui_cols (fst st) - 1 ->
  (u = true -> Dirty.dirty_l1_tiles (dirty_region (fst st)) <> []) ->
  mr <= r <= xr -> mc <= c <= xc -> 0 <= r -> 0 <= c ->
  cell_tracked (dirty_region (fst st)) r c ->
  differs (grid (fst st')) r c = false.
Proof.
  intros F Br Tr Bc Tc Hu Hr Hc Pr Pc T.
  assert (RC : forall st1 : scan_state,
             rect_converged (grid (fst st1))
               (tile_rows (fst st) (Z.quot r Dirty.TILE_L1_SIZE) mr xr)
               (tile_cols (fst st) (Z.quot c Dirty.TILE_L1_SIZE) mc xc) ->
             differs (grid (fst st1)) r c = false).
  { intros st1 C. apply C.
    - now apply cell_in_tile_rows.
    - now apply cell_in_tile_cols. }
  assert (I1 : intersects Dirty.TILE_L1_SIZE (Z.quot r Dirty.TILE_L1_SIZE)
                          (Z.quot c Dirty.TILE_L1_SIZE) mr xr mc xc = true)
    by (apply intersects_cell; try assumption; reflexivity).
  assert (I2 : intersects Dirty.TILE_L2_SIZE (Z.quot r Dirty.TILE_L2_SIZE)
                          (Z.quot c Dirty.TILE_L2_SIZE) mr xr mc xc = true)
    by (apply intersects_cell; try assumption; reflexivity).
  unfold scan in F. destruct u.
  - (* sparse scanning *)
    destruct T as [[_ [L1 _]]|[_ E]]; [|now destruct (Hu eq_refl)].
    apply scan_sparse_spec in F as [_ C].
    apply RC. now apply (C _ L1).
  - destruct (Dirty.use_hierarchical_tiles (dirty_region (fst st))) eqn:UH.
    + destruct T as [[US [L1 L2]]|[UH' _]]; [|congruence].
      rewrite US in F.
      apply scan_hier_sparse_spec in F as [_ C].
      apply RC. apply (C _ _ L2 L1); try assumption.
      * cbn [fst]. unfold Dirty.TILE_L1_SIZE, Dirty.TILE_L2_SIZE.
        now apply quot_quot_4.
      * cbn [snd]. unfold Dirty.TILE_L1_SIZE, Dirty.TILE_L2_SIZE.
        now apply quot_quot_4.
    + apply scan_linear_spec in F as [_ C]; try assumption.
      apply C; lia.
Qed.

(** The steps of a refresh that has changes pending. *)
Lemma tui_refresh_steps s rv s' :
  tui_refresh s = Some (rv, s') ->
  Dirty.has_changes (dirty_region s) = true ->
  allocated (grid s) = true ->
  exists s1 mr xr mc xc d u st,
    optimize_dirty_region s = Some s1 /\
    scan_bounds s1 = (mr, xr, mc, xc) /\
    choose_strategy (dirty_region s1) mr xr mc xc = (d, u) /\
    scan u (with_dirty_region d (with_auto_flush_enabled false s1), false)
         mr xr mc xc = Some st /\
    rv = 0 /\ s' = finish_refresh st.
Proof.
  unfold tui_refresh. intros H HC A. rewrite A in H. cbn [negb] in H.
  cbn [dirty_region with_auto_flush_enabled] in H. rewrite HC in H.
  cbn [negb] in H.
  rewrite optimize_dirty_region_flush in H.
  destruct (optimize_dirty_region s) as [s1|] eqn:E; [|discriminate].
  cbn [obind] in H.
  change (scan_bounds (with_auto_flush_enabled false s1))
    with (scan_bounds s1) in H.
  destruct (scan_bounds s1) as [[[mr xr] mc] xc] eqn:B.
  change (dirty_region (with_auto_flush_enabled false s1))
    with (dirty_region s1) in H.
  destruct (choose_strategy (dirty_region s1) mr xr mc xc) as [d u] eqn:CS.
  match type of H with
  | obind ?e _ = _ => destruct e as [st|] eqn:SC; [|discriminate H]
  end.
  cbn [obind] in H. inversion H; subst.
  exists s1, mr, xr, mc, xc, d, u, st. now repeat split.
Qed.

(** A refresh returns -1 without buffers and 0 otherwise. *)
Lemma tui_refresh_zero s s' :
  tui_refresh s = Some (0, s') -> allocated (grid s) = true.
Proof.
  unfold tui_refresh. destruct (allocated (grid s)); [reflexivity|].
  cbn. intros [= ?].
Qed.

End EngineFacts.

(** * The refresh as a whole *)

Module RefreshFacts.
Import Engine EngineFacts.

(** A run that returned 0 is the run [refreshed] names. *)
Lemma refreshed_zero s :
  option_map fst (tui_refresh s) = Some 0 ->
  tui_refresh s = Some (0, refreshed s).
Proof.
  unfold refreshed. destruct (tui_refresh s) as [[rv s']|]; cbn;
    [|discriminate].
  intros H. inversion H. reflexivity.
Qed.

Lemma cell_tracked_ext d d' r c :
  Dirty.dirty_l1_tiles d' = Dirty.dirty_l1_tiles d ->
  Dirty.dirty_l2_blocks d' = Dirty.dirty_l2_blocks d ->
  Dirty.use_sparse_tracking d' = Dirty.use_sparse_tracking d ->
  Dirty.use_hierarchical_tiles d' = Dirty.use_hierarchical_tiles d ->
  cell_tracked d r c -> cell_tracked d' r c.
Proof.
  unfold cell_tracked, tile_listed. intros -> -> -> ->. trivial.
Qed.

(** C1, amended.  When a refresh of the primary window with changes
    pending returns 0, every cell of the scan region that the scan
    visits equals its snapshot, character and attribute.  The scan
    visits a cell of the region when the cell is tracked: its fine tile
    and its coarse block are on the sparse lists, or the tiles are off
    and the region is scanned linearly. *)
Theorem refresh_converges (s s' : engine) (reg : Z * Z * Z * Z) (r c : Z) :
  tui_refresh s = Some (0, s') ->
  Dirty.has_changes (dirty_region s) = true ->
  scan_region s = Some reg ->
  in_region reg r c -> 0 <= r -> 0 <= c ->
  cell_tracked (dirty_region s) r c ->
  prev_screen_buf (grid s') r c = screen_buf (grid s') r c /\
  prev_attr_buf (grid s') r c = attr_buf (grid s') r c.
Proof.
  intros H HC SR IR Pr Pc T.
  pose proof (tui_refresh_zero _ _ H) as A.
  destruct (tui_refresh_steps _ _ _ H HC A)
    as (s1 & mr & xr & mc & xc & d & u & st & O & B & CS & SC & _ & ->).
  unfold scan_region in SR. rewrite O in SR. cbn [obind] in SR.
  rewrite B in SR. inversion SR; subst reg. clear SR.
  destruct IR as [Hr Hc].
  destruct (scan_bounds_upper _ _ _ _ _ B) as (U1 & U2 & U3 & U4).
  destruct (optimize_dirty_region_frame _ _ O)
    as (F1 & F2 & F3 & F4 & F5 & F6 & F7 & F8 & F9 & F10).
  destruct (choose_strategy_frame _ _ _ _ _ _ _ CS)
    as (G1 & G2 & G3 & G4 & G5).
  apply differs_false.
  destruct (finish_refresh_spec st) as (E1 & _). rewrite E1.
  apply (scan_converges _ _ _ _ _ _ _ _ _ SC); try assumption.
  - cbn. intros Hu. rewrite G1. now apply G5.
  - cbn. apply (cell_tracked_ext (dirty_region s)); congruence.
Qed.

Lemma refresh_converges_witness :
  prev_screen_buf (grid (refreshed one_cell)) 0 0
  = screen_buf (grid (refreshed one_cell)) 0 0 /\
  prev_attr_buf (grid (refreshed one_cell)) 0 0
  = attr_buf (grid (refreshed one_cell)) 0 0.
Proof.
  apply (refresh_converges one_cell (refreshed one_cell) (0, 0, 0, 0) 0 0).
  - apply refreshed_zero. vm_compute. reflexivity.
  - vm_compute. reflexivity.
  - vm_compute. reflexivity.
  - cbn. lia.
  - lia.
  - lia.
  - left. split; [vm_compute; reflexivity|].
    split; vm_compute; left; reflexivity.
Defined.

(** C1 as stated fails for the cells of the scan region whose tile was
    never marked.  On a fresh terminal of 80 columns and 24 lines, X is
    printed at (0, 0) and Y at (20, 70).  The refresh returns 0 and its
    scan region is the bounding box, rows 0 to 20 and columns 0 to 70,
    but only the two listed tiles are scanned: the cell (10, 30) inside
    the box keeps the snapshot byte 0 against the blank of the logical
    grid, and the snapshot attribute -1 against 0. *)
Lemma refresh_skips_unlisted_tiles :
  option_map fst (tui_refresh far_apart) = Some 0 /\
  scan_region far_apart = Some (0, 20, 0, 70) /\
  in_region (0, 20, 0, 70) 10 30 /\
  Dirty.dirty_l1_tiles (dirty_region far_apart) = [(2, 8); (0, 0)] /\
  prev_screen_buf (grid (refreshed far_apart)) 10 30 = 0 /\
  screen_buf (grid (refreshed far_apart)) 10 30 = 32 /\
  prev_attr_buf (grid (refreshed far_apart)) 10 30 = -1 /\
  attr_buf (grid (refreshed far_apart)) 10 30 = 0.
Proof.
  vm_compute. repeat split; try reflexivity; discriminate.
Qed.

(** A completed refresh leaves no dirty state and keeps the buffers. *)
Lemma refresh_leaves_clean s s' :
  tui_refresh s = Some (0, s') ->
  allocated (grid s') = true /\ Dirty.has_changes (dirty_region s') = false.
Proof.
  intros H. pose proof (tui_refresh_zero _ _ H) as A.
  destruct (Dirty.has_changes (dirty_region s)) eqn:HC.
  - destruct (tui_refresh_steps _ _ _ H HC A)
      as (s1 & mr & xr & mc & xc & d & u & st & O & B & CS & SC & _ & ->).
    destruct (finish_refresh_spec st) as (E1 & E2 & _).
    split; [|assumption]. rewrite E1.
    apply scan_step_all in SC. destruct SC as ((SA & _) & _).
    cbn in SA. rewrite SA.
    destruct (optimize_dirty_region_frame _ _ O) as (F1 & _). congruence.
  - unfold tui_refresh in H. rewrite A in H. cbn in H. rewrite HC in H.
    cbn in H. inversion H; subst. cbn. now split.
Qed.

(** C2.  A refresh of the primary window with no dirty state pending
    returns 0 and emits nothing; this is the case in particular right
    after a refresh that returned 0. *)
Theorem refresh_idempotent (s : engine) :
  (allocated (grid s) = true /\ Dirty.has_changes (dirty_region s) = false)
  \/ (exists s0, tui_refresh s0 = Some (0, s)) ->
  exists s', tui_refresh s = Some (0, s') /\ out s' = out s.
Proof.
  intros H.
  assert (allocated (grid s) = true /\
          Dirty.has_changes (dirty_region s) = false) as [A HC].
  { destruct H as [H|[s0 H]]; [assumption|].
    now apply (refresh_leaves_clean s0). }
  unfold tui_refresh. rewrite A. cbn. rewrite HC. cbn.
  eexists. split; reflexivity.
Qed.

Lemma refresh_idempotent_witness :
  exists s', tui_refresh term_80x24 = Some (0, s') /\ out s' = out term_80x24.
Proof.
  apply (refresh_idempotent term_80x24).
  left. split; vm_compute; reflexivity.
Defined.

(** C3 as stated fails on both counts.  On a refreshed blank screen of
    80 columns, A, B and C are written at (0, 0), (0, 1) and (0, 2),
    B in bold: three cells differ, with two distinct attribute values,
    and the refresh emits three rendition sequences, because a sequence
    is saved only against the rendition applied last.  With line 5
    rewritten from column 0 to column 79 in one attribute, eighty
    adjacent cells of one line differ, and the refresh positions the
    cursor ten times, once per tile, because the tiles are scanned in
    the order of the sparse list. *)
Lemma refresh_repeats_sequences :
  (option_map fst (tui_refresh three_cells) = Some 0 /\
   differing_cells (grid three_cells) = [(0, 0); (0, 1); (0, 2)] /\
   distinct_attrs (grid three_cells) = [TUI_A_BOLD; TUI_A_NORMAL] /\
   count is_attr (emitted three_cells) = 3) /\
  (option_map fst (tui_refresh full_row) = Some 0 /\
   differing_cells (grid full_row) = map (fun x => (5, x)) (zrange 0 80) /\
   distinct_attrs (grid full_row) = [TUI_A_NORMAL] /\
   count is_cursor (emitted full_row) = 10 /\
   count is_run (emitted full_row) = 10).
Proof.
  vm_compute. repeat split; reflexivity.
Qed.

(** C10, as the code has it.  A resize notification rewrites the cached
    extents and nothing of the grid or of the dirty state.  But the
    later reads are not all bounded from below: on a terminal of 80
    columns and 24 lines resized to 100 by 30, a blank printed at
    column -1 of line 0 is accepted (it stores nothing and returns 0)
    and marks the dirty columns -1 to -1; the next refresh has
    [row_has_changes] compare line 0 from column -1, before the start of
    the row of the 24 by 80 grid. *)
Theorem resize_print_refresh_out_of_bounds :
  (forall s ws,
     grid (handle_resize s ws) = grid s /\
     dirty_region (handle_resize s ws) = dirty_region s) /\
  option_map fst
    (print_at_stdscr (handle_resize term_80x24 (Some (30, 100))) 0 (-1) [32])
  = Some 0 /\
  (tui_lines off_screen_print, tui_cols off_screen_print) = (30, 100) /\
  (buf_rows (grid off_screen_print), buf_cols (grid off_screen_print))
  = (24, 80) /\
  Dirty.has_changes (dirty_region off_screen_print) = true /\
  (Dirty.min_col (dirty_region off_screen_print),
   Dirty.max_col (dirty_region off_screen_print)) = (-1, -1) /\
  row_has_changes (grid off_screen_print) 0 (-1) (-1) = None /\
  tui_refresh off_screen_print = None.
Proof.
  split.
  - intros s ws. unfold handle_resize.
    destruct (get_terminal_size ws) as [lines cols]. split; reflexivity.
  - vm_compute. repeat split; reflexivity.
Qed.

End RefreshFacts.

(** * Properties of the write path *)

Module OutputFacts.
Import Writev Output.

Lemma adjust_iovecs_shorter (vecs : list iovec) (n : Z) :
  (length (adjust_iovecs_after_partial_write vecs n) <= length vecs)%nat.
Proof.
  revert n. induction vecs as [|v tl IH]; intros n; simpl; [lia|].
  destruct (0 <? n); [|simpl; lia].
  destruct (iov_len v <=? n); [|simpl; lia].
  specialize (IH (n - iov_len v)). lia.
Qed.

Lemma adjust_iovecs_skipn (vecs : list iovec) (n : Z) :
  concat (adjust_iovecs_after_partial_write vecs n)
  = skipn (Z.to_nat n) (concat vecs).
Proof.
  revert n. induction vecs as [|v tl IH]; intros n; simpl.
  - now rewrite skipn_nil.
  - destruct (0 <? n) eqn:P.
    + apply Z.ltb_lt in P.
      destruct (iov_len v <=? n) eqn:L.
      * apply Z.leb_le in L. rewrite IH.
        unfold iov_len in *.
        rewrite skipn_app.
        rewrite (skipn_all2 v) by lia. simpl.
        f_equal. lia.
      * apply Z.leb_gt in L. simpl. unfold iov_len in L.
        rewrite skipn_app.
        replace (Z.to_nat n - length v)%nat with 0%nat by lia. reflexivity.
    + apply Z.ltb_ge in P. replace (Z.to_nat n) with 0%nat by lia. reflexivity.
Qed.

(** X1.  After a write that took [n] bytes, the spans that remain hold
    exactly the pending bytes without their first [n], in the same
    order, and there are no more spans than before; a count that is not
    positive leaves the spans alone. *)
Theorem adjust_iovecs_keeps_unwritten (vecs : list iovec) (n : Z) :
  concat (adjust_iovecs_after_partial_write vecs n)
  = skipn (Z.to_nat n) (concat vecs) /\
  (length (adjust_iovecs_after_partial_write vecs n) <= length vecs)%nat /\
  (n <= 0 -> adjust_iovecs_after_partial_write vecs n = vecs).
Proof.
  split; [apply adjust_iovecs_skipn|].
  split; [apply adjust_iovecs_shorter|].
  intros Hn. destruct vecs as [|v tl]; [reflexivity|]. simpl.
  replace (0 <? n) with false by (symmetry; apply Z.ltb_ge; lia).
  reflexivity.
Qed.

(** The loop only ever hands over bytes from the front of what is
    pending. *)
Lemma flush_loop_prefix os :
  forall vecs total written emitted o e,
    flush_loop os vecs total written emitted = Some (o, e) ->
    exists taken rest, e = emitted ++ taken /\ concat vecs = taken ++ rest.
Proof.
  induction os as [|r os IH]; intros vecs total written emitted o e H.
  - simpl in H.
    destruct ((written <? total) && (0 <? Z.of_nat (length vecs)));
      [discriminate|].
    inversion H; subst. exists [], (concat vecs).
    now rewrite app_nil_r.
  - simpl in H.
    destruct ((written <? total) && (0 <? Z.of_nat (length vecs))).
    + destruct r as [n| |].
      * destruct (n =? 0).
        { inversion H; subst. exists [], (concat vecs).
          now rewrite app_nil_r. }
        apply IH in H. destruct H as (taken & rest & E1 & E2).
        rewrite adjust_iovecs_skipn in E2.
        exists (accepted vecs n ++ taken), rest. split.
        { rewrite E1. now rewrite app_assoc. }
        unfold accepted. rewrite <- app_assoc, <- E2.
        symmetry. apply firstn_skipn.
      * now apply IH in H.
      * inversion H; subst. exists [], (concat vecs).
        now rewrite app_nil_r.
    + inversion H; subst. exists [], (concat vecs).
      now rewrite app_nil_r.
Qed.

(** X2.  Whatever [writev] reports, a flush that returns has handed the
    descriptor a prefix of the buffered bytes, nothing else and nothing
    twice, and leaves no span behind. *)
Theorem flush_writes_prefix (os : list writev_result) (b : writev_buffer_t)
  (o : flush_outcome) (e : list Z) (b' : writev_buffer_t) :
  tui_flush_vectored os b = Some (o, e, b') ->
  (exists rest, content b = e ++ rest) /\
  vecs b' = [] /\
  auto_flush_enabled b' = auto_flush_enabled b.
Proof.
  unfold tui_flush_vectored. intros H.
  destruct (count b =? 0) eqn:C.
  - inversion H; subst. split; [exists (content b'); reflexivity|].
    split; [|reflexivity].
    apply Z.eqb_eq in C. unfold count in C.
    destruct (vecs b'); [reflexivity|simpl in C; lia].
  - destruct (flush_loop os (vecs b) (total_bytes b) 0 []) as [[o1 e1]|] eqn:F;
      [|discriminate].
    inversion H; subst.
    apply flush_loop_prefix in F. destruct F as (taken & rest & E1 & E2).
    simpl in E1. subst e. split; [exists rest; exact E2|].
    split; reflexivity.
Qed.

Lemma flush_writes_prefix_witness :
  (exists rest, content three_spans = firstn 40 (content three_spans) ++ rest)
  /\ vecs (reset_buffer three_spans) = [] /\
  auto_flush_enabled (reset_buffer three_spans)
  = auto_flush_enabled three_spans.
Proof.
  apply (flush_writes_prefix [Written 40; Written 30] three_spans Completed).
  vm_compute. reflexivity.
Defined.

Lemma flush_loop_eintrs k :
  forall os vecs total written emitted,
    flush_loop (repeat Eintr k ++ os) vecs total written emitted
    = flush_loop os vecs total written emitted
    \/ (written <? total) && (0 <? Z.of_nat (length vecs)) = false.
Proof.
  induction k as [|k IH]; intros os vs total written emitted; simpl;
    [now left|].
  destruct ((written <? total) && (0 <? Z.of_nat (length vs))) eqn:G;
    [|now right].
  destruct (IH os vs total written emitted) as [E|E]; [now left|].
  rewrite G in E. discriminate.
Qed.

(** X3.  A flush whose [writev] is interrupted any number of times and
    then accepts all the pending bytes writes exactly the content of the
    buffer and resets it. *)
Theorem flush_complete_write (k : nat) (b : writev_buffer_t) :
  0 < count b ->
  0 < total_bytes b ->
  total_bytes b = Z.of_nat (length (content b)) ->
  tui_flush_vectored (repeat Eintr k ++ [Written (total_bytes b)]) b
  = Some (Completed, content b, reset_buffer b).
Proof.
  intros Hc Ht Hl. unfold tui_flush_vectored.
  replace (count b =? 0) with false by (symmetry; apply Z.eqb_neq; lia).
  destruct (flush_loop_eintrs k [Written (total_bytes b)] (vecs b)
              (total_bytes b) 0 []) as [E|E].
  - rewrite E. cbn [flush_loop].
    replace (0 <? total_bytes b) with true by (symmetry; now apply Z.ltb_lt).
    unfold count in Hc.
    replace (0 <? Z.of_nat (length (vecs b))) with true
      by (symmetry; now apply Z.ltb_lt).
    cbn [andb].
    replace (total_bytes b =? 0) with false
      by (symmetry; apply Z.eqb_neq; lia).
    replace (0 + total_bytes b <? total_bytes b - total_bytes b) with false
      by (symmetry; apply Z.ltb_ge; lia).
    cbn [andb]. unfold accepted, content. simpl.
    rewrite firstn_all2; [reflexivity|].
    unfold content in Hl. lia.
  - unfold count in Hc.
    apply andb_false_iff in E. destruct E as [E|E].
    + apply Z.ltb_ge in E. lia.
    + apply Z.ltb_ge in E. lia.
Qed.

Lemma flush_complete_write_witness :
  tui_flush_vectored (repeat Eintr 3 ++ [Written (total_bytes three_spans)])
                     three_spans
  = Some (Completed, content three_spans, reset_buffer three_spans).
Proof.
  apply (flush_complete_write 3 three_spans); vm_compute; reflexivity.
Defined.

Lemma flush_resets os b o e b' :
  tui_flush_vectored os b = Some (o, e, b') ->
  buf_ok b -> b' = reset_buffer b \/ (b' = b /\ vecs b = []).
Proof.
  unfold tui_flush_vectored. intros H K.
  destruct (count b =? 0) eqn:C.
  - inversion H; subst. right. split; [reflexivity|].
    apply Z.eqb_eq in C. unfold count in C.
    destruct (vecs b'); [reflexivity|simpl in C; lia].
  - destruct (flush_loop os (vecs b) (total_bytes b) 0 []) as [[o1 e1]|];
      [|discriminate].
    inversion H; subst. now left.
Qed.

Lemma flush_returns os b :
  responsive os -> exists o e b', tui_flush_vectored os b = Some (o, e, b').
Proof.
  intros R. unfold tui_flush_vectored.
  destruct (count b =? 0); [eauto|].
  destruct (flush_loop os (vecs b) (total_bytes b) 0 []) as [[o e]|] eqn:F;
    [eauto|].
  now apply R in F.
Qed.

Lemma buf_ok_empty b :
  buf_ok b -> vecs b = [] -> total_bytes b = 0 /\ data_pool_used b = 0.
Proof.
  intros (_ & T & P & _) V. unfold content in T. rewrite V in T. simpl in T.
  lia.
Qed.

Lemma buf_ok_append b d :
  buf_ok b -> count b < MAX_IOVECS ->
  data_pool_used b + iov_len d <= WRITEV_DATA_POOL_SIZE ->
  buf_ok (append_span b d).
Proof.
  intros (C & T & P & L) Hc Hp. unfold buf_ok, append_span, count, content in *.
  simpl. rewrite length_app, concat_app, length_app. simpl.
  rewrite app_nil_r. unfold iov_len in *. repeat split; lia.
Qed.

Lemma buf_ok_reset b : buf_ok (reset_buffer b).
Proof.
  unfold buf_ok, reset_buffer, count, content, MAX_IOVECS,
    WRITEV_DATA_POOL_SIZE.
  simpl. repeat split; lia.
Qed.

Lemma responsive_failed : responsive [Failed].
Proof.
  intros vecs total written emitted. simpl.
  destruct ((written <? total) && (0 <? Z.of_nat (length vecs)));
    discriminate.
Qed.

(** What a flush leaves of a buffer whose counters are right. *)
Lemma flush_leaves os b o e b' :
  tui_flush_vectored os b = Some (o, e, b') -> buf_ok b ->
  buf_ok b' /\ vecs b' = [] /\ total_bytes b' = 0 /\ data_pool_used b' = 0
  /\ auto_flush_enabled b' = auto_flush_enabled b.
Proof.
  intros H K. destruct (flush_resets _ _ _ _ _ H K) as [->|[-> V]].
  - split; [apply buf_ok_reset|]. repeat split; reflexivity.
  - destruct (buf_ok_empty _ K V) as [T P].
    split; [assumption|]. split; [assumption|]. split; [assumption|].
    split; [assumption|reflexivity].
Qed.

(** X4.  On a buffer whose counters are right, with reports that let
    its flushes end, [tui_write_vectored] stays inside the vector array
    and the data pool exactly when the chunk is no longer than the pool.
    It then leaves the counters right, and with automatic flushing on
    fewer than [VEC_FLUSH_THRESHOLD] spans and fewer than
    [WRITEV_BUFFER_SIZE] bytes are left pending. *)
Theorem tui_write_vectored_bounds (os1 os2 : list writev_result)
  (b : writev_buffer_t) (chunk : list Z) :
  buf_ok b -> responsive os1 -> responsive os2 ->
  (iov_len chunk <= WRITEV_DATA_POOL_SIZE ->
   exists e b',
     tui_write_vectored os1 os2 b chunk = Some (e, b') /\ buf_ok b' /\
     (auto_flush_enabled b = true ->
      count b' < VEC_FLUSH_THRESHOLD /\ total_bytes b' < WRITEV_BUFFER_SIZE))
  /\ (WRITEV_DATA_POOL_SIZE < iov_len chunk ->
      tui_write_vectored os1 os2 b chunk = None).
Proof.
  intros K R1 R2.
  assert (Hfirst :
    exists e1 b1,
      (if (MAX_IOVECS <=? count b)
          || (WRITEV_DATA_POOL_SIZE <? data_pool_used b + iov_len chunk)
       then r <- tui_flush_vectored os1 b ;; Some (snd (fst r), snd r)
       else Some ([], b)) = Some (e1, b1) /\
      buf_ok b1 /\ auto_flush_enabled b1 = auto_flush_enabled b /\
      (iov_len chunk <= WRITEV_DATA_POOL_SIZE ->
       count b1 < MAX_IOVECS /\
       data_pool_used b1 + iov_len chunk <= WRITEV_DATA_POOL_SIZE) /\
      (WRITEV_DATA_POOL_SIZE < iov_len chunk ->
       WRITEV_DATA_POOL_SIZE < data_pool_used b1 + iov_len chunk)).
  { destruct ((MAX_IOVECS <=? count b)
              || (WRITEV_DATA_POOL_SIZE <? data_pool_used b + iov_len chunk))
      eqn:G.
    - destruct (flush_returns os1 b R1) as (o & e & b1 & F).
      rewrite F. cbn [obind fst snd]. exists e, b1.
      destruct (flush_leaves _ _ _ _ _ F K) as (K1 & V & T & P & A).
      split; [reflexivity|]. split; [assumption|]. split; [assumption|].
      unfold count. rewrite V, P. simpl. unfold MAX_IOVECS. split; lia.
    - apply orb_false_iff in G. destruct G as [G1 G2].
      apply Z.leb_gt in G1. apply Z.ltb_ge in G2.
      exists [], b. split; [reflexivity|]. split; [assumption|].
      split; [reflexivity|]. destruct K as (_ & T & P & _).
      pose proof (Zle_0_nat (length (content b))). split; lia. }
  destruct Hfirst as (e1 & b1 & E1 & K1 & A1 & Small & Big).
  unfold tui_write_vectored. rewrite E1. cbn [obind fst snd].
  split.
  - intros Hl. destruct (Small Hl) as [Hc Hp].
    replace (data_pool_used b1 + iov_len chunk <=? WRITEV_DATA_POOL_SIZE)
      with true by (symmetry; now apply Z.leb_le).
    replace (count b1 <? MAX_IOVECS) with true
      by (symmetry; now apply Z.ltb_lt).
    cbn [andb].
    pose proof (buf_ok_append b1 chunk K1 Hc Hp) as K2.
    destruct (auto_flush_enabled (append_span b1 chunk)
              && ((VEC_FLUSH_THRESHOLD <=? count (append_span b1 chunk))
                  || (WRITEV_BUFFER_SIZE
                      <=? total_bytes (append_span b1 chunk)))) eqn:G.
    + destruct (flush_returns os2 (append_span b1 chunk) R2)
        as (o & e & b3 & F).
      rewrite F. cbn [obind fst snd]. exists (e1 ++ e), b3.
      destruct (flush_leaves _ _ _ _ _ F K2) as (K3 & V & T & P & A).
      split; [reflexivity|]. split; [assumption|].
      intros _. unfold count. rewrite V, T. simpl.
      unfold VEC_FLUSH_THRESHOLD, WRITEV_BUFFER_SIZE. lia.
    + exists e1, (append_span b1 chunk). split; [reflexivity|].
      split; [assumption|]. intros Ha.
      assert (auto_flush_enabled (append_span b1 chunk) = true) as Ha'
        by (simpl; congruence).
      rewrite Ha' in G. cbn [andb] in G.
      apply orb_false_iff in G. destruct G as [G1 G2].
      apply Z.leb_gt in G1. apply Z.leb_gt in G2. lia.
  - intros Hl. specialize (Big Hl).
    replace (data_pool_used b1 + iov_len chunk <=? WRITEV_DATA_POOL_SIZE)
      with false by (symmetry; apply Z.leb_gt; lia).
    reflexivity.
Qed.

Lemma tui_write_vectored_bounds_witness :
  (iov_len (bytes_from 0 10) <= WRITEV_DATA_POOL_SIZE ->
   exists e b',
     tui_write_vectored [Failed] [Failed] three_spans (bytes_from 0 10)
     = Some (e, b') /\ buf_ok b' /\
     (auto_flush_enabled three_spans = true ->
      count b' < VEC_FLUSH_THRESHOLD /\ total_bytes b' < WRITEV_BUFFER_SIZE))
  /\ (WRITEV_DATA_POOL_SIZE < iov_len (bytes_from 0 10) ->
      tui_write_vectored [Failed] [Failed] three_spans (bytes_from 0 10)
      = None).
Proof.
  apply (tui_write_vectored_bounds [Failed] [Failed] three_spans
                                   (bytes_from 0 10)).
  - unfold buf_ok. vm_compute. repeat split; discriminate.
  - apply responsive_failed.
  - apply responsive_failed.
Defined.

(** ** The fallback buffer *)

Lemma progress_nonneg os : 0 <= progress os.
Proof. induction os as [|[n| |] os IH]; simpl; lia. Qed.

Lemma write_loop_delivers os :
  forall pending emitted,
    recoverable os -> Z.of_nat (length pending) <= progress os ->
    write_loop os pending emitted = Some (emitted ++ pending).
Proof.
  induction os as [|r os IH]; intros pending emitted R P.
  - simpl in P. destruct pending; [now rewrite app_nil_r|simpl in P; lia].
  - assert (R' : recoverable os) by (intros I; apply R; now right).
    destruct pending as [|c tl] eqn:Ep; [simpl; now rewrite app_nil_r|].
    rewrite <- Ep in *. 
    assert (write_loop (r :: os) pending emitted
            = match r with
              | Written n =>
                  if 0 <? n
                  then write_loop os (skipn (Z.to_nat n) pending)
                                  (emitted ++ firstn (Z.to_nat n) pending)
                  else write_loop os pending emitted
              | Eintr => write_loop os pending emitted
              | Failed => Some emitted
              end) as -> by (rewrite Ep; reflexivity).
    destruct r as [n| |].
    + cbn [progress] in P. destruct (0 <? n) eqn:G.
      * apply Z.ltb_lt in G. rewrite IH; [| assumption |].
        { rewrite <- app_assoc. now rewrite firstn_skipn. }
        rewrite length_skipn. pose proof (progress_nonneg os). lia.
      * apply Z.ltb_ge in G. apply IH; [assumption|]. lia.
    + cbn [progress] in P. now apply IH.
    + exfalso. apply R. now left.
Qed.

(** The fallback flush on reports that let it finish. *)
Lemma fallback_flush_spec (os : list writev_result)
  (b : output_buffer_t) :
  recoverable os -> len b <= progress os ->
  exists b',
    tui_flush_fallback os b = Some (data b, b') /\ data b' = [] /\
    ob_auto_flush_enabled b' = ob_auto_flush_enabled b.
Proof.
  intros R P. unfold tui_flush_fallback.
  destruct (0 <? len b) eqn:G.
  - rewrite (write_loop_delivers os (data b) [] R P). simpl.
    eexists. repeat split.
  - apply Z.ltb_ge in G. unfold len in G.
    destruct (data b) eqn:D; [|simpl in G; lia].
    exists b. rewrite D. repeat split.
Qed.

(** X5.  The fallback flush retries partial writes, writes of zero
    bytes and interruptions until everything is out: when no report is
    an unrecoverable error and the reports accept as many bytes as are
    buffered, the descriptor receives exactly the buffered bytes, in
    order, and the buffer is empty afterwards. *)
Theorem fallback_flush_delivers (os : list writev_result)
  (b : output_buffer_t) :
  recoverable os -> len b <= progress os ->
  exists b',
    tui_flush_fallback os b = Some (data b, b') /\ data b' = [] /\
    ob_auto_flush_enabled b' = ob_auto_flush_enabled b.
Proof. apply fallback_flush_spec. Qed.

Lemma fallback_flush_delivers_witness :
  exists b',
    tui_flush_fallback [Written 3; Eintr; Written 0; Written 4]
                       (mk_out (bytes_from 65 7) true)
    = Some (data (mk_out (bytes_from 65 7) true), b') /\ data b' = [] /\
    ob_auto_flush_enabled b'
    = ob_auto_flush_enabled (mk_out (bytes_from 65 7) true).
Proof.
  apply (fallback_flush_delivers [Written 3; Eintr; Written 0; Written 4]
                                 (mk_out (bytes_from 65 7) true)).
  - unfold recoverable. simpl. intros [H|[H|[H|[H|[]]]]]; discriminate.
  - vm_compute. discriminate.
Defined.

Lemma buffer_chunk_spec os sent b chunk :
  recoverable os -> OUTPUT_BUFFER_SIZE <= progress os ->
  len b + iov_len chunk <= OUTPUT_BUFFER_SIZE ->
  exists e b',
    buffer_chunk os sent b chunk = Some (e, b') /\
    e ++ data b' = sent ++ data b ++ chunk /\
    len b' <= OUTPUT_BUFFER_SIZE /\
    (ob_auto_flush_enabled b = true -> len b' < BUFFER_FLUSH_THRESHOLD) /\
    ob_auto_flush_enabled b' = ob_auto_flush_enabled b.
Proof.
  intros R P L. unfold buffer_chunk.
  replace (len b + iov_len chunk <=? OUTPUT_BUFFER_SIZE) with true
    by (symmetry; now apply Z.leb_le).
  set (b1 := mk_out (data b ++ chunk) (ob_auto_flush_enabled b)).
  assert (L1 : len b1 = len b + iov_len chunk).
  { unfold len, iov_len, b1. simpl. rewrite length_app. lia. }
  destruct (ob_auto_flush_enabled b1 && (BUFFER_FLUSH_THRESHOLD <=? len b1))
    eqn:G.
  - destruct (fallback_flush_spec os b1 R) as (b' & F & D & A); [lia|].
    rewrite F. cbn [obind fst snd]. exists (sent ++ data b1), b'.
    split; [reflexivity|]. rewrite D, app_nil_r. simpl.
    split; [now rewrite app_assoc|].
    unfold len at 1 2. rewrite D. simpl.
    unfold OUTPUT_BUFFER_SIZE, BUFFER_FLUSH_THRESHOLD. simpl.
    repeat split; try lia. exact A.
  - exists sent, b1. split; [reflexivity|]. simpl.
    split; [reflexivity|]. split; [lia|]. split; [|reflexivity].
    intros Ha. simpl in G. rewrite Ha in G. cbn [andb] in G.
    now apply Z.leb_gt in G.
Qed.

(** X6.  On a buffer that holds at most [OUTPUT_BUFFER_SIZE] bytes,
    while no write fails with an error other than an interruption and
    the writes accept enough bytes (the buffered bytes for the flush
    that makes room, the chunk for a direct write, a full buffer for
    the flush at the threshold), the fallback branch of [tui_write]
    loses nothing and stays inside its buffer for a chunk of any size:
    what has been written followed by what is buffered is what was
    buffered followed by the chunk; the buffer holds at most
    [OUTPUT_BUFFER_SIZE] bytes, and fewer than the flush threshold when
    automatic flushing is on. *)
Theorem fallback_write_keeps_stream (os1 os2 os3 : list writev_result)
  (b : output_buffer_t) (chunk : list Z) :
  recoverable os1 -> recoverable os2 -> recoverable os3 ->
  len b <= progress os1 -> iov_len chunk <= progress os2 ->
  OUTPUT_BUFFER_SIZE <= progress os3 ->
  len b <= OUTPUT_BUFFER_SIZE ->
  exists e b',
    tui_write_fallback os1 os2 os3 b chunk = Some (e, b') /\
    e ++ data b' = data b ++ chunk /\
    len b' <= OUTPUT_BUFFER_SIZE /\
    (ob_auto_flush_enabled b = true -> len b' < BUFFER_FLUSH_THRESHOLD).
Proof.
  intros R1 R2 R3 P1 P2 P3 L. unfold tui_write_fallback.
  destruct (OUTPUT_BUFFER_SIZE <? len b + iov_len chunk) eqn:G.
  - destruct (fallback_flush_spec os1 b R1 P1) as (b1 & F & D & A).
    rewrite F. cbn [obind fst snd].
    destruct (OUTPUT_BUFFER_SIZE <? iov_len chunk) eqn:G2.
    + rewrite (write_loop_delivers os2 chunk [] R2 P2). cbn [obind].
      exists (data b ++ [] ++ chunk), b1. split; [reflexivity|].
      rewrite D, app_nil_r. simpl. split; [reflexivity|].
      unfold len at 1 2. rewrite D.
      split; [|intros _]; vm_compute; congruence.
    + apply Z.ltb_ge in G2.
      assert (Lb1 : len b1 = 0) by (unfold len; now rewrite D).
      destruct (buffer_chunk_spec os3 (data b) b1 chunk R3 P3)
        as (e & b' & E & S & B & T & _); [lia|].
      exists e, b'. split; [exact E|]. rewrite D in S. simpl in S.
      split; [exact S|]. split; [exact B|]. intros Ha. apply T. congruence.
  - apply Z.ltb_ge in G.
    destruct (buffer_chunk_spec os3 [] b chunk R3 P3 G)
      as (e & b' & E & S & B & T & _).
    exists e, b'. repeat split; assumption.
Qed.

Lemma fallback_write_keeps_stream_witness :
  exists e b',
    tui_write_fallback [Written 8192] [Written 8192] [Written 8192]
                       (mk_out (bytes_from 65 7) true) (bytes_from 48 5)
    = Some (e, b') /\
    e ++ data b' = data (mk_out (bytes_from 65 7) true) ++ bytes_from 48 5 /\
    len b' <= OUTPUT_BUFFER_SIZE /\
    (ob_auto_flush_enabled (mk_out (bytes_from 65 7) true) = true ->
     len b' < BUFFER_FLUSH_THRESHOLD).
Proof.
  apply (fallback_write_keeps_stream [Written 8192] [Written 8192]
           [Written 8192] (mk_out (bytes_from 65 7) true) (bytes_from 48 5));
    try (unfold recoverable; simpl; intros [H|[]]; discriminate);
    vm_compute; discriminate.
Defined.

(** The bytes are lost when a write fails for good: a flush whose first
    write reports an error other than an interruption writes nothing and
    still empties the buffer. *)
Lemma fallback_flush_drops_on_error (os : list writev_result)
  (b : output_buffer_t) :
  0 < len b ->
  tui_flush_fallback (Failed :: os) b
  = Some ([], mk_out [] (ob_auto_flush_enabled b)).
Proof.
  intros L. unfold tui_flush_fallback.
  replace (0 <? len b) with true by (symmetry; now apply Z.ltb_lt).
  unfold len in L. destruct (data b) as [|x tl]; [cbn in L; lia|].
  reflexivity.
Qed.

End OutputFacts.

(** * Properties of the interning pool *)

Module InternFacts.
Import Intern.

Lemma bytes_eqb_eq a : forall b, bytes_eqb a b = true <-> a = b.
Proof.
  induction a as [|x a IH]; intros [|y b]; simpl; split; intros H;
    try reflexivity; try discriminate.
  - apply andb_true_iff in H. destruct H as [H1 H2].
    apply Z.eqb_eq in H1. apply IH in H2. congruence.
  - inversion H; subst. rewrite Z.eqb_refl. simpl. now apply IH.
Qed.

Lemma chain_lookup_bytes chain h len seq s chain' :
  chain_lookup chain h len seq = Some (s, chain') -> s = seq.
Proof.
  revert s chain'. induction chain as [|e tl IH]; intros s chain' H;
    simpl in H; [discriminate|].
  destruct ((hash e =? h) && (length e =? len)
            && bytes_eqb (firstn (Z.to_nat len) (sequence e)) seq) eqn:T.
  - inversion H; subst. apply andb_true_iff in T. destruct T as [_ T].
    now apply bytes_eqb_eq in T.
  - destruct (chain_lookup tl h len seq) as [[s1 tl1]|]; [|discriminate].
    inversion H; subst. now apply (IH s tl1).
Qed.

Lemma chain_lookup_again chain h len seq s chain' :
  chain_lookup chain h len seq = Some (s, chain') ->
  exists chain'', chain_lookup chain' h len seq = Some (s, chain'').
Proof.
  revert s chain'. induction chain as [|e tl IH]; intros s chain' H;
    simpl in H; [discriminate|].
  destruct ((hash e =? h) && (length e =? len)
            && bytes_eqb (firstn (Z.to_nat len) (sequence e)) seq) eqn:T.
  - inversion H; subst. simpl. rewrite T. eauto.
  - destruct (chain_lookup tl h len seq) as [[s1 tl1]|] eqn:L; [|discriminate].
    inversion H; subst. simpl. rewrite T.
    destruct (IH s tl1 eq_refl) as (c2 & E). rewrite E. eauto.
Qed.

Lemma upd_at {A} (f : Z -> A) k v : upd f k v k = v.
Proof. unfold upd. now rewrite Z.eqb_refl. Qed.

(** What a call of [intern_esc_sequence] returns and takes. *)
Lemma intern_same_bytes (c : intern_cache_t) (seq : list Z) :
  fst (intern_esc_sequence c seq) = seq /\
  pool_used c <= pool_used (snd (intern_esc_sequence c seq))
              <= pool_used c + 1 /\
  (pool_used c <= pool_size c ->
   pool_used (snd (intern_esc_sequence c seq))
   <= pool_size (snd (intern_esc_sequence c seq))).
Proof.
  unfold intern_esc_sequence.
  destruct (negb (initialized c)
            || (ESC_SEQ_MAX_LEN <=? Z.of_nat (List.length seq)));
    [simpl; split; [reflexivity|split; [lia|trivial]]|].
  destruct (chain_lookup _ _ _ _) as [[s chain']|] eqn:L.
  - simpl. split; [now apply chain_lookup_bytes in L|]. split; [lia|trivial].
  - destruct (pool_size c <=? pool_used c) eqn:F.
    + simpl. split; [reflexivity|split; [lia|trivial]].
    + apply Z.leb_gt in F. simpl. split.
      * rewrite Nat2Z.id. apply firstn_all.
      * split; lia.
Qed.

(** X7.  Interning never changes the bytes: in every branch (cache not
    initialised, sequence too long, entry found, entry created, pool
    full) the pointer returned refers to the bytes of the argument.  An
    entry is taken from the pool only while the pool has room, and at
    most one per call. *)
Theorem intern_returns_same_bytes (c : intern_cache_t) (seq : list Z) :
  fst (intern_esc_sequence c seq) = seq /\
  pool_used c <= pool_used (snd (intern_esc_sequence c seq))
              <= pool_used c + 1 /\
  (pool_used c <= pool_size c ->
   pool_used (snd (intern_esc_sequence c seq))
   <= pool_size (snd (intern_esc_sequence c seq))).
Proof. apply intern_same_bytes. Qed.

(** X8.  Interning a sequence a second time finds the first result: the
    second call takes nothing from the pool and returns the same
    bytes. *)
Theorem intern_twice_allocates_once (c : intern_cache_t) (seq : list Z) :
  let c1 := snd (intern_esc_sequence c seq) in
  pool_used (snd (intern_esc_sequence c1 seq)) = pool_used c1 /\
  fst (intern_esc_sequence c1 seq) = fst (intern_esc_sequence c seq).
Proof.
  cbv zeta.
  destruct (intern_same_bytes c seq) as (E0 & _).
  destruct (intern_same_bytes (snd (intern_esc_sequence c seq)) seq)
    as (E1 & _).
  split; [|congruence]. clear E0 E1.
  unfold intern_esc_sequence at 2 3.
  destruct (negb (initialized c)
            || (ESC_SEQ_MAX_LEN <=? Z.of_nat (List.length seq))) eqn:G.
  - simpl. unfold intern_esc_sequence. now rewrite G.
  - destruct (chain_lookup _ _ _ _) as [[s chain']|] eqn:L.
    + simpl. unfold intern_esc_sequence. simpl. rewrite G.
      rewrite upd_at.
      destruct (chain_lookup_again _ _ _ _ _ _ L) as (c2 & E).
      now rewrite E.
    + destruct (pool_size c <=? pool_used c) eqn:F.
      * simpl. unfold intern_esc_sequence. rewrite G, L, F. reflexivity.
      * simpl. unfold intern_esc_sequence. simpl. rewrite G.
        rewrite upd_at. simpl. rewrite !Z.eqb_refl. simpl.
        rewrite Nat2Z.id, firstn_all.
        assert (bytes_eqb seq seq = true) as -> by now apply bytes_eqb_eq.
        reflexivity.
Qed.

End InternFacts.

(** * Further properties of the colour pairs *)

Module PairFacts.
Import ColorPair InitPair.

Lemma pack_decode_table :
  forallb (fun fg =>
             forallb (fun bg =>
                        (Z.shiftr (pack_fg_bg fg bg) 8 =? fg)
                        && (Z.land (pack_fg_bg fg bg) 0xFF =? bg))
                     (zrange 0 256))
          (zrange 0 256) = true.
Proof. vm_compute. reflexivity. Qed.

Lemma zrange_In lo n x : lo <= x < lo + Z.of_nat n -> In x (zrange lo n).
Proof.
  revert lo. induction n as [|n IH]; intros lo H; simpl; [lia|].
  destruct (Z.eq_dec lo x); [now left|right]. apply IH. lia.
Qed.

Lemma pack_decode fg bg :
  0 <= fg < 256 -> 0 <= bg < 256 ->
  Z.shiftr (pack_fg_bg fg bg) 8 = fg /\ Z.land (pack_fg_bg fg bg) 0xFF = bg.
Proof.
  intros Hf Hb. pose proof pack_decode_table as T.
  rewrite forallb_forall in T.
  specialize (T fg (zrange_In 0 256 fg ltac:(lia))).
  rewrite forallb_forall in T.
  specialize (T bg (zrange_In 0 256 bg ltac:(lia))).
  apply andb_true_iff in T. destruct T as [T1 T2].
  apply Z.eqb_eq in T1. apply Z.eqb_eq in T2. now split.
Qed.

Lemma land_255_period x : Z.land (x + 256) 0xFF = Z.land x 0xFF.
Proof.
  change 0xFF with (Z.ones 8). rewrite !Z.land_ones by lia.
  change (2 ^ 8) with 256.
  replace (x + 256) with (x + 1 * 256) by lia. apply Z.mod_add. lia.
Qed.

(** X9.  The packed key tells colour pairs apart exactly on the range
    0..255: two pairs of colours in that range with the same key are
    the same pair, while a colour and the colour 256 above it always
    share their key. *)
Theorem pack_fg_bg_injective (fg bg fg' bg' : Z) :
  (0 <= fg < 256 -> 0 <= bg < 256 -> 0 <= fg' < 256 -> 0 <= bg' < 256 ->
   pack_fg_bg fg bg = pack_fg_bg fg' bg' -> fg = fg' /\ bg = bg') /\
  pack_fg_bg (fg + 256) bg = pack_fg_bg fg bg /\
  pack_fg_bg fg (bg + 256) = pack_fg_bg fg bg.
Proof.
  split.
  - intros H1 H2 H3 H4 E.
    destruct (pack_decode fg bg H1 H2) as [A B].
    destruct (pack_decode fg' bg' H3 H4) as [A' B'].
    rewrite E in A, B. split; congruence.
  - unfold pack_fg_bg. now rewrite !land_255_period.
Qed.

(** A scan of the common pairs for other colours moves a usage counter
    only. *)
Lemma scan_common_other l a b n l1 :
  scan_common l a b = Some (n, l1) ->
  forall fg bg,
    option_map fst (scan_common l1 fg bg) = option_map fst (scan_common l fg bg).
Proof.
  revert n l1. induction l as [|e tl IH]; intros n l1 H fg bg; simpl in H;
    [discriminate|].
  destruct ((cp_fg e =? a) && (cp_bg e =? b)) eqn:E.
  - inversion H; subst. simpl.
    destruct ((cp_fg e =? fg) && (cp_bg e =? bg)); [reflexivity|].
    destruct (scan_common tl fg bg) as [[m tl']|]; reflexivity.
  - destruct (scan_common tl a b) as [[m tl1]|] eqn:S; [|discriminate].
    inversion H; subst. simpl.
    destruct ((cp_fg e =? fg) && (cp_bg e =? bg)); [reflexivity|].
    specialize (IH _ _ eq_refl fg bg).
    destruct (scan_common tl1 fg bg) as [[m1 t1]|];
      destruct (scan_common tl fg bg) as [[m2 t2]|]; simpl in IH;
      try discriminate; [|reflexivity].
    inversion IH; subst. reflexivity.
Qed.

Lemma upd_hit {A} (f : Z -> A) k v : upd f k v k = v.
Proof. unfold upd. now rewrite Z.eqb_refl. Qed.

Lemma upd_miss {A} (f : Z -> A) k v k' : k' <> k -> upd f k v k' = f k'.
Proof. unfold upd. intros H. now apply Z.eqb_neq in H as ->. Qed.

(** What a request leaves of the lookup structures for other
    requests. *)
Lemma get_or_alloc_pair_effect c a b :
  let c' := snd (get_or_alloc_pair c a b) in
  (forall fg bg,
     option_map fst (scan_common (common_pairs c') fg bg)
     = option_map fst (scan_common (common_pairs c) fg bg)) /\
  (forall fg bg node,
     chain_find (table c (hash_color_pair (pack_fg_bg fg bg)))
                (pack_fg_bg fg bg) = Some node ->
     chain_find (table c' (hash_color_pair (pack_fg_bg fg bg)))
                (pack_fg_bg fg bg) = Some node).
Proof.
  cbv zeta. unfold get_or_alloc_pair.
  destruct ((a =? TUI_COLOR_WHITE) && (b =? TUI_COLOR_BLACK));
    [simpl; split; auto|].
  destruct (scan_common (common_pairs c) a b) as [[n l]|] eqn:S.
  - simpl. split; [|auto]. intros fg bg.
    now apply (scan_common_other _ _ _ _ _ S).
  - cbv zeta.
    destruct (chain_find (table c (hash_color_pair (pack_fg_bg a b)))
                         (pack_fg_bg a b)) as [nd|] eqn:F;
      [simpl; split; auto|].
    destruct ((TUI_COLOR_PAIRS <=? next_pair _) || _);
      [simpl; split; auto|].
    simpl. split; [auto|]. intros fg bg node H.
    destruct (Z.eq_dec (hash_color_pair (pack_fg_bg fg bg))
                       (hash_color_pair (pack_fg_bg a b))) as [Eh|Eh].
    + rewrite Eh, upd_hit. simpl.
      destruct (pack_fg_bg a b =? pack_fg_bg fg bg) eqn:K.
      * apply Z.eqb_eq in K. rewrite Eh, <- K in H. congruence.
      * now rewrite <- Eh.
    + now rewrite upd_miss.
Qed.

(** X10.  Identifiers are stable: a pair of colours the cache already
    serves (the default pair, a common pair, or one with a node in the
    table) keeps its identifier across any other request, whether that
    request hits, allocates or finds the pool exhausted. *)
Theorem pair_identifier_stable (c : color_pair_cache_t) (fg bg a b : Z) :
  known c fg bg = true ->
  fst (get_or_alloc_pair (snd (get_or_alloc_pair c a b)) fg bg)
  = fst (get_or_alloc_pair c fg bg).
Proof.
  intros K. destruct (get_or_alloc_pair_effect c a b) as [Hc Ht].
  remember (snd (get_or_alloc_pair c a b)) as c' eqn:Ec. clear Ec.
  unfold known in K. unfold get_or_alloc_pair.
  destruct ((fg =? TUI_COLOR_WHITE) && (bg =? TUI_COLOR_BLACK));
    [reflexivity|].
  specialize (Hc fg bg).
  destruct (scan_common (common_pairs c) fg bg) as [[n l]|] eqn:S.
  - destruct (scan_common (common_pairs c') fg bg) as [[n' l']|];
      simpl in Hc; [|discriminate].
    inversion Hc; subst. reflexivity.
  - destruct (scan_common (common_pairs c') fg bg) as [[n' l']|];
      simpl in Hc; [discriminate|].
    cbv zeta. simpl in K.
    destruct (chain_find (table c (hash_color_pair (pack_fg_bg fg bg)))
                         (pack_fg_bg fg bg)) as [node|] eqn:F;
      [|discriminate].
    now rewrite (Ht fg bg node F).
Qed.

Lemma pair_identifier_stable_witness :
  fst (get_or_alloc_pair
         (snd (get_or_alloc_pair
                 (snd (get_or_alloc_pair init_color_pair_cache 8 9)) 20 30))
         8 9)
  = fst (get_or_alloc_pair
           (snd (get_or_alloc_pair init_color_pair_cache 8 9)) 8 9).
Proof.
  apply (pair_identifier_stable
           (snd (get_or_alloc_pair init_color_pair_cache 8 9)) 8 9 20 30).
  vm_compute. reflexivity.
Defined.

(** X11.  A request the cache does not serve yet, made while the pool
    is not exhausted, is given the next pair number; the cache serves
    it from then on, and the legacy array returns its colours for that
    number. *)
Theorem fresh_pair_round_trip (c : color_pair_cache_t) (fg bg : Z) :
  known c fg bg = false ->
  0 < next_pair c < TUI_COLOR_PAIRS -> node_used c < node_count c ->
  let r := get_or_alloc_pair c fg bg in
  fst r = next_pair c /\
  next_pair (snd r) = next_pair c + 1 /\
  known (snd r) fg bg = true /\
  Engine.get_pair_colors (snd r) (fst r) = (fg, bg).
Proof.
  intros K Hn Hu. cbv zeta. unfold known in K.
  apply orb_false_iff in K as [K K3]. apply orb_false_iff in K as [K1 K2].
  unfold get_or_alloc_pair. rewrite K1.
  destruct (scan_common (common_pairs c) fg bg) as [[n l]|] eqn:S;
    [discriminate|].
  cbv zeta.
  destruct (chain_find (table c (hash_color_pair (pack_fg_bg fg bg)))
                       (pack_fg_bg fg bg)) eqn:F; [discriminate|].
  replace ((TUI_COLOR_PAIRS <=? next_pair (count_miss c _))
           || (node_count (count_miss c _) <=? node_used (count_miss c _)))
    with false.
  2:{ symmetry. simpl. apply orb_false_iff. split; apply Z.leb_gt; lia. }
  simpl. split; [reflexivity|]. split; [reflexivity|]. split.
  - unfold known. simpl. rewrite K1, S, upd_hit. simpl.
    rewrite Z.eqb_refl. reflexivity.
  - unfold Engine.get_pair_colors. simpl.
    replace (next_pair c =? 0) with false by (symmetry; apply Z.eqb_neq; lia).
    replace ((0 <? next_pair c) && (next_pair c <? TUI_COLOR_PAIRS)) with true.
    2:{ symmetry. apply andb_true_iff. split; apply Z.ltb_lt; lia. }
    replace (next_pair c <? TUI_COLOR_PAIRS) with true
      by (symmetry; apply Z.ltb_lt; lia).
    now rewrite upd_hit.
Qed.

Lemma fresh_pair_round_trip_witness :
  let r := get_or_alloc_pair init_color_pair_cache 8 9 in
  fst r = next_pair init_color_pair_cache /\
  next_pair (snd r) = next_pair init_color_pair_cache + 1 /\
  known (snd r) 8 9 = true /\
  Engine.get_pair_colors (snd r) (fst r) = (8, 9).
Proof.
  apply (fresh_pair_round_trip init_color_pair_cache 8 9).
  - vm_compute. reflexivity.
  - vm_compute. split; reflexivity.
  - vm_compute. reflexivity.
Defined.

Lemma get_or_alloc_pair_legacy c a b k :
  color_pairs (snd (get_or_alloc_pair c a b)) k = color_pairs c k \/
  color_pairs (snd (get_or_alloc_pair c a b)) k = (a, b).
Proof.
  unfold get_or_alloc_pair.
  destruct ((a =? TUI_COLOR_WHITE) && (b =? TUI_COLOR_BLACK));
    [now left|].
  destruct (scan_common (common_pairs c) a b) as [[n l]|]; [now left|].
  cbv zeta. destruct (chain_find _ _); [now left|].
  destruct ((TUI_COLOR_PAIRS <=? next_pair _) || _); [now left|].
  simpl. destruct (next_pair c <? TUI_COLOR_PAIRS); [|now left].
  unfold upd. destruct (k =? next_pair c); [now right|now left].
Qed.

(** X12.  [tui_init_pair] refuses a pair number outside 0..255 with -1
    and changes nothing; for a number from 1 to 255 it returns 0 and
    [get_pair_colors] then reports the colours just given, also when
    the call allocated a pair of its own; pair 0 always reads as white
    on black. *)
Theorem tui_init_pair_round_trip (c : color_pair_cache_t) (pair fg bg : Z) :
  (pair < 0 \/ TUI_COLOR_PAIRS <= pair -> tui_init_pair c pair fg bg = (-1, c))
  /\ (0 < pair < TUI_COLOR_PAIRS ->
      fst (tui_init_pair c pair fg bg) = 0 /\
      Engine.get_pair_colors (snd (tui_init_pair c pair fg bg)) pair = (fg, bg))
  /\ Engine.get_pair_colors (snd (tui_init_pair c 0 fg bg)) 0
     = (TUI_COLOR_WHITE, TUI_COLOR_BLACK).
Proof.
  split; [|split].
  - intros H. unfold tui_init_pair.
    replace ((pair <? 0) || (TUI_COLOR_PAIRS <=? pair)) with true;
      [reflexivity|].
    symmetry. apply orb_true_iff.
    destruct H; [left; now apply Z.ltb_lt|right; now apply Z.leb_le].
  - intros H. unfold tui_init_pair.
    replace ((pair <? 0) || (TUI_COLOR_PAIRS <=? pair)) with false.
    2:{ symmetry. apply orb_false_iff.
        split; [apply Z.ltb_ge|apply Z.leb_gt]; lia. }
    cbv zeta.
    assert (G : forall c', color_pairs c' pair = (fg, bg) ->
                           Engine.get_pair_colors c' pair = (fg, bg)).
    { intros c' E. unfold Engine.get_pair_colors.
      replace (pair =? 0) with false by (symmetry; apply Z.eqb_neq; lia).
      replace ((0 <? pair) && (pair <? TUI_COLOR_PAIRS)) with true;
        [exact E|].
      symmetry. apply andb_true_iff. split; apply Z.ltb_lt; lia. }
    destruct ((0 <? pair) && (pair <? 10)); simpl.
    + split; [reflexivity|]. apply G.
      destruct (get_or_alloc_pair_legacy
                  (with_color_pairs (upd (color_pairs c) pair (fg, bg)) c)
                  fg bg pair) as [E|E]; rewrite E; [|reflexivity].
      simpl. apply upd_hit.
    + split; [reflexivity|]. apply G. simpl. apply upd_hit.
  - reflexivity.
Qed.

Lemma tui_init_pair_round_trip_witness :
  fst (tui_init_pair init_color_pair_cache 3 20 30) = 0 /\
  Engine.get_pair_colors (snd (tui_init_pair init_color_pair_cache 3 20 30)) 3
  = (20, 30).
Proof.
  apply (tui_init_pair_round_trip init_color_pair_cache 3 20 30).
  vm_compute. split; reflexivity.
Defined.

End PairFacts.

(** * Further properties of colours and rendition sequences *)

Module AttrFacts.
Import AttrSeq Draw.

Lemma quot_scale_range c : 0 <= c <= 1000 -> 0 <= Z.quot (c * 255) 1000 <= 255.
Proof.
  intros H. rewrite Z.quot_div_nonneg by lia. split.
  - apply Z.div_pos; lia.
  - apply Z.div_le_upper_bound; lia.
Qed.

(** For components in the documented range 0..1000,
    [get_rgb_values] always yields components in 0..255, whether it
    scales or not. *)
Theorem get_rgb_values_range (r g b : Z) :
  0 <= r <= 1000 -> 0 <= g <= 1000 -> 0 <= b <= 1000 ->
  let '(R, G, B) := get_rgb_values r g b in
  0 <= R <= 255 /\ 0 <= G <= 255 /\ 0 <= B <= 255.
Proof.
  intros Hr Hg Hb. unfold get_rgb_values.
  destruct ((255 <? r) || (255 <? g) || (255 <? b)) eqn:S.
  - repeat split; apply quot_scale_range; assumption.
  - apply orb_false_iff in S as [S S3]. apply orb_false_iff in S as [S1 S2].
    apply Z.ltb_ge in S1, S2, S3. lia.
Qed.

Lemma get_rgb_values_range_witness :
  let '(R, G, B) := get_rgb_values 1000 502 0 in
  0 <= R <= 255 /\ 0 <= G <= 255 /\ 0 <= B <= 255.
Proof. apply (get_rgb_values_range 1000 502 0); lia. Defined.

Lemma component_round_trip_table :
  forallb (fun c =>
             let o := Z.quot (Z.quot (c * 1000) 255 * 255) 1000 in
             (c - 1 <=? o) && (o <=? c)
             && Bool.eqb (255 <? Z.quot (c * 1000) 255) (66 <=? c))
          (zrange 0 256) = true.
Proof. vm_compute. reflexivity. Qed.

Lemma zrange_mem lo n x : lo <= x < lo + Z.of_nat n -> In x (zrange lo n).
Proof.
  revert lo. induction n as [|n IH]; intros lo H; simpl; [lia|].
  destruct (Z.eq_dec lo x); [now left|right]. apply IH. lia.
Qed.

Lemma component_round_trip c :
  0 <= c <= 255 ->
  c - 1 <= Z.quot (Z.quot (c * 1000) 255 * 255) 1000 <= c /\
  (255 < Z.quot (c * 1000) 255 <-> 66 <= c).
Proof.
  intros H. pose proof component_round_trip_table as T.
  rewrite forallb_forall in T.
  specialize (T c (zrange_mem 0 256 c ltac:(lia))). cbv zeta in T.
  apply andb_true_iff in T as [T T3]. apply andb_true_iff in T as [T1 T2].
  apply Z.leb_le in T1, T2. split; [lia|].
  apply Bool.eqb_prop in T3. rewrite <- Z.ltb_lt, <- Z.leb_le, T3. tauto.
Qed.

(** X13.  A colour with components in 0..255 of which one is at least
    66, registered the way draw.c does (scaled to 0..1000), comes back
    from the colour table through [get_rgb_values] within one unit
    below each original component. *)
Theorem registered_color_round_trip (defs : Z -> color_def_t)
  (color_id r g b : Z) :
  0 <= color_id < MAX_CUSTOM_COLORS ->
  0 <= r <= 255 -> 0 <= g <= 255 -> 0 <= b <= 255 ->
  66 <= r \/ 66 <= g \/ 66 <= b ->
  let '(R, G, B) := custom_color (register_color defs color_id r g b) color_id in
  r - 1 <= R <= r /\ g - 1 <= G <= g /\ b - 1 <= B <= b.
Proof.
  intros Hc Hr Hg Hb Hbright.
  unfold custom_color, register_color, tui_init_color.
  replace ((0 <=? color_id) && (color_id <? MAX_CUSTOM_COLORS)) with true.
  2:{ symmetry. apply andb_true_iff. split;
        [apply Z.leb_le|apply Z.ltb_lt]; lia. }
  rewrite Z.eqb_refl. simpl.
  destruct (component_round_trip r Hr) as [Rr Sr].
  destruct (component_round_trip g Hg) as [Rg Sg].
  destruct (component_round_trip b Hb) as [Rb Sb].
  unfold get_rgb_values.
  replace ((255 <? Z.quot (r * 1000) 255) || (255 <? Z.quot (g * 1000) 255)
           || (255 <? Z.quot (b * 1000) 255)) with true.
  - repeat split; lia.
  - symmetry. rewrite !orb_true_iff, !Z.ltb_lt. tauto.
Qed.

Lemma registered_color_round_trip_witness :
  let '(R, G, B) := custom_color (register_color color_defs_init 8 255 128 0) 8 in
  255 - 1 <= R <= 255 /\ 128 - 1 <= G <= 128 /\ 0 - 1 <= B <= 0.
Proof.
  apply (registered_color_round_trip color_defs_init 8 255 128 0);
    unfold MAX_CUSTOM_COLORS; lia.
Defined.

End AttrFacts.

(** * Further properties of the dirty-region tracker *)

Module DirtyMore.
Import Dirty DirtyPool DirtyFacts.

(** The membership bitmap of the fine tiles answers for a tile
    inside the fixed table exactly what was set: a tile reads as set
    right after it is set, the answer for every other tile of the table
    is unchanged, and a tile beyond the table (row 64 or column 128 and
    up) is never set and always reads as absent. *)
Theorem l1_bitmap_round_trip (d : dirty_t) (tr tc : Z) :
  (in_l1 tr tc ->
   check_l1_tile_bitmap (set_l1_tile_bitmap d tr tc) tr tc = true /\
   forall tr' tc', in_l1 tr' tc' -> (tr', tc') <> (tr, tc) ->
     check_l1_tile_bitmap (set_l1_tile_bitmap d tr tc) tr' tc'
     = check_l1_tile_bitmap d tr' tc') /\
  (MAX_L1_TILES_Y <= tr \/ MAX_L1_TILES_X <= tc ->
   set_l1_tile_bitmap d tr tc = d /\ check_l1_tile_bitmap d tr tc = false).
Proof.
  split.
  - intros H. split; [now apply check_l1_after_set|].
    intros tr' tc' H' N. now apply check_l1_after_set_other.
  - intros H. unfold set_l1_tile_bitmap, check_l1_tile_bitmap.
    replace ((MAX_L1_TILES_Y <=? tr) || (MAX_L1_TILES_X <=? tc)) with true;
      [now split|].
    symmetry. apply orb_true_iff. rewrite !Z.leb_le. exact H.
Qed.

(** ** The pool *)

Lemma pool_acct_add_l1 d tr tc :
  pool_acct d -> pool_acct (add_sparse_l1_tile d tr tc).
Proof.
  intros [A B]. unfold add_sparse_l1_tile.
  destruct (check_l1_tile_bitmap d tr tc); [now split|].
  unfold alloc_dirty_tile.
  destruct ((free_nodes d <=? 0)
            || (DIRTY_TILE_POOL_SIZE <=? dirty_tile_pool_used d));
    [now split|].
  unfold set_l1_tile_bitmap. unfold pool_acct in *.
  destruct ((MAX_L1_TILES_Y <=? tr) || (MAX_L1_TILES_X <=? tc));
    dd d; cbn -[Z.add Z.sub Z.of_nat] in *; split; lia.
Qed.

Lemma pool_acct_add_l2 d br bc :
  pool_acct d -> pool_acct (add_sparse_l2_block d br bc).
Proof.
  intros [A B]. unfold add_sparse_l2_block.
  destruct (check_l2_block_bitmap d br bc); [now split|].
  unfold alloc_dirty_tile.
  destruct ((free_nodes d <=? 0)
            || (DIRTY_TILE_POOL_SIZE <=? dirty_tile_pool_used d));
    [now split|].
  unfold set_l2_block_bitmap. unfold pool_acct in *.
  destruct ((MAX_L2_BLOCKS_Y <=? br) || (MAX_L2_BLOCKS_X <=? bc));
    dd d; cbn -[Z.add Z.sub Z.of_nat] in *; split; lia.
Qed.

Lemma pool_acct_ext d d' :
  pool_of d' = pool_of d -> l1_sparse_of d' = l1_sparse_of d ->
  l2_sparse_of d' = l2_sparse_of d -> pool_acct d -> pool_acct d'.
Proof.
  unfold pool_of, l1_sparse_of, l2_sparse_of, pool_acct.
  intros P L1 L2 [A B]. inversion P. inversion L1. inversion L2.
  split; congruence.
Qed.

Lemma pool_acct_mark_l1 d tr tc d' :
  mark_l1_tile d tr tc = Some d' -> pool_acct d -> pool_acct d'.
Proof.
  unfold mark_l1_tile. destruct (_ && _); [|discriminate].
  intros H K. inversion H; subst. clear H.
  assert (K1 : pool_acct (with_l1_tiles (upd2 (l1_tiles d) tr tc true) d))
    by (destruct d; exact K).
  destruct (use_sparse_tracking _); [now apply pool_acct_add_l1|exact K1].
Qed.

Lemma pool_acct_mark_l2 d br bc d' :
  mark_l2_block d br bc = Some d' -> pool_acct d -> pool_acct d'.
Proof.
  unfold mark_l2_block. destruct (_ && _); [|discriminate].
  intros H K. inversion H; subst. clear H.
  assert (K1 : pool_acct (with_l2_blocks (upd2 (l2_blocks d) br bc true) d))
    by (destruct d; exact K).
  destruct (use_sparse_tracking _); [now apply pool_acct_add_l2|exact K1].
Qed.

Lemma pool_acct_extend d r1 c1 r2 c2 :
  pool_acct d -> pool_acct (extend_rect d r1 c1 r2 c2).
Proof.
  intros K.
  destruct (extend_rect_frame d r1 c1 r2 c2) as (_ & P & L1 & L2 & _).
  now apply (pool_acct_ext d).
Qed.

Lemma ofold_keeps {S A} (P : S -> Prop) (f : S -> A -> option S) l :
  (forall s a s', f s a = Some s' -> P s -> P s') ->
  forall s s', ofold f l s = Some s' -> P s -> P s'.
Proof.
  intros Hf. induction l as [|a tl IH]; intros s s' H K; simpl in H.
  - now inversion H; subst.
  - destruct (f s a) as [s1|] eqn:E; [|discriminate]. simpl in H.
    apply (IH s1); [assumption|]. now apply (Hf s a).
Qed.

Lemma pool_acct_mark_dirty d row col d' :
  mark_dirty d row col = Some d' -> pool_acct d -> pool_acct d'.
Proof.
  unfold mark_dirty. intros H K.
  pose proof (pool_acct_extend d row col row col K) as K0.
  destruct (use_hierarchical_tiles _); [|now inversion H; subst].
  destruct (mark_dirty_l1 _ row col) as [d1|] eqn:E1; [|discriminate].
  simpl in H.
  assert (K1 : pool_acct d1).
  { unfold mark_dirty_l1 in E1. destruct (_ && _).
    - now apply (pool_acct_mark_l1 _ _ _ _ E1).
    - now inversion E1; subst. }
  unfold mark_dirty_l2 in H. destruct (_ && _).
  - now apply (pool_acct_mark_l2 _ _ _ _ H).
  - now inversion H; subst.
Qed.

Lemma pool_acct_mark_dirty_region d r1 c1 r2 c2 d' :
  mark_dirty_region d r1 c1 r2 c2 = Some d' -> pool_acct d -> pool_acct d'.
Proof.
  unfold mark_dirty_region. intros H K.
  pose proof (pool_acct_extend d r1 c1 r2 c2 K) as K0.
  destruct (use_hierarchical_tiles _); [|now inversion H; subst].
  match type of H with
  | obind ?e _ = _ => destruct e as [d1|] eqn:E1; [|discriminate]
  end.
  simpl in H.
  assert (K1 : pool_acct d1).
  { revert E1 K0. apply ofold_keeps. intros s tr s'. apply ofold_keeps.
    intros s0 tc s0'. apply pool_acct_mark_l1. }
  revert H K1. apply ofold_keeps. intros s br s'. apply ofold_keeps.
  intros s0 bc s0'. apply pool_acct_mark_l2.
Qed.

Lemma pool_acct_init cols rows : pool_acct (init_dirty cols rows).
Proof.
  unfold init_dirty, init_sparse_dirty_tracking, pool_acct.
  destruct (init_hierarchical_dirty_tracking _ _ _). cbn.
  unfold DIRTY_TILE_POOL_SIZE. split; lia.
Qed.

(** X15.  The tile pool never leaks.  From initialisation on, through
    every marking of a cell or of a region, each of the 512 nodes is
    either free or on one of the two sparse lists; and the reset that
    ends a refresh, with sparse tracking on, returns them all: both
    lists are empty, no node is in use and the whole pool is free. *)
Theorem tile_pool_never_leaks :
  (forall cols rows, pool_acct (init_dirty cols rows)) /\
  (forall d row col d',
     pool_acct d -> mark_dirty d row col = Some d' -> pool_acct d') /\
  (forall d r1 c1 r2 c2 d',
     pool_acct d -> mark_dirty_region d r1 c1 r2 c2 = Some d' ->
     pool_acct d') /\
  (forall d,
     pool_acct d -> use_sparse_tracking d = true ->
     let d' := reset_dirty_region d in
     pool_acct d' /\
     dirty_l1_tiles d' = [] /\ dirty_l2_blocks d' = [] /\
     dirty_tile_pool_used d' = 0 /\ free_nodes d' = DIRTY_TILE_POOL_SIZE).
Proof.
  split; [exact pool_acct_init|].
  split; [intros d row col d' K H; now apply (pool_acct_mark_dirty d row col)|].
  split; [intros d r1 c1 r2 c2 d' K H;
          now apply (pool_acct_mark_dirty_region d r1 c1 r2 c2)|].
  intros d [A B] S. cbv zeta. unfold reset_dirty_region, pool_acct.
  dd d. cbn -[Z.add Z.sub Z.of_nat] in *. subst us.
  destruct uh; cbn -[Z.add Z.sub Z.of_nat]; repeat split; lia.
Qed.

(** ** Regions *)

Lemma extend_rect_hull d r1 c1 r2 c2 :
  let d' := extend_rect d r1 c1 r2 c2 in
  min_row d' <= r1 /\ r2 <= max_row d' /\ min_col d' <= c1 /\ c2 <= max_col d'
  /\ min_row d' <= min_row d /\ max_row d <= max_row d'
  /\ min_col d' <= min_col d /\ max_col d <= max_col d'.
Proof.
  cbv zeta. unfold extend_rect. dd d.
  rect_cases r1 c1 r2 c2 mr xr mc xc; lia.
Qed.

Lemma tiles_grow_refl d : tiles_grow d d.
Proof. unfold tiles_grow. auto. Qed.

Lemma tiles_grow_trans d1 d2 d3 :
  tiles_grow d1 d2 -> tiles_grow d2 d3 -> tiles_grow d1 d3.
Proof.
  intros (C1 & A1 & B1) (C2 & A2 & B2). unfold tiles_grow.
  split; [congruence|]. split; auto.
Qed.

Lemma ofold_marks {S A} (M : S -> S -> Prop) (Q : A -> S -> Prop)
  (f : S -> A -> option S) (l : list A) (s0 : S) :
  (forall s, M s s) ->
  (forall s1 s2 s3, M s1 s2 -> M s2 s3 -> M s1 s3) ->
  (forall a s s', M s s' -> Q a s -> Q a s') ->
  (forall s a, In a l -> M s0 s ->
               exists s', f s a = Some s' /\ M s s' /\ Q a s') ->
  exists s', ofold f l s0 = Some s' /\ M s0 s' /\
             forall a, In a l -> Q a s'.
Proof.
  intros Mr Mt Mq. revert s0.
  induction l as [|a tl IH]; intros s0 Hf; simpl.
  - exists s0. split; [reflexivity|]. split; [apply Mr|]. intros a [].
  - destruct (Hf s0 a (or_introl eq_refl) (Mr s0)) as (s1 & E & M1 & Q1).
    rewrite E. simpl.
    destruct (IH s1) as (s' & E' & M' & Q').
    { intros s b Hb Ms. apply Hf; [now right|]. now apply (Mt s0 s1 s). }
    exists s'. split; [exact E'|]. split; [now apply (Mt s0 s1 s')|].
    intros b [Eb|Hb]; [subst b; now apply (Mq a s1 s')|now apply Q'].
Qed.

Lemma mark_l1_tile_grows d tr tc :
  in_l1 tr tc ->
  exists d', mark_l1_tile d tr tc = Some d' /\ tiles_grow d d' /\
             l1_tiles d' tr tc = true /\ rect_of d' = rect_of d.
Proof.
  intros H. rewrite (mark_l1_tile_some d tr tc H).
  destruct (with_l1_tiles_frame (upd2 (l1_tiles d) tr tc true) d)
    as (R0 & C0 & _ & _ & _ & T0 & B0). cbv zeta in *.
  set (d0 := with_l1_tiles (upd2 (l1_tiles d) tr tc true) d) in *.
  assert (G0 : tiles_grow d d0 /\ l1_tiles d0 tr tc = true).
  { split; [split; [exact C0|split]|].
    - intros i j E. rewrite T0. unfold upd2. rewrite E.
      now destruct ((i =? tr) && (j =? tc)).
    - intros i j E. now rewrite B0.
    - rewrite T0. apply upd2_hit. }
  destruct G0 as [G0 S0].
  assert (Us : use_sparse_tracking d0 = use_sparse_tracking d)
    by (unfold conf_of in C0; congruence).
  rewrite <- Us.
  destruct (use_sparse_tracking d0).
  - destruct (add_sparse_l1_frame d0 tr tc) as (R1 & C1 & _ & T1 & B1).
    cbv zeta in *. eexists. split; [reflexivity|].
    split; [|split; [now rewrite T1|congruence]].
    apply (tiles_grow_trans d d0); [exact G0|].
    split; [exact C1|]. split; intros i j E; congruence.
  - exists d0. split; [reflexivity|]. split; [exact G0|].
    split; assumption.
Qed.

Lemma mark_l2_block_grows d br bc :
  in_l2 br bc ->
  exists d', mark_l2_block d br bc = Some d' /\ tiles_grow d d' /\
             l2_blocks d' br bc = true /\ rect_of d' = rect_of d.
Proof.
  intros H. rewrite (mark_l2_block_some d br bc H).
  destruct (with_l2_blocks_frame (upd2 (l2_blocks d) br bc true) d)
    as (R0 & C0 & _ & _ & _ & T0 & B0). cbv zeta in *.
  set (d0 := with_l2_blocks (upd2 (l2_blocks d) br bc true) d) in *.
  assert (G0 : tiles_grow d d0 /\ l2_blocks d0 br bc = true).
  { split; [split; [exact C0|split]|].
    - intros i j E. now rewrite T0.
    - intros i j E. rewrite B0. unfold upd2. rewrite E.
      now destruct ((i =? br) && (j =? bc)).
    - rewrite B0. apply upd2_hit. }
  destruct G0 as [G0 S0].
  assert (Us : use_sparse_tracking d0 = use_sparse_tracking d)
    by (unfold conf_of in C0; congruence).
  rewrite <- Us.
  destruct (use_sparse_tracking d0).
  - destruct (add_sparse_l2_frame d0 br bc) as (R1 & C1 & _ & T1 & B1).
    cbv zeta in *. eexists. split; [reflexivity|].
    split; [|split; [now rewrite B1|congruence]].
    apply (tiles_grow_trans d d0); [exact G0|].
    split; [exact C1|]. split; intros i j E; congruence.
  - exists d0. split; [reflexivity|]. split; [exact G0|].
    split; assumption.
Qed.

Lemma zrange_bounds lo n x :
  In x (zrange lo n) <-> lo <= x < lo + Z.of_nat n.
Proof.
  revert lo. induction n as [|n IH]; intros lo; simpl; [lia|].
  rewrite IH. lia.
Qed.

Lemma zrange_incl_bounds lo hi x : In x (zrange_incl lo hi) <-> lo <= x <= hi.
Proof. unfold zrange_incl. rewrite zrange_bounds. lia. Qed.

(** The relation kept by the tile loops of [mark_dirty_region]. *)
Lemma grow_rect_refl d : tiles_grow d d /\ rect_of d = rect_of d.
Proof. split; [apply tiles_grow_refl|reflexivity]. Qed.

Lemma mark_l1_rows d rows cols :
  (forall tr tc, In tr rows -> In tc cols -> in_l1 tr tc) ->
  exists d',
    ofold (fun d tr => ofold (fun d tc => mark_l1_tile d tr tc) cols d) rows d
    = Some d' /\
    (tiles_grow d d' /\ rect_of d' = rect_of d) /\
    forall tr, In tr rows -> forall tc, In tc cols -> l1_tiles d' tr tc = true.
Proof.
  intros Hin.
  apply (ofold_marks
           (fun s s' => tiles_grow s s' /\ rect_of s' = rect_of s)
           (fun tr s => forall tc, In tc cols -> l1_tiles s tr tc = true)).
  - intros s. apply grow_rect_refl.
  - intros s1 s2 s3 [G1 R1] [G2 R2].
    split; [now apply (tiles_grow_trans s1 s2)|congruence].
  - intros tr s s' [(_ & G & _) _] Q tc Hc. apply G. now apply Q.
  - intros s tr Hr _.
    apply (ofold_marks
             (fun s s' => tiles_grow s s' /\ rect_of s' = rect_of s)
             (fun tc s => l1_tiles s tr tc = true)).
    + intros s1. apply grow_rect_refl.
    + intros s1 s2 s3 [G1 R1] [G2 R2].
      split; [now apply (tiles_grow_trans s1 s2)|congruence].
    + intros tc s1 s2 [(_ & G & _) _] Q. now apply G.
    + intros s1 tc Hc _.
      destruct (mark_l1_tile_grows s1 tr tc (Hin tr tc Hr Hc))
        as (s2 & E & G & T & R).
      exists s2. split; [exact E|]. split; [split; assumption|exact T].
Qed.

Lemma mark_l2_rows d rows cols :
  (forall br bc, In br rows -> In bc cols -> in_l2 br bc) ->
  exists d',
    ofold (fun d br => ofold (fun d bc => mark_l2_block d br bc) cols d) rows d
    = Some d' /\
    (tiles_grow d d' /\ rect_of d' = rect_of d) /\
    forall br, In br rows -> forall bc, In bc cols -> l2_blocks d' br bc = true.
Proof.
  intros Hin.
  apply (ofold_marks
           (fun s s' => tiles_grow s s' /\ rect_of s' = rect_of s)
           (fun br s => forall bc, In bc cols -> l2_blocks s br bc = true)).
  - intros s. apply grow_rect_refl.
  - intros s1 s2 s3 [G1 R1] [G2 R2].
    split; [now apply (tiles_grow_trans s1 s2)|congruence].
  - intros br s s' [(_ & _ & G) _] Q bc Hc. apply G. now apply Q.
  - intros s br Hr _.
    apply (ofold_marks
             (fun s s' => tiles_grow s s' /\ rect_of s' = rect_of s)
             (fun bc s => l2_blocks s br bc = true)).
    + intros s1. apply grow_rect_refl.
    + intros s1 s2 s3 [G1 R1] [G2 R2].
      split; [now apply (tiles_grow_trans s1 s2)|congruence].
    + intros bc s1 s2 [(_ & _ & G) _] Q. now apply G.
    + intros s1 bc Hc _.
      destruct (mark_l2_block_grows s1 br bc (Hin br bc Hr Hc))
        as (s2 & E & G & T & R).
      exists s2. split; [exact E|]. split; [split; assumption|exact T].
Qed.

Lemma quot_mono a b k : 0 < k -> a <= b -> Z.quot a k <= Z.quot b k.
Proof. intros. apply Z.quot_le_mono; lia. Qed.

(** What [mark_dirty_region] does on a well-formed tracker. *)
Lemma mark_dirty_region_spec (d : dirty_t) (r1 c1 r2 c2 : Z) :
  (use_hierarchical_tiles d = true -> tiles_fit d) ->
  0 <= r1 -> 0 <= c1 ->
  exists d',
    mark_dirty_region d r1 c1 r2 c2 = Some d' /\
    has_changes d' = true /\
    (min_row d' <= r1 /\ r2 <= max_row d' /\
     min_col d' <= c1 /\ c2 <= max_col d') /\
    tiles_grow d d' /\
    (use_hierarchical_tiles d = true ->
     forall r c, r1 <= r <= r2 -> c1 <= c <= c2 ->
       (Z.quot r TILE_L1_SIZE < l1_tiles_y d ->
        Z.quot c TILE_L1_SIZE < l1_tiles_x d ->
        l1_tiles d' (Z.quot r TILE_L1_SIZE) (Z.quot c TILE_L1_SIZE) = true) /\
       (Z.quot r TILE_L2_SIZE < l2_blocks_y d ->
        Z.quot c TILE_L2_SIZE < l2_blocks_x d ->
        l2_blocks d' (Z.quot r TILE_L2_SIZE) (Z.quot c TILE_L2_SIZE) = true)).
Proof.
  intros Fit Hr Hc. unfold mark_dirty_region.
  destruct (extend_rect_frame d r1 c1 r2 c2)
    as (C0 & _ & _ & _ & T0 & B0 & H0).
  destruct (extend_rect_hull d r1 c1 r2 c2) as (Q1 & Q2 & Q3 & Q4 & _).
  cbv zeta in *.
  set (d0 := extend_rect d r1 c1 r2 c2) in *.
  assert (G0 : tiles_grow d d0).
  { split; [exact C0|]. split; intros i j E; congruence. }
  assert (Uh : use_hierarchical_tiles d0 = use_hierarchical_tiles d)
    by (unfold conf_of in C0; congruence).
  assert (X1 : l1_tiles_x d0 = l1_tiles_x d)
    by (unfold conf_of in C0; congruence).
  assert (Y1 : l1_tiles_y d0 = l1_tiles_y d)
    by (unfold conf_of in C0; congruence).
  assert (X2 : l2_blocks_x d0 = l2_blocks_x d)
    by (unfold conf_of in C0; congruence).
  assert (Y2 : l2_blocks_y d0 = l2_blocks_y d)
    by (unfold conf_of in C0; congruence).
  rewrite Uh. destruct (use_hierarchical_tiles d) eqn:U.
  2:{ exists d0. split; [reflexivity|]. split; [exact H0|].
      split; [tauto|]. split; [exact G0|]. discriminate. }
  destruct (Fit eq_refl) as (F1 & F2 & F3 & F4).
  rewrite X1, Y1, X2, Y2.
  pose proof (quot_nonneg r1 TILE_L1_SIZE Hr ltac:(unfold TILE_L1_SIZE; lia)).
  pose proof (quot_nonneg c1 TILE_L1_SIZE Hc ltac:(unfold TILE_L1_SIZE; lia)).
  pose proof (quot_nonneg r1 TILE_L2_SIZE Hr ltac:(unfold TILE_L2_SIZE; lia)).
  pose proof (quot_nonneg c1 TILE_L2_SIZE Hc ltac:(unfold TILE_L2_SIZE; lia)).
  destruct (mark_l1_rows d0
              (zrange_incl (Z.quot r1 TILE_L1_SIZE)
                 (Z.min (Z.quot r2 TILE_L1_SIZE) (l1_tiles_y d - 1)))
              (zrange_incl (Z.quot c1 TILE_L1_SIZE)
                 (Z.min (Z.quot c2 TILE_L1_SIZE) (l1_tiles_x d - 1))))
    as (d1 & E1 & [G1 R1] & S1).
  { intros tr tc Ir Ic. apply zrange_incl_bounds in Ir, Ic.
    unfold in_l1. clear - F1 F2 H H1 Ir Ic. lia. }
  rewrite E1. cbn [obind].
  destruct (mark_l2_rows d1
              (zrange_incl (Z.quot r1 TILE_L2_SIZE)
                 (Z.min (Z.quot r2 TILE_L2_SIZE) (l2_blocks_y d - 1)))
              (zrange_incl (Z.quot c1 TILE_L2_SIZE)
                 (Z.min (Z.quot c2 TILE_L2_SIZE) (l2_blocks_x d - 1))))
    as (d2 & E2 & [G2 R2] & S2).
  { intros br bc Ir Ic. apply zrange_incl_bounds in Ir, Ic.
    unfold in_l2. clear - F3 F4 H2 H3 Ir Ic. lia. }
  rewrite E2. exists d2. split; [reflexivity|].
  assert (R : rect_of d2 = rect_of d0) by congruence.
  unfold rect_of in R. injection R as Ra Rb Rc Rd Re.
  split; [congruence|]. split; [rewrite Ra, Rb, Rc, Rd; tauto|].
  split; [apply (tiles_grow_trans d d0); [exact G0|];
          now apply (tiles_grow_trans d0 d1)|].
  intros _ r c Hrr Hcc. split; intros Ly Lx.
  - destruct G2 as (_ & G2 & _). apply G2. apply S1;
      apply zrange_incl_bounds;
      (split; [|apply Z.min_glb; [|lia]]);
      apply quot_mono; unfold TILE_L1_SIZE; lia.
  - apply S2; apply zrange_incl_bounds;
      (split; [|apply Z.min_glb; [|lia]]);
      apply quot_mono; unfold TILE_L2_SIZE; lia.
Qed.

(** X16.  Marking a region with non-negative upper-left corner always
    succeeds on a tracker whose tile counts fit the fixed tables.
    Afterwards the bounding rectangle contains the region, and with the
    tiles active every fine tile and every coarse block of the tracked
    screen that the region touches is flagged in the dense arrays, while
    nothing that was flagged is lost. *)
Theorem mark_dirty_region_covers (d : dirty_t) (r1 c1 r2 c2 : Z) :
  (use_hierarchical_tiles d = true -> tiles_fit d) ->
  0 <= r1 -> 0 <= c1 ->
  exists d',
    mark_dirty_region d r1 c1 r2 c2 = Some d' /\
    has_changes d' = true /\
    (min_row d' <= r1 /\ r2 <= max_row d' /\
     min_col d' <= c1 /\ c2 <= max_col d') /\
    tiles_grow d d' /\
    (use_hierarchical_tiles d = true ->
     forall r c, r1 <= r <= r2 -> c1 <= c <= c2 ->
       (Z.quot r TILE_L1_SIZE < l1_tiles_y d ->
        Z.quot c TILE_L1_SIZE < l1_tiles_x d ->
        l1_tiles d' (Z.quot r TILE_L1_SIZE) (Z.quot c TILE_L1_SIZE) = true) /\
       (Z.quot r TILE_L2_SIZE < l2_blocks_y d ->
        Z.quot c TILE_L2_SIZE < l2_blocks_x d ->
        l2_blocks d' (Z.quot r TILE_L2_SIZE) (Z.quot c TILE_L2_SIZE) = true)).
Proof. apply mark_dirty_region_spec. Qed.

Lemma mark_dirty_region_covers_witness :
  exists d',
    mark_dirty_region (init_dirty 80 24) 3 10 5 30 = Some d' /\
    has_changes d' = true /\
    (min_row d' <= 3 /\ 5 <= max_row d' /\
     min_col d' <= 10 /\ 30 <= max_col d') /\
    tiles_grow (init_dirty 80 24) d' /\
    (use_hierarchical_tiles (init_dirty 80 24) = true ->
     forall r c, 3 <= r <= 5 -> 10 <= c <= 30 ->
       (Z.quot r TILE_L1_SIZE < l1_tiles_y (init_dirty 80 24) ->
        Z.quot c TILE_L1_SIZE < l1_tiles_x (init_dirty 80 24) ->
        l1_tiles d' (Z.quot r TILE_L1_SIZE) (Z.quot c TILE_L1_SIZE) = true) /\
       (Z.quot r TILE_L2_SIZE < l2_blocks_y (init_dirty 80 24) ->
        Z.quot c TILE_L2_SIZE < l2_blocks_x (init_dirty 80 24) ->
        l2_blocks d' (Z.quot r TILE_L2_SIZE) (Z.quot c TILE_L2_SIZE) = true)).
Proof.
  apply (mark_dirty_region_covers (init_dirty 80 24) 3 10 5 30).
  - intros _. unfold tiles_fit. vm_compute. repeat split; discriminate.
  - lia.
  - lia.
Defined.

End DirtyMore.

(** * Attribute words, cursor sequences and the two render caches *)

Module SurfaceFacts.
Import Engine.

(** Bitwise reasoning on attribute words. *)
Ltac bits i :=
  apply Z.bits_inj'; intros i ?;
  repeat first [ rewrite Z.land_spec | rewrite Z.lor_spec
               | rewrite Z.lnot_spec by assumption
               | rewrite Z.bits_0 ].

Lemma land_zero_bit a f i :
  Z.land a f = 0 -> Z.testbit a i && Z.testbit f i = false.
Proof. intros H. rewrite <- Z.land_spec, H. apply Z.bits_0. Qed.

Lemma pair_number_of_pair n :
  0 <= n < 256 -> Z.land (Z.shiftr (Z.shiftl n 8) 8) 0xFF = n.
Proof.
  intros H. rewrite Z.shiftr_shiftl_l by lia. change (8 - 8) with 0.
  rewrite Z.shiftl_0_r. change 0xFF with (Z.ones 8).
  rewrite Z.land_ones by lia. apply Z.mod_small. simpl. lia.
Qed.

Lemma pair_number_no_color f :
  Z.land f TUI_A_COLOR = 0 -> Z.land (Z.shiftr f 8) 0xFF = 0.
Proof.
  intros H. change 0xFF with (Z.shiftr TUI_A_COLOR 8).
  rewrite <- Z.shiftr_land, H. apply Z.shiftr_0_l.
Qed.

(** The pair number read back from an attribute word. *)
Lemma pair_number_spec (n flags : Z) :
  0 <= n < TUI_COLOR_PAIRS ->
  Z.land flags TUI_A_COLOR = 0 ->
  TUI_PAIR_NUMBER (TUI_COLOR_PAIR n) = n /\
  TUI_PAIR_NUMBER (Z.lor (TUI_COLOR_PAIR n) flags) = n /\
  Z.land (Z.lor (TUI_COLOR_PAIR n) flags) (Z.lnot TUI_A_COLOR) = flags.
Proof.
  unfold TUI_COLOR_PAIRS, TUI_PAIR_NUMBER, TUI_COLOR_PAIR. intros Hn Hf.
  split; [now apply pair_number_of_pair|]. split.
  - rewrite Z.shiftr_lor, Z.land_lor_distr_l.
    rewrite pair_number_of_pair by assumption.
    rewrite pair_number_no_color by assumption. apply Z.lor_0_r.
  - assert (Hp : Z.land (Z.shiftl n 8) (Z.lnot TUI_A_COLOR) = 0).
    { bits i. destruct (Z.ltb_spec i 8).
      - rewrite Z.shiftl_spec_low by lia. reflexivity.
      - rewrite Z.shiftl_spec by lia.
        destruct (Z.ltb_spec i 16).
        + replace (Z.testbit TUI_A_COLOR i) with true;
            [now rewrite andb_false_r|].
          symmetry. change TUI_A_COLOR with (Z.shiftl (Z.ones 8) 8).
          rewrite Z.shiftl_spec by lia. apply Z.ones_spec_low. lia.
        + replace (Z.testbit n (i - 8)) with false; [reflexivity|].
          symmetry. apply (Z.bits_above_log2 n (i - 8)); [lia|].
          destruct (Z.eq_dec n 0) as [->|Nz]; [simpl; lia|].
          apply Z.log2_lt_pow2; [lia|].
          apply Z.lt_le_trans with (2 ^ 8); [simpl; lia|].
          apply Z.pow_le_mono_r; lia. }
    rewrite Z.land_lor_distr_l, Hp, Z.lor_0_l.
    bits i. pose proof (land_zero_bit _ _ i Hf) as B.
    destruct (Z.testbit flags i), (Z.testbit TUI_A_COLOR i);
      simpl in *; congruence.
Qed.

(** X17.  A pair number from 0 to 255 survives the round trip through
    an attribute word, also when flags that carry no colour bits are
    or-ed in, as draw.c does. *)
Theorem pair_number_round_trip (n flags : Z) :
  0 <= n < TUI_COLOR_PAIRS ->
  Z.land flags TUI_A_COLOR = 0 ->
  TUI_PAIR_NUMBER (TUI_COLOR_PAIR n) = n /\
  TUI_PAIR_NUMBER (Z.lor (TUI_COLOR_PAIR n) flags) = n /\
  Z.land (Z.lor (TUI_COLOR_PAIR n) flags) (Z.lnot TUI_A_COLOR) = flags.
Proof. apply pair_number_spec. Qed.

Lemma pair_number_round_trip_witness :
  TUI_PAIR_NUMBER (TUI_COLOR_PAIR 12) = 12 /\
  TUI_PAIR_NUMBER (Z.lor (TUI_COLOR_PAIR 12) TUI_A_BOLD) = 12 /\
  Z.land (Z.lor (TUI_COLOR_PAIR 12) TUI_A_BOLD) (Z.lnot TUI_A_COLOR)
  = TUI_A_BOLD.
Proof.
  apply (pair_number_round_trip 12 TUI_A_BOLD).
  - unfold TUI_COLOR_PAIRS. lia.
  - reflexivity.
Defined.

(** X18.  [tui_wattron] sets every bit it is given and [tui_wattroff]
    clears every bit it is given; turned on and off again with the same
    flags, a window that had none of these bits set, and no colour when
    the flags carry one, has its attribute word back. *)
Theorem wattron_wattroff_round_trip (w : tui_window_t) (attrs : Z) :
  Z.land (attr (tui_wattron w attrs)) attrs = attrs /\
  Z.land (attr (tui_wattroff w attrs)) attrs = 0 /\
  (Z.land (attr w) attrs = 0 ->
   (Z.land attrs TUI_A_COLOR <> 0 -> Z.land (attr w) TUI_A_COLOR = 0) ->
   attr (tui_wattroff (tui_wattron w attrs) attrs) = attr w).
Proof.
  unfold tui_wattron, tui_wattroff. destruct w as [by_ bx my mx cy cx a bk dr].
  cbn [attr with_attr begy begx maxy maxx cury curx bkgd dirty_rows].
  split; [|split].
  - bits i. destruct (Z.testbit attrs i); [now rewrite orb_true_r|].
    now rewrite andb_false_r.
  - bits i. destruct (Z.testbit attrs i); simpl;
      now rewrite ?andb_false_r, ?andb_true_r.
  - intros H0 Hc.
    destruct (Z.land attrs TUI_A_COLOR =? 0) eqn:C.
    + bits i. pose proof (land_zero_bit _ _ i H0) as B.
      destruct (Z.testbit a i), (Z.testbit attrs i); simpl in *; congruence.
    + apply Z.eqb_neq in C. specialize (Hc C).
      bits i. pose proof (land_zero_bit _ _ i H0) as B.
      pose proof (land_zero_bit _ _ i Hc) as B'.
      destruct (Z.testbit a i), (Z.testbit attrs i),
        (Z.testbit TUI_A_COLOR i); simpl in *; congruence.
Qed.

(** X19.  Turning on a colour pair from 1 to 255 replaces whatever pair
    the window had and keeps its other attribute bits; the word for
    pair 0 carries no colour bit, so turning it on leaves the window as
    it is, previous pair included. *)
Theorem wattron_replaces_pair (w : tui_window_t) (n : Z) :
  (1 <= n < TUI_COLOR_PAIRS ->
   TUI_PAIR_NUMBER (attr (tui_wattron w (TUI_COLOR_PAIR n))) = n /\
   Z.land (attr (tui_wattron w (TUI_COLOR_PAIR n))) (Z.lnot TUI_A_COLOR)
   = Z.land (attr w) (Z.lnot TUI_A_COLOR)) /\
  tui_wattron w (TUI_COLOR_PAIR 0) = w.
Proof.
  split.
  - intros Hn. unfold TUI_COLOR_PAIRS in Hn.
    assert (Hnz : Z.land (TUI_COLOR_PAIR n) TUI_A_COLOR = TUI_COLOR_PAIR n).
    { unfold TUI_COLOR_PAIR.
      change TUI_A_COLOR with (Z.shiftl (Z.ones 8) 8).
      rewrite <- Z.shiftl_land, Z.land_ones by lia.
      rewrite Z.mod_small by (simpl; lia). reflexivity. }
    assert (Hne : (Z.land (TUI_COLOR_PAIR n) TUI_A_COLOR =? 0) = false).
    { rewrite Hnz. apply Z.eqb_neq. unfold TUI_COLOR_PAIR.
      rewrite Z.shiftl_mul_pow2 by lia. simpl. lia. }
    unfold tui_wattron. rewrite Hne.
    destruct w as [by_ bx my mx cy cx a bk dr].
    cbn [attr with_attr begy begx maxy maxx cury curx bkgd dirty_rows].
    assert (Hk : Z.land (Z.land a (Z.lnot TUI_A_COLOR)) TUI_A_COLOR = 0).
    { bits i. destruct (Z.testbit TUI_A_COLOR i); simpl;
        now rewrite ?andb_false_r. }
    destruct (pair_number_spec n (Z.land a (Z.lnot TUI_A_COLOR))
                ltac:(unfold TUI_COLOR_PAIRS; lia) Hk) as (_ & P & Q).
    rewrite (Z.lor_comm _ (TUI_COLOR_PAIR n)). split; [exact P|].
    rewrite Q. bits i.
    destruct (Z.testbit a i), (Z.testbit TUI_A_COLOR i); reflexivity.
  - unfold tui_wattron. destruct w as [by_ bx my mx cy cx a bk dr].
    cbn. now rewrite Z.lor_0_r.
Qed.

Lemma wattron_replaces_pair_witness :
  TUI_PAIR_NUMBER
    (attr (tui_wattron (tui_wattron (tui_stdscr term_80x24) (TUI_COLOR_PAIR 3))
                       (TUI_COLOR_PAIR 5))) = 5 /\
  Z.land (attr (tui_wattron (tui_wattron (tui_stdscr term_80x24)
                                         (TUI_COLOR_PAIR 3))
                            (TUI_COLOR_PAIR 5))) (Z.lnot TUI_A_COLOR)
  = Z.land (attr (tui_wattron (tui_stdscr term_80x24) (TUI_COLOR_PAIR 3)))
           (Z.lnot TUI_A_COLOR).
Proof.
  apply (wattron_replaces_pair
           (tui_wattron (tui_stdscr term_80x24) (TUI_COLOR_PAIR 3)) 5).
  unfold TUI_COLOR_PAIRS. lia.
Defined.

(** ** Cursor positioning *)

Lemma quot_rem_split a b q :
  0 <= b < q -> 0 <= a -> Z.quot (a * q + b) q = a /\ Z.rem (a * q + b) q = b.
Proof.
  intros Hb Ha.
  rewrite Z.quot_div_nonneg, Z.rem_mod_nonneg by nia.
  rewrite (Z.add_comm (a * q)), Z.div_add, Z.mod_add by lia.
  rewrite Z.div_small, Z.mod_small by lia. lia.
Qed.

(** X20.  The table of pre-computed cursor positions agrees with the
    formatting of a position: whenever [get_cursor_pool_index] gives an
    index of the table for a position with non-negative coordinates,
    the entry stored there is the sequence for exactly that position. *)
Theorem cursor_pool_agrees (row col : Z) :
  0 <= row -> 0 <= col ->
  0 <= get_cursor_pool_index row col < CURSOR_POS_POOL_SIZE ->
  cursor_positions (get_cursor_pool_index row col) = cursor_seq row col.
Proof.
  intros Hr Hc. unfold get_cursor_pool_index, CURSOR_POS_POOL_SIZE.
  destruct ((row <? 2) && (col <? 40)) eqn:A.
  - apply andb_true_iff in A as [A1 A2]. apply Z.ltb_lt in A1, A2.
    intros _. unfold cursor_positions.
    replace ((0 <=? row * 40 + col) && (row * 40 + col <? 80)) with true.
    2:{ symmetry. apply andb_true_iff.
        split; [apply Z.leb_le|apply Z.ltb_lt]; lia. }
    destruct (quot_rem_split row col 40 ltac:(lia) Hr) as [-> ->].
    reflexivity.
  - destruct ((10 <=? row) && (row <? 16) && (col <? 80)
              && (Z.rem col 5 =? 0)) eqn:B; [|lia].
    apply andb_true_iff in B as [B B4]. apply andb_true_iff in B as [B B3].
    apply andb_true_iff in B as [B1 B2].
    apply Z.leb_le in B1. apply Z.ltb_lt in B2, B3. apply Z.eqb_eq in B4.
    intros _. unfold cursor_positions.
    pose proof (Z.quot_rem' col 5) as Q. rewrite B4 in Q.
    assert (Hq : 0 <= Z.quot col 5 < 16).
    { split; [apply Z.quot_pos; lia|]. apply Z.quot_lt_upper_bound; lia. }
    replace ((0 <=? 80 + (row - 10) * 16 + Z.quot col 5)
             && (80 + (row - 10) * 16 + Z.quot col 5 <? 80)) with false.
    2:{ symmetry. apply andb_false_iff. right. apply Z.ltb_ge. lia. }
    replace ((80 <=? 80 + (row - 10) * 16 + Z.quot col 5)
             && (80 + (row - 10) * 16 + Z.quot col 5 <? 176)) with true.
    2:{ symmetry. apply andb_true_iff.
        split; [apply Z.leb_le|apply Z.ltb_lt]; lia. }
    replace (80 + (row - 10) * 16 + Z.quot col 5 - 80)
      with ((row - 10) * 16 + Z.quot col 5) by lia.
    destruct (quot_rem_split (row - 10) (Z.quot col 5) 16 Hq ltac:(lia))
      as [-> ->].
    f_equal; lia.
Qed.

Lemma cursor_pool_agrees_witness :
  cursor_positions (get_cursor_pool_index 12 35) = cursor_seq 12 35.
Proof.
  apply (cursor_pool_agrees 12 35); [lia|lia|].
  vm_compute. split; [discriminate|reflexivity].
Defined.

(** X21.  Positioning the cursor where it was just positioned emits
    nothing: a second [tui_move_cached] to the same cell leaves the
    engine, emissions included, exactly as the first call left it; and
    the first call emits at most one sequence. *)
Theorem tui_move_cached_idempotent (s : engine) (row col : Z) :
  tui_move_cached (tui_move_cached s row col) row col
  = tui_move_cached s row col /\
  (out (tui_move_cached s row col) = out s \/
   exists seq, out (tui_move_cached s row col) = out s ++ [ECursor seq]).
Proof.
  split.
  - unfold tui_move_cached at 2 3.
    destruct ((row =? last_row (cursor_cache s))
              && (col =? last_col (cursor_cache s))) eqn:A.
    + unfold tui_move_cached. now rewrite A.
    + destruct (if (0 <=? last_row (cursor_cache s))
                   && (0 <=? last_col (cursor_cache s))
                then relative_move (last_row (cursor_cache s))
                       (last_col (cursor_cache s)) row col
                else None);
        [|destruct (AttrSeq.precomputed_initialized (esc_seq_cache s)
                    && (0 <=? get_cursor_pool_index row col)
                    && (get_cursor_pool_index row col <? CURSOR_POS_POOL_SIZE))];
        unfold tui_move_cached; cbn; now rewrite !Z.eqb_refl.
  - unfold tui_move_cached.
    destruct ((row =? last_row (cursor_cache s))
              && (col =? last_col (cursor_cache s))); [now left|].
    destruct (if (0 <=? last_row (cursor_cache s))
                 && (0 <=? last_col (cursor_cache s))
              then relative_move (last_row (cursor_cache s))
                     (last_col (cursor_cache s)) row col
              else None);
      [|destruct (AttrSeq.precomputed_initialized (esc_seq_cache s)
                  && (0 <=? get_cursor_pool_index row col)
                  && (get_cursor_pool_index row col <? CURSOR_POS_POOL_SIZE))];
      right; eexists; reflexivity.
Qed.

(** X22.  Applying the attribute that was applied last emits nothing:
    after a successful [apply_attributes], a second call with the same
    attribute word returns the same engine. *)
Theorem apply_attributes_idempotent (s s1 : engine) (a : Z) :
  apply_attributes s a = Some s1 ->
  apply_attributes s1 a = Some s1.
Proof.
  unfold apply_attributes.
  destruct (if colors_initialized s && negb (Z.land a TUI_A_COLOR =? 0)
            then get_pair_colors (color_pair_cache s) (TUI_PAIR_NUMBER a)
            else (TUI_COLOR_WHITE, TUI_COLOR_BLACK)) as [fg bg] eqn:P.
  destruct (as_initialized (attr_state s) && (last_fg (attr_state s) =? fg)
            && (last_bg (attr_state s) =? bg)
            && (last_attrs (attr_state s) =? Z.land a (Z.lnot TUI_A_COLOR)))
    eqn:T.
  - intros H. inversion H; subst. rewrite P, T. reflexivity.
  - destruct (AttrSeq.get_cached_attr_sequence (color_defs s)
                (esc_seq_cache s) fg bg (Z.land a (Z.lnot TUI_A_COLOR)))
      as [cached cache'].
    destruct (match cached with
              | Some (seq, _) => Some seq
              | None => fallback_attr_sequence s fg bg
                          (Z.land a (Z.lnot TUI_A_COLOR))
              end) as [seq|]; [|discriminate].
    cbn [obind]. intros H. inversion H; subst. cbn.
    cbn in P. rewrite P. cbn. now rewrite !Z.eqb_refl.
Qed.

Lemma apply_attributes_idempotent_witness :
  match apply_attributes term_80x24 TUI_A_BOLD with
  | Some s1 => apply_attributes s1 TUI_A_BOLD = Some s1
  | None => False
  end.
Proof.
  destruct (apply_attributes term_80x24 TUI_A_BOLD) as [s1|] eqn:E.
  - exact (apply_attributes_idempotent term_80x24 s1 TUI_A_BOLD E).
  - vm_compute in E. discriminate.
Defined.

End SurfaceFacts.

(** * Refresh of a secondary window *)

Module WindowFacts.
Import Engine EngineFacts Window.

Lemma kept_refl s : kept s s.
Proof. unfold kept. auto. Qed.

Lemma kept_trans s1 s2 s3 : kept s1 s2 -> kept s2 s3 -> kept s1 s3.
Proof.
  intros (A1 & B1 & C1 & D1 & E1) (A2 & B2 & C2 & D2 & E2). unfold kept.
  repeat split; try congruence. auto.
Qed.

Lemma col_visible_kept s s' x : kept s s' -> col_visible s' x = col_visible s x.
Proof. intros (A & B & C & _). unfold col_visible. now rewrite A, C. Qed.

Lemma get_cached_initialized defs c fg bg a :
  AttrSeq.initialized c = true ->
  (exists seq n, fst (AttrSeq.get_cached_attr_sequence defs c fg bg a)
                 = Some (seq, n)) /\
  AttrSeq.initialized (snd (AttrSeq.get_cached_attr_sequence defs c fg bg a))
  = true.
Proof.
  intros I. unfold AttrSeq.get_cached_attr_sequence. rewrite I. simpl.
  destruct (AttrSeq.combo_find _ _ _ _) as [e|]; simpl; [eauto|].
  split; [eauto|].
  destruct (AttrSeq.attr_combo_pool_used c <? AttrSeq.attr_combo_pool_size c);
    [simpl|]; first [assumption|reflexivity].
Qed.

(** With the rendition cache initialised, [apply_attributes] always
    finds or builds its sequence. *)
Lemma apply_attributes_total s a :
  AttrSeq.initialized (esc_seq_cache s) = true ->
  exists s', apply_attributes s a = Some s' /\ kept s s' /\
             cursor_cache s' = cursor_cache s.
Proof.
  intros I. unfold apply_attributes.
  destruct (if colors_initialized s && negb (Z.land a TUI_A_COLOR =? 0)
            then get_pair_colors (color_pair_cache s) (TUI_PAIR_NUMBER a)
            else (TUI_COLOR_WHITE, TUI_COLOR_BLACK)) as [fg bg].
  destruct (as_initialized (attr_state s) && (last_fg (attr_state s) =? fg)
            && (last_bg (attr_state s) =? bg)
            && (last_attrs (attr_state s) =? Z.land a (Z.lnot TUI_A_COLOR))).
  - exists s. split; [reflexivity|]. split; [apply kept_refl|reflexivity].
  - destruct (get_cached_initialized (color_defs s) (esc_seq_cache s) fg bg
                (Z.land a (Z.lnot TUI_A_COLOR)) I) as ((seq & n & E) & I').
    destruct (AttrSeq.get_cached_attr_sequence (color_defs s)
                (esc_seq_cache s) fg bg (Z.land a (Z.lnot TUI_A_COLOR)))
      as [cached cache'].
    simpl in E, I'. subst cached. cbn [obind].
    eexists. split; [reflexivity|]. unfold kept. cbn. repeat split. auto.
Qed.

Lemma tui_move_cached_kept s row col : kept s (tui_move_cached s row col).
Proof.
  destruct (tui_move_cached_spec s row col) as (A & B & C & D & _).
  unfold kept. repeat split; try assumption.
  unfold tui_move_cached.
  destruct ((row =? last_row (cursor_cache s))
            && (col =? last_col (cursor_cache s))); [auto|].
  destruct (if (0 <=? last_row (cursor_cache s))
               && (0 <=? last_col (cursor_cache s))
            then relative_move (last_row (cursor_cache s))
                   (last_col (cursor_cache s)) row col
            else None);
    [|destruct (AttrSeq.precomputed_initialized (esc_seq_cache s)
                && (0 <=? get_cursor_pool_index row col)
                && (get_cursor_pool_index row col <? CURSOR_POS_POOL_SIZE))];
    cbn; auto.
Qed.

Lemma window_run_end_total fuel s win screen_y :
  0 <= screen_y < buf_rows (grid s) ->
  forall end_x a,
    exists e, window_run_end fuel s win screen_y end_x a = Some e /\
              end_x <= e.
Proof.
  intros Hy. induction fuel as [|f IH]; intros end_x a; simpl.
  - exists end_x. split; [reflexivity|lia].
  - destruct (end_x + 1 <? maxx win); [|exists end_x; split; [reflexivity|lia]].
    destruct (col_visible s (begx win + end_x + 1)) eqn:V;
      [|exists end_x; split; [reflexivity|lia]].
    unfold col_visible in V.
    apply andb_true_iff in V as [V V3]. apply andb_true_iff in V as [V1 V2].
    apply Z.leb_le in V1. apply Z.ltb_lt in V2, V3.
    unfold attr_at, in_grid.
    replace ((0 <=? screen_y) && (screen_y <? buf_rows (grid s))
             && (0 <=? begx win + end_x + 1)
             && (begx win + end_x + 1 <? buf_cols (grid s))) with true.
    2:{ symmetry. rewrite !andb_true_iff, !Z.leb_le, !Z.ltb_lt. lia. }
    cbn [obind].
    destruct (attr_buf (grid s) screen_y (begx win + end_x + 1) =? a);
      [|exists end_x; split; [reflexivity|lia]].
    destruct (IH (end_x + 1) a) as (e & E & L).
    exists e. split; [exact E|lia].
Qed.

Lemma window_run_chars_total s win screen_y start_x end_x :
  0 <= screen_y < buf_rows (grid s) ->
  exists chars, window_run_chars s win screen_y start_x end_x = Some chars.
Proof.
  intros Hy. unfold window_run_chars.
  generalize (zrange_incl start_x end_x).
  enough (forall l acc, exists chars,
            ofold (fun acc i =>
                     let sx := begx win + i in
                     if col_visible s sx then
                       if in_grid (grid s) screen_y sx
                       then Some (acc ++ [screen_buf (grid s) screen_y sx])
                       else None
                     else Some acc) l acc = Some chars) as H
    by (intros l; apply H).
  intros l. induction l as [|i tl IH]; intros acc; simpl; [eauto|].
  destruct (col_visible s (begx win + i)) eqn:V; [|cbn [obind]; apply IH].
  unfold col_visible in V.
  apply andb_true_iff in V as [V V3]. apply andb_true_iff in V as [V1 V2].
  apply Z.leb_le in V1. apply Z.ltb_lt in V2, V3.
  unfold in_grid.
  replace ((0 <=? screen_y) && (screen_y <? buf_rows (grid s))
           && (0 <=? begx win + i) && (begx win + i <? buf_cols (grid s)))
    with true.
  2:{ symmetry. rewrite !andb_true_iff, !Z.leb_le, !Z.ltb_lt. lia. }
  cbn [obind]. apply IH.
Qed.

Lemma window_row_total fuel win screen_y :
  forall s x,
    0 <= screen_y < buf_rows (grid s) ->
    AttrSeq.initialized (esc_seq_cache s) = true ->
    exists s', window_row fuel s win screen_y x = Some s' /\ kept s s'.
Proof.
  induction fuel as [|f IH]; intros s x Hy I; simpl.
  - exists s. split; [reflexivity|apply kept_refl].
  - destruct (x <? maxx win); [|exists s; split; [reflexivity|apply kept_refl]].
    destruct (col_visible s (begx win + x)) eqn:V; simpl.
    2:{ now apply IH. }
    unfold col_visible in V.
    apply andb_true_iff in V as [V V3]. apply andb_true_iff in V as [V1 V2].
    apply Z.leb_le in V1. apply Z.ltb_lt in V2, V3.
    unfold attr_at at 1. unfold in_grid.
    replace ((0 <=? screen_y) && (screen_y <? buf_rows (grid s))
             && (0 <=? begx win + x) && (begx win + x <? buf_cols (grid s)))
      with true.
    2:{ symmetry. rewrite !andb_true_iff, !Z.leb_le, !Z.ltb_lt. lia. }
    cbn [obind].
    destruct (window_run_end_total (Z.to_nat (maxx win - x)) s win screen_y Hy
                x (attr_buf (grid s) screen_y (begx win + x)))
      as (e & E & L).
    rewrite E. cbn [obind].
    pose proof (tui_move_cached_kept s screen_y (begx win + x)) as K1.
    destruct K1 as (G1 & L1 & C1 & D1 & I1).
    destruct (apply_attributes_total
                (tui_move_cached s screen_y (begx win + x))
                (attr_buf (grid s) screen_y (begx win + x)) (I1 I))
      as (s2 & E2 & (G2 & L2 & C2 & D2 & I2) & _).
    rewrite E2. cbn [obind].
    destruct (window_run_chars_total s2 win screen_y x e) as (chars & Ec).
    { rewrite G2, G1. exact Hy. }
    rewrite Ec. cbn [obind].
    match goal with
    | |- exists s', window_row f ?s3 win screen_y ?x3 = Some s' /\ _ =>
        assert (K3 : kept s2 s3) by (unfold kept; cbn; auto);
        destruct (IH s3 x3) as (s' & E' & K')
    end.
    { cbn. rewrite G2, G1. exact Hy. }
    { cbn. auto. }
    exists s'. split; [exact E'|].
    apply (kept_trans s s2).
    + unfold kept. repeat split; try congruence. auto.
    + eapply kept_trans; [exact K3|exact K'].
Qed.

Lemma window_line_total sw y :
  allocated (grid (fst sw)) = true ->
  AttrSeq.initialized (esc_seq_cache (fst sw)) = true ->
  exists sw',
    window_line sw y = Some sw' /\ kept (fst sw) (fst sw') /\
    same_geometry (snd sw) (snd sw') /\
    match dirty_rows (snd sw), dirty_rows (snd sw') with
    | Some rows, Some rows' =>
        rows' y = false /\ forall z, rows z = false -> rows' z = false
    | None, None => True
    | _, _ => False
    end.
Proof.
  destruct sw as [s win]. cbn [fst snd]. intros A I. unfold window_line.
  destruct (match dirty_rows win with
            | Some rows => rows y
            | None => true
            end) eqn:D.
  - assert (Hrow : exists s',
               (if (0 <=? begy win + y) && (begy win + y <? tui_lines s)
                   && (begy win + y <? buf_rows (grid s))
                then window_row (Z.to_nat (maxx win)) s win (begy win + y) 0
                else Some s) = Some s' /\ kept s s').
    { destruct ((0 <=? begy win + y) && (begy win + y <? tui_lines s)
                && (begy win + y <? buf_rows (grid s))) eqn:G.
      - apply andb_true_iff in G as [G G3]. apply andb_true_iff in G as [G1 G2].
        apply Z.leb_le in G1. apply Z.ltb_lt in G2, G3.
        apply window_row_total; [lia|assumption].
      - exists s. split; [reflexivity|apply kept_refl]. }
    destruct Hrow as (s' & E & K). rewrite E. cbn [obind].
    eexists. split; [reflexivity|]. cbn [fst snd]. split; [exact K|].
    destruct win as [by_ bx my mx cy cx a bk [rows|]]; cbn in *.
    + split; [unfold same_geometry; cbn; repeat split|].
      split; [unfold upd; now rewrite Z.eqb_refl|].
      intros z Hz. unfold upd. now destruct (z =? y).
    + split; [unfold same_geometry; cbn; repeat split|trivial].
  - exists (s, win). split; [reflexivity|]. cbn [fst snd].
    split; [apply kept_refl|]. split; [unfold same_geometry; repeat split|].
    destruct (dirty_rows win) as [rows|]; [|discriminate]. auto.
Qed.

Lemma same_geometry_trans w1 w2 w3 :
  same_geometry w1 w2 -> same_geometry w2 w3 -> same_geometry w1 w3.
Proof.
  unfold same_geometry. intros H1 H2.
  repeat match goal with H : _ /\ _ |- _ => destruct H end.
  repeat split; congruence.
Qed.

Lemma window_lines_total l :
  forall sw,
    allocated (grid (fst sw)) = true ->
    AttrSeq.initialized (esc_seq_cache (fst sw)) = true ->
    exists sw',
      ofold window_line l sw = Some sw' /\ kept (fst sw) (fst sw') /\
      same_geometry (snd sw) (snd sw') /\
      match dirty_rows (snd sw), dirty_rows (snd sw') with
      | Some rows, Some rows' =>
          (forall y, In y l -> rows' y = false) /\
          forall z, rows z = false -> rows' z = false
      | None, None => True
      | _, _ => False
      end.
Proof.
  induction l as [|y tl IH]; intros sw A I; simpl.
  - exists sw. split; [reflexivity|]. split; [apply kept_refl|].
    split; [unfold same_geometry; repeat split|].
    destruct (dirty_rows (snd sw)); [|trivial]. split; [intros y []|auto].
  - destruct (window_line_total sw y A I) as (sw1 & E1 & K1 & G1 & D1).
    rewrite E1. cbn [obind].
    destruct (IH sw1) as (sw2 & E2 & K2 & G2 & D2).
    { destruct K1 as (Kg & _). now rewrite Kg. }
    { destruct K1 as (_ & _ & _ & _ & Ki). auto. }
    exists sw2. split; [exact E2|]. split; [now apply (kept_trans _ (fst sw1))|].
    split; [now apply (same_geometry_trans _ (snd sw1))|].
    destruct (dirty_rows (snd sw)) as [r0|], (dirty_rows (snd sw1)) as [r1|],
      (dirty_rows (snd sw2)) as [r2|]; try contradiction; [|trivial].
    destruct D1 as [D1a D1b]. destruct D2 as [D2a D2b]. split.
    + intros z [<-|Hz]; [now apply D2b|now apply D2a].
    + intros z Hz. apply D2b. now apply D1b.
Qed.

(** X23.  The refresh of a window other than the primary one is safe
    for every place and size of the window: with the grids allocated
    and the rendition cache initialised it returns 0 without reading
    outside the grids.  It changes neither the grids, snapshot
    included, nor the dirty region, so nothing it writes is recorded as
    shown; and it clears the dirty flag of every row of the window. *)
Theorem window_refresh_safe (s : engine) (win : tui_window_t) :
  allocated (grid s) = true ->
  AttrSeq.initialized (esc_seq_cache s) = true ->
  exists s' win',
    tui_refresh_window s win = Some (0, s', win') /\
    grid s' = grid s /\ dirty_region s' = dirty_region s /\
    tui_lines s' = tui_lines s /\ tui_cols s' = tui_cols s /\
    same_geometry win win' /\ rows_clean win'.
Proof.
  intros A I. unfold tui_refresh_window. rewrite A. cbn [negb].
  destruct (window_lines_total (zrange 0 (Z.to_nat (maxy win))) (s, win) A I)
    as ([s1 w1] & E & (Kg & Kl & Kc & Kd & _) & G & D).
  rewrite E. cbn [obind fst snd] in *.
  eexists. eexists. split; [reflexivity|]. cbn.
  repeat (split; [assumption|]). unfold rows_clean.
  destruct (dirty_rows win) as [r0|], (dirty_rows w1) as [r1|];
    try contradiction; [|trivial].
  destruct D as [D _]. intros y Hy. apply D. apply in_zrange.
  destruct G as (_ & _ & Gm & _). lia.
Qed.

Lemma window_refresh_safe_witness :
  exists s' win',
    tui_refresh_window one_cell (tui_newwin 5 200 (-2) (-3))
    = Some (0, s', win') /\
    grid s' = grid one_cell /\ dirty_region s' = dirty_region one_cell /\
    tui_lines s' = tui_lines one_cell /\ tui_cols s' = tui_cols one_cell /\
    same_geometry (tui_newwin 5 200 (-2) (-3)) win' /\ rows_clean win'.
Proof.
  apply (window_refresh_safe one_cell (tui_newwin 5 200 (-2) (-3)));
    vm_compute; reflexivity.
Defined.

End WindowFacts.

(** * Further properties of the refresh *)

Module RefreshMore.
Import Engine EngineFacts.

(** X24.  A refresh of the primary window only commits: whatever it
    returns, the logical grid (characters and attributes) and all the
    extents are as before, a cell whose snapshot matched still matches,
    and the return value is 0 or -1; when it returns 0 no change is
    left pending. *)
Theorem tui_refresh_only_commits (s s' : engine) (rv : Z) :
  tui_refresh s = Some (rv, s') ->
  grid_step (grid s) (grid s') /\
  tui_lines s' = tui_lines s /\ tui_cols s' = tui_cols s /\
  (rv = 0 \/ rv = -1) /\
  (rv = 0 -> Dirty.has_changes (dirty_region s') = false).
Proof.
  intros H. destruct (allocated (grid s)) eqn:A.
  - destruct (Dirty.has_changes (dirty_region s)) eqn:HC.
    + destruct (tui_refresh_steps _ _ _ H HC A)
        as (s1 & mr & xr & mc & xc & d & u & st & O & B & CS & SC & -> & ->).
      destruct (finish_refresh_spec st) as (E1 & E2 & _).
      apply scan_step_all in SC. destruct SC as (SG & SL & SC & _).
      cbn in SG, SL, SC.
      destruct (optimize_dirty_region_frame _ _ O) as (F1 & F2 & F3 & _).
      split; [rewrite E1, <- F1; exact SG|].
      assert (L : tui_lines (finish_refresh st) = tui_lines (fst st)).
      { unfold finish_refresh. destruct (snd st); reflexivity. }
      assert (C : tui_cols (finish_refresh st) = tui_cols (fst st)).
      { unfold finish_refresh. destruct (snd st); reflexivity. }
      split; [congruence|]. split; [congruence|]. split; [now left|].
      intros _. exact E2.
    + unfold tui_refresh in H. rewrite A in H. cbn in H. rewrite HC in H.
      cbn in H. inversion H; subst. cbn.
      split; [apply grid_step_refl|]. repeat split; auto.
  - unfold tui_refresh in H. rewrite A in H. cbn in H. inversion H; subst.
    split; [apply grid_step_refl|]. repeat split; auto. intros; lia.
Qed.

Lemma tui_refresh_only_commits_witness :
  grid_step (grid one_cell) (grid (refreshed one_cell)) /\
  tui_lines (refreshed one_cell) = tui_lines one_cell /\
  tui_cols (refreshed one_cell) = tui_cols one_cell /\
  (0 = 0 \/ 0 = -1) /\
  (0 = 0 -> Dirty.has_changes (dirty_region (refreshed one_cell)) = false).
Proof.
  apply (tui_refresh_only_commits one_cell (refreshed one_cell) 0).
  unfold refreshed.
  destruct (tui_refresh one_cell) as [[rv s']|] eqn:E.
  - cbn. assert (rv = 0) as ->; [|reflexivity].
    assert (option_map fst (tui_refresh one_cell) = Some 0) as R
      by (vm_compute; reflexivity).
    rewrite E in R. cbn in R. congruence.
  - assert (option_map fst (tui_refresh one_cell) = Some 0) as R
      by (vm_compute; reflexivity).
    rewrite E in R. discriminate.
Defined.

(** ** The tightening of the dirty rectangle *)

Lemma find_first_none {A} (p : A -> option bool) l :
  find_first p l = Some None -> forall a, In a l -> p a = Some false.
Proof.
  induction l as [|b tl IH]; simpl; intros H a; [intros []|].
  destruct (p b) as [[|]|] eqn:E; simpl in H; try discriminate.
  intros [<-|I]; [exact E|now apply IH].
Qed.

Lemma find_first_hit {A} (p : A -> option bool) l a :
  find_first p l = Some (Some a) -> In a l /\ p a = Some true.
Proof.
  induction l as [|b tl IH]; simpl; intros H; [discriminate|].
  destruct (p b) as [[|]|] eqn:E; simpl in H; try discriminate.
  - inversion H; subst. split; [now left|exact E].
  - destruct (IH H) as [I T]. split; [now right|exact T].
Qed.

(** The first hit of an ascending scan is below every other hit. *)
Lemma find_first_up p n :
  forall lo a,
    find_first p (zrange lo n) = Some (Some a) ->
    forall y, lo <= y < lo + Z.of_nat n -> p y = Some true -> a <= y.
Proof.
  induction n as [|n IH]; intros lo a H y Hy T; [simpl in Hy; lia|].
  simpl in H. destruct (p lo) as [[|]|] eqn:E; simpl in H; try discriminate.
  - inversion H; subst. lia.
  - destruct (Z.eq_dec y lo) as [->|N]; [congruence|].
    apply (IH (lo + 1) a H); [lia|exact T].
Qed.

Lemma zrange_snoc lo n : zrange lo (S n) = zrange lo n ++ [lo + Z.of_nat n].
Proof.
  revert lo. induction n as [|n IH]; intros lo.
  - simpl. now rewrite Z.add_0_r.
  - change (zrange lo (S (S n))) with (lo :: zrange (lo + 1) (S n)).
    rewrite IH. cbn [zrange app]. do 3 f_equal. lia.
Qed.

(** The first hit of a descending scan is above every other hit. *)
Lemma find_first_down p lo n :
  forall a,
    find_first p (rev (zrange lo n)) = Some (Some a) ->
    forall y, lo <= y < lo + Z.of_nat n -> p y = Some true -> y <= a.
Proof.
  induction n as [|n IH]; intros a H y Hy T; [simpl in Hy; lia|].
  rewrite zrange_snoc, rev_app_distr in H. simpl in H.
  destruct (p (lo + Z.of_nat n)) as [[|]|] eqn:E; simpl in H;
    try discriminate.
  - inversion H; subst. lia.
  - destruct (Z.eq_dec y (lo + Z.of_nat n)) as [->|N]; [congruence|].
    apply (IH a H); [lia|exact T].
Qed.

Lemma row_has_changes_hit g y mc xc x :
  0 <= y < buf_rows g -> 0 <= mc -> xc < buf_cols g ->
  mc <= x <= xc -> differs g y x = true ->
  row_has_changes g y mc xc = Some true.
Proof.
  intros Hy Hm Hx Hc D. unfold row_has_changes.
  replace ((buf_rows g <=? y) || (buf_cols g <=? mc) || (buf_cols g <=? xc))
    with false.
  2:{ symmetry. rewrite !orb_false_iff, !Z.leb_gt. lia. }
  replace ((0 <=? y) && (0 <=? mc) && (0 <=? xc - mc + 1)) with true.
  2:{ symmetry. rewrite !andb_true_iff, !Z.leb_le. lia. }
  f_equal. apply existsb_exists. exists x. split; [|exact D].
  apply in_zrange. lia.
Qed.

Lemma row_has_changes_real g y mc xc :
  row_has_changes g y mc xc = Some true -> 0 <= y < buf_rows g.
Proof.
  unfold row_has_changes.
  destruct ((buf_rows g <=? y) || (buf_cols g <=? mc) || (buf_cols g <=? xc))
    eqn:G; [discriminate|].
  apply orb_false_iff in G as [G _]. apply orb_false_iff in G as [G _].
  apply Z.leb_gt in G.
  destruct ((0 <=? y) && (0 <=? mc) && (0 <=? xc - mc + 1)) eqn:P;
    [|discriminate].
  apply andb_true_iff in P as [P _]. apply andb_true_iff in P as [P _].
  apply Z.leb_le in P. intros _. lia.
Qed.

Lemma col_has_changes_hit g x lo hi y :
  0 <= x < buf_cols g -> 0 <= lo -> hi < buf_rows g ->
  lo <= y <= hi -> differs g y x = true ->
  col_has_changes g x lo hi = Some true.
Proof.
  intros Hx Hl Hh Hy D. unfold col_has_changes.
  replace ((buf_cols g <=? x) || (buf_rows g <=? lo) || (buf_rows g <=? hi))
    with false.
  2:{ symmetry. rewrite !orb_false_iff, !Z.leb_gt. lia. }
  assert (Cells : forall z, In z (zrange_incl lo hi) ->
                            cell_changed g z x = Some (differs g z x)).
  { intros z Hz. apply in_zrange_incl in Hz. unfold cell_changed, in_grid.
    replace ((0 <=? z) && (z <? buf_rows g) && (0 <=? x) && (x <? buf_cols g))
      with true; [reflexivity|].
    symmetry. rewrite !andb_true_iff, !Z.leb_le, !Z.ltb_lt. lia. }
  assert (Hy' : In y (zrange_incl lo hi)) by (apply in_zrange_incl; lia).
  revert Cells Hy'. generalize (zrange_incl lo hi). intros l.
  induction l as [|z tl IH]; intros Cells Hy'; [destruct Hy'|].
  simpl. rewrite (Cells z (or_introl eq_refl)). cbn [obind].
  destruct (differs g z x) eqn:Dz; [reflexivity|].
  destruct Hy' as [->|Hy']; [congruence|].
  apply IH; [|exact Hy']. intros w Hw. apply Cells. now right.
Qed.

Lemma col_has_changes_real g x lo hi :
  col_has_changes g x lo hi = Some true -> x < buf_cols g.
Proof.
  unfold col_has_changes.
  destruct ((buf_cols g <=? x) || (buf_rows g <=? lo) || (buf_rows g <=? hi))
    eqn:G; [discriminate|].
  apply orb_false_iff in G as [G _]. apply orb_false_iff in G as [G _].
  apply Z.leb_gt in G. intros _. exact G.
Qed.

(** What the tightening of the dirty rectangle keeps. *)
Lemma optimize_region_spec (s s1 : engine) (y x : Z) :
  optimize_dirty_region s = Some s1 ->
  Dirty.has_changes (dirty_region s) = true ->
  buf_rows (grid s) <= Dirty.INT_MAX -> buf_cols (grid s) <= Dirty.INT_MAX ->
  0 <= y < buf_rows (grid s) -> 0 <= x < buf_cols (grid s) ->
  Dirty.min_row (dirty_region s) <= y <= Dirty.max_row (dirty_region s) ->
  Dirty.min_col (dirty_region s) <= x <= Dirty.max_col (dirty_region s) ->
  differs (grid s) y x = true ->
  Dirty.has_changes (dirty_region s1) = true /\
  Dirty.min_row (dirty_region s) <= Dirty.min_row (dirty_region s1) /\
  Dirty.min_row (dirty_region s1) <= y <= Dirty.max_row (dirty_region s1) /\
  Dirty.max_row (dirty_region s1) <= Dirty.max_row (dirty_region s) /\
  Dirty.min_col (dirty_region s) <= Dirty.min_col (dirty_region s1) /\
  Dirty.min_col (dirty_region s1) <= x <= Dirty.max_col (dirty_region s1) /\
  Dirty.max_col (dirty_region s1) <= Dirty.max_col (dirty_region s).
Proof.
  intros O HC Br Bc Hy Hx Ry Rx D.
  unfold optimize_dirty_region in O. rewrite HC in O. cbn [negb] in O.
  cbv zeta in O.
  set (d := dirty_region s) in *. set (g := grid s) in *.
  set (end_col := if Dirty.max_col d <? buf_cols g
                  then Dirty.max_col d else buf_cols g - 1) in *.
  assert (Hend : x <= end_col < buf_cols g /\ end_col <= Dirty.max_col d).
  { unfold end_col. destruct (Z.ltb_spec (Dirty.max_col d) (buf_cols g)); lia. }
  (* the first changed row *)
  destruct (find_first (fun y0 => row_has_changes g y0 (Dirty.min_col d) end_col)
              (zrange_incl (Dirty.min_row d)
                 (Z.min (Dirty.max_row d) (buf_rows g - 1))))
    as [top|] eqn:Top; [|discriminate].
  cbn [obind] in O.
  assert (Hmc : 0 <= Dirty.min_col d).
  { destruct top as [t|].
    - apply find_first_hit in Top as [_ T]. unfold row_has_changes in T.
      destruct (_ || _ || _); [discriminate|].
      destruct ((0 <=? t) && (0 <=? Dirty.min_col d)
                && (0 <=? end_col - Dirty.min_col d + 1)) eqn:P;
        [|discriminate].
      apply andb_true_iff in P as [P _]. apply andb_true_iff in P as [_ P].
      now apply Z.leb_le in P.
    - pose proof (find_first_none _ _ Top y) as N.
      assert (In y (zrange_incl (Dirty.min_row d)
                      (Z.min (Dirty.max_row d) (buf_rows g - 1))))
        as Iy by (apply in_zrange_incl; lia).
      specialize (N Iy). unfold row_has_changes in N.
      destruct (_ || _ || _) eqn:G1.
      + apply orb_true_iff in G1 as [G1|G1];
          [apply orb_true_iff in G1 as [G1|G1]|]; apply Z.leb_le in G1; lia.
      + destruct ((0 <=? y) && (0 <=? Dirty.min_col d)
                  && (0 <=? end_col - Dirty.min_col d + 1)) eqn:P;
          [|discriminate].
        apply andb_true_iff in P as [P _]. apply andb_true_iff in P as [_ P].
        now apply Z.leb_le in P. }
  assert (Hrow : row_has_changes g y (Dirty.min_col d) end_col = Some true).
  { apply (row_has_changes_hit g y _ _ x); try assumption; lia. }
  destruct top as [t|].
  2:{ pose proof (find_first_none _ _ Top y) as N.
      rewrite N in Hrow; [discriminate|]. apply in_zrange_incl. lia. }
  assert (Ht : Dirty.min_row d <= t <= y).
  { pose proof (find_first_hit _ _ _ Top) as [It _].
    apply in_zrange_incl in It. split; [lia|].
    unfold zrange_incl in Top.
    apply (find_first_up _ _ _ _ Top); [|exact Hrow]. lia. }
  pose proof (find_first_hit _ _ _ Top) as [_ Tt].
  apply row_has_changes_real in Tt.
  (* the last changed row *)
  destruct (find_first (fun y0 => row_has_changes g y0 (Dirty.min_col d) end_col)
              (rev (zrange_incl (Z.max t 0) (Dirty.max_row d))))
    as [bottom|] eqn:Bot; [|discriminate].
  cbn [obind] in O.
  destruct bottom as [b|].
  2:{ pose proof (find_first_none _ _ Bot y) as N.
      rewrite N in Hrow; [discriminate|].
      rewrite <- in_rev. apply in_zrange_incl. lia. }
  assert (Hb : y <= b <= Dirty.max_row d).
  { pose proof (find_first_hit _ _ _ Bot) as [Ib _].
    rewrite <- in_rev in Ib. apply in_zrange_incl in Ib. split; [|lia].
    unfold zrange_incl in Bot.
    apply (find_first_down _ _ _ _ Bot); [|exact Hrow]. lia. }
  pose proof (find_first_hit _ _ _ Bot) as [_ Tb].
  apply row_has_changes_real in Tb.
  replace ((t =? Dirty.INT_MAX) || (b =? -1)) with false in O.
  2:{ symmetry. rewrite orb_false_iff, !Z.eqb_neq.
      unfold Dirty.INT_MAX in *. fold g in Br. split; lia. }
  (* the first changed column *)
  assert (Hcol : col_has_changes g x t b = Some true).
  { apply (col_has_changes_hit g x t b y); try assumption; lia. }
  destruct (find_first (fun x0 => col_has_changes g x0 t b)
              (zrange_incl (Dirty.min_col d)
                 (Z.min (Dirty.max_col d) (buf_cols g - 1))))
    as [left|] eqn:Lft; [|discriminate].
  cbn [obind] in O.
  destruct left as [l|].
  2:{ pose proof (find_first_none _ _ Lft x) as N.
      rewrite N in Hcol; [discriminate|]. apply in_zrange_incl. lia. }
  assert (Hl : Dirty.min_col d <= l <= x).
  { pose proof (find_first_hit _ _ _ Lft) as [Il _].
    apply in_zrange_incl in Il. split; [lia|].
    unfold zrange_incl in Lft.
    apply (find_first_up _ _ _ _ Lft); [|exact Hcol]. lia. }
  (* the last changed column *)
  destruct (find_first (fun x0 => col_has_changes g x0 t b)
              (rev (zrange_incl (Z.max l 0) (Dirty.max_col d))))
    as [right|] eqn:Rgt; [|discriminate].
  cbn [obind] in O.
  destruct right as [r|].
  2:{ pose proof (find_first_none _ _ Rgt x) as N.
      rewrite N in Hcol; [discriminate|].
      rewrite <- in_rev. apply in_zrange_incl. lia. }
  assert (Hr : x <= r <= Dirty.max_col d).
  { pose proof (find_first_hit _ _ _ Rgt) as [Ir _].
    rewrite <- in_rev in Ir. apply in_zrange_incl in Ir. split; [|lia].
    unfold zrange_incl in Rgt.
    apply (find_first_down _ _ _ _ Rgt); [|exact Hcol]. lia. }
  replace ((l =? Dirty.INT_MAX) || (r =? -1)) with false in O.
  2:{ symmetry. rewrite orb_false_iff, !Z.eqb_neq.
      unfold Dirty.INT_MAX in *. fold g in Bc. split; lia. }
  inversion O; subst s1. cbn.
  fold d. destruct d; cbn in *. repeat split; try lia. exact HC.
Qed.

(** X25.  The tightening of the dirty rectangle before a scan never
    cuts off a change: every cell of the grid inside the rectangle
    whose snapshot differs from the logical grid is inside the
    tightened rectangle, which stays flagged as changed and lies inside
    the original one. *)
Theorem optimize_keeps_changes (s s1 : engine) (y x : Z) :
  optimize_dirty_region s = Some s1 ->
  Dirty.has_changes (dirty_region s) = true ->
  buf_rows (grid s) <= Dirty.INT_MAX -> buf_cols (grid s) <= Dirty.INT_MAX ->
  0 <= y < buf_rows (grid s) -> 0 <= x < buf_cols (grid s) ->
  Dirty.min_row (dirty_region s) <= y <= Dirty.max_row (dirty_region s) ->
  Dirty.min_col (dirty_region s) <= x <= Dirty.max_col (dirty_region s) ->
  differs (grid s) y x = true ->
  Dirty.has_changes (dirty_region s1) = true /\
  Dirty.min_row (dirty_region s) <= Dirty.min_row (dirty_region s1) /\
  Dirty.min_row (dirty_region s1) <= y <= Dirty.max_row (dirty_region s1) /\
  Dirty.max_row (dirty_region s1) <= Dirty.max_row (dirty_region s) /\
  Dirty.min_col (dirty_region s) <= Dirty.min_col (dirty_region s1) /\
  Dirty.min_col (dirty_region s1) <= x <= Dirty.max_col (dirty_region s1) /\
  Dirty.max_col (dirty_region s1) <= Dirty.max_col (dirty_region s).
Proof. apply optimize_region_spec. Qed.

Lemma optimize_keeps_changes_witness :
  match optimize_dirty_region far_apart with
  | Some s1 =>
      Dirty.has_changes (dirty_region s1) = true /\
      Dirty.min_row (dirty_region far_apart) <= Dirty.min_row (dirty_region s1)
      /\ Dirty.min_row (dirty_region s1) <= 20 <= Dirty.max_row (dirty_region s1)
      /\ Dirty.max_row (dirty_region s1) <= Dirty.max_row (dirty_region far_apart)
      /\ Dirty.min_col (dirty_region far_apart) <= Dirty.min_col (dirty_region s1)
      /\ Dirty.min_col (dirty_region s1) <= 70 <= Dirty.max_col (dirty_region s1)
      /\ Dirty.max_col (dirty_region s1) <= Dirty.max_col (dirty_region far_apart)
  | None => False
  end.
Proof.
  destruct (optimize_dirty_region far_apart) as [s1|] eqn:E.
  - apply (optimize_keeps_changes far_apart s1 20 70 E);
      vm_compute; first [reflexivity | split; congruence | congruence].
  - vm_compute in E. discriminate.
Defined.

End RefreshMore.

(** * Printing into the grid *)

Module PrintFacts.
Import Engine EngineFacts Surface.

Lemma store_cell_in g y x ch a :
  in_grid g y x = true ->
  exists g1,
    (g0 <- store_cell g y x ch a ;; invalidate_cell g0 y x) = Some g1 /\
    same_extents g g1 /\
    cell g1 y x = (ch, a, 0, INVALID_ATTR) /\
    forall r c, (r, c) <> (y, x) -> cell g1 r c = cell g r c.
Proof.
  intros I. unfold store_cell. rewrite I. cbn [obind].
  unfold invalidate_cell.
  assert (in_grid
            (with_attr_buf (upd2 (attr_buf g) y x a)
               (with_screen_buf (upd2 (screen_buf g) y x ch) g)) y x = true)
    as -> by exact I.
  eexists. split; [reflexivity|]. split; [now repeat split|].
  unfold cell. cbn. split.
  - now rewrite !upd2_eq.
  - intros r c N. now rewrite !upd2_neq by assumption.
Qed.

Lemma print_bytes_spec text :
  forall g a y x,
    0 <= y < buf_rows g ->
    exists g',
      print_bytes g a y x text
      = Some (g', final_column x (Z.of_nat (length text)) (buf_cols g)) /\
      same_extents g g' /\
      forall r c,
        (written g y x (Z.of_nat (length text)) r c ->
         cell g' r c = (nth (Z.to_nat (c - x)) text 0, a, 0, INVALID_ATTR)) /\
        (~ written g y x (Z.of_nat (length text)) r c ->
         cell g' r c = cell g r c).
Proof.
  induction text as [|c0 tl IH]; intros g a y x Hy.
  - exists g. cbn [print_bytes length Z.of_nat].
    split; [f_equal; f_equal; unfold final_column; lia|].
    split; [now repeat split|].
    intros r c. split; [|reflexivity]. unfold written. lia.
  - cbn [print_bytes].
    destruct (Z.ltb_spec x (buf_cols g)) as [Lt|Ge].
    + assert (Hstep : exists g1,
                 (if 0 <=? x
                  then g0 <- store_cell g y x c0 a ;; invalidate_cell g0 y x
                  else Some g) = Some g1 /\
                 same_extents g g1 /\
                 (0 <= x -> cell g1 y x = (c0, a, 0, INVALID_ATTR)) /\
                 (x < 0 -> g1 = g) /\
                 forall r c, (r, c) <> (y, x) -> cell g1 r c = cell g r c).
      { destruct (Z.leb_spec 0 x) as [Nn|Ng].
        - destruct (store_cell_in g y x c0 a) as (g1 & E & X & C & F).
          { unfold in_grid. rewrite !andb_true_iff, !Z.leb_le, !Z.ltb_lt. lia. }
          exists g1. split; [exact E|]. split; [exact X|].
          split; [auto|]. split; [lia|exact F].
        - exists g. split; [reflexivity|]. split; [now repeat split|].
          split; [lia|]. split; reflexivity. }
      destruct Hstep as (g1 & E1 & (Xa & Xr & Xc) & C1 & G1 & F1).
      rewrite E1. cbn [obind].
      destruct (IH g1 a y (x + 1)) as (g' & E' & (Ya & Yr & Yc) & Cells).
      { rewrite Xr. exact Hy. }
      exists g'. cbn [length]. rewrite Nat2Z.inj_succ. split.
      { rewrite E'. f_equal. f_equal. rewrite Xc. unfold final_column. lia. }
      split; [repeat split; congruence|].
      intros r c. destruct (Cells r c) as [W NW].
      unfold written in *. rewrite Xc in W, NW. split.
      * intros (-> & Hc1 & Hc2).
        destruct (Z.eq_dec c x) as [->|Nx].
        -- rewrite NW by lia. rewrite C1 by lia.
           replace (x - x) with 0 by lia. reflexivity.
        -- assert (P1 : x + 1 <= c < x + 1 + Z.of_nat (length tl)) by lia.
           assert (P2 : 0 <= c < buf_cols g) by lia.
           rewrite (W (conj eq_refl (conj P1 P2))).
           replace (Z.to_nat (c - x)) with (S (Z.to_nat (c - (x + 1)))) by lia.
           reflexivity.
      * intros N. rewrite NW by lia.
        destruct (Z.leb_spec 0 x) as [Nn|Ng]; [|now rewrite G1].
        apply F1. intros Eq. inversion Eq; subst. lia.
    + exists g. cbn [length]. rewrite Nat2Z.inj_succ. split.
      { f_equal. f_equal. unfold final_column. lia. }
      split; [now repeat split|].
      intros r c. split; [|reflexivity]. unfold written. lia.
Qed.

Lemma flag_dirty_row_some win y :
  dirty_rows win = None \/ 0 <= y ->
  exists win', flag_dirty_row win y = Some win' /\
               begy win' = begy win /\ begx win' = begx win /\
               maxy win' = maxy win /\ maxx win' = maxx win /\
               attr win' = attr win /\ bkgd win' = bkgd win.
Proof.
  intros H. unfold flag_dirty_row.
  destruct (dirty_rows win) as [rows|] eqn:D.
  - destruct (y <? maxy win); [|exists win; now repeat split].
    destruct H as [H|H]; [discriminate|].
    replace (0 <=? y) with true by (symmetry; now apply Z.leb_le).
    eexists. split; [reflexivity|]. destruct win; now repeat split.
  - exists win. now repeat split.
Qed.

(** X26.  [tui_print_at] on a terminal without UTF-8 support, with the
    grids allocated, the tile counts within the fixed tile tables when
    the tiles are on, and a window that has no dirty array or a row that
    is not negative.  A row outside the grid is refused with -1 and nothing
    changes.  For a row inside the grid and a start column that is not
    negative the call returns 0; the bytes of the formatted text that
    fall inside the row are stored with the attribute of the window and
    their snapshot is invalidated, no other cell of the four grids
    changes, the window's cursor is left behind the last byte consumed,
    and a text of which something was consumed puts its span inside the
    dirty rectangle. *)
Theorem tui_print_at_bytes (s : engine) (win : tui_window_t) (y x : Z)
  (text : list Z) :
  allocated (grid s) = true -> supports_unicode s = false ->
  (Dirty.use_hierarchical_tiles (dirty_region s) = true ->
   Dirty.tiles_fit (dirty_region s)) ->
  dirty_rows win = None \/ 0 <= y ->
  let g := grid s in
  let n := Z.of_nat (length (formatted text)) in
  let sy := begy win + y in
  let sx := begx win + x in
  (sy < 0 \/ buf_rows g <= sy -> tui_print_at s win y x text = Some (-1, s, win))
  /\ (0 <= sy < buf_rows g -> 0 <= sx ->
      exists s' win',
        tui_print_at s win y x text = Some (0, s', win') /\
        same_extents g (grid s') /\
        (forall r c,
           (written g sy sx n r c ->
            cell (grid s') r c
            = (nth (Z.to_nat (c - sx)) (formatted text) 0, attr win, 0,
               INVALID_ATTR)) /\
           (~ written g sy sx n r c -> cell (grid s') r c = cell g r c)) /\
        cury win' = y /\
        curx win' = final_column sx n (buf_cols g) - begx win /\
        attr win' = attr win /\
        (sx < final_column sx n (buf_cols g) ->
         Dirty.has_changes (dirty_region s') = true /\
         Dirty.min_row (dirty_region s') <= sy <= Dirty.max_row (dirty_region s')
         /\ Dirty.min_col (dirty_region s') <= sx /\
         final_column sx n (buf_cols g) - 1 <= Dirty.max_col (dirty_region s'))).
Proof.
  intros A U Fit Fl. cbv zeta. split.
  - intros H. unfold tui_print_at. rewrite A. cbn [negb].
    replace ((begy win + y <? 0) || (buf_rows (grid s) <=? begy win + y))
      with true; [reflexivity|].
    symmetry. rewrite orb_true_iff, Z.ltb_lt, Z.leb_le. exact H.
  - intros Hy Hx. unfold tui_print_at. rewrite A, U. cbn [negb].
    replace ((begy win + y <? 0) || (buf_rows (grid s) <=? begy win + y))
      with false.
    2:{ symmetry. rewrite orb_false_iff, Z.ltb_ge, Z.leb_gt. lia. }
    destruct (print_bytes_spec (formatted text) (grid s) (attr win)
                (begy win + y) (begx win + x) Hy)
      as (g' & E & X & Cells).
    rewrite E. cbn [obind fst snd].
    set (fc := final_column (begx win + x)
                 (Z.of_nat (length (formatted text))) (buf_cols (grid s))) in *.
    assert (Hd : exists d,
               (if begx win + x <? fc
                then Dirty.mark_dirty_region (dirty_region s) (begy win + y)
                       (begx win + x) (begy win + y) (fc - 1)
                else Some (dirty_region s)) = Some d /\
               (begx win + x < fc ->
                Dirty.has_changes d = true /\
                Dirty.min_row d <= begy win + y <= Dirty.max_row d /\
                Dirty.min_col d <= begx win + x /\
                fc - 1 <= Dirty.max_col d)).
    { destruct (Z.ltb_spec (begx win + x) fc) as [L|G].
      - destruct (DirtyMore.mark_dirty_region_spec (dirty_region s)
                    (begy win + y) (begx win + x) (begy win + y) (fc - 1)
                    Fit ltac:(lia) Hx)
          as (d & Ed & Hc & (R1 & R2 & R3 & R4) & _).
        exists d. split; [exact Ed|]. intros _. repeat split; assumption.
      - exists (dirty_region s). split; [reflexivity|]. lia. }
    destruct Hd as (d & Ed & Hd). rewrite Ed. cbn [obind].
    destruct (flag_dirty_row_some win y Fl) as (w1 & Ew & W1 & W2 & W3 & W4 & W5 & W6).
    rewrite Ew. cbn [obind].
    eexists. eexists. split; [reflexivity|]. cbn.
    split; [exact X|]. split; [exact Cells|].
    split; [reflexivity|]. split; [reflexivity|]. split; [exact W5|].
    exact Hd.
Qed.

Lemma tui_print_at_bytes_witness :
  let s := term_80x24 in
  let win := tui_stdscr term_80x24 in
  let g := grid s in
  let n := Z.of_nat (length (formatted [72; 105])) in
  let sy := begy win + 3 in
  let sx := begx win + 78 in
  (sy < 0 \/ buf_rows g <= sy ->
   tui_print_at s win 3 78 [72; 105] = Some (-1, s, win))
  /\ (0 <= sy < buf_rows g -> 0 <= sx ->
      exists s' win',
        tui_print_at s win 3 78 [72; 105] = Some (0, s', win') /\
        same_extents g (grid s') /\
        (forall r c,
           (written g sy sx n r c ->
            cell (grid s') r c
            = (nth (Z.to_nat (c - sx)) (formatted [72; 105]) 0, attr win, 0,
               INVALID_ATTR)) /\
           (~ written g sy sx n r c -> cell (grid s') r c = cell g r c)) /\
        cury win' = 3 /\
        curx win' = final_column sx n (buf_cols g) - begx win /\
        attr win' = attr win /\
        (sx < final_column sx n (buf_cols g) ->
         Dirty.has_changes (dirty_region s') = true /\
         Dirty.min_row (dirty_region s') <= sy <= Dirty.max_row (dirty_region s')
         /\ Dirty.min_col (dirty_region s') <= sx /\
         final_column sx n (buf_cols g) - 1 <= Dirty.max_col (dirty_region s'))).
Proof.
  apply (tui_print_at_bytes term_80x24 (tui_stdscr term_80x24) 3 78 [72; 105]).
  - vm_compute. reflexivity.
  - vm_compute. reflexivity.
  - intros _. unfold Dirty.tiles_fit. vm_compute. repeat split; discriminate.
  - left. vm_compute. reflexivity.
Defined.

(** X27.  A start column of -8 or less is not handled.  With the grids
    allocated, no UTF-8 support, the tiles active with a tile table
    that has the tile row of the line, a line inside a grid of at least
    one column, and a text that formats to at least one byte, the call
    is undefined: the dirty region it marks starts in a negative tile
    column, before the tile table. *)
Theorem tui_print_at_far_left (s : engine) (win : tui_window_t) (y x : Z)
  (text : list Z) :
  allocated (grid s) = true -> supports_unicode s = false ->
  Dirty.use_hierarchical_tiles (dirty_region s) = true ->
  0 <= Dirty.l1_tiles_x (dirty_region s) ->
  0 <= begy win + y < buf_rows (grid s) ->
  Z.quot (begy win + y) Dirty.TILE_L1_SIZE < Dirty.l1_tiles_y (dirty_region s) ->
  begx win + x <= -8 -> 0 < buf_cols (grid s) ->
  formatted text <> [] ->
  tui_print_at s win y x text = None.
Proof.
  intros A U H Tx Hy Ty Hx Hc Ne. unfold tui_print_at.
  rewrite A, U. cbn [negb].
  replace ((begy win + y <? 0) || (buf_rows (grid s) <=? begy win + y))
    with false.
  2:{ symmetry. rewrite orb_false_iff, Z.ltb_ge, Z.leb_gt. lia. }
  destruct (print_bytes_spec (formatted text) (grid s) (attr win)
              (begy win + y) (begx win + x) Hy) as (g' & E & _).
  rewrite E. cbn [obind fst snd].
  set (fc := final_column (begx win + x)
               (Z.of_nat (length (formatted text))) (buf_cols (grid s))).
  assert (Hfc : begx win + x < fc).
  { unfold fc, final_column. destruct (formatted text); [congruence|].
    cbn [length]. rewrite Nat2Z.inj_succ. lia. }
  replace (begx win + x <? fc) with true by (symmetry; now apply Z.ltb_lt).
  unfold Dirty.mark_dirty_region.
  destruct (DirtyFacts.extend_rect_frame (dirty_region s) (begy win + y)
              (begx win + x) (begy win + y) (fc - 1)) as (C0 & _).
  cbv zeta in C0.
  set (d0 := Dirty.extend_rect (dirty_region s) (begy win + y) (begx win + x)
               (begy win + y) (fc - 1)) in *.
  assert (Uh : Dirty.use_hierarchical_tiles d0
               = Dirty.use_hierarchical_tiles (dirty_region s))
    by (unfold Dirty.conf_of in C0; congruence).
  assert (X1 : Dirty.l1_tiles_x d0 = Dirty.l1_tiles_x (dirty_region s))
    by (unfold Dirty.conf_of in C0; congruence).
  assert (Y1 : Dirty.l1_tiles_y d0 = Dirty.l1_tiles_y (dirty_region s))
    by (unfold Dirty.conf_of in C0; congruence).
  clearbody d0. rewrite Uh, H, Y1, X1.
  assert (Qy : 0 <= Z.quot (begy win + y) Dirty.TILE_L1_SIZE)
    by (apply Z.quot_pos; unfold Dirty.TILE_L1_SIZE; lia).
  assert (Qx : Z.quot (begx win + x) Dirty.TILE_L1_SIZE <= -1).
  { unfold Dirty.TILE_L1_SIZE.
    replace (begx win + x) with (- (- (begx win + x))) by lia.
    rewrite Z.quot_opp_l by lia.
    pose proof (Z.quot_le_lower_bound (- (begx win + x)) 8 1). lia. }
  assert (Qf : Z.quot (begx win + x) Dirty.TILE_L1_SIZE
               <= Z.quot (fc - 1) Dirty.TILE_L1_SIZE).
  { apply Z.quot_le_mono; unfold Dirty.TILE_L1_SIZE; lia. }
  unfold zrange_incl.
  set (qy := Z.quot (begy win + y) Dirty.TILE_L1_SIZE) in *.
  set (qx := Z.quot (begx win + x) Dirty.TILE_L1_SIZE) in *.
  set (qf := Z.quot (fc - 1) Dirty.TILE_L1_SIZE) in *.
  clearbody qy qx qf.
  rewrite (Z.min_l qy) by lia.
  replace (Z.to_nat (qy - qy + 1)) with 1%nat by lia.
  cbn [zrange ofold].
  destruct (Z.to_nat (Z.min qf (Dirty.l1_tiles_x (dirty_region s) - 1)
                      - qx + 1))
    as [|k] eqn:K; [lia|].
  cbn [zrange ofold]. unfold Dirty.mark_l1_tile at 1.
  replace (0 <=? qx) with false by (symmetry; apply Z.leb_gt; lia).
  rewrite !andb_false_r. reflexivity.
Qed.

Lemma tui_print_at_far_left_witness :
  tui_print_at term_80x24 (tui_stdscr term_80x24) 10 (-20) [32] = None.
Proof.
  apply (tui_print_at_far_left term_80x24 (tui_stdscr term_80x24) 10 (-20)
                               [32]);
    vm_compute; first [reflexivity | discriminate | split; congruence].
Defined.

(** ** The UTF-8 path *)

Lemma utf8_ascii_length c : 0 <= c < 0x80 -> utf8_char_length c = 1.
Proof.
  intros H. unfold utf8_char_length.
  now replace (c <? 128) with true by (symmetry; apply Z.ltb_lt; lia).
Qed.

Lemma store_utf8_single g a y x p :
  in_grid g y x = true ->
  store_utf8 g a y x 1 p
  = (g0 <- store_cell g y x (nth 0 p 0) a ;; invalidate_cell g0 y x).
Proof.
  intros I. unfold store_utf8, store_char, store_cell, store_attr.
  rewrite I. cbn [obind Z.eqb Pos.eqb].
  change (in_grid (with_screen_buf (upd2 (screen_buf g) y x (nth 0 p 0)) g) y x)
    with (in_grid g y x).
  rewrite I. cbn [obind].
  assert (Hw : Z.min 1 (buf_cols g - x) = 1).
  { unfold in_grid in I. rewrite !andb_true_iff, !Z.leb_le, !Z.ltb_lt in I.
    lia. }
  rewrite Hw. change (Z.to_nat 1) with 1%nat. cbn [zrange ofold].
  rewrite Z.add_0_r.
  match goal with
  | |- obind ?e _ = ?e' => change e' with e; destruct e; reflexivity
  end.
Qed.

(** X28.  On a text of 7-bit characters the UTF-8 loop of
    [tui_print_at] and the byte loop do the same: they produce the same
    grid and stop at the same column. *)
Theorem print_utf8_ascii (text : list Z) (g : grid_t) (a y x : Z) :
  ascii_text text -> 0 <= y < buf_rows g ->
  print_utf8 (length text) g a y x text = print_bytes g a y x text.
Proof.
  intros T. revert g x. induction T as [|c tl Hc T IH]; intros g x Hy;
    [reflexivity|].
  cbn [length print_utf8 print_bytes].
  destruct (Z.ltb_spec x (buf_cols g)) as [Lt|Ge]; [|reflexivity].
  rewrite (utf8_ascii_length c Hc).
  replace (Z.of_nat (S (length tl)) <? 1) with false
    by (symmetry; apply Z.ltb_ge; lia).
  cbn [Z.ltb Z.compare Pos.compare andb].
  cbn [Z.to_nat Pos.to_nat Pos.iter_op Nat.add skipn].
  unfold utf8_display_width.
  destruct (Z.leb_spec 0 x) as [Nn|Ng].
  - rewrite store_utf8_single.
    2:{ unfold in_grid. rewrite !andb_true_iff, !Z.leb_le, !Z.ltb_lt. lia. }
    cbn [nth].
    destruct (store_cell_in g y x c a) as (g1 & E & (_ & Xr & _) & _).
    { unfold in_grid. rewrite !andb_true_iff, !Z.leb_le, !Z.ltb_lt. lia. }
    rewrite E. cbn [obind]. apply IH. now rewrite Xr.
  - cbn [obind]. now apply IH.
Qed.

Lemma print_utf8_ascii_witness :
  print_utf8 (length [72; 105; 33]) (grid term_80x24) 0 2 77 [72; 105; 33]
  = print_bytes (grid term_80x24) 0 2 77 [72; 105; 33].
Proof.
  apply (print_utf8_ascii [72; 105; 33] (grid term_80x24) 0 2 77).
  - unfold ascii_text. repeat constructor; lia.
  - vm_compute. split; [discriminate|reflexivity].
Defined.

End PrintFacts.

(** * The tracker through a session *)

Module TrackerFacts.
Import Dirty DirtyPool DirtyFacts DirtyMore Session.

(** ** Readiness depends on the view only *)

Lemma tracker_ready_ext d d' n :
  tracker_view d' = tracker_view d -> tracker_ready d n -> tracker_ready d' n.
Proof.
  unfold tracker_view, tracker_ready, tiles_fit, bitmap_listed,
    l2_bitmap_listed, pool_acct, l1_sparse_of, l2_sparse_of, pool_of,
    check_l1_tile_bitmap, check_l2_block_bitmap.
  intros V. injection V as V1 V2 V3 V4 V5 V6 V7 V8 V9 V10 V11 V12.
  rewrite V1, V2, V3, V4, V5, V6, V7, V8, V9, V10, V11, V12. trivial.
Qed.

Lemma tracker_ready_le d n m :
  m <= n -> tracker_ready d n -> tracker_ready d m.
Proof.
  unfold tracker_ready. intros L (A & B & C & D & E & F & G).
  split; [exact A|]. split; [exact B|]. split; [exact C|].
  split; [exact D|]. split; [exact E|]. split; [exact F|lia].
Qed.

Lemma tiles_cover_ext d d' g g' :
  tracker_view d' = tracker_view d ->
  Engine.buf_rows g' = Engine.buf_rows g ->
  Engine.buf_cols g' = Engine.buf_cols g ->
  tiles_cover d g -> tiles_cover d' g'.
Proof.
  unfold tracker_view, tiles_cover.
  intros V R C. injection V as _ _ V3 V4 V5 V6 _ _ _ _ _ _.
  rewrite V3, V4, V5, V6, R, C. trivial.
Qed.

Lemma view_of_frames d d' :
  conf_of d' = conf_of d -> pool_of d' = pool_of d ->
  l1_sparse_of d' = l1_sparse_of d -> l2_sparse_of d' = l2_sparse_of d ->
  tracker_view d' = tracker_view d.
Proof.
  unfold tracker_view, conf_of. intros C P L1 L2.
  injection C as C1 C2 C3 C4 C5 C6 _ _ _.
  now rewrite C1, C2, C3, C4, C5, C6, P, L1, L2.
Qed.

Lemma view_extend_rect d r1 c1 r2 c2 :
  tracker_view (extend_rect d r1 c1 r2 c2) = tracker_view d.
Proof.
  destruct (extend_rect_frame d r1 c1 r2 c2) as (C & P & L1 & L2 & _).
  now apply view_of_frames.
Qed.

Lemma view_with_l1_tiles f d :
  tracker_view (with_l1_tiles f d) = tracker_view d.
Proof. now destruct d. Qed.

Lemma view_with_l2_blocks f d :
  tracker_view (with_l2_blocks f d) = tracker_view d.
Proof. now destruct d. Qed.

(** ** The L2 bitmap *)

Lemma l2_index_inj br bc br' bc' :
  in_l2 br bc -> in_l2 br' bc' ->
  br * MAX_L2_BLOCKS_X + bc = br' * MAX_L2_BLOCKS_X + bc' ->
  br = br' /\ bc = bc'.
Proof. unfold in_l2, MAX_L2_BLOCKS_X, MAX_L2_BLOCKS_Y. lia. Qed.

Lemma check_l2_after_set_other d br bc br' bc' :
  in_l2 br bc -> in_l2 br' bc' -> (br', bc') <> (br, bc) ->
  check_l2_block_bitmap (set_l2_block_bitmap d br bc) br' bc'
  = check_l2_block_bitmap d br' bc'.
Proof.
  intros H H' N. unfold check_l2_block_bitmap, set_l2_block_bitmap.
  rewrite (l2_guard _ _ H), (l2_guard _ _ H'). destruct d; cbn.
  apply bitmap_test_set_other.
  - unfold in_l2, MAX_L2_BLOCKS_X in *. lia.
  - unfold in_l2, MAX_L2_BLOCKS_X in *. lia.
  - intros E. apply N. apply l2_index_inj in E; try assumption.
    destruct E; congruence.
Qed.

(** ** One insertion *)

Lemma pool_ok_free d :
  pool_acct d -> 0 < free_nodes d -> pool_ok d = true.
Proof.
  intros [A B] F. apply pool_ok_available. split; [exact F|].
  unfold DIRTY_TILE_POOL_SIZE in *. lia.
Qed.

(** The insertion of a fine tile with a node to spare: the tile is on
    the list afterwards, at the cost of one node at most. *)
Lemma add_sparse_l1_ready d tr tc n :
  in_l1 tr tc -> 0 <= n -> use_hierarchical_tiles d = true ->
  tracker_ready d (n + 1) ->
  let d' := add_sparse_l1_tile d tr tc in
  tracker_ready d' n /\ lists_grow d d' /\ In (tr, tc) (dirty_l1_tiles d').
Proof.
  intros H Hn Uh (Us & Fit & Off & B1 & B2 & Acct & Free). cbv zeta.
  destruct (add_sparse_l1_frame d tr tc) as (R & C & L2 & _ & _).
  cbv zeta in *.
  assert (P : pool_ok d = true) by (apply pool_ok_free; [exact Acct|lia]).
  unfold add_sparse_l1_tile in *.
  destruct (check_l1_tile_bitmap d tr tc) eqn:Ck.
  - split; [|split].
    + apply (tracker_ready_le d (n + 1)); [lia|].
      unfold tracker_ready. tauto.
    + repeat split; auto using incl_refl.
    + destruct H. now apply B1.
  - unfold alloc_dirty_tile in *. unfold pool_ok in P.
    apply negb_true_iff in P. rewrite P in *.
    set (d1 := with_dirty_l1_tiles _ _) in *.
    assert (E1 : dirty_l1_tiles (set_l1_tile_bitmap d1 tr tc)
                 = (tr, tc) :: dirty_l1_tiles d).
    { unfold set_l1_tile_bitmap. rewrite (l1_guard _ _ H).
      unfold d1. destruct d; cbn.
      unfold in_l1, MAX_L1_TILES_X, MAX_L1_TILES_Y in H.
      rewrite !u16_small by lia. reflexivity. }
    assert (E2 : dirty_l2_blocks (set_l1_tile_bitmap d1 tr tc)
                 = dirty_l2_blocks d).
    { unfold l2_sparse_of in L2. congruence. }
    assert (E3 : free_nodes (set_l1_tile_bitmap d1 tr tc) = free_nodes d - 1
                 /\ dirty_tile_pool_used (set_l1_tile_bitmap d1 tr tc)
                    = dirty_tile_pool_used d + 1).
    { unfold set_l1_tile_bitmap. rewrite (l1_guard _ _ H).
      unfold d1. destruct d; cbn. split; reflexivity. }
    destruct E3 as [E3 E4].
    assert (Cf : use_sparse_tracking (set_l1_tile_bitmap d1 tr tc)
                 = use_sparse_tracking d /\
                 use_hierarchical_tiles (set_l1_tile_bitmap d1 tr tc)
                 = use_hierarchical_tiles d /\
                 (tiles_fit d -> tiles_fit (set_l1_tile_bitmap d1 tr tc))).
    { unfold conf_of in C. injection C as C1 C2 C3 C4 C5 C6 _ _ _.
      unfold tiles_fit. rewrite C1, C2, C3, C4. auto. }
    destruct Cf as (Cs & Ch & Cfit).
    split; [|split].
    + unfold tracker_ready. rewrite Cs, Ch, E1, E3.
      split; [exact Us|]. split; [auto|].
      split; [congruence|].
      split.
      { pose proof (add_sparse_l1_bitmap_listed d tr tc H B1) as K.
        unfold add_sparse_l1_tile, alloc_dirty_tile in K.
        rewrite Ck, P in K. exact K. }
      split.
      { intros br bc Hb Kb. rewrite E2.
        apply B2; [exact Hb|].
        rewrite <- Kb. apply check_l2_ext.
        unfold l2_sparse_of in L2. congruence. }
      split; [|lia].
      destruct Acct as [A1 A2]. unfold pool_acct.
      rewrite E1, E2, E3, E4. cbn [length]. rewrite Nat2Z.inj_succ.
      split; lia.
    + unfold lists_grow. rewrite E1, E2.
      repeat split; auto using incl_refl, incl_tl.
    + rewrite E1. now left.
Qed.

Lemma add_sparse_l2_ready d br bc n :
  in_l2 br bc -> 0 <= n -> tracker_ready d (n + 1) ->
  let d' := add_sparse_l2_block d br bc in
  tracker_ready d' n /\ lists_grow d d' /\ In (br, bc) (dirty_l2_blocks d').
Proof.
  intros H Hn (Us & Fit & Off & B1 & B2 & Acct & Free). cbv zeta.
  destruct (add_sparse_l2_frame d br bc) as (R & C & L1 & _ & _).
  cbv zeta in *.
  assert (P : pool_ok d = true) by (apply pool_ok_free; [exact Acct|lia]).
  unfold add_sparse_l2_block in *.
  destruct (check_l2_block_bitmap d br bc) eqn:Ck.
  - split; [|split].
    + apply (tracker_ready_le d (n + 1)); [lia|].
      unfold tracker_ready. tauto.
    + repeat split; auto using incl_refl.
    + now apply B2.
  - unfold alloc_dirty_tile in *. unfold pool_ok in P.
    apply negb_true_iff in P. rewrite P in *.
    set (d1 := with_dirty_l2_blocks _ _) in *.
    assert (E1 : dirty_l2_blocks (set_l2_block_bitmap d1 br bc)
                 = (br, bc) :: dirty_l2_blocks d).
    { unfold set_l2_block_bitmap. rewrite (l2_guard _ _ H).
      unfold d1. destruct d; cbn.
      unfold in_l2, MAX_L2_BLOCKS_X, MAX_L2_BLOCKS_Y in H.
      rewrite !u16_small by lia. reflexivity. }
    assert (E2 : dirty_l1_tiles (set_l2_block_bitmap d1 br bc)
                 = dirty_l1_tiles d).
    { unfold l1_sparse_of in L1. congruence. }
    assert (E3 : free_nodes (set_l2_block_bitmap d1 br bc) = free_nodes d - 1
                 /\ dirty_tile_pool_used (set_l2_block_bitmap d1 br bc)
                    = dirty_tile_pool_used d + 1).
    { unfold set_l2_block_bitmap. rewrite (l2_guard _ _ H).
      unfold d1. destruct d; cbn. split; reflexivity. }
    destruct E3 as [E3 E4].
    assert (Cf : use_sparse_tracking (set_l2_block_bitmap d1 br bc)
                 = use_sparse_tracking d /\
                 use_hierarchical_tiles (set_l2_block_bitmap d1 br bc)
                 = use_hierarchical_tiles d /\
                 (tiles_fit d -> tiles_fit (set_l2_block_bitmap d1 br bc))).
    { unfold conf_of in C. injection C as C1 C2 C3 C4 C5 C6 _ _ _.
      unfold tiles_fit. rewrite C1, C2, C3, C4. auto. }
    destruct Cf as (Cs & Ch & Cfit).
    split; [|split].
    + unfold tracker_ready. rewrite Cs, Ch, E2, E3.
      split; [exact Us|]. split; [auto|].
      split; [exact Off|].
      split.
      { intros tr tc Hr Hc Kb. rewrite E2.
        apply B1; [exact Hr|exact Hc|].
        rewrite <- Kb. apply check_l1_ext.
        unfold l1_sparse_of in L1. congruence. }
      split.
      { intros br' bc' Hb Kb. rewrite E1.
        destruct (Z.eq_dec br' br) as [->|Nr].
        - destruct (Z.eq_dec bc' bc) as [->|Nc]; [now left|].
          right. apply B2; [exact Hb|].
          rewrite <- Kb. symmetry.
          transitivity (check_l2_block_bitmap d1 br bc').
          + apply check_l2_after_set_other; [exact H|exact Hb|congruence].
          + apply check_l2_ext. unfold d1. now destruct d.
        - right. apply B2; [exact Hb|].
          rewrite <- Kb. symmetry.
          transitivity (check_l2_block_bitmap d1 br' bc').
          + apply check_l2_after_set_other; [exact H|exact Hb|congruence].
          + apply check_l2_ext. unfold d1. now destruct d. }
      split; [|lia].
      destruct Acct as [A1 A2]. unfold pool_acct.
      rewrite E1, E2, E3, E4. cbn [length]. rewrite Nat2Z.inj_succ.
      split; lia.
    + unfold lists_grow. rewrite E1, E2.
      repeat split; auto using incl_refl, incl_tl.
    + rewrite E1. now left.
Qed.

(** ** One tile *)

Lemma lists_grow_refl d : lists_grow d d.
Proof. unfold lists_grow. auto using incl_refl. Qed.

Lemma lists_grow_trans d1 d2 d3 :
  lists_grow d1 d2 -> lists_grow d2 d3 -> lists_grow d1 d3.
Proof.
  intros (C1 & R1 & A1 & B1) (C2 & R2 & A2 & B2). unfold lists_grow.
  split; [congruence|]. split; [congruence|].
  split; eapply incl_tran; eassumption.
Qed.

Lemma lists_grow_frames d d' :
  conf_of d' = conf_of d -> rect_of d' = rect_of d ->
  l1_sparse_of d' = l1_sparse_of d -> l2_sparse_of d' = l2_sparse_of d ->
  lists_grow d d'.
Proof.
  unfold lists_grow, l1_sparse_of, l2_sparse_of. intros C R L1 L2.
  injection L1 as L1 _. injection L2 as L2 _. rewrite L1, L2.
  auto using incl_refl.
Qed.

Lemma lists_grow_hier d d' :
  lists_grow d d' -> use_hierarchical_tiles d' = use_hierarchical_tiles d.
Proof. intros (C & _). unfold conf_of in C. congruence. Qed.

Lemma mark_l1_tile_ready d tr tc n :
  in_l1 tr tc -> 0 <= n -> use_hierarchical_tiles d = true ->
  tracker_ready d (n + 1) ->
  exists d', mark_l1_tile d tr tc = Some d' /\ tracker_ready d' n /\
             lists_grow d d' /\ In (tr, tc) (dirty_l1_tiles d').
Proof.
  intros H Hn Uh T. rewrite (mark_l1_tile_some d tr tc H).
  pose proof T as (Us & _). rewrite Us.
  destruct (with_l1_tiles_frame (upd2 (l1_tiles d) tr tc true) d)
    as (R0 & C0 & P0 & S1 & S2 & _). cbv zeta in *.
  set (d0 := with_l1_tiles (upd2 (l1_tiles d) tr tc true) d) in *.
  assert (T0 : tracker_ready d0 (n + 1)).
  { apply (tracker_ready_ext d); [apply view_with_l1_tiles|exact T]. }
  assert (Uh0 : use_hierarchical_tiles d0 = true)
    by (unfold conf_of in C0; congruence).
  destruct (add_sparse_l1_ready d0 tr tc n H Hn Uh0 T0) as (T1 & G & I).
  eexists. split; [reflexivity|]. split; [exact T1|]. split; [|exact I].
  apply (lists_grow_trans d d0); [|exact G].
  now apply lists_grow_frames.
Qed.

Lemma mark_l2_block_ready d br bc n :
  in_l2 br bc -> 0 <= n -> tracker_ready d (n + 1) ->
  exists d', mark_l2_block d br bc = Some d' /\ tracker_ready d' n /\
             lists_grow d d' /\ In (br, bc) (dirty_l2_blocks d').
Proof.
  intros H Hn T. rewrite (mark_l2_block_some d br bc H).
  pose proof T as (Us & _). rewrite Us.
  destruct (with_l2_blocks_frame (upd2 (l2_blocks d) br bc true) d)
    as (R0 & C0 & P0 & S1 & S2 & _). cbv zeta in *.
  set (d0 := with_l2_blocks (upd2 (l2_blocks d) br bc true) d) in *.
  assert (T0 : tracker_ready d0 (n + 1)).
  { apply (tracker_ready_ext d); [apply view_with_l2_blocks|exact T]. }
  destruct (add_sparse_l2_ready d0 br bc n H Hn T0) as (T1 & G & I).
  eexists. split; [reflexivity|]. split; [exact T1|]. split; [|exact I].
  apply (lists_grow_trans d d0); [|exact G].
  now apply lists_grow_frames.
Qed.

(** ** Loops that spend a budget *)

(** A loop whose steps each spend at most [c] units of a budget the
    invariant [I] keeps track of. *)
Lemma ofold_spend {S A} (I : Z -> S -> Prop) (M : S -> S -> Prop)
  (Q : A -> S -> Prop) (f : S -> A -> option S) (l : list A) (c : Z) :
  (forall s, M s s) ->
  (forall s1 s2 s3, M s1 s2 -> M s2 s3 -> M s1 s3) ->
  (forall a s s', M s s' -> Q a s -> Q a s') ->
  0 <= c ->
  (forall s a k, In a l -> 0 <= k -> I (k + c) s ->
                 exists s', f s a = Some s' /\ I k s' /\ M s s' /\ Q a s') ->
  forall k s0, 0 <= k -> I (k + c * Z.of_nat (length l)) s0 ->
  exists s', ofold f l s0 = Some s' /\ I k s' /\ M s0 s' /\
             forall a, In a l -> Q a s'.
Proof.
  intros Mr Mt Mq Hc. induction l as [|a tl IH]; intros Hf k s0 Hk H0.
  - cbn [length] in H0. replace (k + c * Z.of_nat 0) with k in H0 by lia.
    exists s0. split; [reflexivity|]. split; [exact H0|].
    split; [apply Mr|]. intros a [].
  - cbn [length] in H0. rewrite Nat2Z.inj_succ in H0.
    replace (k + c * Z.succ (Z.of_nat (length tl)))
      with ((k + c * Z.of_nat (length tl)) + c) in H0 by lia.
    assert (K : 0 <= k + c * Z.of_nat (length tl)).
    { apply Z.add_nonneg_nonneg; [exact Hk|].
      apply Z.mul_nonneg_nonneg; lia. }
    destruct (Hf s0 a _ (or_introl eq_refl) K H0) as (s1 & E & I1 & M1 & Q1).
    destruct (IH (fun s b k' Hb => Hf s b k' (or_intror Hb)) k s1 Hk I1)
      as (s' & E' & I' & M' & Q').
    exists s'. simpl. rewrite E. cbn [obind].
    split; [exact E'|]. split; [exact I'|].
    split; [now apply (Mt s0 s1 s')|].
    intros b [Eb|Hb]; [subst b; now apply (Mq a s1 s')|now apply Q'].
Qed.

Lemma zrange_length lo n : length (zrange lo n) = n.
Proof.
  revert lo. induction n as [|n IH]; intros lo; simpl; [reflexivity|].
  now rewrite IH.
Qed.

Lemma zrange_incl_length lo hi :
  Z.of_nat (length (zrange_incl lo hi)) = Z.max 0 (hi - lo + 1).
Proof. unfold zrange_incl. rewrite zrange_length. lia. Qed.

(** The tile loop of [mark_dirty_region] over [rows] and [cols] lists
    every tile it visits, at the cost of one node each at most. *)
Lemma mark_l1_rows_ready d rows cols k :
  (forall tr tc, In tr rows -> In tc cols -> in_l1 tr tc) ->
  use_hierarchical_tiles d = true -> 0 <= k ->
  tracker_ready d
    (k + Z.of_nat (length cols) * Z.of_nat (length rows)) ->
  exists d',
    ofold (fun d tr => ofold (fun d tc => mark_l1_tile d tr tc) cols d) rows d
    = Some d' /\
    tracker_ready d' k /\ lists_grow d d' /\
    forall tr, In tr rows -> forall tc, In tc cols ->
      In (tr, tc) (dirty_l1_tiles d').
Proof.
  intros Hin Uh Hk T.
  destruct (ofold_spend
              (fun k s => tracker_ready s k /\ use_hierarchical_tiles s = true)
              lists_grow
              (fun tr s => forall tc, In tc cols -> In (tr, tc) (dirty_l1_tiles s))
              (fun d tr => ofold (fun d tc => mark_l1_tile d tr tc) cols d)
              rows (Z.of_nat (length cols)))
    with (k := k) (s0 := d) as (d' & E & [T' _] & G & Q).
  - apply lists_grow_refl.
  - apply lists_grow_trans.
  - intros tr s s' (_ & _ & I1 & _) Q tc Hc. apply I1. now apply Q.
  - lia.
  - intros s tr k0 Hr Hk0 [T0 U0].
    destruct (ofold_spend
                (fun k s => tracker_ready s k
                            /\ use_hierarchical_tiles s = true)
                lists_grow
                (fun tc s => In (tr, tc) (dirty_l1_tiles s))
                (fun d tc => mark_l1_tile d tr tc)
                cols 1)
      with (k := k0) (s0 := s) as (s' & E & I' & G & Q).
    + apply lists_grow_refl.
    + apply lists_grow_trans.
    + intros tc s1 s2 (_ & _ & I1 & _) Q. now apply I1.
    + lia.
    + intros s1 tc k1 Hc Hk1 [T1 U1].
      destruct (mark_l1_tile_ready s1 tr tc k1 (Hin tr tc Hr Hc) Hk1 U1 T1)
        as (s2 & E2 & T2 & G2 & I2).
      exists s2. split; [exact E2|]. split; [|split; assumption].
      split; [exact T2|]. rewrite (lists_grow_hier _ _ G2). exact U1.
    + exact Hk0.
    + split; [|exact U0]. rewrite Z.mul_1_l. exact T0.
    + exists s'. split; [exact E|]. split; [exact I'|].
      split; [exact G|exact Q].
  - exact Hk.
  - split; [exact T|exact Uh].
  - exists d'. split; [exact E|]. split; [exact T'|]. split; [exact G|exact Q].
Qed.

Lemma mark_l2_rows_ready d rows cols k :
  (forall br bc, In br rows -> In bc cols -> in_l2 br bc) ->
  0 <= k ->
  tracker_ready d
    (k + Z.of_nat (length cols) * Z.of_nat (length rows)) ->
  exists d',
    ofold (fun d br => ofold (fun d bc => mark_l2_block d br bc) cols d) rows d
    = Some d' /\
    tracker_ready d' k /\ lists_grow d d' /\
    forall br, In br rows -> forall bc, In bc cols ->
      In (br, bc) (dirty_l2_blocks d').
Proof.
  intros Hin Hk T.
  destruct (ofold_spend
              (fun k s => tracker_ready s k)
              lists_grow
              (fun br s => forall bc, In bc cols ->
                                      In (br, bc) (dirty_l2_blocks s))
              (fun d br => ofold (fun d bc => mark_l2_block d br bc) cols d)
              rows (Z.of_nat (length cols)))
    with (k := k) (s0 := d) as (d' & E & T' & G & Q).
  - apply lists_grow_refl.
  - apply lists_grow_trans.
  - intros br s s' (_ & _ & _ & I2) Q bc Hc. apply I2. now apply Q.
  - lia.
  - intros s br k0 Hr Hk0 T0.
    destruct (ofold_spend
                (fun k s => tracker_ready s k)
                lists_grow
                (fun bc s => In (br, bc) (dirty_l2_blocks s))
                (fun d bc => mark_l2_block d br bc)
                cols 1)
      with (k := k0) (s0 := s) as (s' & E & I' & G & Q).
    + apply lists_grow_refl.
    + apply lists_grow_trans.
    + intros bc s1 s2 (_ & _ & _ & I2) Q. now apply I2.
    + lia.
    + intros s1 bc k1 Hc Hk1 T1.
      destruct (mark_l2_block_ready s1 br bc k1 (Hin br bc Hr Hc) Hk1 T1)
        as (s2 & E2 & T2 & G2 & I2).
      exists s2. split; [exact E2|]. split; [exact T2|]. split; assumption.
    + exact Hk0.
    + rewrite Z.mul_1_l. exact T0.
    + exists s'. split; [exact E|]. split; [exact I'|].
      split; [exact G|exact Q].
  - exact Hk.
  - exact T.
  - exists d'. split; [exact E|]. split; [exact T'|]. split; [exact G|exact Q].
Qed.

(** ** A region of one row *)

Lemma mark_row_flat d r c1 c2 :
  use_hierarchical_tiles d = false ->
  mark_dirty_region d r c1 r c2 = Some (extend_rect d r c1 r c2).
Proof.
  intros U. unfold mark_dirty_region.
  destruct (extend_rect_frame d r c1 r c2) as (C & _).
  replace (use_hierarchical_tiles (extend_rect d r c1 r c2)) with false;
    [reflexivity|].
  unfold conf_of in C. congruence.
Qed.

(** Marking a span of one row on a ready tracker with the tiles on: at
    most [PRINT_NODES] nodes are spent, and the tile and the block of
    every cell of the span that the tile counts reach are listed. *)
Lemma mark_row_ready d r c1 c2 n :
  use_hierarchical_tiles d = true -> tracker_ready d n -> PRINT_NODES <= n ->
  0 <= r -> 0 <= c1 ->
  exists d',
    mark_dirty_region d r c1 r c2 = Some d' /\
    tracker_ready d' (n - PRINT_NODES) /\
    conf_of d' = conf_of d /\
    forall c, c1 <= c <= c2 ->
      (Z.quot r TILE_L1_SIZE < l1_tiles_y d ->
       Z.quot c TILE_L1_SIZE < l1_tiles_x d ->
       In (Z.quot r TILE_L1_SIZE, Z.quot c TILE_L1_SIZE) (dirty_l1_tiles d')) /\
      (Z.quot r TILE_L2_SIZE < l2_blocks_y d ->
       Z.quot c TILE_L2_SIZE < l2_blocks_x d ->
       In (Z.quot r TILE_L2_SIZE, Z.quot c TILE_L2_SIZE) (dirty_l2_blocks d')).
Proof.
  intros U T Hn Hr Hc. unfold mark_dirty_region.
  destruct (extend_rect_frame d r c1 r c2) as (C0 & _).
  pose proof (view_extend_rect d r c1 r c2) as V0.
  cbv zeta in *.
  set (d0 := extend_rect d r c1 r c2) in *.
  assert (Uh : use_hierarchical_tiles d0 = use_hierarchical_tiles d)
    by (unfold conf_of in C0; congruence).
  assert (X1 : l1_tiles_x d0 = l1_tiles_x d)
    by (unfold conf_of in C0; congruence).
  assert (Y1 : l1_tiles_y d0 = l1_tiles_y d)
    by (unfold conf_of in C0; congruence).
  assert (X2 : l2_blocks_x d0 = l2_blocks_x d)
    by (unfold conf_of in C0; congruence).
  assert (Y2 : l2_blocks_y d0 = l2_blocks_y d)
    by (unfold conf_of in C0; congruence).
  assert (T0 : tracker_ready d0 n) by now apply (tracker_ready_ext d).
  rewrite Uh, U, X1, Y1, X2, Y2.
  destruct T as (_ & Fit & _). destruct (Fit U) as (F1 & F2 & F3 & F4).
  pose proof (quot_nonneg r TILE_L1_SIZE Hr ltac:(unfold TILE_L1_SIZE; lia))
    as Q1.
  pose proof (quot_nonneg c1 TILE_L1_SIZE Hc ltac:(unfold TILE_L1_SIZE; lia))
    as Q2.
  pose proof (quot_nonneg r TILE_L2_SIZE Hr ltac:(unfold TILE_L2_SIZE; lia))
    as Q3.
  pose proof (quot_nonneg c1 TILE_L2_SIZE Hc ltac:(unfold TILE_L2_SIZE; lia))
    as Q4.
  unfold PRINT_NODES in *.
  set (rows1 := zrange_incl (Z.quot r TILE_L1_SIZE)
                  (Z.min (Z.quot r TILE_L1_SIZE) (l1_tiles_y d - 1))).
  set (cols1 := zrange_incl (Z.quot c1 TILE_L1_SIZE)
                  (Z.min (Z.quot c2 TILE_L1_SIZE) (l1_tiles_x d - 1))).
  set (rows2 := zrange_incl (Z.quot r TILE_L2_SIZE)
                  (Z.min (Z.quot r TILE_L2_SIZE) (l2_blocks_y d - 1))).
  set (cols2 := zrange_incl (Z.quot c1 TILE_L2_SIZE)
                  (Z.min (Z.quot c2 TILE_L2_SIZE) (l2_blocks_x d - 1))).
  assert (N1 : Z.of_nat (length cols1) * Z.of_nat (length rows1)
               <= MAX_L1_TILES_X).
  { unfold rows1, cols1. rewrite !zrange_incl_length.
    unfold MAX_L1_TILES_X in *.
    match goal with
    | |- Z.max 0 ?u * Z.max 0 ?v <= _ =>
        assert (0 <= Z.max 0 u <= 128) by lia;
        assert (0 <= Z.max 0 v <= 1) by lia;
        generalize dependent (Z.max 0 u); generalize dependent (Z.max 0 v)
    end.
    intros; nia. }
  assert (N2 : Z.of_nat (length cols2) * Z.of_nat (length rows2)
               <= MAX_L2_BLOCKS_X).
  { unfold rows2, cols2. rewrite !zrange_incl_length.
    unfold MAX_L2_BLOCKS_X in *.
    match goal with
    | |- Z.max 0 ?u * Z.max 0 ?v <= _ =>
        assert (0 <= Z.max 0 u <= 32) by lia;
        assert (0 <= Z.max 0 v <= 1) by lia;
        generalize dependent (Z.max 0 u); generalize dependent (Z.max 0 v)
    end.
    intros; nia. }
  destruct (mark_l1_rows_ready d0 rows1 cols1 (n - MAX_L1_TILES_X))
    as (d1 & E1 & T1 & G1 & S1).
  { intros tr tc Ir Ic. apply zrange_incl_bounds in Ir, Ic.
    unfold in_l1. clear - F1 F2 Q1 Q2 Ir Ic. lia. }
  { congruence. }
  { unfold MAX_L1_TILES_X, MAX_L2_BLOCKS_X in *. lia. }
  { apply (tracker_ready_le d0 n); [lia|exact T0]. }
  rewrite E1. cbn [obind].
  destruct (mark_l2_rows_ready d1 rows2 cols2
              (n - (MAX_L1_TILES_X + MAX_L2_BLOCKS_X)))
    as (d2 & E2 & T2 & G2 & S2).
  { intros br bc Ir Ic. apply zrange_incl_bounds in Ir, Ic.
    unfold in_l2. clear - F3 F4 Q3 Q4 Ir Ic. lia. }
  { unfold MAX_L1_TILES_X, MAX_L2_BLOCKS_X in *. lia. }
  { apply (tracker_ready_le d1 (n - MAX_L1_TILES_X)); [lia|exact T1]. }
  rewrite E2. exists d2. split; [reflexivity|]. split; [exact T2|].
  split.
  { destruct G1 as (G1 & _). destruct G2 as (G2 & _). congruence. }
  intros c Hcc. split; intros Ly Lx.
  - destruct G2 as (_ & _ & G2 & _). apply G2. apply S1;
      apply zrange_incl_bounds;
      (split; [|apply Z.min_glb; [|lia]]);
      apply quot_mono; unfold TILE_L1_SIZE; lia.
  - apply S2; apply zrange_incl_bounds;
      (split; [|apply Z.min_glb; [|lia]]);
      apply quot_mono; unfold TILE_L2_SIZE; lia.
Qed.

(** ** Initialisation and reset *)

Lemma check_l2_zero d br bc :
  l2_block_bitmap d = (fun _ => 0) -> check_l2_block_bitmap d br bc = false.
Proof.
  intros E. unfold check_l2_block_bitmap. rewrite E.
  destruct (_ || _); [reflexivity|apply bitmap_test_zero].
Qed.

Lemma tracker_ready_init cols rows :
  tracker_ready (init_dirty cols rows) DIRTY_TILE_POOL_SIZE.
Proof.
  destruct (wf_init cols rows) as [F L].
  pose proof (pool_acct_init cols rows) as K.
  unfold tracker_ready.
  split.
  { unfold init_dirty, init_sparse_dirty_tracking. reflexivity. }
  split; [exact F|].
  split.
  { intros _. unfold init_dirty, init_sparse_dirty_tracking. reflexivity. }
  split; [exact L|].
  split.
  { intros br bc _ B. rewrite check_l2_zero in B; [discriminate|].
    unfold init_dirty, init_sparse_dirty_tracking,
      init_hierarchical_dirty_tracking.
    destruct (_ && _); reflexivity. }
  split; [exact K|].
  unfold init_dirty, init_sparse_dirty_tracking. cbn. lia.
Qed.

Lemma cover_ceil n k : 0 <= n -> 0 < k -> n <= k * Z.quot (n + k - 1) k.
Proof.
  intros Hn Hk. rewrite Z.quot_div_nonneg by lia.
  pose proof (Z.div_mod (n + k - 1) k ltac:(lia)) as D.
  pose proof (Z.mod_pos_bound (n + k - 1) k Hk) as B. lia.
Qed.

Lemma init_dirty_counts cols rows :
  l1_tiles_x (init_dirty cols rows)
  = Z.quot (cols + TILE_L1_SIZE - 1) TILE_L1_SIZE /\
  l1_tiles_y (init_dirty cols rows)
  = Z.quot (rows + TILE_L1_SIZE - 1) TILE_L1_SIZE /\
  l2_blocks_x (init_dirty cols rows)
  = Z.quot (cols + TILE_L2_SIZE - 1) TILE_L2_SIZE /\
  l2_blocks_y (init_dirty cols rows)
  = Z.quot (rows + TILE_L2_SIZE - 1) TILE_L2_SIZE.
Proof.
  unfold init_dirty, init_sparse_dirty_tracking,
    init_hierarchical_dirty_tracking.
  destruct (_ && _); cbn; repeat split; reflexivity.
Qed.

(** The reset that ends a refresh gives the whole pool back. *)
Lemma tracker_ready_reset d n :
  tracker_ready d n ->
  tracker_ready (reset_dirty_region d) DIRTY_TILE_POOL_SIZE /\
  conf_of (reset_dirty_region d) = conf_of d.
Proof.
  intros (Us & Fit & Off & B1 & B2 & [A1 A2] & Free).
  unfold reset_dirty_region, reset_sparse_dirty_tracking, tracker_ready,
    pool_acct, conf_of, tiles_fit in *.
  dd d. cbn -[Z.add Z.sub Z.of_nat] in *. subst us.
  destruct uh; cbn -[Z.add Z.sub Z.of_nat].
  all: split; [|reflexivity].
  all: split; [reflexivity|]; split; [assumption|].
  all: split; [reflexivity|].
  all: split;
    [intros tr tc _ _ B; rewrite check_l1_zero in B by reflexivity;
     discriminate|].
  all: split;
    [intros br bc _ B; rewrite check_l2_zero in B by reflexivity;
     discriminate|].
  all: cbn [length]; split; [split|]; lia.
Qed.

End TrackerFacts.

(** * Prints and refreshes in a session *)

Module SessionFacts.
Import Engine EngineFacts Surface Session TrackerFacts.

Lemma ready_le s n m : m <= n -> ready s n -> ready s m.
Proof.
  intros L (A & B & C & D & T). unfold ready.
  split; [exact A|]. split; [exact B|]. split; [exact C|].
  split; [exact D|]. now apply (tracker_ready_le _ n).
Qed.

Lemma tiles_cover_conf d d' g g' :
  Dirty.conf_of d' = Dirty.conf_of d ->
  buf_rows g' = buf_rows g -> buf_cols g' = buf_cols g ->
  tiles_cover d g -> tiles_cover d' g'.
Proof.
  unfold Dirty.conf_of, tiles_cover. intros C R K.
  injection C as C1 C2 C3 C4 _ _ _ _ _.
  rewrite C1, C2, C3, C4, R, K. trivial.
Qed.

Lemma conf_hier d d' :
  Dirty.conf_of d' = Dirty.conf_of d ->
  Dirty.use_hierarchical_tiles d' = Dirty.use_hierarchical_tiles d.
Proof. unfold Dirty.conf_of. congruence. Qed.

Lemma quot_lt_cover a k q : 0 <= a -> 0 < k -> a < k * q -> Z.quot a k < q.
Proof. intros. apply Z.quot_lt_upper_bound; lia. Qed.

(** [tui_init] leaves the engine ready, with the whole pool free. *)
Lemma ready_init ws unicode :
  0 <= fst (get_terminal_size ws) <= Dirty.INT_MAX ->
  0 <= snd (get_terminal_size ws) <= Dirty.INT_MAX ->
  ready (tui_init ws unicode) Dirty.DIRTY_TILE_POOL_SIZE.
Proof.
  unfold tui_init. destruct (get_terminal_size ws) as [lines cols].
  cbn [fst snd]. intros Hl Hc. unfold ready.
  cbn [grid dirty_region tui_lines tui_cols allocated buf_rows buf_cols
       allocate_buffers].
  split; [reflexivity|]. split; [lia|]. split; [lia|].
  split; [|apply tracker_ready_init].
  intros _. unfold tiles_cover.
  cbn [buf_rows buf_cols allocate_buffers].
  destruct (init_dirty_counts cols lines) as (-> & -> & -> & ->).
  unfold Dirty.TILE_L1_SIZE, Dirty.TILE_L2_SIZE.
  repeat split; apply cover_ceil; lia.
Qed.

(** What one print does to a ready engine. *)
Lemma print_session s n win y x text rv s1 win1 :
  ready s n -> PRINT_NODES <= n -> supports_unicode s = false ->
  0 <= begx win + x ->
  tui_print_at s win y x text = Some (rv, s1, win1) ->
  ready s1 (n - PRINT_NODES) /\
  (rv = 0 ->
   0 <= begy win + y < buf_rows (grid s) /\
   forall c,
     written (grid s) (begy win + y) (begx win + x)
             (Z.of_nat (length (formatted text))) (begy win + y) c ->
     cell (grid s1) (begy win + y) c
     = (nth (Z.to_nat (c - (begx win + x))) (formatted text) 0, attr win, 0,
        INVALID_ATTR) /\
     cell_tracked (dirty_region s1) (begy win + y) c /\
     Dirty.has_changes (dirty_region s1) = true /\
     Dirty.min_row (dirty_region s1) <= begy win + y
       <= Dirty.max_row (dirty_region s1) /\
     Dirty.min_col (dirty_region s1) <= c <= Dirty.max_col (dirty_region s1)).
Proof.
  intros R Hn U Hx H.
  pose proof R as (A & (L1 & L2) & (M1 & M2) & Cov & T).
  assert (Hpn : 0 <= PRINT_NODES) by (vm_compute; discriminate).
  unfold tui_print_at in H. rewrite A, U in H. cbn [negb] in H.
  destruct ((begy win + y <? 0) || (buf_rows (grid s) <=? begy win + y))
    eqn:G.
  { inversion H; subst. split; [apply (ready_le _ n); [lia|exact R]|].
    intros; lia. }
  apply orb_false_iff in G as [G1 G2].
  apply Z.ltb_ge in G1. apply Z.leb_gt in G2.
  assert (Hy : 0 <= begy win + y < buf_rows (grid s)) by lia.
  destruct (PrintFacts.print_bytes_spec (formatted text) (grid s) (attr win)
              (begy win + y) (begx win + x) Hy)
    as (g' & E & (X1 & X2 & X3) & Cells).
  rewrite E in H. cbn [obind fst snd] in H.
  set (sy := begy win + y) in *. set (sx := begx win + x) in *.
  set (len := Z.of_nat (length (formatted text))) in *.
  set (fc := final_column sx len (buf_cols (grid s))) in *.
  set (d := dirty_region s) in *.
  assert (Hd : exists d',
             (if sx <? fc
              then Dirty.mark_dirty_region d sy sx sy (fc - 1)
              else Some d) = Some d' /\
             Session.tracker_ready d' (n - PRINT_NODES) /\
             Dirty.conf_of d' = Dirty.conf_of d /\
             (sx < fc ->
              Dirty.has_changes d' = true /\
              (Dirty.min_row d' <= sy /\ sy <= Dirty.max_row d' /\
               Dirty.min_col d' <= sx /\ fc - 1 <= Dirty.max_col d') /\
              forall c, sx <= c <= fc - 1 -> cell_tracked d' sy c)).
  { clear H. destruct (Z.ltb_spec sx fc) as [Lt|Ge].
    2:{ exists d. split; [reflexivity|].
        split; [apply (tracker_ready_le _ n); [lia|exact T]|].
        split; [reflexivity|]. lia. }
    assert (Fc : fc <= buf_cols (grid s)).
    { unfold fc, final_column in *. lia. }
    pose proof T as (Us & Fit & Off & _).
    destruct (DirtyMore.mark_dirty_region_spec d sy sx sy (fc - 1) Fit
                ltac:(lia) Hx)
      as (d' & Ed & Hc & Hull & _).
    exists d'. split; [exact Ed|].
    destruct (Dirty.use_hierarchical_tiles d) eqn:Uh.
    - destruct (mark_row_ready d sy sx (fc - 1) n Uh T Hn ltac:(lia) Hx)
        as (d2 & Ed2 & T2 & C2 & Lst).
      rewrite Ed in Ed2. inversion Ed2; subst d2. clear Ed2.
      split; [exact T2|]. split; [exact C2|]. intros _.
      split; [exact Hc|]. split; [exact Hull|].
      intros c Hcc. left. split; [apply T2|].
      destruct (Cov eq_refl) as (V1 & V2 & V3 & V4).
      destruct (Lst c Hcc) as [I1 I2].
      split; [apply I1|apply I2]; apply quot_lt_cover;
        unfold Dirty.TILE_L1_SIZE, Dirty.TILE_L2_SIZE in *; lia.
    - rewrite (mark_row_flat d sy sx (fc - 1) Uh) in Ed.
      inversion Ed; subst d'. clear Ed.
      pose proof (view_extend_rect d sy sx sy (fc - 1)) as V.
      destruct (DirtyFacts.extend_rect_frame d sy sx sy (fc - 1))
        as (C0 & _ & S1 & _).
      assert (T2 : Session.tracker_ready
                     (Dirty.extend_rect d sy sx sy (fc - 1)) n)
        by now apply (tracker_ready_ext d).
      split; [apply (tracker_ready_le _ n); [lia|exact T2]|].
      split; [exact C0|]. intros _.
      split; [exact Hc|]. split; [exact Hull|].
      intros c Hcc. right.
      split; [rewrite (conf_hier _ _ C0); exact Uh|].
      transitivity (Dirty.dirty_l1_tiles d); [|now apply Off].
      unfold Dirty.l1_sparse_of in S1. congruence. }
  destruct Hd as (d' & Ed & T' & C' & Hd). rewrite Ed in H. cbn [obind] in H.
  destruct (flag_dirty_row win y) as [w1|]; [|discriminate].
  cbn [obind] in H. inversion H; subst rv s1 win1. clear H.
  cbn [grid dirty_region with_dirty_region with_grid].
  split.
  - unfold ready. cbn. rewrite X1, X2, X3.
    split; [exact A|]. split; [split; assumption|].
    split; [split; assumption|]. split; [|exact T'].
    intros Uh. rewrite (conf_hier _ _ C') in Uh.
    apply (tiles_cover_conf d d' (grid s) g' C' X2 X3). now apply Cov.
  - intros _. split; [exact Hy|]. intros c W.
    pose proof W as (_ & W1 & W2).
    assert (Lt : sx <= c < fc).
    { unfold fc, final_column. fold sx in W1. lia. }
    destruct (Hd ltac:(lia)) as (Hc & (R1 & R2 & R3 & R4) & Tr).
    split; [apply (Cells sy c); exact W|].
    cbn. split; [apply Tr; lia|]. split; [exact Hc|]. lia.
Qed.

(** ** The refresh *)

Lemma optimize_view s s1 :
  optimize_dirty_region s = Some s1 ->
  tracker_view (dirty_region s1) = tracker_view (dirty_region s).
Proof.
  unfold optimize_dirty_region. cbv zeta.
  destruct (negb _).
  - intros [= <-]. reflexivity.
  - intros H. bind_inv H. bind_inv H.
    destruct (_ || _).
    + inversion H; subst s1. cbn. now destruct (dirty_region s).
    + bind_inv H. bind_inv H. inversion H; subst s1. cbn.
      destruct (_ || _); now destruct (dirty_region s).
Qed.

Lemma choose_strategy_view d mr xr mc xc d' u :
  choose_strategy d mr xr mc xc = (d', u) ->
  tracker_view d' = tracker_view d.
Proof.
  unfold choose_strategy. cbv zeta.
  cbn [Dirty.use_sparse_tracking Dirty.with_frame_count
       Dirty.dirty_l1_tiles].
  destruct (Dirty.use_sparse_tracking d) eqn:U.
  2:{ intros [= <- <-]. now destruct d. }
  intros [= <- <-].
  repeat match goal with
         | |- context [if ?b then _ else _] => destruct b
         end; now destruct d.
Qed.

Lemma finish_refresh_tracker st :
  dirty_region (finish_refresh st)
  = Dirty.reset_dirty_region (dirty_region (fst st)) /\
  tui_lines (finish_refresh st) = tui_lines (fst st) /\
  tui_cols (finish_refresh st) = tui_cols (fst st).
Proof. unfold finish_refresh. destruct (snd st); now repeat split. Qed.

Lemma ready_free_le s n : ready s n -> n <= Dirty.DIRTY_TILE_POOL_SIZE.
Proof.
  intros (_ & _ & _ & _ & (_ & _ & _ & _ & _ & [A B] & F)).
  pose proof (Nat2Z.is_nonneg (length (Dirty.dirty_l1_tiles (dirty_region s)))).
  pose proof (Nat2Z.is_nonneg (length (Dirty.dirty_l2_blocks (dirty_region s)))).
  lia.
Qed.

(** A refresh that returns 0 leaves the engine ready; one that had
    changes to scan gives the whole pool back. *)
Lemma refresh_session s n s' :
  ready s n -> tui_refresh s = Some (0, s') ->
  ready s' n /\
  (Dirty.has_changes (dirty_region s) = true ->
   ready s' Dirty.DIRTY_TILE_POOL_SIZE).
Proof.
  intros R H. pose proof (ready_free_le s n R) as Le.
  pose proof R as (A & (L1 & L2) & (M1 & M2) & Cov & T).
  destruct (Dirty.has_changes (dirty_region s)) eqn:HC.
  2:{ unfold tui_refresh in H. rewrite A in H. cbn in H. rewrite HC in H.
      cbn in H. inversion H; subst s'. split; [exact R|discriminate]. }
  assert (R' : ready s' Dirty.DIRTY_TILE_POOL_SIZE).
  { destruct (tui_refresh_steps _ _ _ H HC A)
      as (s1 & mr & xr & mc & xc & d & u & st & O & B & CS & SC & _ & ->).
    destruct (optimize_dirty_region_frame _ _ O) as (F1 & F2 & F3 & _).
    pose proof (optimize_view _ _ O) as V1.
    pose proof (choose_strategy_view _ _ _ _ _ _ _ CS) as V2.
    apply scan_step_all in SC.
    destruct SC as ((G1 & G2 & G3 & _) & SL & SC & SD & _).
    cbn in G1, G2, G3, SL, SC, SD.
    destruct (finish_refresh_spec st) as (E1 & _).
    destruct (finish_refresh_tracker st) as (E2 & E3 & E4).
    cbv zeta in E1.
    assert (V : tracker_view (dirty_region (fst st))
                = tracker_view (dirty_region s)) by congruence.
    assert (T1 : Session.tracker_ready (dirty_region (fst st)) n)
      by now apply (tracker_ready_ext (dirty_region s)).
    destruct (tracker_ready_reset _ _ T1) as (T2 & C2).
    unfold ready. rewrite E1, E2, E3, E4, G1, G2, G3, SL, SC, F1, F2, F3.
    split; [exact A|]. split; [split; assumption|].
    split; [split; assumption|]. split; [|exact T2].
    intros Uh. rewrite (conf_hier _ _ C2) in Uh.
    apply (tiles_cover_conf (dirty_region (fst st)) _ (grid s)
             (grid (fst st)) C2); [congruence|congruence|].
    apply (tiles_cover_ext (dirty_region s) _ (grid s) (grid s) V
             eq_refl eq_refl).
    apply Cov.
    unfold tracker_view in V. congruence. }
  split; [apply (ready_le _ _ _ Le R')|intros _; exact R'].
Qed.

(** X29.  The state between two operations of a session is kept.
    [tui_init] on a terminal whose size fits an [int] leaves the engine
    ready with the whole tile pool free.  A print without UTF-8 at a
    start column that is not negative, made with at least 160 nodes of
    the pool free, keeps it ready and takes at most 160 nodes of the
    pool.  A refresh that returns 0 keeps it ready, and one that had
    changes to scan gives the whole pool back. *)
Theorem session_keeps_ready :
  (forall ws unicode,
     0 <= fst (get_terminal_size ws) <= Dirty.INT_MAX ->
     0 <= snd (get_terminal_size ws) <= Dirty.INT_MAX ->
     ready (tui_init ws unicode) Dirty.DIRTY_TILE_POOL_SIZE) /\
  (forall s n win y x text rv s1 win1,
     ready s n -> PRINT_NODES <= n -> supports_unicode s = false ->
     0 <= begx win + x ->
     tui_print_at s win y x text = Some (rv, s1, win1) ->
     ready s1 (n - PRINT_NODES)) /\
  (forall s n s',
     ready s n -> tui_refresh s = Some (0, s') ->
     ready s' n /\
     (Dirty.has_changes (dirty_region s) = true ->
      ready s' Dirty.DIRTY_TILE_POOL_SIZE)).
Proof.
  split; [exact ready_init|]. split; [|exact refresh_session].
  intros s n win y x text rv s1 win1 R Hn U Hx H.
  exact (proj1 (print_session s n win y x text rv s1 win1 R Hn U Hx H)).
Qed.

(** ** A print followed by a refresh *)

Lemma c_string_nonzero text b : In b (c_string text) -> b <> 0.
Proof.
  induction text as [|c tl IH]; simpl; [intros []|].
  destruct (Z.eqb_spec c 0) as [E|N]; [intros []|].
  intros [<-|I]; [exact N|now apply IH].
Qed.

Lemma in_firstn {A} n (l : list A) x : In x (firstn n l) -> In x l.
Proof.
  revert l. induction n as [|n IH]; intros [|a tl]; simpl; try tauto.
  intros [E|I]; [now left|right; now apply IH].
Qed.

Lemma formatted_nth_nonzero text i :
  (i < length (formatted text))%nat -> nth i (formatted text) 0 <> 0.
Proof.
  intros L. apply (c_string_nonzero text). unfold formatted in *.
  apply (in_firstn 1023). now apply nth_In.
Qed.

Lemma scan_bounds_contains s mr xr mc xc r c :
  scan_bounds s = (mr, xr, mc, xc) ->
  0 <= r < buf_rows (grid s) -> 0 <= c < buf_cols (grid s) ->
  buf_rows (grid s) <= tui_lines s -> buf_cols (grid s) <= tui_cols s ->
  Dirty.min_row (dirty_region s) <= r <= Dirty.max_row (dirty_region s) ->
  Dirty.min_col (dirty_region s) <= c <= Dirty.max_col (dirty_region s) ->
  mr <= r <= xr /\ mc <= c <= xc.
Proof.
  unfold scan_bounds. cbv zeta. intros B Hr Hc L1 L2 Rr Rc.
  injection B as <- <- <- <-.
  destruct (Z.leb_spec 0 (Dirty.min_row (dirty_region s)));
    destruct (Z.ltb_spec (Dirty.max_row (dirty_region s)) (buf_rows (grid s)));
    destruct (Z.leb_spec 0 (Dirty.min_col (dirty_region s)));
    destruct (Z.ltb_spec (Dirty.max_col (dirty_region s)) (buf_cols (grid s))).
  all: repeat match goal with
         | |- context [if ?a <? ?b then _ else _] =>
             destruct (Z.ltb_spec a b)
         | |- context [if ?a <=? ?b then _ else _] =>
             destruct (Z.leb_spec a b)
         end; lia.
Qed.

Lemma tracked_ext d d' r c :
  Dirty.dirty_l1_tiles d' = Dirty.dirty_l1_tiles d ->
  Dirty.dirty_l2_blocks d' = Dirty.dirty_l2_blocks d ->
  Dirty.use_sparse_tracking d' = Dirty.use_sparse_tracking d ->
  Dirty.use_hierarchical_tiles d' = Dirty.use_hierarchical_tiles d ->
  cell_tracked d r c -> cell_tracked d' r c.
Proof.
  unfold cell_tracked, tile_listed. intros -> -> -> ->. trivial.
Qed.

(** X30.  What is printed is shown.  On a ready engine with 160 nodes
    of the tile pool free, a print without UTF-8 at a start column that
    is not negative, followed by a refresh that returns 0, leaves every
    cell the text landed on with the byte and the attribute of the
    print in the logical grid and in the snapshot alike. *)
Theorem print_then_refresh_shows (s s1 s2 : engine) (n : Z)
  (win win1 : tui_window_t) (y x : Z) (text : list Z) :
  ready s n -> PRINT_NODES <= n -> supports_unicode s = false ->
  0 <= begx win + x ->
  tui_print_at s win y x text = Some (0, s1, win1) ->
  tui_refresh s1 = Some (0, s2) ->
  forall c,
    written (grid s) (begy win + y) (begx win + x)
            (Z.of_nat (length (formatted text))) (begy win + y) c ->
    let ch := nth (Z.to_nat (c - (begx win + x))) (formatted text) 0 in
    cell (grid s2) (begy win + y) c = (ch, attr win, ch, attr win).
Proof.
  intros R Hn U Hx P H c W. cbv zeta.
  destruct (print_session s n win y x text 0 s1 win1 R Hn U Hx P)
    as (R1 & K).
  destruct (K eq_refl) as (Hy & K'). clear K.
  destruct (K' c W) as (Cell & Tr & HC & Rr & Rc). clear K'.
  pose proof R1 as (A1 & (L1 & L2) & (M1 & M2) & _ & _).
  (* the print and the extents *)
  assert (X : buf_rows (grid s1) = buf_rows (grid s) /\
              buf_cols (grid s1) = buf_cols (grid s)).
  { unfold tui_print_at in P.
    destruct R as (A & _). rewrite A, U in P. cbn [negb] in P.
    destruct (_ || _); [discriminate|].
    destruct (PrintFacts.print_bytes_spec (formatted text) (grid s) (attr win)
                (begy win + y) (begx win + x) Hy)
      as (g' & E & (_ & X2 & X3) & _).
    rewrite E in P. cbn [obind fst snd] in P.
    bind_inv P. bind_inv P. inversion P; subst. cbn. now split. }
  destruct X as [X2 X3].
  pose proof W as (_ & W1 & W2).
  set (sy := begy win + y) in *. set (sx := begx win + x) in *.
  set (ch := nth (Z.to_nat (c - sx)) (formatted text) 0) in *.
  assert (Nz : ch <> 0).
  { apply formatted_nth_nonzero. lia. }
  unfold cell in Cell. injection Cell as C1 C2 C3 C4.
  assert (D : differs (grid s1) sy c = true).
  { unfold differs. rewrite C1, C3.
    destruct (Z.eqb_spec ch 0); [contradiction|reflexivity]. }
  (* the refresh *)
  destruct (tui_refresh_steps _ _ _ H HC A1)
    as (s1' & mr & xr & mc & xc & d & u & st & O & B & CS & SC & _ & ->).
  destruct (optimize_dirty_region_frame _ _ O)
    as (F1 & F2 & F3 & F4 & F5 & F6 & F7 & F8 & F9 & F10).
  destruct (RefreshMore.optimize_region_spec s1 s1' sy c O HC M1 M2
              ltac:(lia) ltac:(lia) Rr Rc D)
    as (_ & _ & Or1 & _ & _ & Or2 & _).
  destruct (scan_bounds_contains s1' mr xr mc xc sy c B) as (In1 & In2);
    try (rewrite ?F1, ?F2, ?F3; lia); try assumption.
  destruct (scan_bounds_upper _ _ _ _ _ B) as (U1 & U2 & U3 & U4).
  destruct (choose_strategy_frame _ _ _ _ _ _ _ CS)
    as (G1 & G2 & G3 & G4 & G5).
  assert (Cv : differs (grid (fst st)) sy c = false).
  { apply (scan_converges _ _ _ _ _ _ _ _ _ SC); try assumption; try lia.
    - cbn. intros Hu. rewrite G1. now apply G5.
    - cbn. apply (tracked_ext (dirty_region s1)); congruence. }
  apply scan_step_all in SC.
  destruct SC as ((_ & _ & _ & S1 & S2 & _) & _).
  cbn in S1, S2.
  destruct (finish_refresh_spec st) as (E1 & _). cbv zeta in E1.
  apply differs_false in Cv as [Cv1 Cv2].
  unfold cell. rewrite E1, Cv1, Cv2, S1, S2, F1, C1, C2. reflexivity.
Qed.

Lemma print_then_refresh_shows_witness :
  cell (grid (refreshed (printed term_80x24 (tui_stdscr term_80x24) 3 5
                                 [72; 105])))
       3 6
  = (105, 0, 105, 0).
Proof.
  set (s := term_80x24). set (win := tui_stdscr s).
  set (s1 := printed s win 3 5 [72; 105]).
  assert (R : ready s Dirty.DIRTY_TILE_POOL_SIZE).
  { apply ready_init; vm_compute; split; discriminate. }
  assert (P : exists w1, tui_print_at s win 3 5 [72; 105] = Some (0, s1, w1)).
  { unfold s1, printed.
    destruct (tui_print_at s win 3 5 [72; 105]) as [[[rv s'] w]|] eqn:E.
    - exists w. assert (rv = 0) as ->; [|reflexivity].
      assert (option_map (fun r => fst (fst r))
                (tui_print_at s win 3 5 [72; 105]) = Some 0) as Q
        by (vm_compute; reflexivity).
      rewrite E in Q. cbn in Q. now inversion Q.
    - assert (option_map (fun r => fst (fst r))
                (tui_print_at s win 3 5 [72; 105]) = Some 0) as Q
        by (vm_compute; reflexivity).
      rewrite E in Q. discriminate. }
  destruct P as (w1 & P).
  assert (H : tui_refresh s1 = Some (0, refreshed s1)).
  { unfold refreshed.
    assert (option_map fst (tui_refresh s1) = Some 0) as Q
      by (vm_compute; reflexivity).
    destruct (tui_refresh s1) as [[rv s']|]; cbn [option_map fst] in Q;
      [|discriminate].
    cbn [after]. now inversion Q. }
  apply (print_then_refresh_shows s s1 (refreshed s1)
           Dirty.DIRTY_TILE_POOL_SIZE win w1 3 5 [72; 105] R
           ltac:(vm_compute; discriminate) eq_refl
           ltac:(vm_compute; discriminate) P H 6).
  vm_compute. repeat split; discriminate.
Defined.

End SessionFacts.

(** * The pointers of the rendition cache *)

Module SeqPtrFacts.
Import Intern SeqPtr InternFacts.

(** ** Interning *)

(** The pointer refers to the bytes [Intern.intern_esc_sequence] gives,
    and the pool is left the same. *)
Lemma intern_ptr_bytes c seq :
  (bytes_at (fst (intern_ptr c seq)), snd (intern_ptr c seq))
  = intern_esc_sequence c seq.
Proof.
  unfold intern_ptr, intern_esc_sequence.
  destruct (negb (initialized c)
            || (ESC_SEQ_MAX_LEN <=? Z.of_nat (List.length seq)));
    [reflexivity|].
  destruct (chain_lookup _ _ _ _) as [[s chain']|]; [reflexivity|].
  destruct (pool_size c <=? pool_used c); reflexivity.
Qed.

Lemma intern_ptr_same c seq : bytes_at (fst (intern_ptr c seq)) = seq.
Proof.
  pose proof (intern_ptr_bytes c seq) as E.
  destruct (intern_same_bytes c seq) as (S & _).
  rewrite <- E in S. exact S.
Qed.

(** The pointer is a pool entry's exactly when the sequence is interned
    already or the pool has room. *)
Lemma intern_ptr_alive c seq :
  initialized c = true -> Z.of_nat (List.length seq) < ESC_SEQ_MAX_LEN ->
  alive (fst (intern_ptr c seq))
  = interned c seq || (pool_used c <? pool_size c).
Proof.
  intros I L. unfold intern_ptr, interned. rewrite I.
  replace (ESC_SEQ_MAX_LEN <=? Z.of_nat (List.length seq)) with false
    by (symmetry; apply Z.leb_gt; exact L).
  cbn [negb orb].
  destruct (chain_lookup _ _ _ _) as [[s chain']|]; [reflexivity|].
  cbn [orb].
  destruct (Z.leb_spec (pool_size c) (pool_used c)) as [F|F]; cbn [fst alive].
  - symmetry. apply Z.ltb_ge. exact F.
  - symmetry. apply Z.ltb_lt. exact F.
Qed.

Lemma intern_ptr_frame c seq :
  initialized (snd (intern_ptr c seq)) = initialized c /\
  pool_size (snd (intern_ptr c seq)) = pool_size c /\
  pool_used c <= pool_used (snd (intern_ptr c seq)) <= pool_used c + 1 /\
  (alive (fst (intern_ptr c seq)) = false -> snd (intern_ptr c seq) = c).
Proof.
  unfold intern_ptr.
  destruct (negb (initialized c)
            || (ESC_SEQ_MAX_LEN <=? Z.of_nat (List.length seq)));
    [cbn; repeat split; try lia; try discriminate|].
  destruct (chain_lookup _ _ _ _) as [[s chain']|].
  - cbn. repeat split; try lia; try discriminate.
  - destruct (pool_size c <=? pool_used c); cbn; repeat split; try lia;
      try discriminate.
Qed.

(** ** The table of combinations *)

Lemma combo_find_some chain fg bg attrs e :
  combo_find chain fg bg attrs = Some e ->
  In e chain /\ e_fg e = fg /\ e_bg e = bg /\ e_attrs e = attrs.
Proof.
  induction chain as [|x tl IH]; simpl; [discriminate|].
  destruct ((e_fg x =? fg) && (e_bg x =? bg) && (e_attrs x =? attrs)) eqn:T.
  - intros H. inversion H; subst.
    apply andb_true_iff in T as [T T3]. apply andb_true_iff in T as [T1 T2].
    apply Z.eqb_eq in T1, T2, T3. auto.
  - intros H. destruct (IH H) as (I & R). split; [now right|exact R].
Qed.

Lemma combo_find_head fg bg attrs p n tl :
  combo_find (mk_combo fg bg attrs p n :: tl) fg bg attrs
  = Some (mk_combo fg bg attrs p n).
Proof. simpl. now rewrite !Z.eqb_refl. Qed.

Lemma upd_at_key {A} (f : Z -> A) k v : upd f k v k = v.
Proof. unfold upd. now rewrite Z.eqb_refl. Qed.

(** What [get_cached_attr_sequence] returns, stores and leaves. *)
Lemma get_cached_pointer_spec defs c fg bg attrs :
  let seq := bytes_of (AttrSeq.build_attr_sequence defs fg bg attrs) in
  let len := Z.of_nat (List.length seq) in
  initialized (interns c) = true -> entries_pooled defs c ->
  len < ESC_SEQ_MAX_LEN ->
  exists p c',
    get_cached_attr_sequence defs c fg bg attrs = Some (Some (p, len), c') /\
    bytes_at p = seq /\
    alive p = served c fg bg attrs || interned (interns c) seq
              || (pool_used (interns c) <? pool_size (interns c)) /\
    initialized (interns c') = true /\
    pool_size (interns c') = pool_size (interns c) /\
    pool_used (interns c) <= pool_used (interns c')
                          <= pool_used (interns c) + 1 /\
    (alive p = true -> entries_pooled defs c') /\
    (alive p = false ->
     attr_combo_pool_used c < attr_combo_pool_size c ->
     get_cached_attr_sequence defs c' fg bg attrs = Some (Some (p, len), c')).
Proof.
  cbv zeta. intros I K L.
  unfold get_cached_attr_sequence, served. rewrite I. cbn [negb].
  destruct (combo_find (attr_combo_table c (AttrSeq.combo_bucket fg bg attrs))
                       fg bg attrs) as [e|] eqn:F.
  - apply combo_find_some in F. destruct F as (In_e & E1 & E2 & E3).
    destruct (K _ _ In_e) as [S N]. rewrite E1, E2, E3 in S, N.
    exists (sequence e), c. rewrite S, N.
    split; [reflexivity|]. split; [reflexivity|]. split; [reflexivity|].
    split; [exact I|]. split; [reflexivity|]. split; [lia|].
    split; [intros _; exact K|]. discriminate.
  - set (seq := bytes_of (AttrSeq.build_attr_sequence defs fg bg attrs)) in *.
    replace (ESC_SEQ_MAX_LEN <=? Z.of_nat (List.length seq)) with false
      by (symmetry; apply Z.leb_gt; exact L).
    destruct (intern_ptr_frame (interns c) seq) as (FI & FS & FU & FD).
    pose proof (intern_ptr_same (interns c) seq) as B.
    pose proof (intern_ptr_alive (interns c) seq I L) as A.
    set (r := intern_ptr (interns c) seq) in *.
    eexists. eexists. split; [reflexivity|].
    split; [exact B|]. split; [exact A|].
    destruct (attr_combo_pool_used c <? attr_combo_pool_size c) eqn:Room;
      cbn [interns attr_combo_table attr_combo_pool_used attr_combo_pool_size].
    + split; [congruence|]. split; [exact FS|]. split; [exact FU|]. split.
      * intros Al k e. cbn [attr_combo_table]. unfold upd.
        destruct (k =? AttrSeq.combo_bucket fg bg attrs) eqn:Bk.
        -- cbn [In]. intros [<-|H];
             [|now apply (K (AttrSeq.combo_bucket fg bg attrs))].
           cbn [sequence seq_length e_fg e_bg e_attrs].
           split; [|reflexivity].
           destruct (fst r) as [b|b]; [|discriminate]. cbn in B. now rewrite B.
        -- apply K.
      * intros Al _. rewrite (FD Al), I. cbn [negb].
        rewrite upd_at_key, combo_find_head. reflexivity.
    + split; [congruence|]. split; [exact FS|]. split; [exact FU|]. split.
      * intros _. exact K.
      * intros _ R. apply Z.ltb_ge in Room. lia.
Qed.

(** X14.  In a cache whose entries point into the interning pool at the
    sequences built from the colour table, [get_cached_attr_sequence]
    returns a pointer to the bytes of the sequence built afresh, with
    its length.  The pointer is a pool entry's exactly when the
    combination is cached, the sequence is interned already or the pool
    has room, and then such a cache is left behind; otherwise it points
    to the [seq_buf] of the call, which ends with the call, and where
    the table of combinations has room it is stored and handed out
    again by the next lookup. *)
Theorem cached_sequence_pointer (defs : Z -> AttrSeq.color_def_t)
  (c : esc_seq_cache_t) (fg bg attrs : Z) :
  let seq := bytes_of (AttrSeq.build_attr_sequence defs fg bg attrs) in
  let len := Z.of_nat (List.length seq) in
  initialized (interns c) = true -> entries_pooled defs c ->
  len < ESC_SEQ_MAX_LEN ->
  exists p c',
    get_cached_attr_sequence defs c fg bg attrs = Some (Some (p, len), c') /\
    bytes_at p = seq /\
    alive p = served c fg bg attrs || interned (interns c) seq
              || (pool_used (interns c) <? pool_size (interns c)) /\
    (alive p = true ->
     initialized (interns c') = true /\ entries_pooled defs c') /\
    (alive p = false ->
     attr_combo_pool_used c < attr_combo_pool_size c ->
     get_cached_attr_sequence defs c' fg bg attrs = Some (Some (p, len), c')).
Proof.
  cbv zeta. intros I K L.
  destruct (get_cached_pointer_spec defs c fg bg attrs I K L)
    as (p & c' & E & B & A & I' & _ & _ & K' & D).
  exists p, c'. split; [exact E|]. split; [exact B|]. split; [exact A|].
  split; [|exact D]. intros Al. split; [exact I'|now apply K'].
Qed.

Lemma cached_sequence_pointer_witness :
  let defs := AttrSeq.color_defs_init in
  let seq := bytes_of (AttrSeq.build_attr_sequence defs 2 0 0) in
  let len := Z.of_nat (List.length seq) in
  exists p c',
    get_cached_attr_sequence defs empty_esc_cache 2 0 0
    = Some (Some (p, len), c') /\
    bytes_at p = seq /\
    alive p = served empty_esc_cache 2 0 0
              || interned (interns empty_esc_cache) seq
              || (pool_used (interns empty_esc_cache)
                  <? pool_size (interns empty_esc_cache)) /\
    (alive p = true ->
     initialized (interns c') = true /\ entries_pooled defs c') /\
    (alive p = false ->
     attr_combo_pool_used empty_esc_cache
     < attr_combo_pool_size empty_esc_cache ->
     get_cached_attr_sequence defs c' 2 0 0 = Some (Some (p, len), c')).
Proof.
  apply (cached_sequence_pointer AttrSeq.color_defs_init empty_esc_cache 2 0 0).
  - reflexivity.
  - intros k e [].
  - vm_compute. reflexivity.
Defined.

(** ** The cache after initialisation *)

Lemma precached_interns :
  let i := fold_left (fun i s => snd (intern_ptr i (bytes_of s)))
                     PRECACHED empty_intern in
  initialized i = true /\ pool_size i = ESC_SEQ_POOL_SIZE /\
  pool_used i + 6 <= pool_size i.
Proof. vm_compute. repeat split; intros; discriminate. Qed.

Lemma prepopulate_pooled defs l :
  forall c,
    initialized (interns c) = true -> entries_pooled defs c ->
    pool_used (interns c) + Z.of_nat (List.length l) <= pool_size (interns c) ->
    (forall fg bg attrs,
       In (fg, bg, attrs) l ->
       Z.of_nat (List.length
                   (bytes_of (AttrSeq.build_attr_sequence defs fg bg attrs)))
       < ESC_SEQ_MAX_LEN) ->
    exists c',
      ofold (fun c '(fg, bg, attrs) =>
               r <- get_cached_attr_sequence defs c fg bg attrs ;;
               Some (snd r)) l c = Some c' /\
      initialized (interns c') = true /\ entries_pooled defs c'.
Proof.
  induction l as [|[[fg bg] attrs] tl IH]; intros c I K U L.
  - exists c. split; [reflexivity|]. now split.
  - cbn [ofold].
    assert (Lh : Z.of_nat (List.length
                   (bytes_of (AttrSeq.build_attr_sequence defs fg bg attrs)))
                 < ESC_SEQ_MAX_LEN) by (apply L; now left).
    destruct (get_cached_pointer_spec defs c fg bg attrs I K Lh)
      as (p & c' & E & _ & A & I' & S' & U' & K' & _).
    rewrite E. cbn [obind snd].
    cbn [List.length] in U. rewrite Nat2Z.inj_succ in U.
    assert (Al : alive p = true).
    { rewrite A. apply orb_true_iff. right. apply Z.ltb_lt. lia. }
    apply IH; [exact I'|now apply K'|lia|].
    intros f b a H. apply L. now right.
Qed.

(** [init_esc_seq_cache] leaves an initialised cache whose entries all
    point into the interning pool. *)
Lemma init_esc_seq_cache_pooled defs :
  exists c,
    init_esc_seq_cache defs = Some c /\
    initialized (interns c) = true /\ entries_pooled defs c.
Proof.
  unfold init_esc_seq_cache. cbv zeta.
  destruct precached_interns as (I & S & U).
  apply prepopulate_pooled.
  - exact I.
  - intros k e [].
  - cbn [interns]. change (Z.of_nat (List.length PREPOPULATED)) with 6.
    exact U.
  - intros fg bg attrs H. cbn in H.
    repeat (destruct H as [H|H]; [inversion H; subst; vm_compute; reflexivity|]).
    destruct H.
Qed.

(** ** A full interning pool *)

(** With the interning pool used up and the table of combinations not
    yet full, a combination that is looked up for the first time gets a
    pointer to [seq_buf], and the entry stored for it hands the same
    pointer to the lookups that follow. *)
Lemma full_pool_local_pointer defs c fg bg attrs :
  let seq := bytes_of (AttrSeq.build_attr_sequence defs fg bg attrs) in
  initialized (interns c) = true -> entries_pooled defs c ->
  Z.of_nat (List.length seq) < ESC_SEQ_MAX_LEN ->
  served c fg bg attrs = false -> interned (interns c) seq = false ->
  pool_size (interns c) <= pool_used (interns c) ->
  attr_combo_pool_used c < attr_combo_pool_size c ->
  exists c',
    get_cached_attr_sequence defs c fg bg attrs
    = Some (Some (Local seq, Z.of_nat (List.length seq)), c') /\
    get_cached_attr_sequence defs c' fg bg attrs
    = Some (Some (Local seq, Z.of_nat (List.length seq)), c').
Proof.
  cbv zeta. intros I K L S N F R.
  destruct (get_cached_pointer_spec defs c fg bg attrs I K L)
    as (p & c' & E & B & A & _ & _ & _ & _ & D).
  rewrite S, N in A. cbn [orb] in A.
  assert (Al : alive p = false).
  { rewrite A. apply Z.ltb_ge. exact F. }
  destruct p as [b|b]; [discriminate|]. cbn [bytes_at] in B. subst b.
  exists c'. split; [exact E|]. now apply D.
Qed.

(** ** The bytes view *)

Lemma bytes_of_length s : Z.of_nat (List.length (bytes_of s)) = Fmt.slen s.
Proof.
  unfold bytes_of, Fmt.slen. rewrite length_map. f_equal.
  induction s as [|a s IH]; cbn; [reflexivity|now rewrite IH].
Qed.

Lemma combo_find_agrees chain vchain fg bg attrs :
  Forall2 entry_agrees chain vchain ->
  match combo_find chain fg bg attrs,
        AttrSeq.combo_find vchain fg bg attrs with
  | Some e, Some v => entry_agrees e v
  | None, None => True
  | _, _ => False
  end.
Proof.
  induction 1 as [|e v chain vchain A F IH]; cbn; [trivial|].
  destruct A as (A1 & A2 & A3 & A4 & A5).
  rewrite <- A1, <- A2, <- A3.
  destruct ((e_fg e =? fg) && (e_bg e =? bg) && (e_attrs e =? attrs)).
  - now repeat split.
  - exact IH.
Qed.

(** [AttrSeq.get_cached_attr_sequence] is the bytes view of the lookup:
    whenever the call returns, it gives the bytes at the pointer, the
    length, and the bytes view of the cache left behind. *)
Lemma get_cached_bytes_view defs c v fg bg attrs r c' :
  agrees c v ->
  get_cached_attr_sequence defs c fg bg attrs = Some (r, c') ->
  agrees c' (snd (AttrSeq.get_cached_attr_sequence defs v fg bg attrs)) /\
  match r, fst (AttrSeq.get_cached_attr_sequence defs v fg bg attrs) with
  | Some (p, n), Some (sq, m) => bytes_at p = bytes_of sq /\ n = m
  | None, None => True
  | _, _ => False
  end.
Proof.
  intros G. pose proof G as (G1 & G2 & G3 & G4).
  unfold get_cached_attr_sequence, AttrSeq.get_cached_attr_sequence.
  rewrite <- G1.
  destruct (initialized (interns c)) eqn:I; cbn [negb].
  2:{ intros [= <- <-]. cbn [fst snd]. split; [exact G|trivial]. }
  pose proof (combo_find_agrees _ _ fg bg attrs
                (G4 (AttrSeq.combo_bucket fg bg attrs))) as CF.
  destruct (combo_find _ _ _ _) as [e|];
    destruct (AttrSeq.combo_find _ _ _ _) as [w|]; try contradiction.
  - intros [= <- <-]. cbn [fst snd]. split; [exact G|].
    destruct CF as (_ & _ & _ & A4 & A5). now split.
  - destruct (ESC_SEQ_MAX_LEN <=? _); [discriminate|].
    cbv zeta. intros H.
    match type of H with
    | Some (?a, ?b) = _ =>
        assert (r = a /\ c' = b) as [-> ->] by (split; congruence)
    end.
    clear H. cbn [fst snd].
    rewrite <- G2, <- G3.
    split.
    + pose proof (proj1 (intern_ptr_frame (interns c)
                 (bytes_of (AttrSeq.build_attr_sequence defs fg bg attrs))))
        as FI.
      destruct (attr_combo_pool_used c <? attr_combo_pool_size c);
        unfold agrees;
        cbn [interns attr_combo_table attr_combo_pool_size
             attr_combo_pool_used AttrSeq.initialized
             AttrSeq.attr_combo_table AttrSeq.attr_combo_pool_size
             AttrSeq.attr_combo_pool_used].
      * split; [congruence|]. split; [reflexivity|]. split; [reflexivity|].
        intros k. unfold upd.
        destruct (k =? AttrSeq.combo_bucket fg bg attrs); [|apply G4].
        constructor; [|apply G4].
        unfold entry_agrees.
        cbn [e_fg e_bg e_attrs sequence seq_length AttrSeq.e_fg AttrSeq.e_bg
             AttrSeq.e_attrs AttrSeq.sequence AttrSeq.seq_length].
        repeat split.
        -- apply intern_ptr_same.
        -- apply bytes_of_length.
      * rewrite <- G2, <- G3.
        split; [congruence|]. split; [reflexivity|]. split; [reflexivity|].
        exact G4.
    + split; [apply intern_ptr_same|apply bytes_of_length].
Qed.

Lemma prepopulate_agrees defs l :
  forall c v c',
    agrees c v ->
    ofold (fun c '(fg, bg, attrs) =>
             r <- get_cached_attr_sequence defs c fg bg attrs ;;
             Some (snd r)) l c = Some c' ->
    agrees c'
      (fold_left
         (fun v '(fg, bg, attrs) =>
            snd (AttrSeq.get_cached_attr_sequence defs v fg bg attrs)) l v).
Proof.
  induction l as [|[[fg bg] attrs] tl IH]; intros c v c' G H.
  - cbn in H. inversion H; subst. exact G.
  - cbn [ofold] in H.
    destruct (get_cached_attr_sequence defs c fg bg attrs) as [[r c1]|] eqn:E;
      [|discriminate].
    cbn [obind snd] in H. cbn [fold_left].
    apply (IH c1); [|exact H].
    now apply (get_cached_bytes_view defs c v fg bg attrs r c1).
Qed.

(** The cache [AttrSeq.init_esc_seq_cache] gives is the bytes view of
    the cache [init_esc_seq_cache] leaves. *)
Lemma init_esc_seq_cache_agrees defs c :
  init_esc_seq_cache defs = Some c ->
  agrees c (AttrSeq.init_esc_seq_cache defs).
Proof.
  unfold init_esc_seq_cache, AttrSeq.init_esc_seq_cache. cbv zeta.
  apply prepopulate_agrees.
  destruct precached_interns as (I & _).
  unfold agrees. cbn [interns attr_combo_table attr_combo_pool_size
                      attr_combo_pool_used].
  split; [exact I|]. split; [reflexivity|]. split; [reflexivity|].
  intros k. constructor.
Qed.

End SeqPtrFacts.

(** * The sequences a refresh emits for its runs *)

Module PenFacts.
Import Engine EngineFacts Pen.

(** ** Walks over a trace *)

Lemma count_cons p e l :
  count p (e :: l) = (if p e then 1 else 0) + count p l.
Proof.
  unfold count. cbn [filter]. destruct (p e); cbn [List.length]; lia.
Qed.

Lemma moves_needed_app l1 :
  forall p l2,
    moves_needed p (l1 ++ l2)
    = moves_needed p l1 + moves_needed (cursor_after p l1) l2.
Proof.
  induction l1 as [|e l1 IH]; intros p l2; [reflexivity|].
  destruct e; cbn [app moves_needed cursor_after]; rewrite IH; lia.
Qed.

Lemma cursor_after_app l1 :
  forall p l2,
    cursor_after p (l1 ++ l2) = cursor_after (cursor_after p l1) l2.
Proof.
  induction l1 as [|e l1 IH]; intros p l2; [reflexivity|].
  destruct e; cbn [app cursor_after]; apply IH.
Qed.

Lemma changes_needed_app rend l1 :
  forall a l2,
    changes_needed rend a (l1 ++ l2)
    = changes_needed rend a l1
      + changes_needed rend (rendition_after rend a l1) l2.
Proof.
  induction l1 as [|e l1 IH]; intros a l2; [reflexivity|].
  destruct e; cbn [app changes_needed rendition_after]; rewrite IH; lia.
Qed.

Lemma rendition_after_app rend l1 :
  forall a l2,
    rendition_after rend a (l1 ++ l2)
    = rendition_after rend (rendition_after rend a l1) l2.
Proof.
  induction l1 as [|e l1 IH]; intros a l2; [reflexivity|].
  destruct e; cbn [app rendition_after]; apply IH.
Qed.

(** No more positionings are needed than there are runs. *)
Lemma moves_needed_bounds l :
  forall p, 0 <= moves_needed p l <= count is_run l.
Proof.
  induction l as [|e l IH]; intros p.
  - unfold count. cbn. lia.
  - rewrite count_cons.
    destruct e; cbn [moves_needed is_run]; try apply IH.
    specialize (IH (y, end_x + 1)).
    destruct (same_cell p y start_x); lia.
Qed.

Lemma changes_needed_bounds rend l :
  forall a, 0 <= changes_needed rend a l <= count is_run l.
Proof.
  induction l as [|e l IH]; intros a.
  - unfold count. cbn. lia.
  - rewrite count_cons.
    destruct e; cbn [changes_needed is_run]; try apply IH.
    specialize (IH (Some (rend y start_x))).
    destruct (same_rendition a (rend y start_x)); lia.
Qed.

(** ** Cells that wait for the refresh *)

Lemma filter_length_le {A} (p q : A -> bool) l :
  (forall a, q a = true -> p a = true) ->
  (List.length (filter q l) <= List.length (filter p l))%nat.
Proof.
  intros Hq. induction l as [|a l IH]; cbn [filter]; [lia|].
  destruct (q a) eqn:Q.
  - rewrite (Hq a Q). cbn [List.length]. lia.
  - destruct (p a); cbn [List.length]; lia.
Qed.

Lemma filter_length_lt {A} (p q : A -> bool) l a :
  (forall a, q a = true -> p a = true) ->
  In a l -> p a = true -> q a = false ->
  (List.length (filter q l) < List.length (filter p l))%nat.
Proof.
  intros Hq. induction l as [|b l IH]; cbn [In filter]; [intros []|].
  intros [->|I] P Q.
  - rewrite P, Q. cbn [List.length].
    pose proof (filter_length_le p q l Hq). lia.
  - specialize (IH I P Q).
    destruct (q b) eqn:Qb.
    + rewrite (Hq b Qb). cbn [List.length]. lia.
    + destruct (p b); cbn [List.length]; lia.
Qed.

Lemma flat_map_length_le {A B} (f f' : A -> list B) l :
  (forall a, (List.length (f' a) <= List.length (f a))%nat) ->
  (List.length (flat_map f' l) <= List.length (flat_map f l))%nat.
Proof.
  intros Hf. induction l as [|a l IH]; cbn [flat_map]; [lia|].
  rewrite !length_app. specialize (Hf a). lia.
Qed.

Lemma flat_map_length_lt {A B} (f f' : A -> list B) l a :
  (forall a, (List.length (f' a) <= List.length (f a))%nat) ->
  In a l -> (List.length (f' a) < List.length (f a))%nat ->
  (List.length (flat_map f' l) < List.length (flat_map f l))%nat.
Proof.
  intros Hf. induction l as [|b l IH]; cbn [In flat_map]; [intros []|].
  rewrite !length_app.
  intros [->|I] Lt.
  - pose proof (flat_map_length_le f f' l Hf). lia.
  - specialize (IH I Lt). specialize (Hf b). lia.
Qed.

Lemma pending_nonneg g : 0 <= pending g.
Proof. unfold pending. lia. Qed.

(** A cell of the buffer that converges while none diverges takes one
    off the count. *)
Lemma pending_commit g g' y x :
  grid_step g g' -> in_grid g y x = true ->
  differs g y x = true -> differs g' y x = false ->
  pending g' + 1 <= pending g.
Proof.
  intros (_ & R & C & _ & _ & M) I D D'.
  unfold in_grid in I.
  apply andb_true_iff in I as [I Ix]. apply andb_true_iff in I as [I Ix0].
  apply andb_true_iff in I as [Iy0 Iy].
  apply Z.leb_le in Iy0, Ix0. apply Z.ltb_lt in Iy, Ix.
  assert (Mono : forall r c, differs g' r c = true -> differs g r c = true).
  { intros r c H. destruct (differs g r c) eqn:E; [reflexivity|].
    rewrite (M r c E) in H. discriminate. }
  unfold pending, differing_cells. rewrite R, C.
  match goal with
  | |- Z.of_nat ?a + 1 <= Z.of_nat ?b => cut ((a < b)%nat); [lia|]
  end.
  apply (flat_map_length_lt _ _ _ y).
  - intros r. rewrite !length_map. apply filter_length_le. apply Mono.
  - apply in_zrange. lia.
  - rewrite !length_map. apply (filter_length_lt _ _ _ x).
    + apply Mono.
    + apply in_zrange. lia.
    + exact D.
    + exact D'.
Qed.

Lemma pending_step g g' : grid_step g g' -> pending g' <= pending g.
Proof.
  intros (_ & R & C & _ & _ & M).
  unfold pending, differing_cells. rewrite R, C.
  apply inj_le. apply flat_map_length_le.
  intros r. rewrite !length_map. apply filter_length_le.
  intros c H. destruct (differs g r c) eqn:E; [reflexivity|].
  rewrite (M r c E) in H. discriminate.
Qed.

(** ** The preorder *)

Lemma rendition_ext s s' a :
  colors_initialized s' = colors_initialized s ->
  color_pair_cache s' = color_pair_cache s ->
  rendition s' a = rendition s a.
Proof. unfold rendition. now intros -> ->. Qed.

Lemma run_rendition_ext s s' :
  attr_buf (grid s') = attr_buf (grid s) ->
  colors_initialized s' = colors_initialized s ->
  color_pair_cache s' = color_pair_cache s ->
  run_rendition s' = run_rendition s.
Proof. unfold run_rendition, rendition. now intros -> -> ->. Qed.

Lemma pen_step_refl s : pen_step s s.
Proof.
  unfold pen_step. split; [apply grid_step_refl|].
  split; [reflexivity|]. split; [reflexivity|].
  exists []. split; [now rewrite app_nil_r|].
  unfold count. cbn. repeat split; lia.
Qed.

Lemma pen_step_trans s1 s2 s3 :
  pen_step s1 s2 -> pen_step s2 s3 -> pen_step s1 s3.
Proof.
  unfold pen_step.
  intros (A1 & A2 & A3 & n1 & A4 & A5 & A6 & A7 & A8 & A9)
         (B1 & B2 & B3 & n2 & B4 & B5 & B6 & B7 & B8 & B9).
  assert (RR : run_rendition s2 = run_rendition s1).
  { apply run_rendition_ext; [apply A1|assumption|assumption]. }
  split; [now apply (grid_step_trans _ (grid s2))|].
  split; [congruence|]. split; [congruence|].
  exists (n1 ++ n2).
  rewrite !count_app, moves_needed_app, cursor_after_app, changes_needed_app,
    rendition_after_app.
  rewrite RR in B6, B8. rewrite <- A7, <- A8, <- B7, <- B8.
  split; [rewrite B4, A4; now rewrite app_assoc|].
  split; [lia|]. split; [lia|]. split; [reflexivity|].
  split; [reflexivity|lia].
Qed.

(** ** The three steps of a run *)

Lemma tui_move_cached_pen s row col :
  let s' := tui_move_cached s row col in
  grid s' = grid s /\ attr_state s' = attr_state s /\
  colors_initialized s' = colors_initialized s /\
  color_pair_cache s' = color_pair_cache s /\
  cursor_on_record s' = (row, col) /\
  exists pre,
    out s' = out s ++ pre /\
    ((same_cell (cursor_on_record s) row col = true /\ pre = []) \/
     (same_cell (cursor_on_record s) row col = false /\
      exists seq, pre = [ECursor seq])).
Proof.
  cbv zeta. unfold tui_move_cached, same_cell, cursor_on_record.
  cbn [fst snd].
  destruct ((row =? last_row (cursor_cache s))
            && (col =? last_col (cursor_cache s))) eqn:E.
  - apply andb_true_iff in E as [E1 E2]. apply Z.eqb_eq in E1, E2.
    repeat split; try congruence.
    exists []. split; [now rewrite app_nil_r|]. now left.
  - match goal with
    | |- context [match ?x with Some _ => _ | None => _ end] => destruct x
    end.
    + repeat split. eexists. split; [reflexivity|]. right.
      split; [reflexivity|]. eexists. reflexivity.
    + match goal with
      | |- context [if ?b then _ else _] => destruct b
      end; repeat split; eexists; (split; [reflexivity|]); right;
        (split; [reflexivity|]); eexists; reflexivity.
Qed.

Lemma same_rendition_test st fg bg attrs :
  same_rendition (on_record st) (fg, bg, attrs)
  = as_initialized st && (last_fg st =? fg) && (last_bg st =? bg)
    && (last_attrs st =? attrs).
Proof.
  unfold same_rendition, on_record. destruct (as_initialized st); reflexivity.
Qed.

Lemma apply_attributes_pen s a s' :
  apply_attributes s a = Some s' ->
  grid s' = grid s /\ cursor_cache s' = cursor_cache s /\
  colors_initialized s' = colors_initialized s /\
  color_pair_cache s' = color_pair_cache s /\
  on_record (attr_state s') = Some (rendition s a) /\
  exists pre,
    out s' = out s ++ pre /\
    ((same_rendition (on_record (attr_state s)) (rendition s a) = true
      /\ pre = []) \/
     (same_rendition (on_record (attr_state s)) (rendition s a) = false
      /\ exists seq, pre = [EAttr seq])).
Proof.
  unfold apply_attributes, rendition.
  match goal with
  | |- context [let '(_, _) := ?x in _] => destruct x as [fg bg]
  end.
  rewrite same_rendition_test.
  destruct (as_initialized (attr_state s) && (last_fg (attr_state s) =? fg)
            && (last_bg (attr_state s) =? bg)
            && (last_attrs (attr_state s) =? _)) eqn:T.
  - intros H. inversion H; subst s'. clear H.
    apply andb_true_iff in T as [T T4]. apply andb_true_iff in T as [T T3].
    apply andb_true_iff in T as [T1 T2].
    apply Z.eqb_eq in T2, T3, T4.
    repeat split.
    + unfold on_record. rewrite T1, T2, T3, T4. reflexivity.
    + exists []. split; [now rewrite app_nil_r|]. now left.
  - destruct (AttrSeq.get_cached_attr_sequence _ _ _ _ _) as [cached cache'].
    intros H. bind_inv H. inversion H; subst s'. clear H.
    repeat split. eexists. split; [reflexivity|]. right.
    split; [reflexivity|]. eexists. reflexivity.
Qed.

Lemma output_buffered_run_pen s y start_x end_x s' :
  last_col (cursor_cache s) = start_x ->
  output_buffered_run s y start_x end_x = Some s' ->
  attr_state s' = attr_state s /\
  colors_initialized s' = colors_initialized s /\
  color_pair_cache s' = color_pair_cache s /\
  last_row (cursor_cache s') = last_row (cursor_cache s).
Proof.
  intros L. unfold output_buffered_run.
  rewrite L, Z.eqb_refl, andb_false_r.
  intros H. bind_inv H. inversion H; subst s'. clear H.
  now repeat split.
Qed.

Lemma attr_at_some g y x a : attr_at g y x = Some a -> a = attr_buf g y x.
Proof.
  unfold attr_at. destruct (in_grid g y x); [|discriminate].
  now intros [= <-].
Qed.

(** A rendered run: a positioning exactly when the cursor is not on the
    start of the run, a rendition sequence exactly when the rendition of
    the run is not the one on record, then the run, which takes at least
    its first cell off the cells that wait. *)
Lemma render_run_pen s y x e a s' :
  cell_changed (grid s) y x = Some true ->
  attr_at (grid s) y x = Some a -> x <= e ->
  render_run s y x e a = Some s' -> pen_step s s'.
Proof.
  intros CC AA Le H.
  destruct (render_run_spec _ _ _ _ _ _ H) as [(G & _) RC].
  unfold render_run in H. bind_inv H. bind_inv H.
  inversion H; subst s'. clear H.
  rename e0 into s2, e1 into s3, E into EA, E0 into EO.
  destruct (tui_move_cached_pen s y x)
    as (M1 & M2 & M3 & M4 & M5 & pre1 & M6 & M7).
  destruct (apply_attributes_pen _ _ _ EA)
    as (A1 & A2 & A3 & A4 & A5 & pre2 & A6 & A7).
  assert (L : last_col (cursor_cache s2) = x).
  { rewrite A2. unfold cursor_on_record in M5. congruence. }
  destruct (output_buffered_run_pen _ _ _ _ _ L EO) as (O1 & O2 & O3 & O4).
  destruct (output_buffered_run_spec _ _ _ _ _ L EO)
    as (_ & _ & _ & _ & _ & _ & chars & O7).
  assert (Ra : rendition (tui_move_cached s y x) a = run_rendition s y x).
  { unfold run_rendition. rewrite <- (attr_at_some _ _ _ _ AA).
    now apply rendition_ext. }
  rewrite Ra in A5, A7. rewrite M2 in A7.
  assert (In_g : in_grid (grid s) y x = true).
  { unfold cell_changed in CC. destruct (in_grid (grid s) y x);
      [reflexivity|discriminate]. }
  assert (D : differs (grid s) y x = true).
  { unfold cell_changed in CC. rewrite In_g in CC. congruence. }
  unfold pen_step, set_last_col.
  cbn [grid colors_initialized color_pair_cache out attr_state cursor_cache
       with_cursor_cache last_row last_col cc_initialized] in *.
  split; [exact G|]. split; [congruence|]. split; [congruence|].
  exists (pre1 ++ pre2 ++ [ERun y x e chars]).
  split; [rewrite O7, A6, M6; now rewrite <- !app_assoc|].
  assert (P : 1 + pending (grid s3) <= pending (grid s)).
  { pose proof (pending_commit (grid s) (grid s3) y x G In_g D) as P.
    cbn [grid] in RC. rewrite Z.add_comm. apply P. apply RC. lia. }
  assert (Cur : cursor_on_record
                  (with_cursor_cache
                     (mk_cursor (cc_initialized (cursor_cache s3))
                                (last_row (cursor_cache s3)) (e + 1)) s3)
                = (y, e + 1)).
  { unfold cursor_on_record. cbn. rewrite O4, A2.
    unfold cursor_on_record in M5. congruence. }
  unfold cursor_on_record at 2. cbn [cursor_cache with_cursor_cache last_row
                                      last_col].
  rewrite O1, A5.
  destruct M7 as [[Sc ->]|[Sc [sq ->]]], A7 as [[Sr ->]|[Sr [sq' ->]]];
    unfold count;
    cbn [app filter is_cursor is_attr is_run List.length moves_needed
         changes_needed cursor_after rendition_after];
    rewrite Sc, Sr; unfold cursor_on_record in M5;
    repeat split; try reflexivity; try lia; try congruence.
Qed.

(** ** The scanners *)

(** Every scanner changes the engine through rendered runs only, each
    for a changed cell of the buffer with the attribute of that cell:
    a preorder that such runs respect is respected by the scan. *)
Section Scanners.

Variable R : engine -> engine -> Prop.
Hypothesis R_refl : forall s, R s s.
Hypothesis R_trans : forall s1 s2 s3, R s1 s2 -> R s2 s3 -> R s1 s3.
Hypothesis R_run :
  forall s y x e a s',
    cell_changed (grid s) y x = Some true ->
    attr_at (grid s) y x = Some a -> x <= e ->
    render_run s y x e a = Some s' -> R s s'.

Lemma ofold_rel {A} (f : scan_state -> A -> option scan_state) l :
  (forall a s1 s2, f s1 a = Some s2 -> R (fst s1) (fst s2)) ->
  forall st st', ofold f l st = Some st' -> R (fst st) (fst st').
Proof.
  intros Hf. induction l as [|a l IH]; intros st st' H; cbn [ofold] in H.
  - inversion H; subst. apply R_refl.
  - bind_inv H. apply (R_trans _ (fst s)); [now apply (Hf a)|now apply IH].
Qed.

Lemma scan_tile_row_rel fuel y end_col smc :
  forall x st st',
    scan_tile_row fuel y x end_col smc st = Some st' ->
    R (fst st) (fst st').
Proof.
  induction fuel as [|f IH]; intros x st st' H; cbn [scan_tile_row] in H.
  - inversion H; subst. apply R_refl.
  - destruct (x <? end_col); [|inversion H; subst; apply R_refl].
    destruct (cell_changed (grid (fst st)) y x) as [[|]|] eqn:CC;
      cbn [obind] in H; [| |discriminate].
    + destruct (attr_at (grid (fst st)) y x) as [a|] eqn:AA;
        cbn [obind] in H; [|discriminate].
      destruct (tile_run_end _ _ _ _ _ _ _) as [e|] eqn:TE;
        cbn [obind] in H; [|discriminate].
      destruct (render_run _ _ _ _ _) as [s1|] eqn:RR;
        cbn [obind] in H; [|discriminate].
      apply tile_run_end_ge in TE.
      apply (R_trans _ s1).
      * now apply (R_run _ y x e a).
      * apply (IH _ _ _ H).
    + apply (IH _ _ _ H).
Qed.

Lemma scan_l1_tile_rel st tr tc mr xr mc xc st' :
  scan_l1_tile st tr tc mr xr mc xc = Some st' -> R (fst st) (fst st').
Proof.
  unfold scan_l1_tile.
  destruct (tile_rows (fst st) tr mr xr) as [start_row end_row].
  destruct (tile_cols (fst st) tc mc xc) as [start_col end_col].
  apply ofold_rel. intros y s1 s2. apply scan_tile_row_rel.
Qed.

Lemma scan_linear_row_rel fuel y xc :
  forall x st st',
    scan_linear_row fuel y x xc st = Some st' -> R (fst st) (fst st').
Proof.
  induction fuel as [|f IH]; intros x st st' H; cbn [scan_linear_row] in H.
  - inversion H; subst. apply R_refl.
  - cbv zeta in H.
    destruct ((x <=? xc) && (x <? buf_cols (grid (fst st)))
              && (x <? tui_cols (fst st)));
      [|inversion H; subst; apply R_refl].
    destruct (cell_changed (grid (fst st)) y x) as [[|]|] eqn:CC;
      cbn [obind] in H; [| |discriminate].
    + destruct (attr_at (grid (fst st)) y x) as [a|] eqn:AA;
        cbn [obind] in H; [|discriminate].
      destruct (linear_run_end _ _ _ _ _ _ _) as [e|] eqn:LE;
        cbn [obind] in H; [|discriminate].
      destruct (trim_run _ _ _ _ _) as [end_x|] eqn:TR;
        cbn [obind] in H; [|discriminate].
      destruct (render_run _ _ _ _ _) as [s1|] eqn:RR;
        cbn [obind] in H; [|discriminate].
      apply linear_run_end_ge in LE.
      apply trim_run_bounds in TR; [|assumption].
      apply (R_trans _ s1).
      * apply (R_run _ y x end_x a); [assumption|assumption|lia|assumption].
      * apply (IH _ _ _ H).
    + apply (IH _ _ _ H).
Qed.

Lemma scan_rel u st mr xr mc xc st' :
  scan u st mr xr mc xc = Some st' -> R (fst st) (fst st').
Proof.
  unfold scan. destruct u.
  - unfold scan_sparse. apply ofold_rel. intros t s1 s2.
    destruct (intersects _ _ _ _ _ _ _);
      [apply scan_l1_tile_rel|intros [= <-]; apply R_refl].
  - destruct (Dirty.use_hierarchical_tiles _).
    + destruct (Dirty.use_sparse_tracking _).
      * unfold scan_hier_sparse. cbv zeta.
        apply ofold_rel. intros b s1 s2.
        destruct (intersects _ _ _ _ _ _ _);
          [|intros [= <-]; apply R_refl].
        apply ofold_rel. intros t s3 s4.
        destruct (_ && _); [apply scan_l1_tile_rel|intros [= <-]; apply R_refl].
      * unfold scan_hier_dense. cbv zeta.
        apply ofold_rel. intros l2_row s1 s2.
        apply ofold_rel. intros l2_col s3 s4.
        destruct (negb _); [intros [= <-]; apply R_refl|].
        apply ofold_rel. intros l1_row s5 s6.
        apply ofold_rel. intros l1_col s7 s8.
        destruct (negb _); [intros [= <-]; apply R_refl|].
        apply scan_l1_tile_rel.
    + unfold scan_linear. apply ofold_rel. intros y s1 s2 F.
      cbv zeta in F. bind_inv F. destruct b.
      * now apply scan_linear_row_rel in F.
      * inversion F; subst. apply R_refl.
Qed.

End Scanners.

Lemma scan_pen u st mr xr mc xc st' :
  scan u st mr xr mc xc = Some st' -> pen_step (fst st) (fst st').
Proof.
  apply (scan_rel pen_step pen_step_refl pen_step_trans render_run_pen).
Qed.

(** ** The refresh *)

Lemma optimize_dirty_region_pen s s1 :
  optimize_dirty_region s = Some s1 ->
  cursor_cache s1 = cursor_cache s /\ attr_state s1 = attr_state s /\
  colors_initialized s1 = colors_initialized s /\
  color_pair_cache s1 = color_pair_cache s.
Proof.
  unfold optimize_dirty_region. cbv zeta.
  destruct (negb _).
  - intros [= <-]. now repeat split.
  - intros H. bind_inv H. bind_inv H.
    destruct (_ || _).
    + inversion H; subst s1. now repeat split.
    + bind_inv H. bind_inv H. inversion H; subst s1.
      destruct (_ || _); now repeat split.
Qed.

(** What a refresh that returned 0 has emitted. *)
Lemma tui_refresh_pen s s' :
  tui_refresh s = Some (0, s') ->
  exists new,
    out s' = out s ++ new /\
    count is_cursor new = moves_needed (cursor_on_record s) new /\
    count is_attr new
    = changes_needed (run_rendition s) (on_record (attr_state s)) new /\
    count is_run new <= pending (grid s).
Proof.
  intros H. pose proof (tui_refresh_zero _ _ H) as A.
  destruct (Dirty.has_changes (dirty_region s)) eqn:HC.
  - destruct (tui_refresh_steps _ _ _ H HC A)
      as (s1 & mr & xr & mc & xc & d & u & st & O & B & CS & SC & _ & ->).
    destruct (finish_refresh_spec st) as (_ & _ & tl & E & T1 & T2 & T3).
    apply scan_pen in SC.
    destruct SC as (_ & _ & _ & new & N1 & N2 & N3 & _ & _ & N6).
    destruct (optimize_dirty_region_frame _ _ O) as (F1 & _ & _ & F4 & _).
    destruct (optimize_dirty_region_pen _ _ O) as (P1 & P2 & P3 & P4).
    assert (RR : run_rendition s1 = run_rendition s).
    { apply run_rendition_ext; congruence. }
    cbn [fst] in N1, N2, N3, N6.
    unfold cursor_on_record in N2.
    change (run_rendition (with_dirty_region d
                             (with_auto_flush_enabled false s1)))
      with (run_rendition s1) in N3.
    cbn [grid out cursor_cache attr_state with_dirty_region
         with_auto_flush_enabled] in N1, N2, N3, N6.
    rewrite P1 in N2. rewrite RR, P2 in N3. rewrite F1 in N6. rewrite F4 in N1.
    exists (new ++ tl).
    rewrite !count_app, moves_needed_app, changes_needed_app.
    pose proof (moves_needed_bounds tl
                  (cursor_after (cursor_on_record s) new)) as Bm.
    pose proof (changes_needed_bounds (run_rendition s) tl
                  (rendition_after (run_rendition s)
                     (on_record (attr_state s)) new)) as Bc.
    pose proof (pending_nonneg (grid (fst st))) as Pn.
    unfold cursor_on_record.
    split; [rewrite E, N1; now rewrite app_assoc|].
    unfold cursor_on_record in Bm.
    repeat split; lia.
  - unfold tui_refresh in H. rewrite A in H. cbn in H. rewrite HC in H.
    cbn in H. inversion H; subst. cbn. exists [].
    split; [now rewrite app_nil_r|].
    pose proof (pending_nonneg (grid s)). unfold count. cbn.
    repeat split; lia.
Qed.

(** C3, amended.  A refresh of the primary window that returns 0 emits
    a cursor positioning exactly for the runs that do not start where
    the cursor is (the position on record for the first run, the cell
    behind the run before for the others), and a rendition sequence
    exactly for the runs whose rendition is not the one in force (the
    rendition on record, if any, for the first run, the rendition of
    the run before for the others).  So neither count exceeds the number
    of runs, and the runs are no more than the cells that differ. *)
Theorem refresh_emits_on_change (s s' : engine) :
  tui_refresh s = Some (0, s') ->
  exists new,
    out s' = out s ++ new /\
    count is_cursor new = moves_needed (cursor_on_record s) new /\
    count is_attr new
    = changes_needed (run_rendition s) (on_record (attr_state s)) new /\
    count is_cursor new <= count is_run new /\
    count is_attr new <= count is_run new /\
    count is_run new <= pending (grid s).
Proof.
  intros H.
  destruct (tui_refresh_pen s s' H) as (new & E & C1 & C2 & C3).
  exists new. split; [exact E|]. split; [exact C1|]. split; [exact C2|].
  pose proof (moves_needed_bounds new (cursor_on_record s)).
  pose proof (changes_needed_bounds (run_rendition s) new
                (on_record (attr_state s))).
  repeat split; lia.
Qed.

Lemma refresh_emits_on_change_witness :
  exists new,
    out (refreshed three_cells) = out three_cells ++ new /\
    count is_cursor new = moves_needed (cursor_on_record three_cells) new /\
    count is_attr new
    = changes_needed (run_rendition three_cells)
        (on_record (attr_state three_cells)) new /\
    count is_cursor new <= count is_run new /\
    count is_attr new <= count is_run new /\
    count is_run new <= pending (grid three_cells).
Proof.
  apply (refresh_emits_on_change three_cells (refreshed three_cells)).
  apply RefreshFacts.refreshed_zero. vm_compute. reflexivity.
Defined.

(** What is saved on the two screens of [RefreshFacts]: the three
    adjacent cells are rendered as three runs with one positioning, and
    the line rewritten in one attribute as ten runs with one rendition
    sequence. *)
Lemma refresh_saves_sequences :
  (pending (grid three_cells) = 3 /\
   count is_run (emitted three_cells) = 3 /\
   count is_cursor (emitted three_cells) = 1) /\
  (pending (grid full_row) = 80 /\
   count is_run (emitted full_row) = 10 /\
   count is_attr (emitted full_row) = 1).
Proof. vm_compute. repeat split; reflexivity. Qed.

End PenFacts.
